(** * Detailed-placement legalization manager (dpo::DetailedMgr)

    A shallow embedding of the segment builder, the cell/segment
    bookkeeping and the move/swap engine of [DetailedMgr], together with
    the properties of the specification that concern them.

    Conventions of the embedding.
    - C++ [int] values are mathematical integers ([Z]); container sizes
      and indices that the code keeps non-negative are [nat].
    - A [double] that only ever holds an integer (blockage bounds,
      utilization, costs) is a [Z]; [std::numeric_limits<double>::max()]
      is the extra value [None] of [option Z].
    - [Node*] and [DetailedSeg*] are indices into the node store
      [m_network] and the segment store [m_segments]; a node's id is its
      index in the network ([Network::getNode(i)->getId() == i]).
    - [internalError] ends the process: it is the outcome [Fatal].
      Indexing a vector out of range has no defined behaviour: it is the
      outcome [Undefined]. *)

From Stdlib Require Import ZArith Lia String.
From stdpp Require Import base option list.

Local Open Scope Z_scope.

(* ===================================================================== *)
(** ** Data model *)
(* ===================================================================== *)

(** Modelled from the spec: class [Node] (its header is not part of the
    sources), through the getters that the manager calls.  Geometry is
    integral; the right and top edges are the left and bottom ones plus
    the width and the height. *)
Record Node : Type := mkNode {
  getLeft : Z;
  getBottom : Z;
  getWidth : Z;
  getHeight : Z;
  getOrigLeft : Z;
  getOrigBottom : Z;
  getRegionId : Z
}.

Definition getRight (nd : Node) : Z := getLeft nd + getWidth nd.
Definition getTop (nd : Node) : Z := getBottom nd + getHeight nd.

Definition setLeft (x : Z) (nd : Node) : Node :=
  mkNode x (getBottom nd) (getWidth nd) (getHeight nd)
         (getOrigLeft nd) (getOrigBottom nd) (getRegionId nd).

Definition setBottom (y : Z) (nd : Node) : Node :=
  mkNode (getLeft nd) y (getWidth nd) (getHeight nd)
         (getOrigLeft nd) (getOrigBottom nd) (getRegionId nd).

(** Modelled from the spec: class [Architecture::Row] (its header is
    not part of the sources), through the getters that the manager
    calls. *)
Record Row : Type := mkRow {
  row_getBottom : Z;
  row_getTop : Z;
  row_getHeight : Z;
  row_getLeft : Z;
  row_getRight : Z;
  row_getSiteSpacing : Z;
  row_getSiteWidth : Z
}.

(** Modelled from the spec: the rectangles [Rectangle_i] and [Rectangle]
    (their header is not part of the sources), holding database units. *)
Record Rectangle : Type := mkRect {
  xmin : Z; xmax : Z; ymin : Z; ymax : Z
}.

(** Modelled from the spec: class [Architecture::Region], a fence region
    with an id and its rectangles. *)
Record Region : Type := mkRegion {
  reg_getId : Z;
  reg_getRects : list Rectangle
}.

(** Modelled from the spec: class [Architecture] (its header is not
    part of the sources).  The manager only reads it.  Its queries on
    cells ([getCellSpacing] with a null pointer on either side,
    [getCellHeightInRows], [power_compatible], [find_closest_row]) are
    fields of the record. *)
Record Architecture : Type := mkArch {
  getRows : list Row;
  arch_getMinX : Z;
  arch_getMaxX : Z;
  arch_getMinY : Z;
  arch_getMaxY : Z;
  getRegions : list Region;
  getCellSpacing : option Node -> option Node -> Z;
  getCellHeightInRows : Node -> Z;
  power_compatible : Node -> Row -> bool;
  find_closest_row : Z -> nat
}.

Definition getNumRows (a : Architecture) : nat := length (getRows a).
Definition getNumRegions (a : Architecture) : nat := length (getRegions a).
Definition arch_getWidth (a : Architecture) : Z := arch_getMaxX a - arch_getMinX a.
Definition arch_getHeight (a : Architecture) : Z := arch_getMaxY a - arch_getMinY a.

(** Modelled from the spec: class [RoutingParams] (its header is not part
    of the sources): only the blockage rectangles per layer are read. *)
Record RoutingParams : Type := mkRt {
  m_num_layers : nat;
  m_layerBlockages : list (list Rectangle)
}.

(** Modelled from the spec: class [DetailedSeg] (detailed_segment.h is not
    part of the sources).  A segment is a row-bounded interval
    [[minX, maxX)] tagged with a segment id, a row id, a region id and a
    running utilization; a fresh segment belongs to the default region 0
    and has utilization zero. *)
Record DetailedSeg : Type := mkSeg {
  getSegId : Z;
  getRowId : Z;
  getRegId : Z;
  getMinX : Z;
  getMaxX : Z;
  getUtil : Z
}.

Definition newDetailedSeg : DetailedSeg := mkSeg (-1) (-1) 0 0 0 0.

Definition setSegId (v : Z) (s : DetailedSeg) : DetailedSeg :=
  mkSeg v (getRowId s) (getRegId s) (getMinX s) (getMaxX s) (getUtil s).
Definition setRowId (v : Z) (s : DetailedSeg) : DetailedSeg :=
  mkSeg (getSegId s) v (getRegId s) (getMinX s) (getMaxX s) (getUtil s).
Definition setRegId (v : Z) (s : DetailedSeg) : DetailedSeg :=
  mkSeg (getSegId s) (getRowId s) v (getMinX s) (getMaxX s) (getUtil s).
Definition setMinX (v : Z) (s : DetailedSeg) : DetailedSeg :=
  mkSeg (getSegId s) (getRowId s) (getRegId s) v (getMaxX s) (getUtil s).
Definition setMaxX (v : Z) (s : DetailedSeg) : DetailedSeg :=
  mkSeg (getSegId s) (getRowId s) (getRegId s) (getMinX s) v (getUtil s).
Definition setUtil (v : Z) (s : DetailedSeg) : DetailedSeg :=
  mkSeg (getSegId s) (getRowId s) (getRegId s) (getMinX s) (getMaxX s) v.
Definition addUtil (amt : Z) (s : DetailedSeg) : DetailedSeg :=
  setUtil (getUtil s + amt) s.
Definition remUtil (amt : Z) (s : DetailedSeg) : DetailedSeg :=
  setUtil (getUtil s - amt) s.
Definition seg_getWidth (s : DetailedSeg) : Z := getMaxX s - getMinX s.

(** The staged move list: [m_nMoved] and the parallel arrays the
    constructor sizes to [m_moveLimit]. *)
Record MoveList : Type := mkMoveList {
  m_nMoved : nat;
  m_movedNodes : list nat;
  m_curLeft : list Z;
  m_curBottom : list Z;
  m_newLeft : list Z;
  m_newBottom : list Z;
  m_curSeg : list (list Z);
  m_newSeg : list (list Z)
}.

(** The manager. *)
Record DetailedMgr : Type := mkMgr {
  m_arch : Architecture;
  m_network : list Node;
  m_rt : option RoutingParams;
  m_singleRowHeight : Z;
  m_numSingleHeightRows : nat;
  m_maxDispX : Z;
  m_maxDispY : Z;
  m_fixedCells : list nat;
  m_blockages : list (list (Z * Z));
  m_segments : list DetailedSeg;
  m_segsInRow : list (list nat);
  m_cellsInSeg : list (list nat);
  m_reverseCellToSegs : list (list nat);
  m_moveLimit : nat;
  m_moves : MoveList
}.

Definition set_network (v : list Node) (st : DetailedMgr) : DetailedMgr :=
  mkMgr (m_arch st) v (m_rt st) (m_singleRowHeight st)
        (m_numSingleHeightRows st) (m_maxDispX st) (m_maxDispY st)
        (m_fixedCells st) (m_blockages st) (m_segments st) (m_segsInRow st)
        (m_cellsInSeg st) (m_reverseCellToSegs st) (m_moveLimit st)
        (m_moves st).

Definition set_blockages (v : list (list (Z * Z))) (st : DetailedMgr)
  : DetailedMgr :=
  mkMgr (m_arch st) (m_network st) (m_rt st) (m_singleRowHeight st)
        (m_numSingleHeightRows st) (m_maxDispX st) (m_maxDispY st)
        (m_fixedCells st) v (m_segments st) (m_segsInRow st)
        (m_cellsInSeg st) (m_reverseCellToSegs st) (m_moveLimit st)
        (m_moves st).

Definition set_segments (v : list DetailedSeg) (st : DetailedMgr)
  : DetailedMgr :=
  mkMgr (m_arch st) (m_network st) (m_rt st) (m_singleRowHeight st)
        (m_numSingleHeightRows st) (m_maxDispX st) (m_maxDispY st)
        (m_fixedCells st) (m_blockages st) v (m_segsInRow st)
        (m_cellsInSeg st) (m_reverseCellToSegs st) (m_moveLimit st)
        (m_moves st).

Definition set_segsInRow (v : list (list nat)) (st : DetailedMgr)
  : DetailedMgr :=
  mkMgr (m_arch st) (m_network st) (m_rt st) (m_singleRowHeight st)
        (m_numSingleHeightRows st) (m_maxDispX st) (m_maxDispY st)
        (m_fixedCells st) (m_blockages st) (m_segments st) v
        (m_cellsInSeg st) (m_reverseCellToSegs st) (m_moveLimit st)
        (m_moves st).

Definition set_cellsInSeg (v : list (list nat)) (st : DetailedMgr)
  : DetailedMgr :=
  mkMgr (m_arch st) (m_network st) (m_rt st) (m_singleRowHeight st)
        (m_numSingleHeightRows st) (m_maxDispX st) (m_maxDispY st)
        (m_fixedCells st) (m_blockages st) (m_segments st) (m_segsInRow st)
        v (m_reverseCellToSegs st) (m_moveLimit st) (m_moves st).

Definition set_reverseCellToSegs (v : list (list nat)) (st : DetailedMgr)
  : DetailedMgr :=
  mkMgr (m_arch st) (m_network st) (m_rt st) (m_singleRowHeight st)
        (m_numSingleHeightRows st) (m_maxDispX st) (m_maxDispY st)
        (m_fixedCells st) (m_blockages st) (m_segments st) (m_segsInRow st)
        (m_cellsInSeg st) v (m_moveLimit st) (m_moves st).

Definition set_moves (v : MoveList) (st : DetailedMgr) : DetailedMgr :=
  mkMgr (m_arch st) (m_network st) (m_rt st) (m_singleRowHeight st)
        (m_numSingleHeightRows st) (m_maxDispX st) (m_maxDispY st)
        (m_fixedCells st) (m_blockages st) (m_segments st) (m_segsInRow st)
        (m_cellsInSeg st) (m_reverseCellToSegs st) (m_moveLimit st) v.

(** Everything of the manager except the staged move list: the shared
    legalization state. *)
Record Shared : Type := mkShared {
  sh_network : list Node;
  sh_blockages : list (list (Z * Z));
  sh_segments : list DetailedSeg;
  sh_segsInRow : list (list nat);
  sh_cellsInSeg : list (list nat);
  sh_reverseCellToSegs : list (list nat)
}.

Definition shared (st : DetailedMgr) : Shared :=
  mkShared (m_network st) (m_blockages st) (m_segments st) (m_segsInRow st)
           (m_cellsInSeg st) (m_reverseCellToSegs st).

(* ===================================================================== *)
(** ** Outcomes and the manager monad *)
(* ===================================================================== *)

Inductive Outcome (A : Type) : Type :=
  | Ok (a : A)
  | Fatal (msg : string)
  | Undefined.
Arguments Ok {A} a.
Arguments Fatal {A} msg.
Arguments Undefined {A}.

Definition M (A : Type) : Type := DetailedMgr -> Outcome (A * DetailedMgr).

#[export] Instance M_ret : MRet M := fun A a st => Ok (a, st).
#[export] Instance M_bind : MBind M := fun A B f m st =>
  match m st with
  | Ok (a, st') => f a st'
  | Fatal msg => Fatal msg
  | Undefined => Undefined
  end.

Definition get : M DetailedMgr := fun st => Ok (st, st).
Definition gets {A : Type} (f : DetailedMgr -> A) : M A :=
  fun st => Ok (f st, st).
Definition modify (f : DetailedMgr -> DetailedMgr) : M unit :=
  fun st => Ok (tt, f st).
Definition internalError {A : Type} (msg : string) : M A :=
  fun _ => Fatal msg.
Definition undefined {A : Type} : M A := fun _ => Undefined.

(** Reading through a pointer or an index that must be valid. *)
Definition deref {A : Type} (o : option A) : M A :=
  match o with
  | Some a => mret a
  | None => undefined
  end.

(** [v[i] = x] on a vector. *)
Definition store_at {A : Type} (l : list A) (i : nat) (x : A)
  : option (list A) :=
  if decide (i < length l)%nat then Some (<[i := x]> l) else None.

(** An [int] used as a vector index. *)
Definition index_of (i : Z) : option nat :=
  if decide (0 <= i) then Some (Z.to_nat i) else None.

Definition node (ndi : nat) : M Node :=
  nw ← gets m_network; deref (nw !! ndi).

Definition segment (seg : Z) : M DetailedSeg :=
  sgs ← gets m_segments; i ← deref (index_of seg); deref (sgs !! i).

Definition cellsInSeg (seg : Z) : M (list nat) :=
  cis ← gets m_cellsInSeg; i ← deref (index_of seg); deref (cis !! i).

Definition row (r : Z) : M Row :=
  arch ← gets m_arch; i ← deref (index_of r); deref (getRows arch !! i).

Definition alter_at {A : Type} (f : A -> A) (l : list A) (i : nat)
  : option (list A) :=
  if decide (i < length l)%nat then Some (alter f i l) else None.

(** Conversion of an [int] to [size_t] in a mixed comparison. *)
Definition to_size_t (z : Z) : Z := z mod 2 ^ 64.

(** [std::ceil] and [std::floor] of a double holding an integer. *)
Definition ceil_int (x : Z) : Z := x.
Definition floor_int (x : Z) : Z := x.

Fixpoint forM {A : Type} (l : list A) (f : A -> M unit) : M unit :=
  match l with
  | [] => mret tt
  | a :: l' => f a ≫= fun _ => forM l' f
  end.

Fixpoint foldM {A B : Type} (f : B -> A -> M B) (l : list A) (b : B) : M B :=
  match l with
  | [] => mret b
  | a :: l' => f b a ≫= foldM f l'
  end.

(* ===================================================================== *)
(** ** Construction *)
(* ===================================================================== *)

Definition emptyMoveList (limit : nat) : MoveList :=
  mkMoveList 0 (replicate limit 0%nat) (replicate limit 0) (replicate limit 0)
             (replicate limit 0) (replicate limit 0) (replicate limit [])
             (replicate limit []).

(** [DetailedMgr::DetailedMgr]: the move limit is 10, nothing is staged,
    the reverse map has one empty entry per node. *)
Definition DetailedMgr_new (arch : Architecture) (network : list Node)
    (rt : option RoutingParams) : option DetailedMgr :=
  r0 ← getRows arch !! 0%nat;
  let limit := Z.shiftl (Z.max (arch_getWidth arch) (arch_getHeight arch)) 1 in
  Some (mkMgr arch network rt (row_getHeight r0) (getNumRows arch)
              limit limit [] [] [] [] []
              (replicate (length network) [])
              10 (emptyMoveList 10)).

(** [DetailedMgr::setMaxDisplacement]. *)
Definition setMaxDisplacement (x y : Z) : M unit :=
  st ← get;
  r0 ← deref (getRows (m_arch st) !! 0%nat);
  let limit :=
    Z.shiftl (Z.max (arch_getWidth (m_arch st)) (arch_getHeight (m_arch st))) 1 in
  let dx := if decide (x ≠ 0) then x * row_getHeight r0 else m_maxDispX st in
  let dy := if decide (y ≠ 0) then y * row_getHeight r0 else m_maxDispY st in
  modify (fun st =>
    mkMgr (m_arch st) (m_network st) (m_rt st) (m_singleRowHeight st)
          (m_numSingleHeightRows st) (Z.min dx limit) (Z.min dy limit)
          (m_fixedCells st) (m_blockages st) (m_segments st) (m_segsInRow st)
          (m_cellsInSeg st) (m_reverseCellToSegs st) (m_moveLimit st)
          (m_moves st)).

(* ===================================================================== *)
(** ** The staged move list *)
(* ===================================================================== *)

(** [DetailedMgr::clearMoveList]. *)
Definition clearMoveList : M unit :=
  modify (fun st =>
    let mv := m_moves st in
    set_moves (mkMoveList 0 (m_movedNodes mv) (m_curLeft mv) (m_curBottom mv)
                          (m_newLeft mv) (m_newBottom mv) (m_curSeg mv)
                          (m_newSeg mv)) st).

(** The writes at index [m_nMoved] common to both overloads of
    [addToMoveList], followed by [++m_nMoved]. *)
Definition recordMove (ndi : nat) (curLeft curBottom : Z) (curSegs : list Z)
    (newLeft newBottom : Z) (newSegs : list Z) : M unit :=
  st ← get;
  let mv := m_moves st in
  let n := m_nMoved mv in
  a1 ← deref (store_at (m_movedNodes mv) n ndi);
  a2 ← deref (store_at (m_curLeft mv) n curLeft);
  a3 ← deref (store_at (m_curBottom mv) n curBottom);
  a4 ← deref (store_at (m_curSeg mv) n curSegs);
  a5 ← deref (store_at (m_newLeft mv) n newLeft);
  a6 ← deref (store_at (m_newBottom mv) n newBottom);
  a7 ← deref (store_at (m_newSeg mv) n newSegs);
  modify (set_moves (mkMoveList (S n) a1 a2 a3 a5 a6 a4 a7)).

(** [DetailedMgr::addToMoveList], single-segment overload. *)
Definition addToMoveList (ndi : nat) (curLeft curBottom curSeg
    newLeft newBottom newSeg : Z) : M bool :=
  st ← get;
  if decide (m_moveLimit st ≤ m_nMoved (m_moves st))%nat then mret false
  else
    nd ← node ndi;
    let dy := Z.abs (newBottom - getOrigBottom nd) in
    let dx := Z.abs (newLeft - getOrigLeft nd) in
    if decide (ceil_int dx > m_maxDispX st ∨ ceil_int dy > m_maxDispY st)
    then mret false
    else
      recordMove ndi curLeft curBottom [curSeg] newLeft newBottom [newSeg];;
      mret true.

(** [DetailedMgr::addToMoveList], multi-segment overload. *)
Definition addToMoveList_segs (ndi : nat) (curLeft curBottom : Z)
    (curSegs : list Z) (newLeft newBottom : Z) (newSegs : list Z) : M bool :=
  st ← get;
  if decide (m_moveLimit st ≤ m_nMoved (m_moves st))%nat then mret false
  else
    recordMove ndi curLeft curBottom curSegs newLeft newBottom newSegs;;
    mret true.

(** [DetailedMgr::rejectMove]. *)
Definition rejectMove : M unit := clearMoveList.

(** One staged entry, and the staged list: the first [m_nMoved] entries
    of the parallel arrays. *)
Record Move : Type := mkMove {
  mv_node : nat;
  mv_curLeft : Z;
  mv_curBottom : Z;
  mv_curSeg : list Z;
  mv_newLeft : Z;
  mv_newBottom : Z;
  mv_newSeg : list Z
}.

Definition moveAt (mv : MoveList) (i : nat) : option Move :=
  a1 ← m_movedNodes mv !! i;
  a2 ← m_curLeft mv !! i;
  a3 ← m_curBottom mv !! i;
  a4 ← m_curSeg mv !! i;
  a5 ← m_newLeft mv !! i;
  a6 ← m_newBottom mv !! i;
  a7 ← m_newSeg mv !! i;
  Some (mkMove a1 a2 a3 a4 a5 a6 a7).

Definition staged (st : DetailedMgr) : list (option Move) :=
  moveAt (m_moves st) <$> seq 0 (m_nMoved (m_moves st)).

(* ===================================================================== *)
(** ** Cells in segments *)
(* ===================================================================== *)

(** Twice the x-center [getLeft() + 0.5 * getWidth()] of a node. *)
Definition center2 (nd : Node) : Z := 2 * getLeft nd + getWidth nd.

(** Modelled from the spec: [compareNodesX] (detailed_manager.h is not
    part of the sources) orders cells by x-center; against a value [x]
    it tests [center < x].  [lower_bound] is [std::lower_bound] on a list
    sorted by that key: the position of the first cell whose center is
    not less than [x]; keys and [x] are doubled. *)
Fixpoint lower_bound (keys : list Z) (x2 : Z) : nat :=
  match keys with
  | [] => 0%nat
  | k :: ks => if decide (k < x2) then S (lower_bound ks x2) else 0%nat
  end.

Definition centersOf (cells : list nat) : M (list Z) :=
  nw ← gets m_network;
  deref (mapM (fun i => center2 <$> nw !! i) cells).

Definition reverseCellToSegs (ndi : nat) : M (list nat) :=
  rv ← gets m_reverseCellToSegs; deref (rv !! ndi).

(** [DetailedMgr::addCellToSegment]. *)
Definition addCellToSegment (ndi : nat) (seg : Z) : M unit :=
  nd ← node ndi;
  cells ← cellsInSeg seg;
  s ← deref (index_of seg);
  let x2 := center2 nd in
  let width := ceil_int (getWidth nd) in
  keys ← centersOf cells;
  let it := lower_bound keys x2 in
  st ← get;
  cis ← deref (store_at (m_cellsInSeg st) s (take it cells ++ ndi :: drop it cells));
  sgs ← deref (alter_at (addUtil width) (m_segments st) s);
  modify (fun st => set_segments sgs (set_cellsInSeg cis st));;
  rev ← reverseCellToSegs ndi;
  if decide (s ∈ rev)
  then internalError "Segment already present in cell to segment map"
  else
    let spanned := getCellHeightInRows (m_arch st) nd in
    if decide (Z.of_nat (length rev) >= to_size_t spanned)
    then internalError "Cell to segment map incorrectly sized"
    else
      st ← get;
      rv ← deref (store_at (m_reverseCellToSegs st) ndi (rev ++ [s]));
      modify (set_reverseCellToSegs rv).

(** [DetailedMgr::removeCellFromSegment]. *)
Definition removeCellFromSegment (ndi : nat) (seg : Z) : M unit :=
  nd ← node ndi;
  let width := ceil_int (getWidth nd) in
  cells ← cellsInSeg seg;
  s ← deref (index_of seg);
  match list_find (fun c => c = ndi) cells with
  | None => internalError "Cell not found in expected segment"
  | Some (it, _) =>
    rev ← reverseCellToSegs ndi;
    st ← get;
    _ ← deref (m_segments st !! s);
    match list_find (fun p => p = s) rev with
    | None => internalError "Cannot find segment for cell"
    | Some (its, _) =>
      rv ← deref (store_at (m_reverseCellToSegs st) ndi (delete its rev));
      cis ← deref (store_at (m_cellsInSeg st) s (delete it cells));
      sgs ← deref (alter_at (remUtil width) (m_segments st) s);
      modify (fun st =>
        set_segments sgs (set_cellsInSeg cis (set_reverseCellToSegs rv st)))
    end
  end.

(** [nd->setLeft(x); nd->setBottom(y)] through the pointer. *)
Definition setPosition (ndi : nat) (x y : Z) : M unit :=
  st ← get;
  nw ← deref (alter_at (fun nd => setBottom y (setLeft x nd)) (m_network st) ndi);
  modify (set_network nw).

(** [DetailedMgr::acceptMove]. *)
Definition acceptMove : M unit :=
  st ← get;
  forM (seq 0 (m_nMoved (m_moves st))) (fun i =>
    let mv := m_moves st in
    ndi ← deref (m_movedNodes mv !! i);
    cur ← deref (m_curSeg mv !! i);
    forM cur (fun s => removeCellFromSegment ndi s);;
    x ← deref (m_newLeft mv !! i);
    y ← deref (m_newBottom mv !! i);
    setPosition ndi x y;;
    new ← deref (m_newSeg mv !! i);
    forM new (fun s => addCellToSegment ndi s)).

(** [std::stable_sort] with [compareNodesX] on (key, cell) pairs. *)
Fixpoint insert_by_key (x : Z * nat) (l : list (Z * nat)) : list (Z * nat) :=
  match l with
  | [] => [x]
  | y :: ys => if decide (fst y < fst x) then y :: insert_by_key x ys
               else x :: y :: ys
  end.

Definition stable_sort_by_key (l : list (Z * nat)) : list (Z * nat) :=
  foldr insert_by_key [] l.

(** [DetailedMgr::resortSegment]. *)
Definition resortSegment (segPtr : nat) : M unit :=
  st ← get;
  sg ← deref (m_segments st !! segPtr);
  segId ← deref (index_of (getSegId sg));
  cells ← deref (m_cellsInSeg st !! segId);
  keys ← centersOf cells;
  let sorted := snd <$> stable_sort_by_key (zip keys cells) in
  nodes ← deref (mapM (fun i => m_network st !! i) sorted);
  let sg' := foldl (fun s nd => addUtil (ceil_int (getWidth nd)) s)
                   (setUtil 0 sg) nodes in
  cis ← deref (store_at (m_cellsInSeg st) segId sorted);
  sgs ← deref (store_at (m_segments st) segPtr sg');
  modify (fun st => set_segments sgs (set_cellsInSeg cis st)).

(** [DetailedMgr::resortSegments]. *)
Definition resortSegments : M unit :=
  st ← get;
  forM (seq 0 (length (m_segments st))) resortSegment.

(** [DetailedMgr::removeAllCellsFromSegments]. *)
Definition removeAllCellsFromSegments : M unit :=
  st ← get;
  forM (seq 0 (length (m_segments st))) (fun i =>
    st ← get;
    sg ← deref (m_segments st !! i);
    segId ← deref (index_of (getSegId sg));
    cis ← deref (store_at (m_cellsInSeg st) segId []);
    sgs ← deref (alter_at (setUtil 0) (m_segments st) i);
    modify (fun st => set_segments sgs (set_cellsInSeg cis st)));;
  modify (fun st =>
    set_reverseCellToSegs ((fun _ => []) <$> m_reverseCellToSegs st) st).

(* ===================================================================== *)
(** ** Blockages *)
(* ===================================================================== *)

(** Modelled from the spec: [compareBlockages] (detailed_manager.h is not
    part of the sources) orders intervals left to right: by lower end,
    then by upper end. *)
Definition compareBlockages (a b : Z * Z) : bool :=
  if decide (fst a = fst b) then bool_decide (snd a < snd b)
  else bool_decide (fst a < fst b).

(** [std::sort] with [compareBlockages]. *)
Fixpoint insert_blockage (x : Z * Z) (l : list (Z * Z)) : list (Z * Z) :=
  match l with
  | [] => [x]
  | y :: ys => if compareBlockages y x then y :: insert_blockage x ys
               else x :: y :: ys
  end.

Definition sortBlockages (l : list (Z * Z)) : list (Z * Z) :=
  foldr insert_blockage [] l.

(** The stack sweep over the sorted intervals; [top :: s] is the stack. *)
Fixpoint mergeSweep (top : Z * Z) (s : list (Z * Z)) (bs : list (Z * Z))
  : list (Z * Z) :=
  match bs with
  | [] => top :: s
  | b :: bs' =>
    if decide (snd top < fst b) then mergeSweep b (top :: s) bs'
    else
      let top' := if decide (snd top < snd b) then (fst top, snd b) else top in
      mergeSweep top' s bs'
  end.

(** Sort, sweep, pop the stack into the vector, sort again. *)
Definition mergeIntervals (bs : list (Z * Z)) : list (Z * Z) :=
  match sortBlockages bs with
  | [] => bs
  | b0 :: rest => sortBlockages (mergeSweep b0 [] rest)
  end.

Definition pushBlockage (r : nat) (iv : Z * Z) : M unit :=
  blk ← gets m_blockages;
  b ← deref (alter_at (fun l => l ++ [iv]) blk r);
  modify (set_blockages b).

(** The interval of whole sites of row [r] touched by a rectangle that
    spans the whole height of the row (shared by the routing blockages
    and by [findRegionIntervals]). *)
Definition rowCover (rect : Rectangle) (r : nat) : M (option (Z * Z)) :=
  arch ← gets m_arch;
  singleRowHeight ← gets m_singleRowHeight;
  let lb := arch_getMinY arch + Z.of_nat r * singleRowHeight in
  let ub := lb + singleRowHeight in
  if decide (ymax rect >= ub ∧ ymin rect <= lb) then
    rw ← row (Z.of_nat r);
    let originX := row_getLeft rw in
    let siteSpacing := row_getSiteSpacing rw in
    if decide (siteSpacing = 0) then undefined
    else
      let i0 := (xmin rect - originX) `div` siteSpacing in
      let i1 := (xmax rect - originX) `div` siteSpacing in
      let i1 := if decide (originX + i1 * siteSpacing ≠ xmax rect)
                then i1 + 1 else i1 in
      if decide (i1 > i0)
      then mret (Some (originX + i0 * siteSpacing, originX + i1 * siteSpacing))
      else mret None
  else mret None.

(** [DetailedMgr::findBlockages]. *)
Definition findBlockages (includeRouteBlockages : bool) : M unit :=
  arch ← gets m_arch;
  n ← gets m_numSingleHeightRows;
  fixedCells ← gets m_fixedCells;
  rt ← gets m_rt;
  modify (set_blockages (replicate n []));;
  forM fixedCells (fun ndi =>
    nd ← node ndi;
    let xmin := Z.max (arch_getMinX arch) (getLeft nd) in
    let xmax := Z.min (arch_getMaxX arch) (getRight nd) in
    let ymin := Z.max (arch_getMinY arch) (getBottom nd) in
    let ymax := Z.min (arch_getMaxY arch) (getTop nd) in
    let xmin := xmin - getCellSpacing arch None (Some nd) in
    let xmax := xmax + getCellSpacing arch (Some nd) None in
    forM (seq 0 n) (fun r =>
      rw ← row (Z.of_nat r);
      let yb := row_getBottom rw in
      let yt := row_getTop rw in
      if decide (¬ (ymin >= yt ∨ ymax <= yb))
      then pushBlockage r (xmin, xmax)
      else mret tt));;
  match rt with
  | Some rt =>
    if includeRouteBlockages then
      forM (seq 0 (Nat.min 2 (m_num_layers rt))) (fun layer =>
        rects ← deref (m_layerBlockages rt !! layer);
        forM rects (fun rect =>
          forM (seq 0 n) (fun r =>
            c ← rowCover rect r;
            match c with
            | Some iv => pushBlockage r iv
            | None => mret tt
            end)))
    else mret tt
  | None => mret tt
  end;;
  forM (seq 0 n) (fun r =>
    blks ← gets m_blockages;
    blk ← deref (blks !! r);
    b ← deref (store_at blks r (mergeIntervals blk));
    modify (set_blockages b)).

(** [DetailedMgr::findRegionIntervals]; the intervals are returned. *)
Definition findRegionIntervals (regId : Z) : M (list (list (Z * Z))) :=
  arch ← gets m_arch;
  n ← gets m_numSingleHeightRows;
  let regs := getRegions arch in
  if decide (regId < 1 ∨ regId >= Z.of_nat (length regs))
  then internalError "Improper region id"
  else
    regPtr ← deref (regs !! Z.to_nat regId);
    if decide (reg_getId regPtr ≠ regId)
    then internalError "Improper region id"
    else
      intervals ← foldM (fun acc rect =>
                     foldM (fun acc r =>
                       c ← rowCover rect r;
                       match c with
                       | Some iv => mret (alter (fun l => l ++ [iv]) r acc)
                       | None => mret acc
                       end) (seq 0 n) acc)
                   (reg_getRects regPtr) (replicate n []);
      mret (mergeIntervals <$> intervals).

(* ===================================================================== *)
(** ** Segments *)
(* ===================================================================== *)

(** [v.resize(n)] on a vector of vectors. *)
Definition resize {A : Type} (n : nat) (d : A) (l : list A) : list A :=
  take n l ++ replicate (n - length l) d.

(** A new segment object appended to [m_segments] and to the row's list.
    The local counter [numSegments] of [findSegments] always equals
    [m_segments.size()]; the new object's pointer is that index. *)
Definition pushSegment (r : nat) (sg : DetailedSeg) : M unit :=
  sgs ← gets m_segments;
  sir ← gets m_segsInRow;
  let numSegments := length sgs in
  sir ← deref (alter_at (fun l => l ++ [numSegments]) sir r);
  modify (fun st =>
    set_segsInRow sir
      (set_segments (sgs ++ [setSegId (Z.of_nat numSegments) sg]) st)).

Definition freeSegment (r : nat) (x1 x2 : Z) : M unit :=
  if decide (x2 > x1)
  then pushSegment r (setMaxX x2 (setMinX x1 (setRowId (Z.of_nat r) newDetailedSeg)))
  else mret tt.

(** [m_segsInRow[r] = std::vector<DetailedSeg*>()]. *)
Definition clearRow (r : nat) : M unit :=
  sir ← gets m_segsInRow;
  sir ← deref (store_at sir r []);
  modify (set_segsInRow sir).

(** The body of the first loop of [findSegments]: the free intervals of
    row [r] between its blockages. *)
Definition divideRow (r : nat) : M unit :=
  arch ← gets m_arch;
  rw ← row (Z.of_nat r);
  let lx := row_getLeft rw in
  let rx := row_getRight rw in
  clearRow r;;
  blks ← gets m_blockages;
  blk ← deref (blks !! r);
  match blk with
  | [] =>
    let x1 := Z.max (arch_getMinX arch) lx in
    let x2 := Z.min (arch_getMaxX arch) rx in
    freeSegment r x1 x2
  | b0 :: _ =>
    (if decide (fst b0 > Z.max (arch_getMinX arch) lx) then
       let x1 := Z.max (arch_getMinX arch) lx in
       let x2 := Z.min (Z.min (arch_getMaxX arch) rx) (floor_int (fst b0)) in
       freeSegment r x1 x2
     else mret tt);;
    forM (zip blk (tail blk)) (fun '(bp, bi) =>
      if decide (fst bi > snd bp) then
        let x1 := Z.max (Z.max (arch_getMinX arch) lx) (ceil_int (snd bp)) in
        let x2 := Z.min (Z.min (arch_getMaxX arch) rx) (floor_int (fst bi)) in
        freeSegment r x1 x2
      else mret tt);;
    let bn := List.last blk b0 in
    if decide (snd bn < Z.min (arch_getMaxX arch) rx) then
      let x1 := Z.min (Z.min (arch_getMaxX arch) rx)
                      (Z.max (Z.max (arch_getMinX arch) lx) (ceil_int (snd bn))) in
      let x2 := Z.min (arch_getMaxX arch) rx in
      freeSegment r x1 x2
    else mret tt
  end.

Definition updateSegment (segPtr : nat) (f : DetailedSeg -> DetailedSeg)
  : M unit :=
  sgs ← gets m_segments;
  sgs ← deref (alter_at f sgs segPtr);
  modify (set_segments sgs).

(** One iteration of the loop over the segments of row [r] for the region
    interval [<il, ir>]: the four overlap cases. *)
Definition splitSegment (reg : Z) (r : nat) (il ir : Z) (s : nat) : M unit :=
  sir ← gets m_segsInRow;
  rowSegs ← deref (sir !! r);
  segPtr ← deref (rowSegs !! s);
  sgs ← gets m_segments;
  sg ← deref (sgs !! segPtr);
  let sl := getMinX sg in
  let sr := getMaxX sg in
  let fresh := setRowId (Z.of_nat r) newDetailedSeg in
  if decide (ir <= sl) then mret tt
  else if decide (il >= sr) then mret tt
  else if decide (il <= sl ∧ ir >= sr) then
    updateSegment segPtr (setRegId reg)
  else if decide (il > sl ∧ ir >= sr) then
    updateSegment segPtr (setMaxX (floor_int il));;
    pushSegment r (setMaxX sr (setMinX (ceil_int il) (setRegId reg fresh)))
  else if decide (ir < sr ∧ il <= sl) then
    updateSegment segPtr (setMinX (ceil_int ir));;
    pushSegment r (setMaxX (floor_int ir) (setMinX sl (setRegId reg fresh)))
  else if decide (il > sl ∧ ir < sr) then
    updateSegment segPtr (setMaxX (floor_int il));;
    pushSegment r (setMaxX (floor_int ir)
                     (setMinX (ceil_int il) (setRegId reg fresh)));;
    pushSegment r (setMaxX sr
                     (setMinX (ceil_int ir) (setRegId (getRegId sg) fresh)))
  else internalError "Unexpected problem while constructing segments".

(** [for (s = 0; s < m_segsInRow[r].size(); s++)]: the bound is read
    again at every iteration, and the list grows while it is traversed.
    The recursion is on [fuel]; [splitRow] supplies enough of it. *)
Fixpoint splitLoop (fuel : nat) (reg : Z) (r : nat) (il ir : Z) (s : nat)
  : M unit :=
  match fuel with
  | O => undefined
  | S fuel' =>
    sir ← gets m_segsInRow;
    rowSegs ← deref (sir !! r);
    if decide (s < length rowSegs)%nat then
      splitSegment reg r il ir s;;
      splitLoop fuel' reg r il ir (S s)
    else mret tt
  end.

Definition splitRow (reg : Z) (r : nat) (iv : Z * Z) : M unit :=
  sir ← gets m_segsInRow;
  rowSegs ← deref (sir !! r);
  splitLoop (3 * length rowSegs + 1) reg r (fst iv) (snd iv) 0.

(** The loop over the regions [1 .. getNumRegions()-1]. *)
Definition sliceRegions : M unit :=
  arch ← gets m_arch;
  n ← gets m_numSingleHeightRows;
  forM (seq 1 (getNumRegions arch - 1)) (fun reg =>
    regPtr ← deref (getRegions arch !! reg);
    intervals ← findRegionIntervals (reg_getId regPtr);
    forM (seq 0 n) (fun r =>
      ivs ← deref (intervals !! r);
      forM ivs (splitRow (Z.of_nat reg) r))).

(** Integer division of C++ ([Z.quot] truncates); dividing by zero is
    undefined. *)
Definition int_div (a b : Z) : M Z :=
  if decide (b = 0) then undefined else mret (Z.quot a b).

(** One iteration of the loop that lines segment ends up with sites. *)
Definition snapSegment (s : nat) : M unit :=
  sgs ← gets m_segments;
  sg ← deref (sgs !! s);
  rw ← row (getRowId sg);
  let originX := row_getLeft rw in
  let siteSpacing := row_getSiteSpacing rw in
  ix ← int_div (getMinX sg - originX) siteSpacing;
  let ix := if decide (originX + ix * siteSpacing < getMinX sg)
            then ix + 1 else ix in
  let sg := if decide (originX + ix * siteSpacing ≠ getMinX sg)
            then setMinX (originX + ix * siteSpacing) sg else sg in
  ix ← int_div (getMaxX sg - originX) siteSpacing;
  let sg := if decide (originX + ix * siteSpacing ≠ getMaxX sg)
            then setMaxX (originX + ix * siteSpacing) sg else sg in
  updateSegment s (fun _ => sg).

(** The first loop of [findSegments] (segments between blockages). *)
Definition divideRows : M unit :=
  n ← gets m_numSingleHeightRows;
  modify (fun st => set_segsInRow (resize n [] (m_segsInRow st))
                                  (set_segments [] st));;
  forM (seq 0 n) divideRow.

Definition snapSegments : M unit :=
  sgs ← gets m_segments;
  forM (seq 0 (length sgs)) snapSegment.

Definition resetCellsInSeg : M unit :=
  modify (fun st =>
    set_cellsInSeg (replicate (length (m_segments st)) []) st).

(** [DetailedMgr::findSegments]. *)
Definition findSegments : M unit :=
  divideRows;; sliceRegions;; snapSegments;; resetCellsInSeg.

(** [buildBlockagesAndSegments] of the external interface. *)
Definition buildBlockagesAndSegments (includeRouteBlockages : bool) : M unit :=
  findBlockages includeRouteBlockages;; findSegments.

(* ===================================================================== *)
(** ** Assignment: the closest segment of a single-height cell *)
(* ===================================================================== *)

(** [c < d] and [c <= d] where [d] is a double that starts at
    [numeric_limits<double>::max()] ([None]). *)
Definition lt_dist (c : Z) (d : option Z) : bool :=
  match d with
  | None => true
  | Some d => bool_decide (c < d)
  end.

Definition le_dist (c : Z) (d : option Z) : bool :=
  match d with
  | None => true
  | Some d => bool_decide (c <= d)
  end.

(** The locals [dist1], [dist2], [best1], [best2] of [findClosestSegment]. *)
Record Closest : Type := mkClosest {
  dist1 : option Z;
  dist2 : option Z;
  best1 : option nat;
  best2 : option nat
}.

(** Horizontal distance of the cell to the segment: the left edge is
    clamped into [[minX, maxX - width]]. *)
Definition hori_dist (nd : Node) (curr : DetailedSeg) : Z :=
  let x1 := getMinX curr in
  let x2 := getMaxX curr - getWidth nd in
  let xx := Z.max x1 (Z.min x2 (getLeft nd)) in
  Z.max 0 (Z.abs (xx - getLeft nd)).

Definition seg_fits (nd : Node) (curr : DetailedSeg) : bool :=
  bool_decide (getWidth nd <= getMaxX curr - getMinX curr).

(** The body of each of the three loops over the segments of a row. *)
Definition considerSegment (nd : Node) (vert : Z) (b : Closest)
    (segPtr : nat) (curr : DetailedSeg) : Closest :=
  if decide (getRegionId nd ≠ getRegId curr) then b
  else
    let hori := hori_dist nd curr in
    let closer1 := lt_dist (hori + vert) (dist1 b) in
    let closer2 := lt_dist (hori + vert) (dist2 b) in
    let fits := seg_fits nd curr in
    let b := if bool_decide (best1 b = None) || closer1
             then mkClosest (Some (hori + vert)) (dist2 b) (Some segPtr) (best2 b)
             else b in
    if fits && (bool_decide (best2 b = None) || closer2)
    then mkClosest (dist1 b) (Some (hori + vert)) (best1 b) (Some segPtr)
    else b.

Definition scanRow (nd : Node) (vert : Z) (r : nat) (b : Closest) : M Closest :=
  st ← get;
  rowSegs ← deref (m_segsInRow st !! r);
  foldM (fun b segPtr =>
           curr ← deref (m_segments st !! segPtr);
           mret (considerSegment nd vert b segPtr curr))
        rowSegs b.

(** One iteration of the loop over [offset]: the row below, then the row
    above, each only when it could still improve one of the two bests. *)
Definition scanOffset (nd : Node) (row : nat) (b : Closest) (offset : nat)
  : M Closest :=
  st ← get;
  let n := Z.of_nat (m_numSingleHeightRows st) in
  let below := Z.of_nat row - Z.of_nat offset in
  let vert := Z.of_nat offset * m_singleRowHeight st in
  b ← (if decide (below >= 0) then
         if le_dist vert (dist1 b) || le_dist vert (dist2 b)
         then scanRow nd vert (Z.to_nat below) b
         else mret b
       else mret b);
  let above := (row + offset)%nat in
  if decide (Z.of_nat above <= n - 1) then
    if le_dist vert (dist1 b) || le_dist vert (dist2 b)
    then scanRow nd vert above b
    else mret b
  else mret b.

(** [DetailedMgr::findClosestSegment]. *)
Definition findClosestSegment (ndi : nat) : M (option nat) :=
  st ← get;
  nd ← node ndi;
  let row := find_closest_row (m_arch st) (getBottom nd) in
  b ← scanRow nd 0 row (mkClosest None None None None);
  b ← foldM (scanOffset nd row) (seq 1 (m_numSingleHeightRows st)) b;
  mret (match best2 b with Some s => Some s | None => best1 b end).

(* ===================================================================== *)
(** ** Site alignment and the shift solver *)
(* ===================================================================== *)

(** [DetailedMgr::alignPos]; the reference parameter [xi] is returned. *)
Definition alignPos (ndi : nat) (xi xl xr : Z) : M (bool * Z) :=
  rw ← row 0;
  nd ← node ndi;
  let originX := row_getLeft rw in
  let siteSpacing := row_getSiteSpacing rw in
  let w := getWidth nd in
  let xr := xr - w in
  let xp := Z.max xl (Z.min xr xi) in
  ix ← int_div (xp - originX) siteSpacing;
  let xp := originX + ix * siteSpacing in
  let xp := if decide (xp < xl) then xp + siteSpacing
            else if decide (xp > xr) then xp - siteSpacing else xp in
  if decide (xp < xl ∨ xp > xr) then mret (false, xi)
  else mret (true, xp).

(** Tables of the solver.  Every index the solver uses lies inside the
    table by the bounds of its loops; [tbl_get] returns the fill value
    elsewhere and [tbl_set] changes nothing there. *)
Definition tbl_get {A : Type} (d : A) (t : list (list A)) (i j : Z) : A :=
  if decide (0 <= i ∧ 0 <= j)
  then default d (t !! Z.to_nat i ≫= fun row => row !! Z.to_nat j)
  else d.

Definition tbl_set {A : Type} (t : list (list A)) (i j : Z) (v : A)
  : list (list A) :=
  if decide (0 <= i ∧ 0 <= j)
  then alter (fun row => <[Z.to_nat j := v]> row) (Z.to_nat i) t
  else t.

Definition tbl_new {A : Type} (rows cols : nat) (d : A) : list (list A) :=
  replicate rows (replicate cols d).

(** [std::ceil(a / b)] for integers held in doubles. *)
Definition ceil_div (a b : Z) : Z := - ((- a) `div` b).

(** [c < t] on total costs; [None] is [numeric_limits<double>::max()],
    which absorbs the addition of a cost. *)
Definition cost_lt (c t : option Z) : bool :=
  match c, t with
  | Some c, Some t => bool_decide (c < t)
  | Some _, None => true
  | None, _ => false
  end.

Definition ints (lo hi : Z) : list Z :=
  (fun k => lo + Z.of_nat k) <$> seq 0 (Z.to_nat (hi - lo + 1)).

(** The two backward walks over [prev] from [(nsites, ncells)]. *)
Fixpoint reachesOrigin (fuel : nat) (prev : list (list (Z * Z)))
    (curr : Z * Z) (okay : bool) : bool :=
  match fuel with
  | O => okay
  | S fuel' =>
    if decide (fst curr ≠ -1 ∧ snd curr ≠ -1) then
      let okay := if decide (fst curr = 0 ∧ snd curr = 0) then true else okay in
      reachesOrigin fuel' prev (tbl_get (-1, -1) prev (fst curr) (snd curr)) okay
    else okay
  end.

Fixpoint placeCells (fuel : nat) (prev : list (list (Z * Z)))
    (originX siteSpacing i0 : Z) (curr : Z * Z) (posLeft : list Z)
  : option (list Z) :=
  match fuel with
  | O => Some posLeft
  | S fuel' =>
    if decide (fst curr ≠ -1 ∧ snd curr ≠ -1) then
      if decide (fst curr = 0 ∧ snd curr = 0) then Some posLeft
      else
        let p := tbl_get (-1, -1) prev (fst curr) (snd curr) in
        posLeft ←
          (if decide (snd curr ≠ snd p) then
             let ix := i0 + fst curr - 1 in
             j ← index_of (snd curr - 1);
             store_at posLeft j (originX + ix * siteSpacing)
           else Some posLeft);
        placeCells fuel' prev originX siteSpacing i0 p posLeft
    else Some posLeft
  end.

(** [DetailedMgr::shift]; the output vector [posLeft] is returned. *)
Definition shift (cells : list nat) (targetLeft posLeft : list Z)
    (leftLimit rightLimit : Z) (segId rowId : Z) : M (bool * list Z) :=
  st ← get;
  rw ← row rowId;
  let originX := row_getLeft rw in
  let siteSpacing := row_getSiteSpacing rw in
  let siteWidth := row_getSiteWidth rw in
  let ncells := Z.of_nat (length cells) in
  i0 ← int_div (leftLimit - originX) siteSpacing;
  let i0 := if decide (originX + i0 * siteSpacing < leftLimit) then i0 + 1 else i0 in
  i1 ← int_div (rightLimit - originX) siteSpacing;
  let i1 := if decide (originX + i1 * siteSpacing + siteWidth >= rightLimit)
            then i1 - 1 else i1 in
  let nsites := i1 - i0 + 1 in
  nodes ← deref (mapM (fun c => m_network st !! c) cells);
  let swid :=
    imap (fun i ndi =>
            let width := getWidth ndi +
              match nodes !! S i with
              | Some nxt => getCellSpacing (m_arch st) (Some ndi) (Some nxt)
              | None => 0
              end in
            ceil_div width siteSpacing) nodes in
  let rsites := foldr Z.add 0 swid in
  if decide (rsites > nsites) then mret (false, posLeft)
  else
    let site_l := fst (foldl (fun '(acc, k) w => (acc ++ [k], k + w)) ([], i0) swid) in
    let site_r := fst (foldr (fun w '(acc, k) => ((k - w) :: acc, k - w)) ([], i1 + 1) swid) in
    if decide (Exists (fun '(l, r) => r < l) (zip site_l site_r))
    then mret (false, posLeft)
    else if decide (nsites < 0) then undefined
    else
      targets ← deref (if decide (length cells ≤ length targetLeft)%nat
                       then Some targetLeft else None);
      let rows := S (Z.to_nat nsites) in
      let cols := S (length cells) in
      let cost :=
        foldl (fun cost j =>
          foldl (fun cost i =>
            let site_id := i0 + i - 1 in
            let l := default 0 (site_l !! Z.to_nat (j - 1)) in
            let r := default 0 (site_r !! Z.to_nat (j - 1)) in
            if decide (site_id < l ∨ site_id > r) then cost
            else
              let x := originX + site_id * siteSpacing in
              tbl_set cost i j (Z.abs (x - default 0 (targets !! Z.to_nat (j - 1)))))
            cost (ints 1 nsites))
          (tbl_new rows cols 0) (ints 1 ncells) in
      let '(tcost, prev) :=
        foldl (fun tp j =>
          let prev_wid := if decide (j - 1 = 0) then 1
                          else default 0 (swid !! Z.to_nat (j - 2)) in
          let curr_wid := default 0 (swid !! Z.to_nat (j - 1)) in
          foldl (fun '(tcost, prev) i =>
            let site_id := i0 + i - 1 in
            let '(tcost, prev) :=
              let ii := i - 1 in
              let jj := j in
              let c := tbl_get None tcost ii jj in
              if cost_lt c (tbl_get None tcost i j)
              then (tbl_set tcost i j c, tbl_set prev i j (ii, jj))
              else (tcost, prev) in
            let ii := i - prev_wid in
            let jj := j - 1 in
            if decide (¬ (ii < 0 ∨ site_id + curr_wid - 1 > i1)) then
              let c := (fun t => t + tbl_get 0 cost i j) <$> tbl_get None tcost ii jj in
              if cost_lt c (tbl_get None tcost i j)
              then (tbl_set tcost i j c, tbl_set prev i j (ii, jj))
              else (tcost, prev)
            else (tcost, prev))
            tp (ints 1 nsites))
          (tbl_set (tbl_new rows cols None) 0 0 (Some 0),
           tbl_new rows cols (-1, -1)) (ints 1 ncells) in
      let fuel := S (rows * cols) in
      if reachesOrigin fuel prev (nsites, ncells) false then
        pos ← deref (placeCells fuel prev originX siteSpacing i0 (nsites, ncells) posLeft);
        mret (true, pos)
      else mret (false, posLeft).

(* ===================================================================== *)
(** ** The move/swap engine *)
(* ===================================================================== *)

(** [std::find] on a vector of pointers: the index of the first match. *)
Definition find_index (x : nat) (l : list nat) : option nat :=
  fst <$> list_find (fun c => c = x) l.

(** The loop of [shiftRightHelper]; [rest] holds the cells of the segment
    after [ndr] ([ix == n] exactly when it is empty). *)
Fixpoint shiftRightLoop (ndi ndr : nat) (xj sj : Z) (originX siteSpacing : Z)
    (rest : list nat) : M bool :=
  st ← get;
  i ← node ndi;
  r ← node ndr;
  let sp := getCellSpacing (m_arch st) (Some i) (Some r) in
  if decide (getLeft r < xj + getWidth i + sp) then
    if decide (getCellHeightInRows (m_arch st) r ≠ 1) then mret false
    else
      let xj := xj + getWidth i in
      let xj := xj + sp in
      site ← int_div (xj - originX) siteSpacing;
      let sx := originX + site * siteSpacing in
      let xj := if decide (xj ≠ sx) then
                  let sx := if decide (xj > sx) then sx + siteSpacing else sx in
                  if decide (xj ≠ sx) then
                    if decide (xj < sx) then sx else xj
                  else xj
                else xj in
      ok ← addToMoveList ndr (getLeft r) (getBottom r) sj xj (getBottom r) sj;
      if negb ok then mret false
      else
        sg ← segment sj;
        if decide (xj + getWidth r + getCellSpacing (m_arch st) (Some r) None
                   > getMaxX sg)
        then mret false
        else
          match rest with
          | [] => mret true
          | nxt :: rest' =>
            shiftRightLoop ndr nxt xj sj originX siteSpacing rest'
          end
  else mret true.

(** [DetailedMgr::shiftRightHelper]. *)
Definition shiftRightHelper (ndi : nat) (xj sj : Z) (ndr : nat) : M bool :=
  cells ← cellsInSeg sj;
  match find_index ndr cells with
  | None => mret false
  | Some ix =>
    sg ← segment sj;
    rw ← row (getRowId sg);
    shiftRightLoop ndi ndr xj sj (row_getLeft rw) (row_getSiteSpacing rw)
                   (drop (S ix) cells)
  end.

(** The loop of [shiftLeftHelper]; [rest] holds the cells of the segment
    before [ndl], nearest first ([ix == 0] exactly when it is empty). *)
Fixpoint shiftLeftLoop (ndi ndl : nat) (xj sj : Z) (originX siteSpacing : Z)
    (rest : list nat) : M bool :=
  st ← get;
  i ← node ndi;
  l ← node ndl;
  let sp := getCellSpacing (m_arch st) (Some l) (Some i) in
  if decide (getRight l + sp > xj) then
    if decide (getCellHeightInRows (m_arch st) l ≠ 1) then mret false
    else
      let xj := xj - sp in
      let xj := xj - getWidth l in
      site ← int_div (xj - originX) siteSpacing;
      let sx := originX + site * siteSpacing in
      let xj := if decide (xj ≠ sx) then
                  if decide (xj > sx) then sx else xj
                else xj in
      ok ← addToMoveList ndl (getLeft l) (getBottom l) sj xj (getBottom l) sj;
      if negb ok then mret false
      else
        sg ← segment sj;
        if decide (xj - getCellSpacing (m_arch st) None (Some l) < getMinX sg)
        then mret false
        else
          match rest with
          | [] => mret true
          | nxt :: rest' =>
            shiftLeftLoop ndl nxt xj sj originX siteSpacing rest'
          end
  else mret true.

(** [DetailedMgr::shiftLeftHelper]. *)
Definition shiftLeftHelper (ndi : nat) (xj sj : Z) (ndl : nat) : M bool :=
  cells ← cellsInSeg sj;
  match find_index ndl cells with
  | None => mret false
  | Some ix =>
    sg ← segment sj;
    rw ← row (getRowId sg);
    shiftLeftLoop ndi ndl xj sj (row_getLeft rw) (row_getSiteSpacing rw)
                  (reverse (take ix cells))
  end.

(** [std::lower_bound(cells, xj, compareNodesX())]. *)
Definition lower_bound_x (cells : list nat) (xj : Z) : M nat :=
  keys ← centersOf cells;
  mret (lower_bound keys (2 * xj)).

(** [if (std::abs(yj - row->getBottom()) != 0) yj = row->getBottom()]. *)
Definition snapY (yj : Z) (rw : Row) : Z :=
  if decide (Z.abs (yj - row_getBottom rw) ≠ 0) then row_getBottom rw else yj.

Definition optNode (p : option nat) : M (option Node) :=
  match p with
  | Some i => nd ← node i; mret (Some nd)
  | None => mret None
  end.

(** [DetailedMgr::tryMove1]: a single-height cell to another segment. *)
Definition tryMove1 (ndi : nat) (xi yi si xj yj sj : Z) : M bool :=
  clearMoveList;;
  st ← get;
  let arch := m_arch st in
  nd ← node ndi;
  let spanned := getCellHeightInRows arch nd in
  if decide (sj = si ∨ sj = -1) then mret false
  else
    segPtr ← segment sj;
    if decide (getRegionId nd ≠ getRegId segPtr ∨ spanned ≠ 1) then mret false
    else
      rw ← row (getRowId segPtr);
      let yj := snapY yj rw in
      cells ← cellsInSeg sj;
      '(ndl, ndr) ←
        (if decide (length cells ≠ 0%nat) then
           it ← lower_bound_x cells xj;
           if decide (it = length cells) then mret (last cells, None)
           else
             mret (if decide (it ≠ 0%nat) then cells !! (it - 1)%nat else None,
                   cells !! it)
         else mret (None, None));
      l ← optNode ndl;
      r ← optNode ndr;
      match ndl, ndr with
      | None, None =>
        let required := getWidth nd + getCellSpacing arch None (Some nd)
                        + getCellSpacing arch (Some nd) None in
        if decide (required + getUtil segPtr > seg_getWidth segPtr) then mret false
        else
          let lx := getMinX segPtr + getCellSpacing arch None (Some nd) in
          let rx := getMaxX segPtr - getCellSpacing arch (Some nd) None in
          '(ok, xj) ← alignPos ndi xj lx rx;
          if negb ok then mret false
          else
            ok ← addToMoveList ndi (getLeft nd) (getBottom nd) si xj yj sj;
            if negb ok then mret false else mret true
      | Some pl, None =>
        let required := getWidth nd + getCellSpacing arch l (Some nd)
                        + getCellSpacing arch (Some nd) None in
        if decide (required + getUtil segPtr > seg_getWidth segPtr) then mret false
        else
          ln ← node pl;
          let lx := getRight ln + getCellSpacing arch l (Some nd) in
          let rx := getMaxX segPtr - getCellSpacing arch (Some nd) None in
          '(ok, xj) ← alignPos ndi xj lx rx;
          if negb ok then mret false
          else
            ok ← addToMoveList ndi (getLeft nd) (getBottom nd) si xj yj sj;
            if negb ok then mret false
            else
              ok ← shiftLeftHelper ndi xj sj pl;
              if negb ok then mret false else mret true
      | None, Some pr =>
        let required := getWidth nd + getCellSpacing arch None (Some nd)
                        + getCellSpacing arch (Some nd) r in
        if decide (required + getUtil segPtr > seg_getWidth segPtr) then mret false
        else
          rn ← node pr;
          let lx := getMinX segPtr + getCellSpacing arch None (Some nd) in
          let rx := getLeft rn - getCellSpacing arch (Some nd) r in
          '(ok, xj) ← alignPos ndi xj lx rx;
          if negb ok then mret false
          else
            ok ← addToMoveList ndi (getLeft nd) (getBottom nd) si xj yj sj;
            if negb ok then mret false
            else
              ok ← shiftRightHelper ndi xj sj pr;
              if negb ok then mret false else mret true
      | Some pl, Some pr =>
        let required := getWidth nd + getCellSpacing arch l (Some nd)
                        + getCellSpacing arch (Some nd) r
                        - getCellSpacing arch l r in
        if decide (required + getUtil segPtr > seg_getWidth segPtr) then mret false
        else
          ln ← node pl;
          rn ← node pr;
          let lx := getRight ln + getCellSpacing arch l (Some nd) in
          let rx := getLeft rn - getCellSpacing arch (Some nd) r in
          '(ok, xj) ← alignPos ndi xj lx rx;
          if negb ok then mret false
          else
            ok ← addToMoveList ndi (getLeft nd) (getBottom nd) si xj yj sj;
            if negb ok then mret false
            else
              ok ← shiftRightHelper ndi xj sj pr;
              if negb ok then mret false
              else
                ok ← shiftLeftHelper ndi xj sj pl;
                if negb ok then mret false else mret true
      end.

(** [DetailedMgr::tryMove2]: a single-height cell within its segment. *)
Definition tryMove2 (ndi : nat) (xi yi si xj yj sj : Z) : M bool :=
  clearMoveList;;
  st ← get;
  let arch := m_arch st in
  nd ← node ndi;
  let spanned := getCellHeightInRows arch nd in
  if decide (sj ≠ si ∨ sj = -1) then mret false
  else
    segPtr ← segment sj;
    if decide (getRegionId nd ≠ getRegId segPtr ∨ spanned ≠ 1) then mret false
    else
      rw ← row (getRowId segPtr);
      let yj := snapY yj rw in
      cellsI ← cellsInSeg si;
      let n := Z.of_nat (length cellsI) - 1 in
      cells ← cellsInSeg sj;
      if decide (length cells = 0%nat) then mret false
      else
        it_j ← lower_bound_x cells xj;
        let ix_j := if decide (it_j = length cells)
                    then (length cells - 1)%nat else it_j in
        pj ← deref (cells !! ix_j);
        ndj ← node pj;
        prev ← (if decide (ix_j = 0%nat) then mret None
                else p ← deref (cells !! (ix_j - 1)%nat); optNode (Some p));
        next ← (if decide (Z.of_nat ix_j = n) then mret None
                else p ← deref (cells !! S ix_j); optNode (Some p));
        let lx := match prev with
                  | Some p => getRight p + getCellSpacing arch prev (Some nd)
                  | None => getMinX segPtr + getCellSpacing arch None (Some nd)
                  end in
        let rx := getLeft ndj - getCellSpacing arch (Some nd) (Some ndj) in
        if decide (getWidth nd <= rx - lx) then
          '(ok, xj) ← alignPos ndi xj lx rx;
          if negb ok then mret false
          else
            ok ← addToMoveList ndi (getLeft nd) (getBottom nd) si xj yj sj;
            if negb ok then mret false else mret true
        else
          let lx := getRight ndj + getCellSpacing arch (Some ndj) (Some nd) in
          let rx := match next with
                    | Some p => getLeft p - getCellSpacing arch (Some nd) next
                    | None => getMaxX segPtr - getCellSpacing arch (Some nd) None
                    end in
          if decide (getWidth nd <= rx - lx) then
            '(ok, xj) ← alignPos ndi xj lx rx;
            if negb ok then mret false
            else
              ok ← addToMoveList ndi (getLeft nd) (getBottom nd) si xj yj sj;
              if negb ok then mret false else mret true
          else mret false.

(** The inner loop of [tryMove3] over the segments of row [r]: the first
    segment of the cell's region whose [[minX, maxX]] contains [xj]. *)
Fixpoint findSegAt (nd : Node) (xj : Z) (rowSegs : list nat) : M (option Z) :=
  match rowSegs with
  | [] => mret None
  | p :: rest =>
    st ← get;
    segPtr ← deref (m_segments st !! p);
    if decide (getRegId segPtr = getRegionId nd
               ∧ xj >= getMinX segPtr ∧ xj <= getMaxX segPtr)
    then mret (Some (getSegId segPtr))
    else findSegAt nd xj rest
  end.

(** The loop of [tryMove3] over the rows [rb .. rt]; it stops at the
    first row without a segment. *)
Fixpoint collectSegs (nd : Node) (xj : Z) (rows : list Z) (segs : list Z)
  : M (list Z) :=
  match rows with
  | [] => mret segs
  | r :: rows' =>
    st ← get;
    i ← deref (index_of r);
    rowSegs ← deref (m_segsInRow st !! i);
    got ← findSegAt nd xj rowSegs;
    match got with
    | Some s => collectSegs nd xj rows' (segs ++ [s])
    | None => mret segs
    end
  end.

(** The neighbours of the target in one segment of [tryMove3], the moving
    cell itself being looked through on the left. *)
Definition neighbours (ndi : nat) (cells : list nat) (it : nat)
  : M (option nat * option nat) :=
  if decide (length cells = 0%nat) then mret (None, None)
  else if decide (it = length cells) then
    lft ← deref (last cells);
    if decide (lft = ndi) then
      if decide (it ≠ 0%nat) then
        lft ← deref (cells !! (it - 1)%nat);
        mret (Some lft, None)
      else mret (None, None)
    else mret (Some lft, None)
  else
    rite ← deref (cells !! it);
    if decide (it ≠ 0%nat) then
      lft ← deref (cells !! (it - 1)%nat);
      if decide (lft = ndi) then
        if decide ((it - 1)%nat ≠ 0%nat) then
          lft ← deref (cells !! (it - 2)%nat);
          mret (Some lft, Some rite)
        else mret (None, Some rite)
      else mret (Some lft, Some rite)
    else mret (None, Some rite).

(** The loop of [tryMove3] over the chosen segments: the intersection of
    the gaps, or [None] when the cell does not fit or does not move. *)
Fixpoint gapOfSegs (ndi : nat) (nd : Node) (xj : Z) (segs : list Z)
    (xmin xmax : option Z) : M (option (option Z * option Z)) :=
  match segs with
  | [] => mret (Some (xmin, xmax))
  | s :: segs' =>
    st ← get;
    let arch := m_arch st in
    segPtr ← segment s;
    cells ← cellsInSeg (getSegId segPtr);
    it ← lower_bound_x cells xj;
    '(lft, rite) ← neighbours ndi cells it;
    if decide (Some ndi = lft ∨ Some ndi = rite) then mret None
    else
      l ← optNode lft;
      r ← optNode rite;
      let lx := match l with
                | None => getMinX segPtr
                | Some ln => getRight ln + getCellSpacing arch l (Some nd)
                end in
      let rx := match r with
                | None => getMaxX segPtr
                | Some rn => getLeft rn - getCellSpacing arch (Some nd) r
                end in
      if decide (getWidth nd <= rx - lx) then
        gapOfSegs ndi nd xj segs'
          (Some (match xmin with Some m => Z.max m lx | None => lx end))
          (Some (match xmax with Some m => Z.min m rx | None => rx end))
      else mret None
  end.

(** [DetailedMgr::tryMove3]: a multi-height cell into a gap.  The bounds
    [xmin], [xmax] start at the least and greatest [int] ([None]).
    [spanned] is compared with vector sizes only once it is known to
    exceed 1, where the conversion to [size_t] keeps its value. *)
Definition tryMove3 (ndi : nat) (xi yi si xj yj sj : Z) : M bool :=
  clearMoveList;;
  st ← get;
  let arch := m_arch st in
  nd ← node ndi;
  let spanned := getCellHeightInRows arch nd in
  rev ← reverseCellToSegs ndi;
  if decide (spanned <= 1 ∨ spanned ≠ Z.of_nat (length rev))
  then mret false
  else
    sg ← segment sj;
    let rb := getRowId sg in
    rw ← row rb;
    let yj := snapY yj rw in
    (* while (rb + spanned >= rows.size()) --rb; *)
    let nrows := Z.of_nat (length (getRows arch)) in
    let rb := if decide (rb + spanned >= nrows) then nrows - 1 - spanned else rb in
    rwb ← row rb;
    let yj := row_getBottom rwb in
    let rt := rb + spanned - 1 in
    if negb (power_compatible arch nd rwb) then mret false
    else
      segs ← collectSegs nd xj (ints rb rt) [];
      if decide (Z.of_nat (length segs) ≠ spanned) then mret false
      else
        gap ← gapOfSegs ndi nd xj segs None None;
        match gap with
        | None => mret false
        | Some (xmin, xmax) =>
          match xmin, xmax with
          | Some xmin, Some xmax =>
            if decide (getWidth nd <= xmax - xmin) then
              '(ok, xj) ← alignPos ndi xj xmin xmax;
              if negb ok then mret false
              else
                old_segs ← mapM (fun p => sg ← deref (m_segments st !! p);
                                          mret (getSegId sg)) rev;
                ok ← addToMoveList_segs ndi (getLeft nd) (getBottom nd) old_segs
                                        xj (row_getBottom rwb) segs;
                if negb ok then mret false else mret true
            else mret false
          | _, _ => undefined
          end
        end.

(** The gap a cell leaves: between its neighbours [prev] and [next] in
    segment [sg], tightened by the spacing of the incoming cell. *)
Definition gapAround (arch : Architecture) (sg : DetailedSeg)
    (prev next : option Node) (incoming : Node) : Z * Z :=
  let rx := match next with Some p => getLeft p | None => getMaxX sg end in
  let rx := rx - getCellSpacing arch (Some incoming) next in
  let lx := match prev with Some p => getRight p | None => getMinX sg end in
  let lx := lx + getCellSpacing arch prev (Some incoming) in
  (lx, rx).

Definition cellAt (cells : list nat) (i : Z) : M (option Node) :=
  j ← deref (index_of i);
  p ← deref (cells !! j);
  optNode (Some p).

(** [DetailedMgr::trySwap1]: swap two single-height cells. *)
Definition trySwap1 (ndi : nat) (xi yi si xj yj sj : Z) : M bool :=
  clearMoveList;;
  st ← get;
  let arch := m_arch st in
  cellsJ ← cellsInSeg sj;
  pj ← (if decide (length cellsJ ≠ 0%nat) then
          it_j ← lower_bound_x cellsJ xj;
          if decide (it_j = length cellsJ) then mret (last cellsJ)
          else mret (cellsJ !! it_j)
        else mret None);
  match pj with
  | None => mret false
  | Some ndj =>
    if decide (ndj = ndi) then mret false
    else
      i ← node ndi;
      j ← node ndj;
      if decide (getCellHeightInRows arch i ≠ 1 ∨ getCellHeightInRows arch j ≠ 1)
      then mret false
      else
        cellsI ← cellsInSeg si;
        let ix_i := Z.of_nat (default (length cellsI) (find_index ndi cellsI)) in
        let ix_j := Z.of_nat (default (length cellsJ) (find_index ndj cellsJ)) in
        let adjacent :=
          bool_decide (si = sj ∧ (ix_i + 1 = ix_j ∨ ix_j + 1 = ix_i)) in
        if negb adjacent then
          let n := Z.of_nat (length cellsI) - 1 in
          next ← (if decide (ix_i = n) then mret None else cellAt cellsI (ix_i + 1));
          prev ← (if decide (ix_i = 0) then mret None else cellAt cellsI (ix_i - 1));
          segI ← segment si;
          let '(lx, rx) := gapAround arch segI prev next j in
          if decide (getWidth j > rx - lx) then mret false
          else
            '(ok, xi) ← alignPos ndj xi lx rx;
            if negb ok then mret false
            else
              let n := Z.of_nat (length cellsJ) - 1 in
              next ← (if decide (ix_j = n) then mret None else cellAt cellsJ (ix_j + 1));
              prev ← (if decide (ix_j = 0) then mret None else cellAt cellsJ (ix_j - 1));
              segJ ← segment sj;
              let '(lx, rx) := gapAround arch segJ prev next i in
              if decide (getWidth i > rx - lx) then mret false
              else
                '(ok, xj) ← alignPos ndi xj lx rx;
                if negb ok then mret false
                else
                  ok ← addToMoveList ndi (getLeft i) (getBottom i) si
                                     xj (getBottom j) sj;
                  if negb ok then mret false
                  else
                    ok ← addToMoveList ndj (getLeft j) (getBottom j) sj
                                       xi (getBottom i) si;
                    if negb ok then mret false else mret true
        else
          '(ok, xi, xj) ←
            (if decide (ix_i + 1 = ix_j) then
               let n := Z.of_nat (length cellsJ) - 1 in
               next ← (if decide (ix_j = n) then mret None else cellAt cellsJ (ix_j + 1));
               prev ← (if decide (ix_i = 0) then mret None else cellAt cellsI (ix_i - 1));
               segJ ← segment sj;
               segI ← segment si;
               let rx := match next with Some p => getLeft p | None => getMaxX segJ end in
               let rx := rx - getCellSpacing arch (Some i) next in
               let lx := match prev with Some p => getRight p | None => getMinX segI end in
               let lx := lx + getCellSpacing arch prev (Some j) in
               if decide (getWidth j + getWidth i
                          + getCellSpacing arch (Some j) (Some i) > rx - lx)
               then mret (false, xi, xj)
               else
                 '(ok, posLeft) ← shift [ndj; ndi] [xi; xj] [0; 0] lx rx si (getRowId segI);
                 if negb ok then mret (false, xi, xj)
                 else
                   p0 ← deref (posLeft !! 0%nat);
                   p1 ← deref (posLeft !! 1%nat);
                   mret (true, p0, p1)
             else if decide (ix_j + 1 = ix_i) then
               let n := Z.of_nat (length cellsI) - 1 in
               next ← (if decide (ix_i = n) then mret None else cellAt cellsI (ix_i + 1));
               prev ← (if decide (ix_j = 0) then mret None else cellAt cellsJ (ix_j - 1));
               segI ← segment si;
               segJ ← segment sj;
               let rx := match next with Some p => getLeft p | None => getMaxX segI end in
               let rx := rx - getCellSpacing arch (Some j) next in
               let lx := match prev with Some p => getRight p | None => getMinX segJ end in
               let lx := lx + getCellSpacing arch prev (Some i) in
               if decide (getWidth i + getWidth j
                          + getCellSpacing arch (Some i) (Some j) > rx - lx)
               then mret (false, xi, xj)
               else
                 '(ok, posLeft) ← shift [ndi; ndj] [xj; xi] [0; 0] lx rx si (getRowId segI);
                 if negb ok then mret (false, xi, xj)
                 else
                   p0 ← deref (posLeft !! 0%nat);
                   p1 ← deref (posLeft !! 1%nat);
                   mret (true, p1, p0)
             else mret (false, xi, xj));
          if negb ok then mret false
          else
            ok ← addToMoveList ndi (getLeft i) (getBottom i) si xj (getBottom j) sj;
            if negb ok then mret false
            else
              ok ← addToMoveList ndj (getLeft j) (getBottom j) sj xi (getBottom i) si;
              if negb ok then mret false else mret true
  end.

(** [DetailedMgr::tryMove] and [DetailedMgr::trySwap]: the dispatch. *)
Definition tryMove (ndi : nat) (xi yi si xj yj sj : Z) : M bool :=
  st ← get;
  nd ← node ndi;
  if decide (getCellHeightInRows (m_arch st) nd = 1) then
    if decide (si ≠ sj) then tryMove1 ndi xi yi si xj yj sj
    else tryMove2 ndi xi yi si xj yj sj
  else tryMove3 ndi xi yi si xj yj sj.

Definition trySwap (ndi : nat) (xi yi si xj yj sj : Z) : M bool :=
  trySwap1 ndi xi yi si xj yj sj.

(* ===================================================================== *)
(** ** Predicates used by the properties *)
(* ===================================================================== *)

(** The parallel arrays of the move list have the size the constructor
    gave them. *)
Definition moveListSized (st : DetailedMgr) : Prop :=
  let mv := m_moves st in
  let n := m_moveLimit st in
  length (m_movedNodes mv) = n ∧ length (m_curLeft mv) = n
  ∧ length (m_curBottom mv) = n ∧ length (m_curSeg mv) = n
  ∧ length (m_newLeft mv) = n ∧ length (m_newBottom mv) = n
  ∧ length (m_newSeg mv) = n.

(** [st'] differs from [st] in the staged move list only. *)
Definition onlyMoves (st st' : DetailedMgr) : Prop :=
  st' = set_moves (m_moves st') st.

(* ===================================================================== *)
(** ** Small concrete designs (used to exercise the properties) *)
(* ===================================================================== *)

(** One row [[0,100)] of height 10 with site pitch [sp]. *)
Definition demoRow (sp : Z) (bottom : Z) : Row :=
  mkRow bottom (bottom + 10) 10 0 100 sp sp.

(** [rows] stacked rows, unit spacing between cells of no kind, cells of
    height [10 * k] spanning [k] rows. *)
Definition demoArch (sp : Z) (rows : nat) : Architecture :=
  mkArch ((fun r => demoRow sp (10 * Z.of_nat r)) <$> seq 0 rows)
         0 100 0 (10 * Z.of_nat rows) [mkRegion 0 []]
         (fun _ _ => 0) (fun nd => getHeight nd `div` 10)
         (fun _ _ => true) (fun y => Z.to_nat (y `div` 10)).

Definition demoCell (x y w h : Z) : Node := mkNode x y w h x y 0.

Definition with_fixedCells (v : list nat) (st : DetailedMgr) : DetailedMgr :=
  mkMgr (m_arch st) (m_network st) (m_rt st) (m_singleRowHeight st)
        (m_numSingleHeightRows st) (m_maxDispX st) (m_maxDispY st)
        v (m_blockages st) (m_segments st) (m_segsInRow st)
        (m_cellsInSeg st) (m_reverseCellToSegs st) (m_moveLimit st)
        (m_moves st).

(** The manager right after construction, with node 0 fixed. *)
Definition demoMgr (sp : Z) (rows : nat) (network : list Node) : DetailedMgr :=
  match DetailedMgr_new (demoArch sp rows) network None with
  | Some st => with_fixedCells [0%nat] st
  | None => mkMgr (demoArch sp rows) network None 0 0 0 0 [] [] [] [] [] [] 0
                  (emptyMoveList 0)
  end.

(** The state an operation leaves, when it completes. *)
Definition exec {A : Type} (m : M A) (st : DetailedMgr) : DetailedMgr :=
  match m st with
  | Ok (_, st') => st'
  | _ => st
  end.

(** A fixed cell [[40,60)], and movable cells. *)
Definition demoNetwork : list Node :=
  [demoCell 40 0 20 10; demoCell 5 0 10 10; demoCell 70 0 8 10;
   demoCell 2 0 1 10; demoCell 5 0 2 10; demoCell 20 0 6 20].

Definition demoSt : DetailedMgr := demoMgr 1 1 demoNetwork.

(** The demo design after segmentation, cells 1, 3, 4 placed in the
    segment [[0,40)] and cell 2 in the segment [[60,100)]. *)
Definition demoPlaced : DetailedMgr :=
  exec (buildBlockagesAndSegments false;;
        addCellToSegment 3 0;; addCellToSegment 4 0;; addCellToSegment 1 0;;
        addCellToSegment 2 1) demoSt.

(** The rows [rb .. rt] that [tryMove3] derives from the target segment
    [sg] for the cell [nd]. *)
Definition targetRows (arch : Architecture) (sg : DetailedSeg) (nd : Node)
  : list Z :=
  let spanned := getCellHeightInRows arch nd in
  let nrows := Z.of_nat (length (getRows arch)) in
  let rb := getRowId sg in
  let rb := if decide (rb + spanned >= nrows) then nrows - 1 - spanned else rb in
  ints rb (rb + spanned - 1).

(** Row [r] has a segment of the cell's region whose [[minX, maxX]]
    contains [xj]. *)
Definition rowHasSegAt (st : DetailedMgr) (nd : Node) (xj : Z) (r : Z) : Prop :=
  ∃ i rowSegs p sg,
    index_of r = Some i ∧ m_segsInRow st !! i = Some rowSegs ∧ p ∈ rowSegs
    ∧ m_segments st !! p = Some sg
    ∧ getRegId sg = getRegionId nd ∧ getMinX sg <= xj ∧ xj <= getMaxX sg.

(** Five rows; a fixed cell blocks [[20,60)] of row 3; cell 1 spans two
    rows and sits in rows 0 and 1. *)
Definition demoTall : DetailedMgr :=
  exec (buildBlockagesAndSegments false;;
        addCellToSegment 1 0;; addCellToSegment 1 1)
       (demoMgr 1 5 [demoCell 20 30 40 10; demoCell 70 0 6 20]).

(** Cell [c] is in the cell list of segment [s]; segment [s] is in the
    reverse-map entry of cell [c]. *)
Definition inCellList (st : DetailedMgr) (c s : nat) : Prop :=
  ∃ cells, m_cellsInSeg st !! s = Some cells ∧ c ∈ cells.

Definition inReverseMap (st : DetailedMgr) (c s : nat) : Prop :=
  ∃ rev, m_reverseCellToSegs st !! c = Some rev ∧ s ∈ rev.

Definition mapsAgree (st : DetailedMgr) : Prop :=
  ∀ c s, inCellList st c s ↔ inReverseMap st c s.

Definition noDuplicates (st : DetailedMgr) : Prop :=
  (∀ s cells, m_cellsInSeg st !! s = Some cells → NoDup cells)
  ∧ (∀ c rev, m_reverseCellToSegs st !! c = Some rev → NoDup rev).

(** The reverse-map entry of every assigned cell has as many segments as
    the cell has rows (the invariant as the specification words it). *)
Definition sizeEqualsSpan (st : DetailedMgr) : Prop :=
  ∀ c nd rev s,
    m_network st !! c = Some nd → m_reverseCellToSegs st !! c = Some rev →
    inCellList st c s →
    Z.of_nat (length rev) = getCellHeightInRows (m_arch st) nd.

(** The reverse-map entry never has more segments than the cell has
    rows. *)
Definition sizeWithinSpan (st : DetailedMgr) : Prop :=
  ∀ c nd rev,
    m_network st !! c = Some nd → m_reverseCellToSegs st !! c = Some rev →
    Z.of_nat (length rev) <= to_size_t (getCellHeightInRows (m_arch st) nd).

(** No cell is in any segment. *)
Definition unassigned (st : DetailedMgr) : Prop :=
  (∀ s cells, m_cellsInSeg st !! s = Some cells → cells = [])
  ∧ (∀ c rev, m_reverseCellToSegs st !! c = Some rev → rev = []).

(** The states built through [addCellToSegment] and
    [removeCellFromSegment]. *)
Inductive reachable : DetailedMgr -> Prop :=
  | reach_unassigned st : unassigned st → reachable st
  | reach_add st ndi seg st' :
      reachable st → addCellToSegment ndi seg st = Ok (tt, st') →
      reachable st'
  | reach_remove st ndi seg st' :
      reachable st → removeCellFromSegment ndi seg st = Ok (tt, st') →
      reachable st'.

(** A call of [addCellToSegment] all of whose reads are in range. *)
Definition addDefined (st : DetailedMgr) (ndi : nat) (seg : Z) : Prop :=
  0 <= seg
  ∧ is_Some (m_network st !! ndi)
  ∧ (∃ cells, m_cellsInSeg st !! Z.to_nat seg = Some cells
              ∧ Forall (fun c => is_Some (m_network st !! c)) cells)
  ∧ is_Some (m_segments st !! Z.to_nat seg)
  ∧ is_Some (m_reverseCellToSegs st !! ndi).

(** Sum of the (rounded-up) widths of the cells of a list. *)
Definition widthOf (st : DetailedMgr) (c : nat) : Z :=
  match m_network st !! c with
  | Some nd => ceil_int (getWidth nd)
  | None => 0
  end.

Definition cellWidths (st : DetailedMgr) (cells : list nat) : Z :=
  foldr (fun c acc => widthOf st c + acc) 0 cells.

Definition utilOfSeg (st : DetailedMgr) (s : nat) : Prop :=
  ∀ sg cells, m_segments st !! s = Some sg → m_cellsInSeg st !! s = Some cells →
              getUtil sg = cellWidths st cells.

Definition utilOk (st : DetailedMgr) : Prop := ∀ s, utilOfSeg st s.

(** Every segment object carries its own index as id. *)
Definition storeOk (st : DetailedMgr) : Prop :=
  ∀ i sg, m_segments st !! i = Some sg → getSegId sg = Z.of_nat i.

(** The two-row cell 1 of [demoTall] added to its first segment only. *)
Definition demoHalfBase : DetailedMgr :=
  exec (buildBlockagesAndSegments false)
       (demoMgr 1 5 [demoCell 20 30 40 10; demoCell 70 0 6 20]).

Definition demoHalf : DetailedMgr := exec (addCellToSegment 1 0) demoHalfBase.

(** A segment [[0,40)] holding cell 1 at [[20,21)] and cell 2 at
    [[25,27)], with free space on both sides. *)
Definition demoSwap : DetailedMgr :=
  exec (buildBlockagesAndSegments false;;
        addCellToSegment 1 0;; addCellToSegment 2 0)
       (demoMgr 1 1 [demoCell 40 0 20 10; demoCell 20 0 1 10;
                     demoCell 25 0 2 10]).

(** Total displacement of a placement from its targets. *)
Definition totalDisplacement (targetLeft posLeft : list Z) : Z :=
  foldr Z.add 0 (zip_with (fun t p => Z.abs (p - t)) targetLeft posLeft).

(** A placement of the cells [nodes] at the left edges [pos]: on the
    site grid of the row, in the given order with the spacing between
    neighbours, inside [[lo, hi)]. *)
Fixpoint placementOk (arch : Architecture) (rw : Row) (nodes : list Node)
    (pos : list Z) (lo hi : Z) : Prop :=
  match nodes, pos with
  | [], [] => True
  | nd :: nodes', p :: pos' =>
    (p - row_getLeft rw) `mod` row_getSiteSpacing rw = 0
    ∧ lo <= p
    ∧ match nodes' with
      | [] => p + getWidth nd <= hi
      | nxt :: _ =>
        placementOk arch rw nodes' pos'
          (p + getWidth nd + getCellSpacing arch (Some nd) (Some nxt)) hi
      end
  | _, _ => False
  end.

(** Vertical distance of row [r] from the cell's row [row], as
    [findClosestSegment] measures it, and the cost of a segment of row
    [r] for the cell. *)
Definition rowDistance (st : DetailedMgr) (row r : nat) : Z :=
  Z.abs (Z.of_nat r - Z.of_nat row) * m_singleRowHeight st.

Definition segCost (st : DetailedMgr) (nd : Node) (row r : nat)
    (sg : DetailedSeg) : Z :=
  hori_dist nd sg + rowDistance st row r.

(** Segment [sg], at pointer [p], is listed in row [r] and belongs to the
    region of the cell. *)
Definition candidate (st : DetailedMgr) (nd : Node) (r p : nat)
    (sg : DetailedSeg) : Prop :=
  (r < m_numSingleHeightRows st)%nat
  ∧ (∃ rowSegs, m_segsInRow st !! r = Some rowSegs ∧ p ∈ rowSegs)
  ∧ m_segments st !! p = Some sg
  ∧ getRegId sg = getRegionId nd.

(* ===================================================================== *)
(** * Predicates, relations and measures of the proofs *)
(* ===================================================================== *)

Definition preserves {A : Type} (R : relation DetailedMgr) (m : M A) : Prop :=
  ∀ st a st', m st = Ok (a, st') → R st st'.

Definition added (st : DetailedMgr) (ndi s it : nat) (cells rev : list nat)
    (w : Z) : DetailedMgr :=
  set_reverseCellToSegs (<[ndi := rev ++ [s]]> (m_reverseCellToSegs st))
    (set_segments (alter (addUtil w) s (m_segments st))
       (set_cellsInSeg
          (<[s := take it cells ++ ndi :: drop it cells]> (m_cellsInSeg st)) st)).

Definition removed (st : DetailedMgr) (ndi s it its : nat)
    (cells rev : list nat) (w : Z) : DetailedMgr :=
  set_segments (alter (remUtil w) s (m_segments st))
    (set_cellsInSeg (<[s := delete it cells]> (m_cellsInSeg st))
       (set_reverseCellToSegs
          (<[ndi := delete its rev]> (m_reverseCellToSegs st)) st)).

Definition consistent (st : DetailedMgr) : Prop :=
  mapsAgree st ∧ noDuplicates st ∧ sizeWithinSpan st.

(** Operations that keep a state invariant. *)
Definition keeping (I : DetailedMgr -> Prop) : relation DetailedMgr :=
  fun st st' => I st → I st'.

(** The recorded distance [d] is at most [c]. *)
Definition covers (d : option Z) (c : Z) : Prop := ∃ x, d = Some x ∧ x <= c.

Definition paired (b : Closest) : Prop :=
  (is_Some (dist1 b) → is_Some (best1 b))
  ∧ (is_Some (dist2 b) → is_Some (best2 b)).

Definition sound (st : DetailedMgr) (nd : Node) (row : nat) (b : Closest)
  : Prop :=
  paired b
  ∧ (∀ p, best1 b = Some p →
       ∃ r sg, candidate st nd r p sg
               ∧ dist1 b = Some (segCost st nd row r sg))
  ∧ (∀ p, best2 b = Some p →
       ∃ r sg, candidate st nd r p sg ∧ seg_fits nd sg = true
               ∧ dist2 b = Some (segCost st nd row r sg)).

Definition improves (b b' : Closest) : Prop :=
  ∀ c, (covers (dist1 b) c → covers (dist1 b') c)
       ∧ (covers (dist2 b) c → covers (dist2 b') c).

Definition seen (nd : Node) (b : Closest) (sg : DetailedSeg) (c : Z) : Prop :=
  covers (dist1 b) c ∧ (seg_fits nd sg = true → covers (dist2 b) c).

(** One of the two parallel updates of [considerSegment]: the pair
    (distance, best) after a segment of cost [c] at pointer [p] has been
    considered; [ok] tells whether the segment qualifies. *)
Definition updated (best : option nat) (dist : option Z) (ok : bool)
    (c : Z) (p : nat) : option Z * option nat :=
  if ok && (bool_decide (best = None) || lt_dist c dist)
  then (Some c, Some p) else (dist, best).

(** Every candidate of row [r] has been taken into account in [b]. *)
Definition seenRow (st : DetailedMgr) (nd : Node) (row : nat) (b : Closest)
    (r : nat) : Prop :=
  ∀ p sg, candidate st nd r p sg → seen nd b sg (segCost st nd row r sg).

(** The outcomes of two runs agree: the same failure, or the same result
    and final states related by [R]. *)
Definition agree {A : Type} (R : relation DetailedMgr)
    (o1 o2 : Outcome (A * DetailedMgr)) : Prop :=
  match o1, o2 with
  | Ok (a1, s1), Ok (a2, s2) => a1 = a2 ∧ R s1 s2
  | Fatal x, Fatal y => x = y
  | Undefined, Undefined => True
  | _, _ => False
  end.

(** From states related by [R] the operation runs to agreeing outcomes,
    with final states related by [R']. *)
Definition relates {A : Type} (R R' : relation DetailedMgr) (m : M A) : Prop :=
  ∀ s1 s2, R s1 s2 → agree R' (m s1) (m s2).

(** What the builder reads and never writes. *)
Definition inputs (st : DetailedMgr) :=
  (m_arch st, m_network st, m_rt st, m_singleRowHeight st,
   m_numSingleHeightRows st, m_maxDispX st, m_maxDispY st, m_fixedCells st,
   m_reverseCellToSegs st, m_moveLimit st, m_moves st).

Definition sameInputs : relation DetailedMgr :=
  fun s1 s2 => inputs s1 = inputs s2.

Definition sameBlockages : relation DetailedMgr :=
  fun s1 s2 => sameInputs s1 s2 ∧ m_blockages s1 = m_blockages s2.

(** Between the iterations of the first loop of [findSegments]: the rows
    below [k] have been rebuilt, the others still hold what they held. *)
Definition sameRows (n k : nat) : relation DetailedMgr :=
  fun s1 s2 =>
    sameBlockages s1 s2 ∧ m_segments s1 = m_segments s2
    ∧ length (m_segsInRow s1) = n ∧ length (m_segsInRow s2) = n
    ∧ ∀ r, (r < k)%nat → m_segsInRow s1 !! r = m_segsInRow s2 !! r.

Definition sameSegments : relation DetailedMgr :=
  fun s1 s2 =>
    sameBlockages s1 s2 ∧ m_segments s1 = m_segments s2
    ∧ m_segsInRow s1 = m_segsInRow s2.

(** The row a segment says it lies in. *)
Definition rowOf (arch : Architecture) (sg : DetailedSeg) : option Row :=
  index_of (getRowId sg) ≫= fun i => getRows arch !! i.

Definition onGrid (rw : Row) (x : Z) : Prop :=
  (x - row_getLeft rw) `mod` row_getSiteSpacing rw = 0.

(** [x'] is the first site boundary at or right of [x]; the last one at
    or left of [x]. *)
Definition snappedUp (rw : Row) (x x' : Z) : Prop :=
  onGrid rw x' ∧ x <= x' < x + row_getSiteSpacing rw.

Definition snappedDown (rw : Row) (x x' : Z) : Prop :=
  onGrid rw x' ∧ x - row_getSiteSpacing rw < x' <= x.

(** Both ends of the segment are at or right of the left end of its row. *)
Definition inRow (arch : Architecture) (sg : DetailedSeg) : Prop :=
  ∀ rw, rowOf arch sg = Some rw →
        row_getLeft rw <= getMinX sg ∧ row_getLeft rw <= getMaxX sg.

Definition freshSeg (arch : Architecture) (sg : DetailedSeg) : Prop :=
  getUtil sg = 0 ∧ inRow arch sg.

(** The pointers listed in the rows below [k] are valid and point to
    segments of that row. *)
Definition rowsListed (k : nat) (st : DetailedMgr) : Prop :=
  ∀ r rowSegs p,
    (r < k)%nat → m_segsInRow st !! r = Some rowSegs → p ∈ rowSegs →
    ∃ sg, m_segments st !! p = Some sg ∧ getRowId sg = Z.of_nat r.

Definition builderInv (arch : Architecture) (k : nat) (st : DetailedMgr)
  : Prop :=
  m_arch st = arch
  ∧ (∀ s sg, m_segments st !! s = Some sg → freshSeg arch sg)
  ∧ rowsListed k st.

(** The number of rows of [m_segsInRow] stays what it is. *)
Definition sameRowCount : relation DetailedMgr :=
  fun st st' => length (m_segsInRow st') = length (m_segsInRow st).

(** Once every row has been rebuilt. *)
Definition built (arch : Architecture) (st : DetailedMgr) : Prop :=
  ∀ k, builderInv arch k st.

(** The segment at [s] after the third loop, next to the one before. *)
Definition snappedFrom (arch : Architecture) (before after : list DetailedSeg)
    (s : nat) (sg : DetailedSeg) : Prop :=
  ∃ sg0 rw,
    before !! s = Some sg0 ∧ rowOf arch sg = Some rw ∧ getUtil sg = 0
    ∧ getRowId sg = getRowId sg0
    ∧ snappedUp rw (getMinX sg0) (getMinX sg)
    ∧ snappedDown rw (getMaxX sg0) (getMaxX sg).

(** One row of four sites of pitch 25 and the fixed cell [[40,60)], after
    [findBlockages]. *)
Definition demoCoarse : DetailedMgr :=
  exec (findBlockages false) (demoMgr 25 1 demoNetwork).

(** The legal range of a row: the row extent cut to the architecture. *)
Definition legalLeft (arch : Architecture) (rw : Row) : Z :=
  Z.max (arch_getMinX arch) (row_getLeft rw).

Definition legalRight (arch : Architecture) (rw : Row) : Z :=
  Z.min (arch_getMaxX arch) (row_getRight rw).

(** The point [x] of the range [[lo, hi)] lies in no interval of [blk]. *)
Definition freeAt (lo hi : Z) (blk : list (Z * Z)) (x : Z) : Prop :=
  lo <= x < hi ∧ ∀ iv, iv ∈ blk → ¬ (fst iv <= x < snd iv).

(** [[x1, x2)] is a maximal run of points that satisfy [free]. *)
Definition maximalRun (free : Z -> Prop) (x1 x2 : Z) : Prop :=
  x1 < x2 ∧ (∀ x, x1 <= x < x2 → free x)
  ∧ ¬ free (x1 - 1) ∧ ¬ free x2.

(** The intervals that [divideRow] turns into segments, in the order in
    which it appends them: [lo] and [hi] are the ends of the legal range
    of the row, [blk] its blockages. *)
Definition gap (x1 x2 : Z) : list (Z * Z) :=
  if decide (x2 > x1) then [(x1, x2)] else [].

Definition gapBetween (lo hi : Z) (bp bi : Z * Z) : list (Z * Z) :=
  if decide (fst bi > snd bp)
  then gap (Z.max lo (snd bp)) (Z.min hi (fst bi)) else [].

Definition gapAfter (lo hi : Z) (bn : Z * Z) : list (Z * Z) :=
  if decide (snd bn < hi) then gap (Z.min hi (Z.max lo (snd bn))) hi else [].

Definition rowGaps (lo hi : Z) (blk : list (Z * Z)) : list (Z * Z) :=
  match blk with
  | [] => gap lo hi
  | b0 :: _ =>
    (if decide (fst b0 > lo) then gap lo (Z.min hi (fst b0)) else [])
    ++ (zip blk (tail blk) ≫= fun p => gapBetween lo hi (fst p) (snd p))
    ++ gapAfter lo hi (List.last blk b0)
  end.

(** The same intervals, by recursion on the blockages that follow [bp]. *)
Fixpoint gapsAfter (lo hi : Z) (bp : Z * Z) (rest : list (Z * Z))
  : list (Z * Z) :=
  match rest with
  | [] => gapAfter lo hi bp
  | bi :: rest' => gapBetween lo hi bp bi ++ gapsAfter lo hi bi rest'
  end.

(** Blockages in ascending order, each ending before the next begins. *)
Fixpoint chain (l : list (Z * Z)) : Prop :=
  match l with
  | [] => True
  | x :: l' =>
    match l' with
    | [] => True
    | y :: _ => fst x <= fst y ∧ snd x < fst y
    end ∧ chain l'
  end.

(** A blockage that is empty as a set of points lies off the range. *)
Definition proper (lo hi : Z) (iv : Z * Z) : Prop :=
  fst iv < snd iv ∨ fst iv <= lo ∨ hi <= snd iv.

(** The points right of [bp] that are free of the blockages [rest]. *)
Definition freeFrom (lo hi : Z) (bp : Z * Z) (rest : list (Z * Z)) (x : Z)
  : Prop :=
  Z.max lo (snd bp) <= x < hi ∧ ∀ iv, iv ∈ rest → ¬ (fst iv <= x < snd iv).

(** [rowGaps] is [gapsAfter] from an imaginary blockage left of everything. *)
Definition leftmost (lo : Z) (blk : list (Z * Z)) : Z * Z :=
  let m := match blk with [] => lo | b0 :: _ => Z.min lo (fst b0) end - 1 in
  (m, m).

(** A blockage that is empty as a set of points lies off the core. *)
Definition solid (arch : Architecture) (iv : Z * Z) : Prop :=
  fst iv < snd iv ∨ fst iv <= arch_getMinX arch ∨ arch_getMaxX arch <= snd iv.

(** The stack of [mergeSweep], newest first: every interval starts
    strictly right of the end of the older ones. *)
Fixpoint stacked (l : list (Z * Z)) : Prop :=
  match l with
  | [] => True
  | x :: l' => (∀ y, y ∈ l' → fst y <= fst x ∧ snd y < fst x) ∧ stacked l'
  end.

Fixpoint ascending (l : list (Z * Z)) : Prop :=
  match l with
  | [] => True
  | x :: l' => (∀ y, y ∈ l' → fst x <= fst y) ∧ ascending l'
  end.

Definition blockagesSolid (arch : Architecture) (nw : list Node)
    (st : DetailedMgr) : Prop :=
  m_arch st = arch ∧ m_network st = nw
  ∧ ∀ r blk, m_blockages st !! r = Some blk → Forall (solid arch) blk.

(** The number of rows of [m_blockages] stays what it is. *)
Definition sameBlockageRows : relation DetailedMgr :=
  fun st st' => length (m_blockages st') = length (m_blockages st).

Definition intervalOf (sgs : list DetailedSeg) (p : nat) : option (Z * Z) :=
  (fun sg => (getMinX sg, getMaxX sg)) <$> sgs !! p.

(** The intervals [[minX, maxX)] of the segments listed in row [r], in
    the order of [m_segsInRow]. *)
Definition rowIntervals (st : DetailedMgr) (r : nat) : option (list (Z * Z)) :=
  m_segsInRow st !! r ≫= mapM (intervalOf (m_segments st)).

(** The run from [st] to [st'] appends the intervals [g] to row [k] and
    leaves the other rows as they are. *)
Definition appends (k : nat) (g : list (Z * Z)) (st st' : DetailedMgr) : Prop :=
  (∀ ivs, rowIntervals st k = Some ivs → rowIntervals st' k = Some (ivs ++ g))
  ∧ (∀ r ivs, r ≠ k → rowIntervals st r = Some ivs →
              rowIntervals st' r = Some ivs).

(** The first loop leaves the blockages and the architecture alone. *)
Definition sameBlockageLists : relation DetailedMgr :=
  fun st st' => m_blockages st' = m_blockages st ∧ m_arch st' = m_arch st.

(** The third loop changes the segments only. *)
Definition sameRowLists : relation DetailedMgr :=
  fun st st' => m_segsInRow st' = m_segsInRow st.

(** A segment that the interval [<il, ir>] does not cut: an iteration on
    it appends nothing. *)
Definition settled (il ir : Z) (sg : DetailedSeg) : bool :=
  bool_decide (ir <= getMinX sg ∨ il >= getMaxX sg
               ∨ (il <= getMinX sg ∧ ir >= getMaxX sg)).

(** Iterations that an entry of the row may still cost: one, or three
    when it may be cut into three. *)
Definition entryWeight (il ir : Z) (sgs : list DetailedSeg) (p : nat) : nat :=
  match sgs !! p with
  | Some sg => if settled il ir sg then 1 else 3
  | None => 3
  end.

Definition weightOf (il ir : Z) (sgs : list DetailedSeg) (ptrs : list nat)
  : nat :=
  foldr (fun p acc => (entryWeight il ir sgs p + acc)%nat) 0%nat ptrs.

(** The iterations left from index [s] of row [r]. *)
Definition loopWeight (il ir : Z) (r s : nat) (st : DetailedMgr) : nat :=
  match m_segsInRow st !! r with
  | Some rowSegs => weightOf il ir (m_segments st) (drop s rowSegs)
  | None => 0
  end.

(* ===================================================================== *)
(** * Further operations of the manager, and their predicates *)
(* ===================================================================== *)

(** The x-centers (doubled) of the cells of a list, in the order of the
    list. *)
Definition centers (st : DetailedMgr) (cells : list nat) : option (list Z) :=
  mapM (fun i => center2 <$> (m_network st !! i)) cells.

(** A list of keys in non-decreasing order. *)
Fixpoint nondecreasing (keys : list Z) : Prop :=
  match keys with
  | [] => True
  | k :: ks => Forall (fun k' => k <= k') ks ∧ nondecreasing ks
  end.

(** The cell list of segment [s] is in non-decreasing order of x-center,
    the order that [std::lower_bound] with [compareNodesX] relies on. *)
Definition orderedByCenter (st : DetailedMgr) (s : nat) : Prop :=
  ∀ cells, m_cellsInSeg st !! s = Some cells →
           ∃ keys, centers st cells = Some keys ∧ nondecreasing keys.

(** [demoSwap] before its second cell is added. *)
Definition demoSwapBase : DetailedMgr :=
  exec (buildBlockagesAndSegments false;; addCellToSegment 1 0)
       (demoMgr 1 1 [demoCell 40 0 20 10; demoCell 20 0 1 10;
                     demoCell 25 0 2 10]).

(** The cells of a list whose (doubled) x-center is [k], in the order of
    the list. *)
Definition withCenter (st : DetailedMgr) (k : Z) (cells : list nat)
  : list nat :=
  filter (fun c => center2 <$> (m_network st !! c) = Some k) cells.

(** Every pair of [zip keys cells] holds a cell and its center. *)
Definition keyed (nw : list Node) (p : Z * nat) : Prop :=
  center2 <$> (nw !! p.2) = Some p.1.

(** [demoSwap] with its two cells exchanged: cell 1 at 30, right of
    cell 2. *)
Definition demoUnsorted : DetailedMgr :=
  exec (setPosition 1 30 0) demoSwap.

(** The manager after the first [i] iterations of the first loop of
    [removeAllCellsFromSegments]. *)
Definition emptied (st : DetailedMgr) (i : nat) : DetailedMgr :=
  set_segments ((setUtil 0 <$> take i (m_segments st)) ++ drop i (m_segments st))
    (set_cellsInSeg (replicate i [] ++ drop i (m_cellsInSeg st)) st).

(** The point [x] lies in one of the half-open intervals of the list. *)
Definition covered (l : list (Z * Z)) (x : Z) : Prop :=
  Exists (fun iv => fst iv <= x < snd iv) l.

(** The rectangle spans the whole height of row [r]. *)
Definition spansRow (st : DetailedMgr) (rect : Rectangle) (r : nat) : Prop :=
  let lb := arch_getMinY (m_arch st) + Z.of_nat r * m_singleRowHeight st in
  ymax rect >= lb + m_singleRowHeight st ∧ ymin rect <= lb.

(** An interval of whole sites of the row. *)
Definition sitesOf (rw : Row) (iv : Z * Z) : Prop :=
  onGrid rw (fst iv) ∧ onGrid rw (snd iv) ∧ fst iv < snd iv.

(** One row of pitch 5 and a region 1 made of two overlapping
    rectangles over [[12,31)] and [[28,47)]; nothing is fixed. *)
Definition demoFenced : DetailedMgr :=
  let arch :=
    mkArch [demoRow 5 0] 0 100 0 10
           [mkRegion 0 []; mkRegion 1 [mkRect 12 31 0 10; mkRect 28 47 0 10]]
           (fun _ _ => 0) (fun nd => getHeight nd `div` 10)
           (fun _ _ => true) (fun y => Z.to_nat (y `div` 10)) in
  default (demoMgr 5 1 []) (DetailedMgr_new arch [] None).

(** What a run leaves alone when it only handles the cells of [S]: the
    staged list, the architecture, the blockages, the rows, the segments
    up to their utilization, and for every other cell its node, its
    reverse-map entry and the cell lists it is in. *)
Definition untouched (S : list nat) : relation DetailedMgr :=
  fun st st' =>
    m_moves st' = m_moves st ∧ m_arch st' = m_arch st
    ∧ m_blockages st' = m_blockages st ∧ m_segsInRow st' = m_segsInRow st
    ∧ setUtil 0 <$> m_segments st' = setUtil 0 <$> m_segments st
    ∧ ∀ c, c ∉ S →
        m_network st' !! c = m_network st !! c
        ∧ m_reverseCellToSegs st' !! c = m_reverseCellToSegs st !! c
        ∧ ∀ s, inCellList st' c s ↔ inCellList st c s.

(** Cell 1 of [demoSwap] staged for a move from 20 to 30 within
    segment 0, and for a move to 70 in segment 1. *)
Definition demoStaged : DetailedMgr :=
  exec (addToMoveList 1 20 0 0 30 0 0) demoSwap.

Definition demoStagedAcross : DetailedMgr :=
  exec (addToMoveList 1 20 0 0 70 0 1) demoSwap.

(** The members [m_origLeft] and [m_origBottom] of the manager: the
    position of every node when it was last recorded, by node id. *)
Record OrigPositions : Type := mkOrig {
  m_origLeft : list Z;
  m_origBottom : list Z
}.

(** Modelled from the spec: the kind of a node ([Node::isTerminal],
    [isTerminalNI], [isFixed]; their header is not part of the sources),
    by node id. *)
Record NodeKind : Type := mkKind {
  isTerminal : bool;
  isTerminalNI : bool;
  isFixed : bool
}.

(** [DetailedMgr::recordOriginalPositions]. *)
Definition recordOriginalPositions (o : OrigPositions) : M OrigPositions :=
  nw ← gets m_network;
  let n := length nw in
  foldM (fun o i =>
           nd ← node i;
           ob ← deref (store_at (m_origBottom o) i (getBottom nd));
           ol ← deref (store_at (m_origLeft o) i (getLeft nd));
           mret (mkOrig ol ob))
        (seq 0 n)
        (mkOrig (resize n 0 (m_origLeft o)) (resize n 0 (m_origBottom o))).

(** [DetailedMgr::restoreOriginalPositions]. *)
Definition restoreOriginalPositions (o : OrigPositions) : M unit :=
  nw ← gets m_network;
  forM (seq 0 (length nw)) (fun i =>
    b ← deref (m_origBottom o !! i);
    l ← deref (m_origLeft o !! i);
    nw ← gets m_network;
    nw ← deref (alter_at (fun nd => setLeft l (setBottom b nd)) nw i);
    modify (set_network nw)).

(** The results of [measureMaximumDisplacement]: the value returned and
    the four reference parameters. *)
Record Displacement : Type := mkDisp {
  maxL1 : Z;
  maxX : Z;
  maxY : Z;
  violatedX : Z;
  violatedY : Z
}.

(** [DetailedMgr::measureMaximumDisplacement]. *)
Definition measureMaximumDisplacement (kinds : list NodeKind)
    (o : OrigPositions) : M Displacement :=
  st ← get;
  foldM (fun d i =>
           nd ← node i;
           k ← deref (kinds !! i);
           if isTerminal k || isTerminalNI k || isFixed k then mret d
           else
             ob ← deref (m_origBottom o !! i);
             ol ← deref (m_origLeft o !! i);
             let dy := Z.abs (getBottom nd - ob) in
             let dx := Z.abs (getLeft nd - ol) in
             mret (mkDisp (Z.max (maxL1 d) (dx + dy))
                          (Z.max (maxX d) (ceil_int dx))
                          (Z.max (maxY d) (ceil_int dy))
                          (if decide (dx > m_maxDispX st)
                           then violatedX d + 1 else violatedX d)
                          (if decide (dy > m_maxDispY st)
                           then violatedY d + 1 else violatedY d)))
        (seq 0 (length (m_network st)))
        (mkDisp 0 0 0 0 0).

(** A node put back at the position of another one. *)
Definition putBack (nd2 nd : Node) : Node :=
  setLeft (getLeft nd) (setBottom (getBottom nd) nd2).

(** Node [i] is movable (neither a terminal nor fixed) and lies [dx] and
    [dy] away from its recorded position. *)
Definition displaced (st : DetailedMgr) (kinds : list NodeKind)
    (o : OrigPositions) (i : nat) (dx dy : Z) : Prop :=
  ∃ nd k ol ob,
    m_network st !! i = Some nd ∧ kinds !! i = Some k
    ∧ isTerminal k || isTerminalNI k || isFixed k = false
    ∧ m_origLeft o !! i = Some ol ∧ m_origBottom o !! i = Some ob
    ∧ dx = Z.abs (getLeft nd - ol) ∧ dy = Z.abs (getBottom nd - ob).

(** The kinds of the three nodes of [demoSwap]: node 0 is fixed. *)
Definition demoKinds : list NodeKind :=
  [mkKind false false true; mkKind false false false;
   mkKind false false false].

(** The positions of [demoSwap], as recorded. *)
Definition demoOrig : OrigPositions :=
  mkOrig (getLeft <$> m_network demoSwap) (getBottom <$> m_network demoSwap).

(** [for (j = 1; j < temp.size(); j++) if (ri > lj) err_n++]: the number
    of neighbours in [temp] of which the left one ends right of the left
    edge of the right one. *)
Fixpoint adjacentOverlaps (temp : list Node) : Z :=
  match temp with
  | [] => 0
  | ndi :: rest =>
    match rest with
    | [] => 0
    | ndj :: _ => (if decide (getRight ndi > getLeft ndj) then 1 else 0)
                  + adjacentOverlaps rest
    end
  end.

(** The number of cells of [temp] that stick out of [[xmin, xmax]]. *)
Definition outOfRange (xmin xmax : Z) (temp : list Node) : Z :=
  foldr (fun nd acc =>
           (if decide (getLeft nd < xmin ∨ getRight nd > xmax) then 1 else 0)
           + acc) 0 temp.

(** [DetailedMgr::checkOverlapInSegments].  [sort] is [std::sort] with
    [compareNodesX]: it leaves the cells in non-decreasing order of
    x-center, those of equal center in an order that is not specified. *)
Definition checkOverlapInSegments (sort : list Node -> list Node) : M Z :=
  st ← get;
  foldM (fun err_n s =>
           sg ← deref (m_segments st !! s);
           cells ← deref (m_cellsInSeg st !! s);
           nodes ← deref (mapM (fun c => m_network st !! c) cells);
           let temp := sort nodes in
           mret (err_n + adjacentOverlaps temp
                 + outOfRange (getMinX sg) (getMaxX sg) temp))
        (seq 0 (length (m_segments st))) 0.

(** The number of cells of [temp] whose region is not [regId]. *)
Definition wrongRegion (regId : Z) (temp : list Node) : Z :=
  foldr (fun nd acc =>
           (if decide (getRegionId nd ≠ regId) then 1 else 0) + acc) 0 temp.

(** [DetailedMgr::checkRegionAssignment].  [sort] is [std::sort] with
    [compareNodesL]. *)
Definition checkRegionAssignment (sort : list Node -> list Node) : M Z :=
  st ← get;
  foldM (fun err_n s =>
           sg ← deref (m_segments st !! s);
           cells ← deref (m_cellsInSeg st !! s);
           nodes ← deref (mapM (fun c => m_network st !! c) cells);
           let temp := sort nodes in
           mret (err_n + wrongRegion (getRegId sg) temp))
        (seq 0 (length (m_segments st))) 0.

(** A sort by x-center, for running the checks. *)
Fixpoint insertNodeX (nd : Node) (l : list Node) : list Node :=
  match l with
  | [] => [nd]
  | y :: ys => if decide (center2 y < center2 nd) then y :: insertNodeX nd ys
               else nd :: y :: ys
  end.

Definition sortNodesX (l : list Node) : list Node := foldr insertNodeX [] l.

(** Two cells that do not overlap; cells that are pairwise so. *)
Definition disjoint (a b : Node) : Prop :=
  getRight a <= getLeft b ∨ getRight b <= getLeft a.

Fixpoint apart (l : list Node) : Prop :=
  match l with
  | [] => True
  | a :: l' => Forall (disjoint a) l' ∧ apart l'
  end.

(** The cell lies within the segment. *)
Definition inside (sg : DetailedSeg) (nd : Node) : Prop :=
  getMinX sg <= getLeft nd ∧ getRight nd <= getMaxX sg.

(** The nodes of the cells of segment [s]. *)
Definition nodesOf (st : DetailedMgr) (s : nat) (sg : DetailedSeg)
    (nodes : list Node) : Prop :=
  ∃ cells, m_segments st !! s = Some sg ∧ m_cellsInSeg st !! s = Some cells
           ∧ mapM (fun c => m_network st !! c) cells = Some nodes.

(** The moves [mvs] push the cells [cs] of segment [sj] (in the order of
    its list) to the right of the cell [prev], whose left edge will be
    [xprev]: each move is that of the next cell of [cs], a cell of one
    row that is in the way of its left neighbour and that stays in [sj]
    and at its bottom; it goes strictly right, to
    the first site boundary at or after the end of its left neighbour
    plus the spacing, and it ends, with its spacing, within the segment.
    The first cell that is not moved, if there is one, is clear of its
    left neighbour already. *)
Fixpoint pushedRight (arch : Architecture) (nw : list Node) (sj : Z)
    (sg : DetailedSeg) (rw : Row) (prev : nat) (xprev : Z) (cs : list nat)
    (mvs : list Move) : Prop :=
  match mvs, cs with
  | [], [] => True
  | [], c :: _ =>
    ∃ i r, nw !! prev = Some i ∧ nw !! c = Some r
           ∧ xprev + getWidth i + getCellSpacing arch (Some i) (Some r)
             <= getLeft r
  | mv :: mvs', c :: cs' =>
    ∃ i r,
      nw !! prev = Some i ∧ nw !! c = Some r ∧ mv_node mv = c
      ∧ mv_curLeft mv = getLeft r ∧ mv_curBottom mv = getBottom r
      ∧ mv_newBottom mv = getBottom r
      ∧ mv_curSeg mv = [sj] ∧ mv_newSeg mv = [sj]
      ∧ getCellHeightInRows arch r = 1
      ∧ getLeft r < xprev + getWidth i + getCellSpacing arch (Some i) (Some r)
      ∧ getLeft r < mv_newLeft mv
      ∧ onGrid rw (mv_newLeft mv)
      ∧ xprev + getWidth i + getCellSpacing arch (Some i) (Some r)
        <= mv_newLeft mv
        < xprev + getWidth i + getCellSpacing arch (Some i) (Some r)
          + row_getSiteSpacing rw
      ∧ mv_newLeft mv + getWidth r + getCellSpacing arch (Some r) None
        <= getMaxX sg
      ∧ pushedRight arch nw sj sg rw c (mv_newLeft mv) cs' mvs'
  | _ :: _, [] => False
  end.

(** The moves [mvs] push the cells [cs] of segment [sj] (from the right
    neighbour leftwards) to the left of the cell [prev], whose left edge
    will be [xprev]: each move is that of the next cell of [cs], a cell
    of one row that is in the way of its right neighbour and that stays
    in [sj] and at its bottom; it goes strictly left, to the last site boundary from which it still clears its right
    neighbour and the spacing, and it starts, with its spacing, within
    the segment.  The first cell that is not moved, if there is one, is
    clear of its right neighbour already. *)
Fixpoint pushedLeft (arch : Architecture) (nw : list Node) (sj : Z)
    (sg : DetailedSeg) (rw : Row) (prev : nat) (xprev : Z) (cs : list nat)
    (mvs : list Move) : Prop :=
  match mvs, cs with
  | [], [] => True
  | [], c :: _ =>
    ∃ i l, nw !! prev = Some i ∧ nw !! c = Some l
           ∧ getRight l + getCellSpacing arch (Some l) (Some i) <= xprev
  | mv :: mvs', c :: cs' =>
    ∃ i l,
      nw !! prev = Some i ∧ nw !! c = Some l ∧ mv_node mv = c
      ∧ mv_curLeft mv = getLeft l ∧ mv_curBottom mv = getBottom l
      ∧ mv_newBottom mv = getBottom l
      ∧ mv_curSeg mv = [sj] ∧ mv_newSeg mv = [sj]
      ∧ getCellHeightInRows arch l = 1
      ∧ xprev < getRight l + getCellSpacing arch (Some l) (Some i)
      ∧ mv_newLeft mv < getLeft l
      ∧ onGrid rw (mv_newLeft mv)
      ∧ xprev - getCellSpacing arch (Some l) (Some i) - getWidth l
        - row_getSiteSpacing rw
        < mv_newLeft mv
        <= xprev - getCellSpacing arch (Some l) (Some i) - getWidth l
      ∧ getMinX sg <= mv_newLeft mv - getCellSpacing arch None (Some l)
      ∧ pushedLeft arch nw sj sg rw c (mv_newLeft mv) cs' mvs'
  | _ :: _, [] => False
  end.

(** The cell [nd], put at [x], fits into the gap before position [it] of
    the cell list: it clears the cell before the gap (or the left end of
    the segment) and the cell after it (or the right end), with the
    required spacing. *)
Definition fitsGap (arch : Architecture) (nw : list Node) (sg : DetailedSeg)
    (cells : list nat) (it : nat) (nd : Node) (x : Z) : Prop :=
  (it ≤ length cells)%nat
  ∧ (it = 0%nat → getMinX sg + getCellSpacing arch None (Some nd) <= x)
  ∧ (∀ pl ln, it ≠ 0%nat → cells !! (it - 1)%nat = Some pl →
              nw !! pl = Some ln →
              getRight ln + getCellSpacing arch (Some ln) (Some nd) <= x)
  ∧ (it = length cells →
     x + getWidth nd + getCellSpacing arch (Some nd) None <= getMaxX sg)
  ∧ (∀ pr rn, cells !! it = Some pr → nw !! pr = Some rn →
              x + getWidth nd + getCellSpacing arch (Some nd) (Some rn)
              <= getLeft rn).

(* ===================================================================== *)
(** * Lemmas and theorems *)
(* ===================================================================== *)

(** * Running the manager monad *)

(** * Monad laws used for symbolic execution *)

Lemma bind_Ok {A B : Type} (m : M A) (f : A -> M B) st b st' :
  (m ≫= f) st = Ok (b, st') ↔
  ∃ a st1, m st = Ok (a, st1) ∧ f a st1 = Ok (b, st').
Proof.
  unfold mbind, M_bind. split.
  - destruct (m st) as [[a st1]| |]; try discriminate. eauto.
  - intros (a & st1 & -> & H). exact H.
Qed.

Lemma bind_run {A B : Type} (m : M A) (f : A -> M B) st a st1 :
  m st = Ok (a, st1) → (m ≫= f) st = f a st1.
Proof. unfold mbind, M_bind. by intros ->. Qed.

Lemma gets_run {A : Type} (f : DetailedMgr -> A) st : gets f st = Ok (f st, st).
Proof. reflexivity. Qed.

Lemma deref_Ok {A : Type} (o : option A) st a st' :
  deref o st = Ok (a, st') ↔ o = Some a ∧ st' = st.
Proof.
  destruct o; simpl; unfold mret, M_ret, undefined; split.
  - intros [= -> ->]. done.
  - intros [[= ->] ->]. done.
  - discriminate.
  - intros [[=] _].
Qed.

Lemma store_at_Some {A : Type} (l : list A) i x l' :
  store_at l i x = Some l' ↔ (i < length l)%nat ∧ l' = <[i := x]> l.
Proof.
  unfold store_at. case_decide; split.
  - intros [= <-]. done.
  - intros [_ ->]. done.
  - discriminate.
  - intros [? _]. lia.
Qed.

Lemma store_at_lt {A : Type} (l : list A) i x :
  (i < length l)%nat → store_at l i x = Some (<[i := x]> l).
Proof. intros. unfold store_at. by rewrite decide_True. Qed.

Lemma alter_at_Some {A : Type} (f : A -> A) (l : list A) i l' :
  alter_at f l i = Some l' ↔ (i < length l)%nat ∧ l' = alter f i l.
Proof.
  unfold alter_at. case_decide; split.
  - intros [= <-]. done.
  - intros [_ ->]. done.
  - discriminate.
  - intros [? _]. lia.
Qed.

Lemma alter_at_lt {A : Type} (f : A -> A) (l : list A) i :
  (i < length l)%nat → alter_at f l i = Some (alter f i l).
Proof. intros. unfold alter_at. by rewrite decide_True. Qed.

(** * The staged move list *)

Lemma staged_snoc st mv' e :
  let n := m_nMoved (m_moves st) in
  m_nMoved mv' = S n →
  (∀ i, (i < n)%nat → moveAt mv' i = moveAt (m_moves st) i) →
  moveAt mv' n = Some e →
  staged (set_moves mv' st) = staged st ++ [Some e].
Proof.
  intros n Hn Hlt Hat. unfold staged. simpl. rewrite Hn.
  rewrite seq_S, fmap_app. simpl. rewrite Hat. f_equal.
  apply list_fmap_ext. intros i x Hx.
  apply lookup_seq in Hx as [-> Hx]. apply Hlt. exact Hx.
Qed.

Lemma recordMove_Ok st ndi cl cb cs nl nb ns :
  moveListSized st → (m_nMoved (m_moves st) < m_moveLimit st)%nat →
  ∃ st', recordMove ndi cl cb cs nl nb ns st = Ok (tt, st')
         ∧ onlyMoves st st' ∧ moveListSized st'
         ∧ m_nMoved (m_moves st') = S (m_nMoved (m_moves st))
         ∧ staged st' = staged st ++ [Some (mkMove ndi cl cb cs nl nb ns)].
Proof.
  intros (H1 & H2 & H3 & H4 & H5 & H6 & H7) Hlt.
  unfold recordMove.
  rewrite <- H1 in Hlt at 1. pose proof Hlt as Hn1. rewrite H1, <- H2 in Hlt.
  pose proof Hlt as Hn2. rewrite H2, <- H3 in Hlt.
  pose proof Hlt as Hn3. rewrite H3, <- H4 in Hlt.
  pose proof Hlt as Hn4. rewrite H4, <- H5 in Hlt.
  pose proof Hlt as Hn5. rewrite H5, <- H6 in Hlt.
  pose proof Hlt as Hn6. rewrite H6, <- H7 in Hlt.
  eexists. split.
  { unfold mbind, M_bind, get.
    rewrite !store_at_lt by assumption. simpl. reflexivity. }
  split; [reflexivity|]. split.
  { unfold moveListSized; simpl. rewrite !length_insert. done. }
  split; [reflexivity|].
  apply staged_snoc.
  - reflexivity.
  - intros i Hi. unfold moveAt; simpl.
    rewrite !list_lookup_insert_ne by lia. done.
  - unfold moveAt; simpl.
    rewrite !list_lookup_insert_eq by assumption. done.
Qed.

(** * Staging a move *)

Lemma node_run st ndi : node ndi st = deref (m_network st !! ndi) st.
Proof. reflexivity. Qed.

Lemma DetailedMgr_new_moveList arch network rt st :
  DetailedMgr_new arch network rt = Some st →
  m_moveLimit st = 10%nat ∧ moveListSized st ∧ staged st = [].
Proof.
  unfold DetailedMgr_new. destruct (getRows arch !! 0%nat); simpl; [|discriminate].
  intros [= <-]. split; [reflexivity|]. split; [|reflexivity].
  unfold moveListSized; simpl. done.
Qed.

Lemma clearMoveList_run st :
  ∃ st', clearMoveList st = Ok (tt, st') ∧ onlyMoves st st'
         ∧ staged st' = [] ∧ (moveListSized st → moveListSized st').
Proof.
  eexists. split; [reflexivity|]. split; [reflexivity|].
  split; [reflexivity|]. intros H. exact H.
Qed.

(** C2.  On a manager as the constructor leaves it (move limit 10) the
    single-segment [addToMoveList] always completes; it returns [true]
    exactly when fewer than 10 cells are staged and the ceilings of
    |newLeft - original left| and |newBottom - original bottom| of the
    cell are within the maximum displacements in x and in y.  When it
    returns [true] exactly one entry, the proposed move, is appended to
    the staged list and nothing else changes; when it returns [false] the
    state is unchanged, so nothing is staged. *)
Theorem addToMoveList_accepts_iff st ndi nd curLeft curBottom curSeg
    newLeft newBottom newSeg :
  m_moveLimit st = 10%nat → moveListSized st →
  m_network st !! ndi = Some nd →
  ∃ b st',
    addToMoveList ndi curLeft curBottom curSeg newLeft newBottom newSeg st
      = Ok (b, st')
    ∧ (b = true ↔
         (m_nMoved (m_moves st) < 10)%nat
         ∧ ceil_int (Z.abs (newLeft - getOrigLeft nd)) <= m_maxDispX st
         ∧ ceil_int (Z.abs (newBottom - getOrigBottom nd)) <= m_maxDispY st)
    ∧ (b = true →
         staged st' = staged st ++
           [Some (mkMove ndi curLeft curBottom [curSeg]
                         newLeft newBottom [newSeg])]
         ∧ onlyMoves st st' ∧ moveListSized st')
    ∧ (b = false → st' = st).
Proof.
  intros Hlim Hsz Hnd. unfold addToMoveList.
  unfold mbind at 1, M_bind at 1, get. rewrite Hlim.
  destruct (decide (10 ≤ m_nMoved (m_moves st))%nat) as [Hfull|Hroom].
  { exists false, st. split; [reflexivity|]. split; [|done].
    split; [discriminate|]. intros (H & _). lia. }
  rewrite (bind_run _ _ _ nd st) by (rewrite node_run, Hnd; reflexivity).
  destruct (decide (_ ∨ _)) as [Hfar|Hnear].
  { exists false, st. split; [reflexivity|]. split; [|done].
    split; [discriminate|]. intros (_ & H1 & H2). lia. }
  destruct (recordMove_Ok st ndi curLeft curBottom [curSeg] newLeft newBottom
              [newSeg] Hsz) as (st' & Hrun & Honly & Hsz' & _ & Hst).
  { rewrite Hlim. lia. }
  exists true, st'. split.
  { rewrite (bind_run _ _ _ tt st') by exact Hrun. reflexivity. }
  split; [|done]. split; [|done]. intros _. lia.
Qed.

(** The theorem at the demo design: cell 1 proposed at x = 9. *)
Lemma addToMoveList_accepts_iff_witness :
  ∃ b st',
    addToMoveList 1 5 0 0 9 0 0 demoSt = Ok (b, st')
    ∧ (b = true ↔
         (m_nMoved (m_moves demoSt) < 10)%nat
         ∧ ceil_int (Z.abs (9 - getOrigLeft (demoCell 5 0 10 10))) <= m_maxDispX demoSt
         ∧ ceil_int (Z.abs (0 - getOrigBottom (demoCell 5 0 10 10))) <= m_maxDispY demoSt)
    ∧ (b = true →
         staged st' = staged demoSt ++ [Some (mkMove 1 5 0 [0] 9 0 [0])]
         ∧ onlyMoves demoSt st' ∧ moveListSized st')
    ∧ (b = false → st' = demoSt).
Proof.
  apply (addToMoveList_accepts_iff demoSt 1 (demoCell 5 0 10 10) 5 0 0 9 0 0).
  - reflexivity.
  - repeat split; reflexivity.
  - reflexivity.
Defined.

(** * Frames *)

(** * Operations that keep a relation between the states *)

Section preserves.
Context (R : relation DetailedMgr) `{!Reflexive R, !Transitive R}.

Lemma preserves_ret {A : Type} (a : A) : preserves R (mret a).
Proof. intros st b st' [= _ <-]. reflexivity. Qed.

Lemma preserves_bind {A B : Type} (m : M A) (f : A -> M B) :
  preserves R m → (∀ a, preserves R (f a)) → preserves R (m ≫= f).
Proof.
  intros Hm Hf st b st' (a & st1 & H1 & H2)%bind_Ok.
  etrans; [eapply Hm | eapply Hf]; eauto.
Qed.

Lemma preserves_get : preserves R get.
Proof. intros st a st' [= _ <-]. reflexivity. Qed.

Lemma preserves_gets {A : Type} (f : DetailedMgr -> A) : preserves R (gets f).
Proof. intros st a st' [= _ <-]. reflexivity. Qed.

Lemma preserves_deref {A : Type} (o : option A) : preserves R (deref o).
Proof. intros st a st' [_ ->]%deref_Ok. reflexivity. Qed.

Lemma preserves_undefined {A : Type} : preserves R (@undefined A).
Proof. intros st a st' [=]. Qed.

Lemma preserves_internalError {A : Type} msg :
  preserves R (@internalError A msg).
Proof. intros st a st' [=]. Qed.

Lemma preserves_int_div a b : preserves R (int_div a b).
Proof.
  unfold int_div. case_decide;
    [apply preserves_undefined|apply preserves_ret].
Qed.
End preserves.

Create HintDb preserves.
#[export] Hint Resolve preserves_ret preserves_get preserves_gets
  preserves_deref preserves_undefined preserves_internalError
  preserves_int_div : preserves.

Ltac preserves_step :=
  lazymatch goal with
  | |- preserves _ (mbind _ _) => apply preserves_bind; [tc_solve..| | intros ?]
  | |- preserves _ (if ?c then _ else _) => destruct c
  | |- preserves _ (match ?x with _ => _ end) => destruct x
  | |- preserves _ _ => solve [eauto with preserves typeclass_instances]
  end.

Ltac preserves_auto := repeat preserves_step.

(** Operations that read the state only. *)
Abbreviation readonly := (preserves eq).

(** Operations that only touch the staged move list. *)
Abbreviation frames := (preserves onlyMoves).

Lemma onlyMoves_shared st st' : onlyMoves st st' → shared st' = shared st.
Proof. unfold onlyMoves. intros ->. reflexivity. Qed.

#[export] Instance onlyMoves_refl : Reflexive onlyMoves.
Proof. intros st. unfold onlyMoves. by destruct st. Qed.

#[export] Instance onlyMoves_trans : Transitive onlyMoves.
Proof. unfold onlyMoves. intros st1 st2 st3 -> ->. reflexivity. Qed.

Lemma frames_modify_moves (f : DetailedMgr -> MoveList) :
  frames (modify (fun st => set_moves (f st) st)).
Proof. intros st a st' [= _ <-]. reflexivity. Qed.
#[export] Hint Resolve frames_modify_moves : preserves.

Lemma readonly_frames {A : Type} (m : M A) : readonly m → frames m.
Proof. intros H st a st' ->%H. reflexivity. Qed.

Lemma frames_clearMoveList : frames clearMoveList.
Proof. unfold clearMoveList. apply frames_modify_moves. Qed.

Section accessors.
Context (R : relation DetailedMgr) `{!Reflexive R, !Transitive R}.

Lemma preserves_node ndi : preserves R (node ndi).
Proof. unfold node. preserves_auto. Qed.
Lemma preserves_segment s : preserves R (segment s).
Proof. unfold segment. preserves_auto. Qed.
Lemma preserves_cellsInSeg s : preserves R (cellsInSeg s).
Proof. unfold cellsInSeg. preserves_auto. Qed.
Lemma preserves_row r : preserves R (row r).
Proof. unfold row. preserves_auto. Qed.
Lemma preserves_centersOf c : preserves R (centersOf c).
Proof. unfold centersOf. preserves_auto. Qed.
Lemma preserves_reverseCellToSegs c : preserves R (reverseCellToSegs c).
Proof. unfold reverseCellToSegs. preserves_auto. Qed.
Hint Resolve preserves_node preserves_segment preserves_cellsInSeg
  preserves_row preserves_centersOf preserves_reverseCellToSegs : preserves.

Lemma preserves_alignPos ndi xi xl xr : preserves R (alignPos ndi xi xl xr).
Proof. unfold alignPos. preserves_auto. Qed.
Lemma preserves_lower_bound_x cells xj : preserves R (lower_bound_x cells xj).
Proof. unfold lower_bound_x. preserves_auto. Qed.
Lemma preserves_optNode p : preserves R (optNode p).
Proof. unfold optNode. preserves_auto. Qed.
Lemma preserves_shift cells t p l r s rw :
  preserves R (shift cells t p l r s rw).
Proof. unfold shift. preserves_auto. Qed.
Lemma preserves_mapM {A B : Type} (f : A -> M B) (l : list A) :
  (∀ a, preserves R (f a)) → preserves R (mapM f l).
Proof. intros Hf. induction l as [|a l IH]; simpl; preserves_auto. Qed.
Lemma preserves_findSegAt nd xj rowSegs : preserves R (findSegAt nd xj rowSegs).
Proof. induction rowSegs as [|p rest IH]; simpl; preserves_auto. Qed.
Hint Resolve preserves_findSegAt preserves_optNode preserves_lower_bound_x
  : preserves.
Lemma preserves_collectSegs nd xj rows : ∀ segs,
  preserves R (collectSegs nd xj rows segs).
Proof. induction rows as [|r rows IH]; intros; simpl; preserves_auto. Qed.
Lemma preserves_neighbours ndi cells it : preserves R (neighbours ndi cells it).
Proof. unfold neighbours. preserves_auto. Qed.
Hint Resolve preserves_neighbours : preserves.
Lemma preserves_gapOfSegs ndi nd xj segs : ∀ xmin xmax,
  preserves R (gapOfSegs ndi nd xj segs xmin xmax).
Proof. induction segs as [|s segs IH]; intros; simpl; preserves_auto. Qed.
Lemma preserves_cellAt cells i : preserves R (cellAt cells i).
Proof. unfold cellAt. preserves_auto. Qed.
End accessors.

#[export] Hint Resolve preserves_node preserves_segment preserves_cellsInSeg
  preserves_row preserves_centersOf preserves_reverseCellToSegs
  preserves_alignPos preserves_lower_bound_x preserves_optNode preserves_shift
  preserves_findSegAt preserves_collectSegs preserves_neighbours
  preserves_gapOfSegs preserves_cellAt : preserves.
#[export] Hint Resolve frames_clearMoveList : preserves.

Lemma frames_recordMove ndi cl cb cs nl nb ns :
  frames (recordMove ndi cl cb cs nl nb ns).
Proof.
  unfold recordMove. preserves_auto.
Qed.
#[export] Hint Resolve frames_recordMove : preserves.

Lemma frames_addToMoveList ndi cl cb cs nl nb ns :
  frames (addToMoveList ndi cl cb cs nl nb ns).
Proof. unfold addToMoveList. preserves_auto. Qed.

Lemma frames_addToMoveList_segs ndi cl cb cs nl nb ns :
  frames (addToMoveList_segs ndi cl cb cs nl nb ns).
Proof. unfold addToMoveList_segs. preserves_auto. Qed.

#[export] Hint Resolve frames_addToMoveList frames_addToMoveList_segs
  : preserves.

Lemma frames_shiftRightLoop rest : ∀ ndi ndr xj sj o sp,
  frames (shiftRightLoop ndi ndr xj sj o sp rest).
Proof.
  induction rest as [|nxt rest IH]; intros; simpl; preserves_auto.
Qed.

Lemma frames_shiftLeftLoop rest : ∀ ndi ndl xj sj o sp,
  frames (shiftLeftLoop ndi ndl xj sj o sp rest).
Proof.
  induction rest as [|nxt rest IH]; intros; simpl; preserves_auto.
Qed.
#[export] Hint Resolve frames_shiftRightLoop frames_shiftLeftLoop
  : preserves.

Lemma frames_shiftRightHelper ndi xj sj ndr :
  frames (shiftRightHelper ndi xj sj ndr).
Proof. unfold shiftRightHelper. preserves_auto. Qed.

Lemma frames_shiftLeftHelper ndi xj sj ndl :
  frames (shiftLeftHelper ndi xj sj ndl).
Proof. unfold shiftLeftHelper. preserves_auto. Qed.
#[export] Hint Resolve frames_shiftRightHelper frames_shiftLeftHelper : preserves.

Lemma frames_tryMove1 ndi xi yi si xj yj sj :
  frames (tryMove1 ndi xi yi si xj yj sj).
Proof. unfold tryMove1. preserves_auto. Qed.

Lemma frames_tryMove2 ndi xi yi si xj yj sj :
  frames (tryMove2 ndi xi yi si xj yj sj).
Proof. unfold tryMove2. preserves_auto. Qed.

Lemma frames_tryMove3 ndi xi yi si xj yj sj :
  frames (tryMove3 ndi xi yi si xj yj sj).
Proof.
  unfold tryMove3. preserves_auto.
  apply preserves_mapM; [tc_solve..|]. intros p. preserves_auto.
Qed.

Lemma frames_trySwap1 ndi xi yi si xj yj sj :
  frames (trySwap1 ndi xi yi si xj yj sj).
Proof. unfold trySwap1. preserves_auto. Qed.

Lemma frames_rejectMove : frames rejectMove.
Proof. apply frames_clearMoveList. Qed.

(** * Rejected proposals *)

(** C1.  When [tryMove1], [tryMove2], [tryMove3] or [trySwap1] returns
    [false], the positions of all nodes, every segment (with its
    utilization), every cell list and the reverse map are what they were
    before the call: only the staged move list may differ; and
    [rejectMove] then empties the staged list and leaves the shared state
    as it was before the call. *)
Theorem rejected_proposal_keeps_shared_state ndi xi yi si xj yj sj st st' :
  tryMove1 ndi xi yi si xj yj sj st = Ok (false, st')
  ∨ tryMove2 ndi xi yi si xj yj sj st = Ok (false, st')
  ∨ tryMove3 ndi xi yi si xj yj sj st = Ok (false, st')
  ∨ trySwap1 ndi xi yi si xj yj sj st = Ok (false, st') →
  (m_network st' = m_network st
   ∧ m_segments st' = m_segments st
   ∧ m_cellsInSeg st' = m_cellsInSeg st
   ∧ m_reverseCellToSegs st' = m_reverseCellToSegs st
   ∧ onlyMoves st st')
  ∧ ∃ st'', rejectMove st' = Ok (tt, st'')
            ∧ shared st'' = shared st ∧ staged st'' = [].
Proof.
  intros H.
  assert (Hfr : onlyMoves st st').
  { destruct H as [H|[H|[H|H]]];
      [ eapply frames_tryMove1 | eapply frames_tryMove2
      | eapply frames_tryMove3 | eapply frames_trySwap1 ]; exact H. }
  split.
  - rewrite Hfr. simpl. repeat split; reflexivity.
  - eexists. split; [reflexivity|]. split; [|reflexivity].
    rewrite Hfr. reflexivity.
Qed.

(** The theorem at the demo design: [tryMove1] of cell 2 into the full
    segment 0 is rejected. *)
Lemma rejected_proposal_keeps_shared_state_witness :
  let st := demoPlaced in
  let st' := exec (tryMove1 2 70 0 1 3 0 0) st in
  (m_network st' = m_network st
   ∧ m_segments st' = m_segments st
   ∧ m_cellsInSeg st' = m_cellsInSeg st
   ∧ m_reverseCellToSegs st' = m_reverseCellToSegs st
   ∧ onlyMoves st st')
  ∧ ∃ st'', rejectMove st' = Ok (tt, st'')
            ∧ shared st'' = shared st ∧ staged st'' = [].
Proof.
  intros st st'.
  apply (rejected_proposal_keeps_shared_state 2 70 0 1 3 0 0 st st').
  left. vm_compute. reflexivity.
Defined.

(** * Inversion of the accessors *)

Lemma gets_Ok {A : Type} (f : DetailedMgr -> A) st a st' :
  gets f st = Ok (a, st') ↔ a = f st ∧ st' = st.
Proof. unfold gets. split; [intros [= <- <-]|intros [-> ->]]; done. Qed.

Lemma mret_Ok {A : Type} (x : A) st a st' :
  (mret x : M A) st = Ok (a, st') ↔ a = x ∧ st' = st.
Proof. unfold mret, M_ret. split; [intros [= <- <-]|intros [-> ->]]; done. Qed.

Lemma node_Ok ndi st nd st' :
  node ndi st = Ok (nd, st') ↔ m_network st !! ndi = Some nd ∧ st' = st.
Proof. unfold node. rewrite (bind_run _ _ _ _ _ (gets_run _ _)). apply deref_Ok. Qed.

Lemma index_of_Some z i : index_of z = Some i ↔ 0 <= z ∧ i = Z.to_nat z.
Proof.
  unfold index_of. case_decide; split.
  - intros [= <-]. done.
  - intros [_ ->]. done.
  - discriminate.
  - intros [? _]. lia.
Qed.

Lemma segment_Ok s st sg st' :
  segment s st = Ok (sg, st') ↔
  0 <= s ∧ m_segments st !! Z.to_nat s = Some sg ∧ st' = st.
Proof.
  unfold segment. rewrite (bind_run _ _ _ _ _ (gets_run _ _)). split.
  - intros (i & st1 & [Hi ->]%deref_Ok & [H ->]%deref_Ok)%bind_Ok.
    apply index_of_Some in Hi as [? ->]. done.
  - intros (H0 & H & ->). apply bind_Ok. exists (Z.to_nat s), st. split.
    + apply deref_Ok. split; [|done]. by apply index_of_Some.
    + by apply deref_Ok.
Qed.

Lemma row_Ok r st rw st' :
  row r st = Ok (rw, st') ↔
  0 <= r ∧ getRows (m_arch st) !! Z.to_nat r = Some rw ∧ st' = st.
Proof.
  unfold row. rewrite (bind_run _ _ _ _ _ (gets_run _ _)). split.
  - intros (i & st1 & [Hi ->]%deref_Ok & [H ->]%deref_Ok)%bind_Ok.
    apply index_of_Some in Hi as [? ->]. done.
  - intros (H0 & H & ->). apply bind_Ok. exists (Z.to_nat r), st. split.
    + apply deref_Ok. split; [|done]. by apply index_of_Some.
    + by apply deref_Ok.
Qed.

Lemma cellsInSeg_Ok s st cells st' :
  cellsInSeg s st = Ok (cells, st') ↔
  0 <= s ∧ m_cellsInSeg st !! Z.to_nat s = Some cells ∧ st' = st.
Proof.
  unfold cellsInSeg. rewrite (bind_run _ _ _ _ _ (gets_run _ _)). split.
  - intros (i & st1 & [Hi ->]%deref_Ok & [H ->]%deref_Ok)%bind_Ok.
    apply index_of_Some in Hi as [? ->]. done.
  - intros (H0 & H & ->). apply bind_Ok. exists (Z.to_nat s), st. split.
    + apply deref_Ok. split; [|done]. by apply index_of_Some.
    + by apply deref_Ok.
Qed.

Lemma reverseCellToSegs_Ok c st rev st' :
  reverseCellToSegs c st = Ok (rev, st') ↔
  m_reverseCellToSegs st !! c = Some rev ∧ st' = st.
Proof.
  unfold reverseCellToSegs. rewrite (bind_run _ _ _ _ _ (gets_run _ _)).
  apply deref_Ok.
Qed.

Lemma recordMove_inv ndi cl cb cs nl nb ns st u st' :
  recordMove ndi cl cb cs nl nb ns st = Ok (u, st') →
  staged st' = staged st ++ [Some (mkMove ndi cl cb cs nl nb ns)]
  ∧ onlyMoves st st'.
Proof.
  unfold recordMove. rewrite (bind_run _ _ _ st st) by reflexivity.
  intros (a1 & ? & [[H1 ->]%store_at_Some ->]%deref_Ok & H)%bind_Ok.
  apply bind_Ok in H as (a2 & ? & [[H2 ->]%store_at_Some ->]%deref_Ok & H).
  apply bind_Ok in H as (a3 & ? & [[H3 ->]%store_at_Some ->]%deref_Ok & H).
  apply bind_Ok in H as (a4 & ? & [[H4 ->]%store_at_Some ->]%deref_Ok & H).
  apply bind_Ok in H as (a5 & ? & [[H5 ->]%store_at_Some ->]%deref_Ok & H).
  apply bind_Ok in H as (a6 & ? & [[H6 ->]%store_at_Some ->]%deref_Ok & H).
  apply bind_Ok in H as (a7 & ? & [[H7 ->]%store_at_Some ->]%deref_Ok & H).
  injection H as _ <-. split; [|reflexivity].
  apply staged_snoc.
  - reflexivity.
  - intros i Hi. unfold moveAt; simpl.
    rewrite !list_lookup_insert_ne by lia. done.
  - unfold moveAt; simpl.
    rewrite !list_lookup_insert_eq by assumption. done.
Qed.

Lemma addToMoveList_segs_inv ndi cl cb cs nl nb ns st ok st' :
  addToMoveList_segs ndi cl cb cs nl nb ns st = Ok (ok, st') →
  if ok then staged st' = staged st ++ [Some (mkMove ndi cl cb cs nl nb ns)]
  else st' = st.
Proof.
  unfold addToMoveList_segs. rewrite (bind_run _ _ _ st st) by reflexivity.
  case_decide.
  - intros [-> ->]%mret_Ok. done.
  - intros (u & st1 & H1%recordMove_inv & [-> ->]%mret_Ok)%bind_Ok.
    apply H1.
Qed.

(** * The rows of a multi-height move *)

Lemma findSegAt_Some nd xj rowSegs st s st' :
  findSegAt nd xj rowSegs st = Ok (Some s, st') →
  ∃ p sg, p ∈ rowSegs ∧ m_segments st !! p = Some sg
          ∧ getRegId sg = getRegionId nd
          ∧ getMinX sg <= xj ∧ xj <= getMaxX sg.
Proof.
  induction rowSegs as [|p rest IH]; simpl.
  - intros [[=] _]%mret_Ok.
  - rewrite (bind_run _ _ _ st st) by reflexivity.
    intros (sg & ? & [Hsg ->]%deref_Ok & H)%bind_Ok.
    case_decide as Hm.
    + exists p, sg. split; [left|]. split; [done|]. lia.
    + destruct (IH H) as (p' & sg' & Hin & Hrest).
      exists p', sg'. split; [by right|done].
Qed.

Lemma length_ints lo hi : length (ints lo hi) = Z.to_nat (hi - lo + 1).
Proof. unfold ints. by rewrite length_fmap, length_seq. Qed.

Lemma collectSegs_rows nd xj rows : ∀ segs st segs' st',
  collectSegs nd xj rows segs st = Ok (segs', st') →
  (length segs' ≤ length segs + length rows)%nat
  ∧ (length segs' = (length segs + length rows)%nat →
     ∀ r, r ∈ rows → rowHasSegAt st nd xj r).
Proof.
  induction rows as [|r rows IH]; intros segs st segs' st'; simpl.
  - intros [-> ->]%mret_Ok. split; [lia|]. intros _ r Hr. inversion Hr.
  - rewrite (bind_run _ _ _ st st) by reflexivity.
    intros (i & ? & [Hi ->]%deref_Ok & H)%bind_Ok.
    apply bind_Ok in H as (rowSegs & ? & [Hrow ->]%deref_Ok & H).
    apply bind_Ok in H as (got & st1 & Hgot & H).
    pose proof (preserves_findSegAt eq _ _ _ _ _ _ Hgot) as <-.
    destruct got as [s|].
    + apply IH in H as [Hle Hall]. rewrite length_app in Hle, Hall.
      simpl in *. split; [lia|]. intros Hlen r' Hr'.
      apply elem_of_cons in Hr' as [->|Hr'].
      * apply findSegAt_Some in Hgot as (p & sg & Hp & Hsg & Hreg & H1 & H2).
        exists i, rowSegs, p, sg. done.
      * apply Hall; [lia|done].
    + apply mret_Ok in H as [-> ->]. split; [lia|]. intros Hlen. lia.
Qed.

(** * Moves of cells that span several rows *)

Lemma tryMove3_inv ndi xi yi si xj yj sj st b st' :
  tryMove3 ndi xi yi si xj yj sj st = Ok (b, st') →
  b = false ∨
  ∃ nd sg segs st1 cl cb cs nl nb,
    m_network st !! ndi = Some nd
    ∧ 0 <= sj ∧ m_segments st !! Z.to_nat sj = Some sg
    ∧ 1 < getCellHeightInRows (m_arch st) nd
    ∧ collectSegs nd xj (targetRows (m_arch st) sg nd) [] (exec clearMoveList st)
      = Ok (segs, st1)
    ∧ Z.of_nat (length segs) = getCellHeightInRows (m_arch st) nd
    ∧ addToMoveList_segs ndi cl cb cs nl nb segs (exec clearMoveList st)
      = Ok (true, st').
Proof.
  unfold tryMove3.
  intros (u & st0 & Hclr & H)%bind_Ok.
  assert (st0 = exec clearMoveList st) as Hst0.
  { unfold exec. by rewrite Hclr. }
  assert (m_arch st0 = m_arch st ∧ m_network st0 = m_network st
          ∧ m_segments st0 = m_segments st) as (Harch & Hnw & Hsgs).
  { unfold clearMoveList, modify in Hclr. injection Hclr as _ <-. done. }
  rewrite (bind_run _ _ _ st0 st0) in H by reflexivity.
  apply bind_Ok in H as (nd & ? & [Hnd ->]%node_Ok & H).
  apply bind_Ok in H as (rev & ? & [Hrev ->]%reverseCellToSegs_Ok & H).
  destruct (decide (_ ∨ _)) as [Hsp|Hsp];
    [apply mret_Ok in H as [-> _]; by left|].
  apply bind_Ok in H as (sg & ? & (Hsj & Hsg & ->)%segment_Ok & H).
  apply bind_Ok in H as (rw & ? & (_ & _ & ->)%row_Ok & H).
  apply bind_Ok in H as (rwb & ? & (_ & _ & ->)%row_Ok & H).
  destruct (negb _); [apply mret_Ok in H as [-> _]; by left|].
  apply bind_Ok in H as (segs & st1 & Hcol & H).
  pose proof (preserves_collectSegs eq _ _ _ _ _ _ _ Hcol) as <-.
  destruct (decide (Z.of_nat (length segs) ≠ _)) as [Hlen|Hlen];
    [apply mret_Ok in H as [-> _]; by left|].
  apply bind_Ok in H as (gap & st2 & Hgap & H).
  pose proof (preserves_gapOfSegs eq _ _ _ _ _ _ _ _ _ Hgap) as <-.
  destruct gap as [[[xmin|] [xmax|]]|];
    try (apply mret_Ok in H as [-> _]; by left); try discriminate H.
  destruct (decide (getWidth nd <= _));
    [|apply mret_Ok in H as [-> _]; by left].
  apply bind_Ok in H as ([ok xj'] & st3 & Hal & H).
  pose proof (preserves_alignPos eq _ _ _ _ _ _ _ Hal) as <-.
  destruct ok; simpl in H; [|apply mret_Ok in H as [-> _]; by left].
  apply bind_Ok in H as (old & st4 & Hold & H).
  assert (st4 = st0) as ->.
  { match type of Hold with
    | ?m _ = _ => assert (readonly m) as Hro
    end.
    { apply preserves_mapM; [tc_solve..|]. intros p. preserves_auto. }
    symmetry. eapply Hro, Hold. }
  apply bind_Ok in H as (ok & st5 & Hadd & H).
  destruct ok; simpl in H; apply mret_Ok in H as [-> ->]; [|by left].
  right. rewrite Harch, Hnw, Hsgs in *.
  exists nd, sg, segs, st0. do 5 eexists.
  split; [done|]. split; [done|]. split; [done|].
  split; [lia|]. rewrite <- Hst0.
  split; [exact Hcol|]. split; [lia|]. exact Hadd.
Qed.



(** * The reverse map *)

(** * Exact effect of adding and removing a cell *)

Lemma centersOf_Ok cells st keys st' :
  centersOf cells st = Ok (keys, st') ↔
  mapM (fun i => center2 <$> (m_network st !! i)) cells = Some keys ∧ st' = st.
Proof.
  unfold centersOf. rewrite (bind_run _ _ _ _ _ (gets_run _ _)).
  apply deref_Ok.
Qed.

Lemma modify_Ok f st u st' : modify f st = Ok (u, st') ↔ st' = f st.
Proof.
  unfold modify. destruct u. split; [intros [= <-]|intros ->]; done.
Qed.

Lemma addCellToSegment_inv ndi seg st u st' :
  addCellToSegment ndi seg st = Ok (u, st') →
  ∃ nd cells rev it,
    0 <= seg
    ∧ m_network st !! ndi = Some nd
    ∧ m_cellsInSeg st !! Z.to_nat seg = Some cells
    ∧ m_reverseCellToSegs st !! ndi = Some rev
    ∧ (Z.to_nat seg < length (m_segments st))%nat
    ∧ (it ≤ length cells)%nat
    ∧ (Z.to_nat seg ∉ rev)
    ∧ Z.of_nat (length rev) < to_size_t (getCellHeightInRows (m_arch st) nd)
    ∧ st' = added st ndi (Z.to_nat seg) it cells rev (ceil_int (getWidth nd)).
Proof.
  unfold addCellToSegment.
  intros (nd & ? & [Hnd ->]%node_Ok & H)%bind_Ok.
  apply bind_Ok in H as (cells & ? & (Hseg & Hcells & ->)%cellsInSeg_Ok & H).
  apply bind_Ok in H as (s & ? & [[_ ->]%index_of_Some ->]%deref_Ok & H).
  apply bind_Ok in H as (keys & ? & [Hkeys ->]%centersOf_Ok & H).
  rewrite (bind_run _ _ _ st st) in H by reflexivity.
  apply bind_Ok in H as (cis & ? & [[Hs1 ->]%store_at_Some ->]%deref_Ok & H).
  apply bind_Ok in H as (sgs & ? & [[Hs2 ->]%alter_at_Some ->]%deref_Ok & H).
  apply bind_Ok in H as (? & st1 & ->%modify_Ok & H).
  apply bind_Ok in H as (rev & ? & [Hrev ->]%reverseCellToSegs_Ok & H).
  simpl in Hrev.
  destruct (decide (_ ∈ rev)) as [|Hnin]; [discriminate H|].
  destruct (decide (_ >= _)) as [|Hlt]; [discriminate H|].
  rewrite (bind_run _ _ _ _ _ eq_refl) in H.
  apply bind_Ok in H as (rv & ? & [[Hs3 ->]%store_at_Some ->]%deref_Ok & H).
  apply modify_Ok in H as ->.
  apply length_mapM in Hkeys.
  exists nd, cells, rev, (lower_bound keys (center2 nd)).
  repeat split; try done; try lia.
  rewrite Hkeys. generalize (center2 nd). clear.
  induction keys as [|k keys IH]; intros x; simpl; [lia|].
  case_decide; simpl; [specialize (IH x)|]; lia.
Qed.

Lemma list_find_eq_Some (x : nat) (l : list nat) i y :
  list_find (fun c => c = x) l = Some (i, y) →
  y = x ∧ l !! i = Some x.
Proof. intros (H1 & -> & _)%list_find_Some. done. Qed.

Lemma list_find_eq_None (x : nat) (l : list nat) :
  list_find (fun c => c = x) l = None → x ∉ l.
Proof.
  intros H%list_find_None Hin. rewrite Forall_forall in H.
  by apply (H x).
Qed.

Lemma removeCellFromSegment_inv ndi seg st u st' :
  removeCellFromSegment ndi seg st = Ok (u, st') →
  ∃ nd cells rev it its,
    0 <= seg
    ∧ m_network st !! ndi = Some nd
    ∧ m_cellsInSeg st !! Z.to_nat seg = Some cells
    ∧ m_reverseCellToSegs st !! ndi = Some rev
    ∧ (Z.to_nat seg < length (m_segments st))%nat
    ∧ cells !! it = Some ndi
    ∧ rev !! its = Some (Z.to_nat seg)
    ∧ st' = removed st ndi (Z.to_nat seg) it its cells rev
                    (ceil_int (getWidth nd)).
Proof.
  unfold removeCellFromSegment.
  intros (nd & ? & [Hnd ->]%node_Ok & H)%bind_Ok.
  apply bind_Ok in H as (cells & ? & (Hseg & Hcells & ->)%cellsInSeg_Ok & H).
  apply bind_Ok in H as (s & ? & [[_ ->]%index_of_Some ->]%deref_Ok & H).
  destruct (list_find _ cells) as [[it y]|] eqn:Hit; [|discriminate H].
  apply list_find_eq_Some in Hit as [-> Hit].
  apply bind_Ok in H as (rev & ? & [Hrev ->]%reverseCellToSegs_Ok & H).
  rewrite (bind_run _ _ _ st st) in H by reflexivity.
  apply bind_Ok in H as (sg & ? & [Hsg ->]%deref_Ok & H).
  destruct (list_find _ rev) as [[its y]|] eqn:Hits; [|discriminate H].
  apply list_find_eq_Some in Hits as [-> Hits].
  apply bind_Ok in H as (rv & ? & [[Hs3 ->]%store_at_Some ->]%deref_Ok & H).
  apply bind_Ok in H as (cis & ? & [[Hs1 ->]%store_at_Some ->]%deref_Ok & H).
  apply bind_Ok in H as (sgs & ? & [[Hs2 ->]%alter_at_Some ->]%deref_Ok & H).
  apply modify_Ok in H as ->.
  exists nd, cells, rev, it, its. repeat split; done.
Qed.

(** * The reverse map mirrors the cell lists *)

Lemma elem_of_insert_at (x c : nat) (l : list nat) it :
  c ∈ take it l ++ x :: drop it l ↔ c = x ∨ c ∈ l.
Proof.
  rewrite elem_of_app, elem_of_cons.
  assert (c ∈ l ↔ c ∈ take it l ∨ c ∈ drop it l) as ->.
  { by rewrite <- elem_of_app, take_drop. }
  tauto.
Qed.

Lemma NoDup_insert_at (x : nat) (l : list nat) it :
  NoDup l → x ∉ l → NoDup (take it l ++ x :: drop it l).
Proof.
  intros Hnd Hx. rewrite <- (take_drop it l) in Hnd, Hx.
  apply NoDup_app in Hnd as (H1 & H2 & H3).
  rewrite elem_of_app in Hx.
  apply NoDup_app. split; [done|]. split.
  - intros y Hy [->|Hy']%elem_of_cons; [tauto|]. by apply (H2 y).
  - apply NoDup_cons. tauto.
Qed.

Lemma elem_of_delete_NoDup (l : list nat) i x c :
  NoDup l → l !! i = Some x → c ∈ delete i l ↔ c ≠ x ∧ c ∈ l.
Proof.
  intros Hnd Hi.
  rewrite <- (take_drop_middle l i x Hi) in Hnd |- * at 2.
  rewrite delete_take_drop.
  apply NoDup_app in Hnd as (H1 & H2 & [H3 H4]%NoDup_cons).
  rewrite !elem_of_app, elem_of_cons. split.
  - intros [Hc|Hc].
    + split; [|tauto]. intros ->. apply (H2 x Hc). by left.
    + split; [|tauto]. by intros ->.
  - tauto.
Qed.

Lemma NoDup_delete (l : list nat) i : NoDup l → NoDup (delete i l).
Proof. intros H. eapply sublist_NoDup; [exact H|apply sublist_delete]. Qed.

Lemma consistent_unassigned st : unassigned st → consistent st.
Proof.
  intros [Hc Hr]. split; [|split].
  - intros c s. split.
    + intros (cells & Hl & Hin). rewrite (Hc _ _ Hl) in Hin. inversion Hin.
    + intros (rev & Hl & Hin). rewrite (Hr _ _ Hl) in Hin. inversion Hin.
  - split.
    + intros s cells ->%Hc. constructor.
    + intros c rev ->%Hr. constructor.
  - intros c nd rev _ ->%Hr. simpl. unfold to_size_t.
    pose proof (Z.mod_pos_bound (getCellHeightInRows (m_arch st) nd) (2 ^ 64)).
    lia.
Qed.

Lemma consistent_added st ndi s it cells rev w nd :
  consistent st →
  m_network st !! ndi = Some nd →
  m_cellsInSeg st !! s = Some cells →
  m_reverseCellToSegs st !! ndi = Some rev →
  s ∉ rev →
  Z.of_nat (length rev) < to_size_t (getCellHeightInRows (m_arch st) nd) →
  consistent (added st ndi s it cells rev w).
Proof.
  intros (Hag & [Hnc Hnr] & Hsz) Hnd Hcells Hrev Hnin Hlt.
  assert (Hs : (s < length (m_cellsInSeg st))%nat) by by eapply lookup_lt_Some.
  assert (Hn : (ndi < length (m_reverseCellToSegs st))%nat)
    by by eapply lookup_lt_Some.
  assert (Hfresh : ndi ∉ cells).
  { intros Hin. apply Hnin.
    destruct (proj1 (Hag ndi s)) as (rev' & Hrev' & Hin'); [by exists cells|].
    congruence. }
  split; [|split].
  - intros c s'. unfold inCellList, inReverseMap, added; simpl.
    destruct (decide (s' = s)) as [->|Hs'];
      destruct (decide (c = ndi)) as [->|Hc].
    + rewrite list_lookup_insert_eq, list_lookup_insert_eq by done. split.
      * intros _. eexists. split; [done|]. apply elem_of_app. right. by left.
      * intros _. eexists. split; [done|]. apply elem_of_insert_at. by left.
    + rewrite list_lookup_insert_eq, list_lookup_insert_ne by done.
      rewrite <- (Hag c s). unfold inCellList. split.
      * intros (? & [= <-] & [?|?]%elem_of_insert_at); [done|]. eauto.
      * intros (? & ? & ?). eexists. split; [done|].
        apply elem_of_insert_at. right. congruence.
    + rewrite list_lookup_insert_ne, list_lookup_insert_eq by done.
      rewrite (Hag ndi s'). unfold inReverseMap. split.
      * intros (? & ? & ?). eexists. split; [done|].
        apply elem_of_app. left. congruence.
      * intros (? & [= <-] & [?|Hx]%elem_of_app); [eauto|].
        apply list_elem_of_singleton in Hx. done.
    + rewrite !list_lookup_insert_ne by done. apply Hag.
  - split; simpl.
    + intros s' cells'. destruct (decide (s' = s)) as [->|Hs'].
      * rewrite list_lookup_insert_eq by done. intros [= <-].
        apply NoDup_insert_at; [by eapply Hnc|done].
      * rewrite list_lookup_insert_ne by done. apply Hnc.
    + intros c rev'. destruct (decide (c = ndi)) as [->|Hc].
      * rewrite list_lookup_insert_eq by done. intros [= <-].
        apply NoDup_app. split; [by eapply Hnr|]. split.
        -- intros x Hx ->%list_elem_of_singleton. done.
        -- apply NoDup_singleton.
      * rewrite list_lookup_insert_ne by done. apply Hnr.
  - intros c nd' rev'; simpl. destruct (decide (c = ndi)) as [->|Hc].
    + rewrite list_lookup_insert_eq by done. intros Hnd' [= <-].
      rewrite Hnd in Hnd'. injection Hnd' as <-.
      rewrite length_app. simpl. lia.
    + rewrite list_lookup_insert_ne by done. apply Hsz.
Qed.

Lemma consistent_removed st ndi s it its cells rev w :
  consistent st →
  m_cellsInSeg st !! s = Some cells →
  m_reverseCellToSegs st !! ndi = Some rev →
  cells !! it = Some ndi → rev !! its = Some s →
  consistent (removed st ndi s it its cells rev w).
Proof.
  intros (Hag & [Hnc Hnr] & Hsz) Hcells Hrev Hit Hits.
  assert (Hs : (s < length (m_cellsInSeg st))%nat) by by eapply lookup_lt_Some.
  assert (Hn : (ndi < length (m_reverseCellToSegs st))%nat)
    by by eapply lookup_lt_Some.
  pose proof (Hnc _ _ Hcells) as Hndc. pose proof (Hnr _ _ Hrev) as Hndr.
  split; [|split].
  - intros c s'. unfold inCellList, inReverseMap, removed; simpl.
    destruct (decide (s' = s)) as [->|Hs'];
      destruct (decide (c = ndi)) as [->|Hc].
    + rewrite list_lookup_insert_eq, list_lookup_insert_eq by done. split.
      * intros (? & [= <-] & [? _]%(elem_of_delete_NoDup _ _ ndi)); done.
      * intros (? & [= <-] & [? _]%(elem_of_delete_NoDup _ _ s)); done.
    + rewrite list_lookup_insert_eq, list_lookup_insert_ne by done.
      rewrite <- (Hag c s). unfold inCellList. split.
      * intros (? & [= <-] & [_ ?]%(elem_of_delete_NoDup _ _ ndi)); eauto.
      * intros (? & ? & ?). eexists. split; [done|].
        apply (elem_of_delete_NoDup _ _ ndi); [done..|]. split; congruence.
    + rewrite list_lookup_insert_ne, list_lookup_insert_eq by done.
      rewrite (Hag ndi s'). unfold inReverseMap. split.
      * intros (? & ? & ?). eexists. split; [done|].
        apply (elem_of_delete_NoDup _ _ s); [done..|]. split; congruence.
      * intros (? & [= <-] & [_ ?]%(elem_of_delete_NoDup _ _ s)); eauto.
    + rewrite !list_lookup_insert_ne by done. apply Hag.
  - split; simpl.
    + intros s' cells'. destruct (decide (s' = s)) as [->|Hs'].
      * rewrite list_lookup_insert_eq by done. intros [= <-].
        by apply NoDup_delete.
      * rewrite list_lookup_insert_ne by done. apply Hnc.
    + intros c rev'. destruct (decide (c = ndi)) as [->|Hc].
      * rewrite list_lookup_insert_eq by done. intros [= <-].
        by apply NoDup_delete.
      * rewrite list_lookup_insert_ne by done. apply Hnr.
  - intros c nd' rev'; simpl. destruct (decide (c = ndi)) as [->|Hc].
    + rewrite list_lookup_insert_eq by done. intros Hnd' [= <-].
      pose proof (Hsz _ _ _ Hnd' Hrev) as Hle.
      pose proof (length_delete rev its). 
      assert (length (delete its rev) ≤ length rev)%nat.
      { apply sublist_length, sublist_delete. }
      lia.
    + rewrite list_lookup_insert_ne by done. apply Hsz.
Qed.

Lemma reachable_consistent st : reachable st → consistent st.
Proof.
  induction 1 as [st Hun|st ndi seg st' _ IH Hadd|st ndi seg st' _ IH Hrem].
  - by apply consistent_unassigned.
  - apply addCellToSegment_inv in Hadd
      as (nd & cells & rev & it & ? & ? & ? & ? & ? & ? & ? & ? & ->).
    by eapply consistent_added.
  - apply removeCellFromSegment_inv in Hrem
      as (nd & cells & rev & it & its & ? & ? & ? & ? & ? & ? & ? & ->).
    by eapply consistent_removed.
Qed.

Lemma to_size_t_le z : 0 <= z → to_size_t z <= z.
Proof. intros. unfold to_size_t. apply Z.mod_le; lia. Qed.

Lemma addCellToSegment_fatal st ndi seg nd rev :
  addDefined st ndi seg →
  m_network st !! ndi = Some nd →
  m_reverseCellToSegs st !! ndi = Some rev →
  Z.to_nat seg ∈ rev
  ∨ to_size_t (getCellHeightInRows (m_arch st) nd) <= Z.of_nat (length rev) →
  addCellToSegment ndi seg st
    = Fatal "Segment already present in cell to segment map"
  ∨ addCellToSegment ndi seg st
    = Fatal "Cell to segment map incorrectly sized".
Proof.
  intros (Hseg & _ & (cells & Hcells & Hall) & Hsg & _) Hnd Hrev Hbad.
  assert (∃ keys, mapM (fun i => center2 <$> (m_network st !! i)) cells
                  = Some keys) as [keys Hkeys].
  { apply mapM_is_Some. eapply Forall_impl; [exact Hall|].
    intros c [x Hx]; simpl. rewrite Hx. by eexists. }
  unfold addCellToSegment.
  rewrite (bind_run _ _ _ nd st) by by apply node_Ok.
  rewrite (bind_run _ _ _ cells st) by by apply cellsInSeg_Ok.
  rewrite (bind_run _ _ _ (Z.to_nat seg) st)
    by (apply deref_Ok; split; [by apply index_of_Some|done]).
  rewrite (bind_run _ _ _ keys st) by by apply centersOf_Ok.
  rewrite (bind_run _ _ _ st st) by reflexivity.
  rewrite store_at_lt by by eapply lookup_lt_Some.
  rewrite (bind_run _ _ _ _ st) by reflexivity.
  rewrite alter_at_lt by by apply lookup_lt_is_Some.
  rewrite (bind_run _ _ _ _ st) by reflexivity.
  rewrite (bind_run _ _ _ tt _) by reflexivity.
  rewrite (bind_run _ _ _ rev _) by by apply reverseCellToSegs_Ok.
  destruct (decide (Z.to_nat seg ∈ rev)); [by left|].
  destruct (decide (_ >= _)); [by right|].
  destruct Hbad; [done|lia].
Qed.




(** * Invariants of the utilization *)

(** * Utilization *)

Lemma cellWidths_app st l1 l2 :
  cellWidths st (l1 ++ l2) = cellWidths st l1 + cellWidths st l2.
Proof.
  unfold cellWidths. induction l1 as [|c l1 IH]; simpl; [done|].
  rewrite IH. lia.
Qed.

Lemma cellWidths_insert_at st x l it :
  cellWidths st (take it l ++ x :: drop it l) = widthOf st x + cellWidths st l.
Proof.
  rewrite <- (take_drop it l) at 3. rewrite !cellWidths_app.
  unfold cellWidths at 2; simpl. fold (cellWidths st (drop it l)). lia.
Qed.

Lemma cellWidths_delete st x l it :
  l !! it = Some x →
  cellWidths st (delete it l) = cellWidths st l - widthOf st x.
Proof.
  intros H. rewrite <- (take_drop_middle l it x H) at 2.
  rewrite delete_take_drop, !cellWidths_app.
  unfold cellWidths at 4; simpl. fold (cellWidths st (drop (S it) l)). lia.
Qed.

Lemma cellWidths_ext st st' l :
  (∀ c, widthOf st' c = widthOf st c) → cellWidths st' l = cellWidths st l.
Proof.
  intros H. unfold cellWidths. induction l as [|c l IH]; simpl; [done|].
  by rewrite H, IH.
Qed.

Lemma utilOk_added st ndi s it cells rev nd :
  utilOk st →
  m_network st !! ndi = Some nd →
  m_cellsInSeg st !! s = Some cells →
  utilOk (added st ndi s it cells rev (ceil_int (getWidth nd))).
Proof.
  intros Hok Hnd Hcells s' sg' cells'. unfold added; simpl.
  assert (Hs : (s < length (m_cellsInSeg st))%nat) by by eapply lookup_lt_Some.
  destruct (decide (s' = s)) as [->|Hs'].
  - rewrite list_lookup_alter_eq, list_lookup_insert_eq by done.
    destruct (m_segments st !! s) as [sg|] eqn:Hsg; [|discriminate].
    intros [= <-] [= <-]. simpl.
    rewrite (Hok s sg cells Hsg Hcells).
    change (cellWidths (set_reverseCellToSegs _ _) ?l) with (cellWidths st l).
    rewrite cellWidths_insert_at. unfold widthOf. rewrite Hnd. lia.
  - rewrite list_lookup_alter_ne, list_lookup_insert_ne by done.
    apply Hok.
Qed.

Lemma utilOk_removed st ndi s it its cells rev nd :
  utilOk st →
  m_network st !! ndi = Some nd →
  m_cellsInSeg st !! s = Some cells →
  cells !! it = Some ndi →
  utilOk (removed st ndi s it its cells rev (ceil_int (getWidth nd))).
Proof.
  intros Hok Hnd Hcells Hit s' sg' cells'. unfold removed; simpl.
  assert (Hs : (s < length (m_cellsInSeg st))%nat) by by eapply lookup_lt_Some.
  destruct (decide (s' = s)) as [->|Hs'].
  - rewrite list_lookup_alter_eq, list_lookup_insert_eq by done.
    destruct (m_segments st !! s) as [sg|] eqn:Hsg; [|discriminate].
    simpl. intros Hx Hy. injection Hx as <-. injection Hy as <-. simpl.
    rewrite (Hok s sg cells Hsg Hcells).
    change (cellWidths (set_segments _ _) ?l) with (cellWidths st l).
    rewrite (cellWidths_delete _ ndi) by done. unfold widthOf. rewrite Hnd. lia.
  - rewrite list_lookup_alter_ne, list_lookup_insert_ne by done.
    apply Hok.
Qed.

#[export] Instance keeping_refl I : Reflexive (keeping I).
Proof. intros st H. exact H. Qed.

#[export] Instance keeping_trans I : Transitive (keeping I).
Proof. intros st1 st2 st3 H1 H2 H. apply H2, H1, H. Qed.

Lemma preserves_forM {A : Type} (R : relation DetailedMgr)
    `{!Reflexive R, !Transitive R} (l : list A) (f : A -> M unit) :
  (∀ a, preserves R (f a)) → preserves R (forM l f).
Proof. intros Hf. induction l as [|a l IH]; simpl; preserves_auto. Qed.

Lemma keeps_utilOk_add ndi seg :
  preserves (keeping utilOk) (addCellToSegment ndi seg).
Proof.
  intros st u st' H Hok.
  apply addCellToSegment_inv in H
    as (nd & cells & rev & it & ? & ? & ? & ? & ? & ? & ? & ? & ->).
  by apply utilOk_added.
Qed.

Lemma keeps_utilOk_remove ndi seg :
  preserves (keeping utilOk) (removeCellFromSegment ndi seg).
Proof.
  intros st u st' H Hok.
  apply removeCellFromSegment_inv in H
    as (nd & cells & rev & it & its & ? & ? & ? & ? & ? & ? & ? & ->).
  by apply utilOk_removed.
Qed.

Lemma keeps_utilOk_setPosition ndi x y :
  preserves (keeping utilOk) (setPosition ndi x y).
Proof.
  intros st u st'. unfold setPosition.
  rewrite (bind_run _ _ _ st st) by reflexivity.
  intros (nw & ? & [[Hlt ->]%alter_at_Some ->]%deref_Ok & ->%modify_Ok)%bind_Ok.
  intros Hok s sg cells; simpl. intros Hsg Hcells.
  rewrite (Hok s sg cells Hsg Hcells). symmetry. apply cellWidths_ext.
  intros c. unfold widthOf; simpl.
  destruct (decide (c = ndi)) as [->|Hc].
  - rewrite list_lookup_alter_eq. by destruct (m_network st !! ndi).
  - by rewrite list_lookup_alter_ne.
Qed.

#[export] Hint Resolve keeps_utilOk_add keeps_utilOk_remove
  keeps_utilOk_setPosition : preserves.

Lemma keeps_utilOk_acceptMove : preserves (keeping utilOk) acceptMove.
Proof.
  unfold acceptMove. preserves_auto.
  apply preserves_forM; [tc_solve..|]. intros i. preserves_auto.
  - apply preserves_forM; [tc_solve..|]. intros s. preserves_auto.
  - apply preserves_forM; [tc_solve..|]. intros s. preserves_auto.
Qed.

Lemma forM_seq_inv (P : nat -> DetailedMgr -> Prop) (f : nat -> M unit) n :
  ∀ a st u st',
    (∀ i st u st', (a ≤ i < a + n)%nat → P i st → f i st = Ok (u, st') →
                   P (S i) st') →
    P a st → forM (seq a n) f st = Ok (u, st') → P (a + n)%nat st'.
Proof.
  induction n as [|n IH]; intros a st u st' Hstep Ha; simpl.
  - intros [_ ->]%mret_Ok. by rewrite Nat.add_0_r.
  - intros ([] & st1 & H1 & H2)%bind_Ok.
    replace (a + S n)%nat with (S a + n)%nat by lia.
    eapply IH; [|eapply (Hstep a); [lia|exact Ha|exact H1]|exact H2].
    intros i st2 u2 st3 Hi. apply Hstep. lia.
Qed.

Lemma removeAllCellsFromSegments_utilOk st u st' :
  storeOk st →
  removeAllCellsFromSegments st = Ok (u, st') →
  utilOk st' ∧ storeOk st'.
Proof.
  intros Hstore. unfold removeAllCellsFromSegments.
  rewrite (bind_run _ _ _ st st) by reflexivity.
  intros ([] & st1 & Hloop & ->%modify_Ok)%bind_Ok.
  set (N := length (m_segments st)) in *.
  pose (P := fun (i : nat) (s : DetailedMgr) =>
    storeOk s ∧ length (m_segments s) = N
    ∧ ∀ k, (k < i)%nat → utilOfSeg s k).
  assert (P (0 + N)%nat st1) as (Hst1 & HN & Hall).
  { eapply (forM_seq_inv P); [|split; [done|split; [done|intros; lia]]
                              |exact Hloop].
    clear Hloop. intros i s2 u2 s3 Hi (Hstore2 & HN & Hall).
    rewrite (bind_run _ _ _ s2 s2) by reflexivity.
    intros (sg & ? & [Hsg ->]%deref_Ok & H)%bind_Ok.
    apply bind_Ok in H as (segId & ? & [[_ ->]%index_of_Some ->]%deref_Ok & H).
    apply bind_Ok in H as (cis & ? & [[Hlt ->]%store_at_Some ->]%deref_Ok & H).
    apply bind_Ok in H as (sgs & ? & [[Hlt2 ->]%alter_at_Some ->]%deref_Ok & H).
    apply modify_Ok in H as ->.
    rewrite (Hstore2 _ _ Hsg), Nat2Z.id in *.
    split; [|split].
    - intros j sg'; simpl. destruct (decide (j = i)) as [->|Hj].
      + rewrite list_lookup_alter_eq, Hsg. intros [= <-]. simpl.
        by apply Hstore2.
      + rewrite list_lookup_alter_ne by done. apply Hstore2.
    - simpl. by rewrite length_alter.
    - intros k Hk sg' cells'; simpl.
      destruct (decide (k = i)) as [->|Hki].
      + rewrite list_lookup_alter_eq, Hsg, list_lookup_insert_eq by done.
        intros [= <-] [= <-]. reflexivity.
      + rewrite list_lookup_alter_ne, list_lookup_insert_ne by done.
        apply Hall. lia. }
  split; [|exact Hst1].
  intros s sg cells; simpl. intros Hsg Hcells.
  apply (Hall s); [|done..].
  apply lookup_lt_Some in Hsg. lia.
Qed.

Lemma foldl_addUtil_util (nodes : list Node) (sg : DetailedSeg) :
  getUtil (foldl (fun s nd => addUtil (ceil_int (getWidth nd)) s) sg nodes)
  = getUtil sg + foldr (fun nd acc => ceil_int (getWidth nd) + acc) 0 nodes
  ∧ getSegId (foldl (fun s nd => addUtil (ceil_int (getWidth nd)) s) sg nodes)
    = getSegId sg.
Proof.
  revert sg. induction nodes as [|nd nodes IH]; intros sg; simpl.
  - split; [lia|done].
  - destruct (IH (addUtil (ceil_int (getWidth nd)) sg)) as [-> ->].
    simpl. split; [lia|done].
Qed.

Lemma cellWidths_mapM st cells nodes :
  mapM (fun i => m_network st !! i) cells = Some nodes →
  cellWidths st cells = foldr (fun nd acc => ceil_int (getWidth nd) + acc) 0 nodes.
Proof.
  intros H%mapM_Some. induction H as [|c nd cells nodes Hc _ IH]; [done|].
  unfold cellWidths in *. simpl. unfold widthOf at 1. by rewrite Hc, IH.
Qed.

Lemma resortSegment_utilOk p st u st' :
  storeOk st →
  resortSegment p st = Ok (u, st') →
  utilOfSeg st' p ∧ (utilOk st → utilOk st') ∧ storeOk st'.
Proof.
  intros Hstore. unfold resortSegment.
  rewrite (bind_run _ _ _ st st) by reflexivity.
  intros (sg & ? & [Hsg ->]%deref_Ok & H)%bind_Ok.
  apply bind_Ok in H as (segId & ? & [[_ ->]%index_of_Some ->]%deref_Ok & H).
  apply bind_Ok in H as (cells & ? & [Hcells ->]%deref_Ok & H).
  apply bind_Ok in H as (keys & ? & [Hkeys ->]%centersOf_Ok & H).
  apply bind_Ok in H as (nodes & ? & [Hnodes ->]%deref_Ok & H).
  apply bind_Ok in H as (cis & ? & [[Hlt ->]%store_at_Some ->]%deref_Ok & H).
  apply bind_Ok in H as (sgs & ? & [[Hlt2 ->]%store_at_Some ->]%deref_Ok & H).
  apply modify_Ok in H as ->.
  rewrite (Hstore _ _ Hsg), Nat2Z.id in *.
  set (sorted := snd <$> stable_sort_by_key (zip keys cells)) in *.
  set (sg' := foldl _ _ nodes).
  destruct (foldl_addUtil_util nodes (setUtil 0 sg)) as [Hutil Hid].
  fold sg' in Hutil, Hid. simpl in Hutil, Hid.
  assert (Hp : utilOfSeg
                 (set_segments (<[p:=sg']> (m_segments st))
                    (set_cellsInSeg (<[p:=sorted]> (m_cellsInSeg st)) st)) p).
  { intros sg'' cells''; simpl.
    rewrite !list_lookup_insert_eq by done. intros [= <-] [= <-].
    rewrite Hutil.
    change (cellWidths (set_segments _ _) ?l) with (cellWidths st l).
    by rewrite (cellWidths_mapM _ _ _ Hnodes). }
  split; [exact Hp|]. split.
  - intros Hok s. destruct (decide (s = p)) as [->|Hs]; [exact Hp|].
    intros sg'' cells''; simpl.
    rewrite !list_lookup_insert_ne by done. apply Hok.
  - intros j sg''; simpl. destruct (decide (j = p)) as [->|Hj].
    + rewrite list_lookup_insert_eq by done. intros [= <-].
      rewrite Hid. by apply Hstore.
    + rewrite list_lookup_insert_ne by done. apply Hstore.
Qed.

(** * Utilization *)

(** C10.  On a store whose segments carry their index as id: after
    [removeAllCellsFromSegments] the utilization of every segment is the
    sum of the (rounded-up) widths of the cells of its list; after
    [resortSegment] this holds for the segment resorted, and for all
    segments if it held before; and [addCellToSegment],
    [removeCellFromSegment] and [acceptMove] keep it. *)
Theorem utilization_is_sum_of_cell_widths st :
  storeOk st →
  (∀ u st', removeAllCellsFromSegments st = Ok (u, st') → utilOk st')
  ∧ (∀ segPtr u st',
       resortSegment segPtr st = Ok (u, st') →
       utilOfSeg st' segPtr ∧ (utilOk st → utilOk st'))
  ∧ (∀ ndi seg u st',
       utilOk st → addCellToSegment ndi seg st = Ok (u, st') → utilOk st')
  ∧ (∀ ndi seg u st',
       utilOk st → removeCellFromSegment ndi seg st = Ok (u, st') → utilOk st')
  ∧ (∀ u st', utilOk st → acceptMove st = Ok (u, st') → utilOk st').
Proof.
  intros Hstore. split; [|split; [|split; [|split]]].
  - intros u st' H. by apply (removeAllCellsFromSegments_utilOk st u st').
  - intros segPtr u st' H.
    destruct (resortSegment_utilOk segPtr st u st' Hstore H) as (? & ? & _).
    done.
  - intros ndi seg u st' Hok H. by apply (keeps_utilOk_add ndi seg st u st').
  - intros ndi seg u st' Hok H. by apply (keeps_utilOk_remove ndi seg st u st').
  - intros u st' Hok H. by apply (keeps_utilOk_acceptMove st u st').
Qed.

(** The theorem at the demo design after assignment. *)
Lemma utilization_is_sum_of_cell_widths_witness :
  (∀ u st', removeAllCellsFromSegments demoPlaced = Ok (u, st') → utilOk st')
  ∧ (∀ segPtr u st',
       resortSegment segPtr demoPlaced = Ok (u, st') →
       utilOfSeg st' segPtr ∧ (utilOk demoPlaced → utilOk st'))
  ∧ (∀ ndi seg u st',
       utilOk demoPlaced → addCellToSegment ndi seg demoPlaced = Ok (u, st') →
       utilOk st')
  ∧ (∀ ndi seg u st',
       utilOk demoPlaced →
       removeCellFromSegment ndi seg demoPlaced = Ok (u, st') → utilOk st')
  ∧ (∀ u st', utilOk demoPlaced → acceptMove demoPlaced = Ok (u, st') →
              utilOk st').
Proof.
  apply (utilization_is_sum_of_cell_widths demoPlaced).
  intros i sg H.
  do 2 (destruct i as [|i]; [vm_compute in H; injection H as <-; reflexivity|]).
  vm_compute in H. discriminate.
Defined.

(** * The shift solver *)

(** C5 fails in the code.  On the range [[0,40)] with unit sites, for
    the single cell 1 (width 1) with target 20, [shift] returns [true]
    with the position 0, a displacement of 20, although the target itself
    is a placement on the grid inside the range, of displacement 0.  For
    the cells 2 (width 2) and 1 with targets 20 and 25 it returns the
    positions 0 and 25 where the targets themselves are a placement in
    order and without overlap.  Only [tcost[0][0]] is initialised, so the
    first cell is always put on the leftmost site of the range. *)
Theorem shift_does_not_minimize :
  (shift [1%nat] [20] [0] 0 40 0 0 demoSwap = Ok ((true, [0]), demoSwap)
   ∧ totalDisplacement [20] [0] = 20
   ∧ placementOk (m_arch demoSwap) (demoRow 1 0) [demoCell 20 0 1 10] [20]
                 0 40
   ∧ totalDisplacement [20] [20] = 0)
  ∧ (shift [2%nat; 1%nat] [20; 25] [0; 0] 0 40 0 0 demoSwap
       = Ok ((true, [0; 25]), demoSwap)
     ∧ totalDisplacement [20; 25] [0; 25] = 20
     ∧ placementOk (m_arch demoSwap) (demoRow 1 0)
                   [demoCell 25 0 2 10; demoCell 20 0 1 10] [20; 25] 0 40
     ∧ totalDisplacement [20; 25] [20; 25] = 0).
Proof.
  split.
  - split; [vm_compute; reflexivity|].
    split; [reflexivity|].
    split; [|reflexivity].
    cbn [placementOk]. repeat split; by vm_compute.
  - split; [vm_compute; reflexivity|].
    split; [reflexivity|].
    split; [|reflexivity].
    cbn [placementOk]. repeat split; by vm_compute.
Qed.

(** * The closest segment *)

Lemma improves_refl b : improves b b.
Proof. by intros c. Qed.

Lemma improves_trans b1 b2 b3 : improves b1 b2 → improves b2 b3 → improves b1 b3.
Proof. intros H1 H2 c. destruct (H1 c), (H2 c). split; auto. Qed.

Lemma seen_improves nd b b' sg c : improves b b' → seen nd b sg c → seen nd b' sg c.
Proof. intros H [H1 H2]. destruct (H c). split; auto. Qed.

Lemma hori_dist_nonneg nd sg : 0 <= hori_dist nd sg.
Proof. unfold hori_dist. lia. Qed.

Lemma lt_dist_false c d : lt_dist c d = false → covers d c.
Proof.
  destruct d as [x|]; simpl; [|discriminate].
  intros H%bool_decide_eq_false. exists x. split; [done|lia].
Qed.

Lemma lt_dist_true_covers c d c0 :
  lt_dist c d = true → covers d c0 → c <= c0.
Proof.
  intros H (x & -> & Hx). simpl in H. apply bool_decide_eq_true in H. lia.
Qed.

Lemma considerSegment_eq nd vert b p sg :
  getRegId sg = getRegionId nd →
  considerSegment nd vert b p sg =
  let c := hori_dist nd sg + vert in
  let u1 := updated (best1 b) (dist1 b) true c p in
  let u2 := updated (best2 b) (dist2 b) (seg_fits nd sg) c p in
  mkClosest (fst u1) (fst u2) (snd u1) (snd u2).
Proof.
  intros Heq. unfold considerSegment, updated.
  rewrite decide_False by congruence. cbv zeta.
  destruct b as [d1 d2 b1 b2]. cbn [dist1 dist2 best1 best2 andb].
  destruct (bool_decide (b1 = None) || lt_dist _ d1);
    cbn [dist1 dist2 best1 best2];
    destruct (seg_fits nd sg); cbn [andb];
    try destruct (bool_decide (b2 = None) || lt_dist _ d2);
    reflexivity.
Qed.

Lemma updated_paired best dist ok c p :
  (is_Some dist → is_Some best) →
  is_Some (fst (updated best dist ok c p)) →
  is_Some (snd (updated best dist ok c p)).
Proof. unfold updated. destruct (_ && _); simpl; eauto. Qed.

Lemma updated_best best dist ok c p q :
  snd (updated best dist ok c p) = Some q →
  (q = p ∧ fst (updated best dist ok c p) = Some c ∧ ok = true)
  ∨ (best = Some q ∧ fst (updated best dist ok c p) = dist).
Proof.
  unfold updated. destruct ok; simpl; [|by right].
  destruct (_ || _); simpl; [|by right]. intros [= <-]. by left.
Qed.

Lemma updated_mono best dist ok c p c0 :
  (is_Some dist → is_Some best) →
  covers dist c0 → covers (fst (updated best dist ok c p)) c0.
Proof.
  intros Hp (x & -> & Hx). unfold updated.
  destruct ok; simpl; [|by exists x].
  destruct (bool_decide (best = None)) eqn:Hb; simpl.
  - apply bool_decide_eq_true in Hb. destruct Hp as [? ?]; [eauto|congruence].
  - clear Hb. case_bool_decide; simpl; [exists c|exists x]; split; (done || lia).
Qed.

Lemma updated_covers best dist c p :
  covers (fst (updated best dist true c p)) c.
Proof.
  unfold updated. simpl. destruct (bool_decide (best = None)); simpl.
  - exists c. split; [done|lia].
  - destruct (lt_dist c dist) eqn:H; simpl.
    + exists c. split; [done|lia].
    + by apply lt_dist_false.
Qed.

Lemma considerSegment_props st nd row r p sg b :
  sound st nd row b →
  (r < m_numSingleHeightRows st)%nat →
  (∃ rowSegs, m_segsInRow st !! r = Some rowSegs ∧ p ∈ rowSegs) →
  m_segments st !! p = Some sg →
  let b' := considerSegment nd (rowDistance st row r) b p sg in
  sound st nd row b' ∧ improves b b'
  ∧ (getRegId sg = getRegionId nd → seen nd b' sg (segCost st nd row r sg)).
Proof.
  intros ([Hp1 Hp2] & H1 & H2) Hr Hin Hsg b'.
  destruct (decide (getRegId sg = getRegionId nd)) as [Heq|Hne]; cycle 1.
  { subst b'. unfold considerSegment. rewrite decide_True by congruence.
    split; [done|]. split; [apply improves_refl|done]. }
  assert (Hcand : candidate st nd r p sg) by done.
  subst b'. rewrite considerSegment_eq by done. cbv zeta.
  fold (segCost st nd row r sg). set (c := segCost st nd row r sg).
  split; [|split].
  - split; [split|split]; cbn [dist1 dist2 best1 best2].
    + by apply updated_paired.
    + by apply updated_paired.
    + intros q [(-> & -> & _)|[Hq ->]]%updated_best; eauto.
    + intros q [(-> & -> & Hfit)|[Hq ->]]%updated_best; eauto.
  - intros c0; cbn [dist1 dist2]. split; by apply updated_mono.
  - intros _. split; cbn [dist1 dist2].
    + apply updated_covers.
    + intros ->. apply updated_covers.
Qed.

Lemma seenRow_improves st nd row b b' r :
  improves b b' → seenRow st nd row b r → seenRow st nd row b' r.
Proof. intros Hi Hs p sg Hc. eapply seen_improves; eauto. Qed.

Lemma get_Ok st a st' : get st = Ok (a, st') ↔ a = st ∧ st' = st.
Proof. unfold get. split; [intros [= <- <-]|intros [-> ->]]; done. Qed.

Lemma scanRow_fold st nd row r rowSegs :
  (r < m_numSingleHeightRows st)%nat →
  m_segsInRow st !! r = Some rowSegs →
  ∀ l b b' st',
  l ⊆ rowSegs →
  foldM (fun b segPtr =>
           curr ← deref (m_segments st !! segPtr);
           mret (considerSegment nd (rowDistance st row r) b segPtr curr))
        l b st = Ok (b', st') →
  sound st nd row b →
  st' = st ∧ sound st nd row b' ∧ improves b b'
  ∧ (∀ p sg, p ∈ l → m_segments st !! p = Some sg →
       getRegId sg = getRegionId nd →
       seen nd b' sg (segCost st nd row r sg)).
Proof.
  intros Hr Hrow. induction l as [|p l IH]; intros b b' st' Hsub Hrun Hb.
  - apply mret_Ok in Hrun as [-> ->].
    split; [done|]. split; [done|]. split; [apply improves_refl|].
    intros p sg Hp. by apply elem_of_nil in Hp.
  - cbn [foldM] in Hrun.
    apply bind_Ok in Hrun as (b1 & st1 & Hstep & Hrest).
    apply bind_Ok in Hstep as (sg & st2 & Hsg & Hret).
    apply deref_Ok in Hsg as [Hsg ->].
    apply mret_Ok in Hret as [-> ->].
    assert (Hp : p ∈ rowSegs) by (apply Hsub; left).
    destruct (considerSegment_props st nd row r p sg b Hb Hr
                (ex_intro _ rowSegs (conj Hrow Hp)) Hsg) as (Hb1 & Hi1 & Hs1).
    destruct (IH _ b' st' (λ x Hx, Hsub x (list_elem_of_further _ _ _ Hx))
                Hrest Hb1) as (-> & Hb' & Hi' & Hs').
    split; [done|]. split; [done|].
    split; [by eapply improves_trans|].
    intros q sg' [->|Hq]%elem_of_cons Hsg' Hreg.
    + assert (sg' = sg) as -> by congruence.
      eapply seen_improves; eauto.
    + eauto.
Qed.

Lemma scanRow_props st nd row r b b' st' :
  (r < m_numSingleHeightRows st)%nat →
  scanRow nd (rowDistance st row r) r b st = Ok (b', st') →
  sound st nd row b →
  st' = st ∧ sound st nd row b' ∧ improves b b' ∧ seenRow st nd row b' r.
Proof.
  intros Hr Hrun Hb. unfold scanRow in Hrun.
  apply bind_Ok in Hrun as (s & st1 & [-> ->]%get_Ok & Hrun).
  apply bind_Ok in Hrun as (rowSegs & st1 & [Hrow ->]%deref_Ok & Hrun).
  destruct (scanRow_fold st nd row r rowSegs Hr Hrow rowSegs b b' st'
              (λ x Hx, Hx) Hrun Hb) as (-> & Hb' & Hi & Hs).
  split; [done|]. split; [done|]. split; [done|].
  intros p sg (_ & (l & Hl & Hp) & Hsg & Hreg).
  assert (l = rowSegs) as -> by congruence. eauto.
Qed.

(** A row that the search skips cannot hold a closer segment: its vertical
    distance alone already exceeds both recorded distances. *)
Lemma pruned_seenRow st nd row r b :
  le_dist (rowDistance st row r) (dist1 b)
  || le_dist (rowDistance st row r) (dist2 b) = false →
  seenRow st nd row b r.
Proof.
  intros [H1 H2]%orb_false_elim p sg _.
  pose proof (hori_dist_nonneg nd sg) as Hh. unfold segCost, seen, covers.
  destruct (dist1 b) as [x1|]; [|discriminate].
  destruct (dist2 b) as [x2|]; [|discriminate].
  cbn [le_dist] in H1, H2.
  apply bool_decide_eq_false in H1. apply bool_decide_eq_false in H2.
  split; [exists x1|intros _; exists x2]; split; (done || lia).
Qed.

(** A conditional scan of row [r], as both halves of [scanOffset] do. *)
Lemma guardedScan_props st nd row r b b' st' :
  (r < m_numSingleHeightRows st)%nat →
  (if le_dist (rowDistance st row r) (dist1 b)
      || le_dist (rowDistance st row r) (dist2 b)
   then scanRow nd (rowDistance st row r) r b
   else mret b) st = Ok (b', st') →
  sound st nd row b →
  st' = st ∧ sound st nd row b' ∧ improves b b' ∧ seenRow st nd row b' r.
Proof.
  intros Hr Hrun Hb.
  destruct (le_dist _ (dist1 b) || le_dist _ (dist2 b)) eqn:Hg.
  - by apply scanRow_props.
  - apply mret_Ok in Hrun as [-> ->].
    split; [done|]. split; [done|]. split; [apply improves_refl|].
    by apply pruned_seenRow.
Qed.

Lemma rowDistance_below st row offset :
  Z.of_nat row - Z.of_nat offset >= 0 →
  Z.of_nat offset * m_singleRowHeight st
  = rowDistance st row (Z.to_nat (Z.of_nat row - Z.of_nat offset)).
Proof. intros H. unfold rowDistance. f_equal. lia. Qed.

Lemma rowDistance_above st row offset :
  Z.of_nat offset * m_singleRowHeight st = rowDistance st row (row + offset).
Proof. unfold rowDistance. f_equal. lia. Qed.

Lemma scanOffset_props st nd row offset b b' st' :
  (row < m_numSingleHeightRows st)%nat →
  scanOffset nd row b offset st = Ok (b', st') →
  sound st nd row b →
  st' = st ∧ sound st nd row b' ∧ improves b b'
  ∧ (∀ r, Z.abs (Z.of_nat r - Z.of_nat row) = Z.of_nat offset →
          seenRow st nd row b' r).
Proof.
  intros Hrow Hrun Hb. unfold scanOffset in Hrun.
  apply bind_Ok in Hrun as (s & st1 & [-> ->]%get_Ok & Hrun).
  apply bind_Ok in Hrun as (b1 & st1 & Hlow & Hup).
  assert (st1 = st ∧ sound st nd row b1 ∧ improves b b1
          ∧ (Z.of_nat row - Z.of_nat offset >= 0 →
             seenRow st nd row b1 (Z.to_nat (Z.of_nat row - Z.of_nat offset))))
    as (-> & Hb1 & Hi1 & Hs1).
  { destruct (decide (Z.of_nat row - Z.of_nat offset >= 0)) as [Hge|Hlt].
    - rewrite (rowDistance_below st row offset Hge) in Hlow.
      apply guardedScan_props in Hlow as (-> & ? & ? & ?); [done|lia|done].
    - apply mret_Ok in Hlow as [-> ->].
      split; [done|]. split; [done|]. split; [apply improves_refl|done]. }
  assert (st' = st ∧ sound st nd row b' ∧ improves b1 b'
          ∧ ((row + offset < m_numSingleHeightRows st)%nat →
             seenRow st nd row b' (row + offset)))
    as (-> & Hb' & Hi' & Hs').
  { destruct (decide (Z.of_nat (row + offset)
                      <= Z.of_nat (m_numSingleHeightRows st) - 1)) as [Hle|Hgt].
    - rewrite (rowDistance_above st row offset) in Hup.
      apply guardedScan_props in Hup as (-> & ? & ? & ?); [done|lia|done].
    - apply mret_Ok in Hup as [-> ->].
      split; [done|]. split; [done|]. split; [apply improves_refl|].
      intros ?. lia. }
  split; [done|]. split; [done|]. split; [by eapply improves_trans|].
  intros r Hr.
  destruct (decide (r < row)%nat) as [Hlt|Hge].
  - assert (r = Z.to_nat (Z.of_nat row - Z.of_nat offset)) as -> by lia.
    eapply seenRow_improves; [exact Hi'|]. apply Hs1. lia.
  - assert (r = (row + offset)%nat) as -> by lia.
    destruct (decide (row + offset < m_numSingleHeightRows st)%nat).
    + by apply Hs'.
    + intros p sg (Hr' & _). lia.
Qed.

Lemma scanOffsets_props st nd row : ∀ len start b b' st',
  (row < m_numSingleHeightRows st)%nat →
  foldM (scanOffset nd row) (seq start len) b st = Ok (b', st') →
  sound st nd row b →
  (∀ r, Z.abs (Z.of_nat r - Z.of_nat row) < Z.of_nat start →
        seenRow st nd row b r) →
  st' = st ∧ sound st nd row b'
  ∧ (∀ r, Z.abs (Z.of_nat r - Z.of_nat row) < Z.of_nat (start + len) →
          seenRow st nd row b' r).
Proof.
  induction len as [|len IH]; intros start b b' st' Hrow Hrun Hb Hseen.
  - apply mret_Ok in Hrun as [-> ->]. rewrite Nat.add_0_r. done.
  - cbn [seq foldM] in Hrun.
    apply bind_Ok in Hrun as (b1 & st1 & Hstep & Hrest).
    apply scanOffset_props in Hstep as (-> & Hb1 & Hi1 & Hs1); [|done..].
    apply IH in Hrest as (-> & Hb' & Hs'); [|done..|].
    + split; [done|]. split; [done|]. intros r Hr. apply Hs'. lia.
    + intros r Hr.
      destruct (decide (Z.abs (Z.of_nat r - Z.of_nat row) = Z.of_nat start)).
      * by apply Hs1.
      * eapply seenRow_improves; [exact Hi1|]. apply Hseen. lia.
Qed.

Lemma sound_initial st nd row : sound st nd row (mkClosest None None None None).
Proof.
  split; [split; intros [? [=]]|]. split; intros ? [=].
Qed.

(** What the search has established when it ends. *)
Lemma findClosestSegment_scan st ndi nd res st' :
  m_network st !! ndi = Some nd →
  (find_closest_row (m_arch st) (getBottom nd) < m_numSingleHeightRows st)%nat →
  findClosestSegment ndi st = Ok (res, st') →
  ∃ b, st' = st
       ∧ res = match best2 b with Some s => Some s | None => best1 b end
       ∧ sound st nd (find_closest_row (m_arch st) (getBottom nd)) b
       ∧ ∀ r, seenRow st nd (find_closest_row (m_arch st) (getBottom nd)) b r.
Proof.
  intros Hnd Hrow Hrun. unfold findClosestSegment in Hrun.
  apply bind_Ok in Hrun as (s & st1 & [-> ->]%get_Ok & Hrun).
  apply bind_Ok in Hrun as (nd' & st1 & [Hnd' ->]%node_Ok & Hrun).
  assert (nd' = nd) as -> by congruence.
  set (row := find_closest_row (m_arch st) (getBottom nd)) in *.
  apply bind_Ok in Hrun as (b0 & st1 & H0 & Hrun).
  replace 0 with (rowDistance st row row) in H0
    by (unfold rowDistance; lia).
  apply scanRow_props in H0 as (-> & Hb0 & _ & Hs0);
    [|done|apply sound_initial].
  apply bind_Ok in Hrun as (b & st1 & Hloop & Hret).
  apply scanOffsets_props in Hloop as (-> & Hb & Hs); [|done|done|].
  - apply mret_Ok in Hret as [-> ->]. exists b.
    split; [done|]. split; [done|]. split; [done|].
    intros r p sg Hc. refine (Hs r _ p sg Hc).
    destruct Hc as (Hr & _). lia.
  - intros r Hr. assert (r = row) as -> by lia. done.
Qed.

(** C4.  [findClosestSegment] leaves the manager unchanged and looks only
    at the segments of the cell's region (the candidates).  It returns
    null exactly when there is no candidate.  Otherwise it returns a
    candidate which, when some candidate is wide enough for the cell, is
    itself wide enough and has the least cost |dx| + |dy| among the
    candidates that are wide enough, and which has the least cost among
    all candidates when none is wide enough: the pruned outward search
    agrees with an exhaustive search over all rows. *)
Theorem findClosestSegment_minimizes st ndi nd res st' :
  m_network st !! ndi = Some nd →
  (find_closest_row (m_arch st) (getBottom nd) < m_numSingleHeightRows st)%nat →
  findClosestSegment ndi st = Ok (res, st') →
  let row := find_closest_row (m_arch st) (getBottom nd) in
  let fitting := ∃ r p sg, candidate st nd r p sg ∧ seg_fits nd sg = true in
  st' = st
  ∧ (res = None ↔ ∀ r p sg, ¬ candidate st nd r p sg)
  ∧ (∀ p, res = Some p →
       ∃ r sg, candidate st nd r p sg
         ∧ (fitting →
              seg_fits nd sg = true
              ∧ ∀ r' p' sg', candidate st nd r' p' sg' →
                  seg_fits nd sg' = true →
                  segCost st nd row r sg <= segCost st nd row r' sg')
         ∧ (¬ fitting →
              ∀ r' p' sg', candidate st nd r' p' sg' →
                segCost st nd row r sg <= segCost st nd row r' sg')).
Proof.
  intros Hnd Hrow Hrun row fitting.
  destruct (findClosestSegment_scan st ndi nd res st' Hnd Hrow Hrun)
    as (b & -> & -> & ([Hp1 Hp2] & H1 & H2) & Hseen).
  fold row in H1, H2, Hseen.
  split; [done|]. split; [split|].
  - intros Hnone r p sg Hc.
    destruct (Hseen r p sg Hc) as [(x & Hx & _) _].
    destruct Hp1 as [q Hq]; [by rewrite Hx|].
    destruct (best2 b); congruence.
  - intros Hno. destruct (best2 b) as [q|] eqn:Hq2.
    + destruct (H2 q eq_refl) as (r & sg & Hc & _). by destruct (Hno r q sg).
    + destruct (best1 b) as [q|] eqn:Hq1; [|done].
      destruct (H1 q eq_refl) as (r & sg & Hc & _). by destruct (Hno r q sg).
  - intros p Hres. destruct (best2 b) as [q|] eqn:Hq2.
    + injection Hres as ->.
      destruct (H2 p eq_refl) as (r & sg & Hc & Hfit & Hd).
      exists r, sg. split; [done|]. split.
      * intros _. split; [done|]. intros r' p' sg' Hc' Hfit'.
        destruct (Hseen r' p' sg' Hc') as [_ Hcov].
        destruct (Hcov Hfit') as (x & Hx & Hle). congruence.
      * intros Hnf. destruct Hnf. by exists r, p, sg.
    + destruct (H1 p Hres) as (r & sg & Hc & Hd).
      exists r, sg. split; [done|]. split.
      * intros (r' & p' & sg' & Hc' & Hfit').
        destruct (Hseen r' p' sg' Hc') as [_ Hcov].
        destruct (Hcov Hfit') as (x & Hx & _).
        destruct Hp2 as [q Hq]; [by rewrite Hx|]. congruence.
      * intros _ r' p' sg' Hc'.
        destruct (Hseen r' p' sg' Hc') as [(x & Hx & Hle) _]. congruence.
Qed.

(** The theorem at the demo design, for cell 2. *)
Lemma findClosestSegment_minimizes_witness :
  let st := demoPlaced in
  let nd := demoCell 70 0 8 10 in
  let fitting := ∃ r p sg, candidate st nd r p sg ∧ seg_fits nd sg = true in
  demoPlaced = st
  ∧ (Some 1%nat = None ↔ ∀ r p sg, ¬ candidate st nd r p sg)
  ∧ (∀ p, Some 1%nat = Some p →
       ∃ r sg, candidate st nd r p sg
         ∧ (fitting →
              seg_fits nd sg = true
              ∧ ∀ r' p' sg', candidate st nd r' p' sg' →
                  seg_fits nd sg' = true →
                  segCost st nd 0 r sg <= segCost st nd 0 r' sg')
         ∧ (¬ fitting →
              ∀ r' p' sg', candidate st nd r' p' sg' →
                segCost st nd 0 r sg <= segCost st nd 0 r' sg')).
Proof.
  apply (findClosestSegment_minimizes demoPlaced 2 (demoCell 70 0 8 10)
           (Some 1%nat) demoPlaced).
  - reflexivity.
  - vm_compute. lia.
  - vm_compute. reflexivity.
Defined.

(** * Two runs of the segment builder *)

Lemma agree_weaken {A : Type} (R R' : relation DetailedMgr)
    (o1 o2 : Outcome (A * DetailedMgr)) :
  (∀ s1 s2, R s1 s2 → R' s1 s2) → agree R o1 o2 → agree R' o1 o2.
Proof.
  intros HR. destruct o1 as [[a1 s1]| |], o2 as [[a2 s2]| |]; simpl; try done.
  intros [-> H]. auto.
Qed.

Lemma relates_ret {A : Type} R (a : A) : relates R R (mret a).
Proof. intros s1 s2 H. simpl. done. Qed.

Lemma relates_bind {A B : Type} R R' R'' (m : M A) (f : A -> M B) :
  relates R R' m → (∀ a, relates R' R'' (f a)) → relates R R'' (m ≫= f).
Proof.
  intros Hm Hf s1 s2 H. specialize (Hm s1 s2 H).
  unfold mbind, M_bind.
  destruct (m s1) as [[a1 t1]| |], (m s2) as [[a2 t2]| |]; simpl in Hm;
    try done.
  destruct Hm as [-> Ht]. by apply Hf.
Qed.

Lemma relates_gets {A : Type} R (f : DetailedMgr -> A) :
  (∀ s1 s2, R s1 s2 → f s1 = f s2) → relates R R (gets f).
Proof. intros Hf s1 s2 H. simpl. auto. Qed.

Lemma relates_modify R R' (h : DetailedMgr -> DetailedMgr) :
  (∀ s1 s2, R s1 s2 → R' (h s1) (h s2)) → relates R R' (modify h).
Proof. intros Hh s1 s2 H. simpl. auto. Qed.

Lemma relates_undefined {A : Type} R : relates R R (@undefined A).
Proof. by intros s1 s2 H. Qed.

Lemma relates_internalError {A : Type} R msg :
  relates R R (@internalError A msg).
Proof. by intros s1 s2 H. Qed.

Lemma relates_deref {A : Type} R (o : option A) : relates R R (deref o).
Proof.
  destruct o; simpl; [apply relates_ret|apply relates_undefined].
Qed.

Lemma relates_int_div R a b : relates R R (int_div a b).
Proof.
  unfold int_div. case_decide; [apply relates_undefined|apply relates_ret].
Qed.

Lemma relates_forM {A : Type} R (l : list A) (f : A -> M unit) :
  (∀ a, relates R R (f a)) → relates R R (forM l f).
Proof.
  intros Hf. induction l as [|a l IH]; simpl.
  - apply relates_ret.
  - eapply relates_bind; [apply Hf|]. intros _. exact IH.
Qed.

Lemma relates_foldM {A B : Type} R (f : B -> A -> M B) (l : list A) :
  (∀ b a, relates R R (f b a)) → ∀ b, relates R R (foldM f l b).
Proof.
  intros Hf. induction l as [|a l IH]; intros b; simpl.
  - apply relates_ret.
  - eapply relates_bind; [apply Hf|]. exact IH.
Qed.

(** A counted loop whose iteration [k] leads from [R k] to [R (S k)]. *)
Lemma relates_forM_seq (R : nat -> relation DetailedMgr) (f : nat -> M unit) :
  (∀ k, relates (R k) (R (S k)) (f k)) →
  ∀ len start, relates (R start) (R (start + len)%nat) (forM (seq start len) f).
Proof.
  intros Hf. induction len as [|len IH]; intros start; simpl.
  - rewrite Nat.add_0_r. apply relates_ret.
  - eapply relates_bind; [apply Hf|]. intros _.
    replace (start + S len)%nat with (S start + len)%nat by lia. apply IH.
Qed.

Create HintDb relates.
#[export] Hint Resolve relates_ret relates_undefined relates_internalError
  relates_deref relates_int_div : relates.

Ltac same_fields :=
  unfold sameSegments, sameRows, sameBlockages, sameInputs, inputs in *;
  simpl in *; intuition (try congruence).

Ltac relates_step :=
  lazymatch goal with
  | |- relates ?R ?R (mbind _ _) =>
      apply (relates_bind R R R); [| intros ?]
  | |- relates _ _ (if ?c then _ else _) => destruct c
  | |- relates _ _ (match ?x with _ => _ end) => destruct x
  | |- relates ?R ?R (forM _ _) => apply relates_forM; intros ?
  | |- relates ?R ?R (foldM _ _ _) => apply relates_foldM; intros ? ?
  | |- relates ?R ?R (gets _) =>
      apply relates_gets; intros ? ? ?; solve [same_fields]
  | |- relates ?R ?R (modify _) =>
      apply relates_modify; intros ? ? ?; solve [same_fields]
  | |- relates _ _ _ => solve [eauto with relates]
  end.

Ltac relates_auto := repeat relates_step.

(** ** The blockages *)

Section readers.
Context (R : relation DetailedMgr).
Context (HR : ∀ s1 s2, R s1 s2 → sameInputs s1 s2).

Lemma relates_node ndi : relates R R (node ndi).
Proof.
  unfold node. apply (relates_bind R R R); [|intros ?; relates_auto].
  apply relates_gets. intros s1 s2 H%HR. same_fields.
Qed.

Lemma relates_row r : relates R R (row r).
Proof.
  unfold row. apply (relates_bind R R R); [|intros ?; relates_auto].
  apply relates_gets. intros s1 s2 H%HR. same_fields.
Qed.

Lemma relates_rowCover rect r : relates R R (rowCover rect r).
Proof.
  unfold rowCover.
  apply (relates_bind R R R);
    [apply relates_gets; intros s1 s2 H%HR; same_fields|intros arch].
  apply (relates_bind R R R);
    [apply relates_gets; intros s1 s2 H%HR; same_fields|intros h].
  destruct (decide _); [|relates_auto].
  apply (relates_bind R R R); [apply relates_row|intros rw].
  relates_auto.
Qed.

Lemma relates_findRegionIntervals regId :
  relates R R (findRegionIntervals regId).
Proof.
  unfold findRegionIntervals.
  apply (relates_bind R R R);
    [apply relates_gets; intros s1 s2 H%HR; same_fields|intros arch].
  apply (relates_bind R R R);
    [apply relates_gets; intros s1 s2 H%HR; same_fields|intros n].
  destruct (decide _); [relates_auto|].
  apply (relates_bind R R R); [relates_auto|intros regPtr].
  destruct (decide _); [relates_auto|].
  apply (relates_bind R R R); [|intros ?; relates_auto].
  apply relates_foldM. intros acc rect.
  apply relates_foldM. intros acc' r.
  apply (relates_bind R R R); [apply relates_rowCover|intros c].
  relates_auto.
Qed.
End readers.

Lemma sameBlockages_inputs s1 s2 : sameBlockages s1 s2 → sameInputs s1 s2.
Proof. by intros [? _]. Qed.

Lemma sameSegments_inputs s1 s2 : sameSegments s1 s2 → sameInputs s1 s2.
Proof. by intros [[? _] _]. Qed.

Lemma sameRows_inputs n k s1 s2 : sameRows n k s1 s2 → sameInputs s1 s2.
Proof. by intros [[? _] _]. Qed.

Lemma relates_pushBlockage r iv :
  relates sameBlockages sameBlockages (pushBlockage r iv).
Proof. unfold pushBlockage. relates_auto. Qed.

#[export] Hint Resolve relates_pushBlockage : relates.

Lemma relates_findBlockages b :
  relates sameInputs sameBlockages (findBlockages b).
Proof.
  unfold findBlockages.
  apply (relates_bind sameInputs sameInputs); [relates_auto|intros arch].
  apply (relates_bind sameInputs sameInputs); [relates_auto|intros n].
  apply (relates_bind sameInputs sameInputs); [relates_auto|intros fixedCells].
  apply (relates_bind sameInputs sameInputs); [relates_auto|intros rt].
  apply (relates_bind sameInputs sameBlockages).
  { apply relates_modify. intros s1 s2 H. same_fields. }
  intros _.
  pose proof (relates_node sameBlockages sameBlockages_inputs) as Hnode.
  pose proof (relates_row sameBlockages sameBlockages_inputs) as Hrow.
  pose proof (relates_rowCover sameBlockages sameBlockages_inputs) as Hcover.
  relates_auto.
Qed.

(** ** The segments *)

Lemma length_resize {A : Type} n (d : A) l : length (resize n d l) = n.
Proof.
  unfold resize. rewrite length_app, length_take, length_replicate. lia.
Qed.

Lemma relates_clearRow n k :
  relates (sameRows n k) (sameRows n (S k)) (clearRow k).
Proof.
  intros s1 s2 (Hb & Hs & Hl1 & Hl2 & Hrows). unfold clearRow.
  rewrite !(bind_run _ _ _ _ _ (gets_run _ _)). unfold store_at.
  rewrite Hl1, Hl2. destruct (decide (k < n)%nat) as [Hk|Hk]; simpl; [|done].
  split; [done|]. split; [same_fields|]. split; [done|].
  simpl. rewrite !length_insert. split; [done|]. split; [done|].
  intros r Hr. destruct (decide (r = k)) as [->|Hne].
  - rewrite !list_lookup_insert_eq by lia. done.
  - rewrite !list_lookup_insert_ne by done. apply Hrows. lia.
Qed.

Lemma relates_pushSegment n k r sg :
  (r < k)%nat → relates (sameRows n k) (sameRows n k) (pushSegment r sg).
Proof.
  intros Hr s1 s2 (Hb & Hs & Hl1 & Hl2 & Hrows). unfold pushSegment.
  rewrite !(bind_run _ _ _ _ _ (gets_run _ _)). unfold alter_at.
  rewrite Hl1, Hl2. destruct (decide (r < n)%nat) as [Hn|Hn]; simpl; [|done].
  split; [done|]. split; [same_fields|]. rewrite Hs. split; [done|].
  simpl. rewrite !length_alter. split; [done|]. split; [done|].
  intros r' Hr'. destruct (decide (r' = r)) as [->|Hne].
  - rewrite !list_lookup_alter_eq. by rewrite Hrows.
  - rewrite !list_lookup_alter_ne by done. by apply Hrows.
Qed.

Lemma relates_freeSegment n k r x1 x2 :
  (r < k)%nat → relates (sameRows n k) (sameRows n k) (freeSegment r x1 x2).
Proof.
  intros Hr. unfold freeSegment.
  destruct (decide _); [by apply relates_pushSegment|apply relates_ret].
Qed.

Lemma relates_divideRow n k :
  relates (sameRows n k) (sameRows n (S k)) (divideRow k).
Proof.
  unfold divideRow.
  apply (relates_bind _ (sameRows n k)); [relates_auto|intros arch].
  apply (relates_bind _ (sameRows n k));
    [apply relates_row, sameRows_inputs|intros rw].
  apply (relates_bind _ (sameRows n (S k))); [apply relates_clearRow|intros _].
  pose proof (λ x1 x2, relates_freeSegment n (S k) k x1 x2 (Nat.lt_succ_diag_r k))
    as Hfree.
  relates_auto.
Qed.

Lemma relates_divideRows : relates sameBlockages sameSegments divideRows.
Proof.
  intros s1 s2 H. unfold divideRows.
  rewrite !(bind_run _ _ _ _ _ (gets_run _ _)).
  assert (m_numSingleHeightRows s2 = m_numSingleHeightRows s1) as ->
    by same_fields.
  set (n := m_numSingleHeightRows s1).
  apply (agree_weaken (sameRows n (0 + n))).
  { intros t1 t2 (Hb & Hs & Hl1 & Hl2 & Hrows).
    split; [done|]. split; [done|].
    apply list_eq. intros r. destruct (decide (r < n)%nat).
    - apply Hrows. lia.
    - rewrite !lookup_ge_None_2 by lia. done. }
  refine (relates_bind sameBlockages (sameRows n 0) _ _ _ _ _ s1 s2 H).
  - apply relates_modify. intros t1 t2 Ht.
    split; [same_fields|]. split; [done|]. simpl.
    rewrite !length_resize. split; [done|]. split; [done|]. intros r Hr. lia.
  - intros _. apply (relates_forM_seq (sameRows n)). apply relates_divideRow.
Qed.

Lemma relates_updateSegment p f :
  relates sameSegments sameSegments (updateSegment p f).
Proof. unfold updateSegment. relates_auto. Qed.

Lemma sameSegments_pushSegment r sg :
  relates sameSegments sameSegments (pushSegment r sg).
Proof. unfold pushSegment. relates_auto. Qed.

#[export] Hint Resolve relates_updateSegment sameSegments_pushSegment : relates.

Lemma relates_splitSegment reg r il ir s :
  relates sameSegments sameSegments (splitSegment reg r il ir s).
Proof. unfold splitSegment. relates_auto. Qed.

Lemma relates_splitLoop fuel : ∀ reg r il ir s,
  relates sameSegments sameSegments (splitLoop fuel reg r il ir s).
Proof.
  pose proof relates_splitSegment.
  induction fuel as [|fuel IH]; intros; simpl; relates_auto.
Qed.

Lemma relates_splitRow reg r iv :
  relates sameSegments sameSegments (splitRow reg r iv).
Proof. pose proof relates_splitLoop. unfold splitRow. relates_auto. Qed.

Lemma relates_sliceRegions : relates sameSegments sameSegments sliceRegions.
Proof.
  pose proof relates_splitRow.
  pose proof (relates_findRegionIntervals sameSegments sameSegments_inputs).
  unfold sliceRegions. relates_auto.
Qed.

Lemma relates_snapSegment s : relates sameSegments sameSegments (snapSegment s).
Proof.
  pose proof (relates_row sameSegments sameSegments_inputs).
  unfold snapSegment. relates_auto.
Qed.

Lemma relates_snapSegments : relates sameSegments sameSegments snapSegments.
Proof. pose proof relates_snapSegment. unfold snapSegments. relates_auto. Qed.

Lemma relates_resetCellsInSeg : relates sameSegments eq resetCellsInSeg.
Proof.
  apply relates_modify. intros s1 s2 ((Hin & Hb) & Hs & Hr).
  destruct s1, s2. unfold sameInputs, inputs in Hin. simpl in *.
  injection Hin as -> -> -> -> -> -> -> -> -> -> ->. subst. reflexivity.
Qed.

(** The builder reads nothing of what an earlier run has left. *)
Lemma relates_buildBlockagesAndSegments b :
  relates sameInputs eq (buildBlockagesAndSegments b).
Proof.
  unfold buildBlockagesAndSegments, findSegments.
  eapply relates_bind; [apply relates_findBlockages|intros _].
  eapply relates_bind; [apply relates_divideRows|intros _].
  eapply relates_bind; [apply relates_sliceRegions|intros _].
  eapply relates_bind; [apply relates_snapSegments|intros _].
  apply relates_resetCellsInSeg.
Qed.

(** ** What the builder leaves alone *)

#[export] Instance sameInputs_refl : Reflexive sameInputs.
Proof. by intros st. Qed.

#[export] Instance sameInputs_trans : Transitive sameInputs.
Proof. intros s1 s2 s3. unfold sameInputs. congruence. Qed.

Lemma preserves_modify R (h : DetailedMgr -> DetailedMgr) :
  (∀ st, R st (h st)) → preserves R (modify h).
Proof. intros Hh st u st' [= _ <-]. apply Hh. Qed.

Lemma preserves_foldM {A B : Type} (R : relation DetailedMgr)
    `{!Reflexive R, !Transitive R} (f : B -> A -> M B) (l : list A) :
  (∀ b a, preserves R (f b a)) → ∀ b, preserves R (foldM f l b).
Proof.
  intros Hf. induction l as [|a l IH]; intros b; simpl; preserves_auto.
Qed.

Ltac keeps_inputs :=
  repeat first
    [ apply preserves_modify; intros ?; reflexivity
    | apply preserves_forM; [tc_solve..|intros ?]
    | apply preserves_foldM; [tc_solve..|intros ? ?]
    | preserves_step ].

Lemma keepsInputs_findBlockages b : preserves sameInputs (findBlockages b).
Proof. unfold findBlockages, pushBlockage, rowCover. keeps_inputs. Qed.

Lemma keepsInputs_pushSegment r sg : preserves sameInputs (pushSegment r sg).
Proof. unfold pushSegment. keeps_inputs. Qed.

Lemma keepsInputs_updateSegment p f : preserves sameInputs (updateSegment p f).
Proof. unfold updateSegment. keeps_inputs. Qed.

#[export] Hint Resolve keepsInputs_pushSegment keepsInputs_updateSegment
  : preserves.

Lemma keepsInputs_divideRows : preserves sameInputs divideRows.
Proof.
  unfold divideRows, divideRow, clearRow, freeSegment. keeps_inputs.
Qed.

Lemma keepsInputs_splitLoop fuel : ∀ reg r il ir s,
  preserves sameInputs (splitLoop fuel reg r il ir s).
Proof.
  induction fuel as [|fuel IH]; intros; simpl; unfold splitSegment;
    keeps_inputs.
Qed.

#[export] Hint Resolve keepsInputs_splitLoop : preserves.

Lemma keepsInputs_sliceRegions : preserves sameInputs sliceRegions.
Proof.
  unfold sliceRegions, findRegionIntervals, rowCover, splitRow. keeps_inputs.
Qed.

Lemma keepsInputs_snapSegments : preserves sameInputs snapSegments.
Proof. unfold snapSegments, snapSegment. keeps_inputs. Qed.

Lemma keepsInputs_buildBlockagesAndSegments b :
  preserves sameInputs (buildBlockagesAndSegments b).
Proof.
  pose proof (keepsInputs_findBlockages b).
  pose proof keepsInputs_divideRows. pose proof keepsInputs_sliceRegions.
  pose proof keepsInputs_snapSegments.
  unfold buildBlockagesAndSegments, findSegments, resetCellsInSeg.
  keeps_inputs.
Qed.

(** C9.  Rebuilding is idempotent: when [findBlockages] followed by
    [findSegments] has run, running both again on the state they left
    completes and leaves that very state: the same segments, with the same
    ids, rows, regions and ends, in the same order, the same lists of
    segments per row and the same blockage intervals per row. *)
Theorem rebuild_is_idempotent b st u st1 :
  buildBlockagesAndSegments b st = Ok (u, st1) →
  ∃ st2, buildBlockagesAndSegments b st1 = Ok (u, st2)
         ∧ m_segments st2 = m_segments st1
         ∧ m_segsInRow st2 = m_segsInRow st1
         ∧ m_blockages st2 = m_blockages st1
         ∧ st2 = st1.
Proof.
  intros Hrun.
  pose proof (keepsInputs_buildBlockagesAndSegments b st u st1 Hrun) as Hin.
  pose proof (relates_buildBlockagesAndSegments b st st1 Hin) as Hag.
  rewrite Hrun in Hag.
  destruct (buildBlockagesAndSegments b st1) as [[u2 st2]| |]; simpl in Hag;
    try done.
  destruct Hag as [<- <-]. exists st1. done.
Qed.

(** The theorem at the demo design. *)
Lemma rebuild_is_idempotent_witness :
  let st1 := exec (buildBlockagesAndSegments true) demoSt in
  ∃ st2, buildBlockagesAndSegments true st1 = Ok (tt, st2)
         ∧ m_segments st2 = m_segments st1
         ∧ m_segsInRow st2 = m_segsInRow st1
         ∧ m_blockages st2 = m_blockages st1
         ∧ st2 = st1.
Proof.
  intros st1. apply (rebuild_is_idempotent true demoSt tt st1).
  vm_compute. reflexivity.
Defined.

(** * The segments that [findSegments] builds *)

(** ** Appending and updating a segment *)

Lemma pushSegment_Ok r sg st u st' :
  pushSegment r sg st = Ok (u, st') ↔
  (r < length (m_segsInRow st))%nat
  ∧ st' = set_segsInRow
            (alter (fun l => l ++ [length (m_segments st)]) r (m_segsInRow st))
            (set_segments
               (m_segments st
                ++ [setSegId (Z.of_nat (length (m_segments st))) sg]) st).
Proof.
  unfold pushSegment. rewrite !(bind_run _ _ _ _ _ (gets_run _ _)).
  destruct u. split.
  - intros (sir & st1 & [Hsir ->]%deref_Ok & ->%modify_Ok)%bind_Ok.
    apply alter_at_Some in Hsir as [? ->]. done.
  - intros [Hr ->]. apply bind_Ok. eexists _, st. split.
    + apply deref_Ok. split; [|done]. by apply alter_at_lt.
    + by apply modify_Ok.
Qed.

Lemma updateSegment_Ok p f st u st' :
  updateSegment p f st = Ok (u, st') ↔
  (p < length (m_segments st))%nat
  ∧ st' = set_segments (alter f p (m_segments st)) st.
Proof.
  unfold updateSegment. rewrite !(bind_run _ _ _ _ _ (gets_run _ _)).
  destruct u. split.
  - intros (sgs & st1 & [Hsgs ->]%deref_Ok & ->%modify_Ok)%bind_Ok.
    apply alter_at_Some in Hsgs as [? ->]. done.
  - intros [Hp ->]. apply bind_Ok. eexists _, st. split.
    + apply deref_Ok. split; [|done]. by apply alter_at_lt.
    + by apply modify_Ok.
Qed.

Lemma freshSeg_setSegId arch v sg : freshSeg arch sg → freshSeg arch (setSegId v sg).
Proof. done. Qed.

Lemma pushSegment_keeps arch k r sg st u st' :
  builderInv arch k st →
  freshSeg arch sg → getRowId sg = Z.of_nat r →
  pushSegment r sg st = Ok (u, st') →
  builderInv arch k st'.
Proof.
  intros (Harch & Hfresh & Hrows) Hsg Hrow [Hr ->]%pushSegment_Ok.
  split; [done|]. split.
  - simpl. intros s sg' [Hs|[_ Hs]]%lookup_app_Some; [by eapply Hfresh|].
    destruct (s - length (m_segments st))%nat; [|done].
    injection Hs as <-. by apply freshSeg_setSegId.
  - intros r' rowSegs p Hr'. simpl. intros Hl Hp.
    destruct (decide (r' = r)) as [->|Hne].
    + rewrite list_lookup_alter_eq in Hl.
      destruct (m_segsInRow st !! r) as [old|] eqn:Hold; [|done].
      injection Hl as <-. apply elem_of_app in Hp as [Hp|Hp].
      * destruct (Hrows r old p Hr' Hold Hp) as (sg' & Hsg' & ?).
        exists sg'. split; [|done].
        rewrite lookup_app_l by (by eapply lookup_lt_Some). done.
      * apply list_elem_of_singleton in Hp as ->.
        exists (setSegId (Z.of_nat (length (m_segments st))) sg).
        split; [|done]. rewrite lookup_app_r by lia.
        by rewrite Nat.sub_diag.
    + rewrite list_lookup_alter_ne in Hl by done.
      destruct (Hrows r' rowSegs p Hr' Hl Hp) as (sg' & Hsg' & ?).
      exists sg'. split; [|done].
      rewrite lookup_app_l by (by eapply lookup_lt_Some). done.
Qed.

Lemma updateSegment_keeps arch k p f sg st u st' :
  builderInv arch k st →
  m_segments st !! p = Some sg →
  freshSeg arch (f sg) → getRowId (f sg) = getRowId sg →
  updateSegment p f st = Ok (u, st') →
  builderInv arch k st'.
Proof.
  intros (Harch & Hfresh & Hrows) Hsg Hf Hrow [Hp ->]%updateSegment_Ok.
  split; [done|]. split.
  - simpl. intros s sg'. destruct (decide (s = p)) as [->|Hne].
    + rewrite list_lookup_alter_eq, Hsg. by intros [= <-].
    + rewrite list_lookup_alter_ne by done. apply Hfresh.
  - intros r rowSegs q Hr. simpl. intros Hl Hq.
    destruct (Hrows r rowSegs q Hr Hl Hq) as (sg' & Hsg' & Hrow').
    destruct (decide (q = p)) as [->|Hne].
    + exists (f sg). rewrite list_lookup_alter_eq, Hsg. split; [done|].
      congruence.
    + exists sg'. by rewrite list_lookup_alter_ne.
Qed.

(** ** The first loop: the free intervals *)

Lemma clearRow_Ok r st u st' :
  clearRow r st = Ok (u, st') ↔
  (r < length (m_segsInRow st))%nat
  ∧ st' = set_segsInRow (<[r := []]> (m_segsInRow st)) st.
Proof.
  unfold clearRow. rewrite !(bind_run _ _ _ _ _ (gets_run _ _)).
  destruct u. split.
  - intros (sir & st1 & [Hsir ->]%deref_Ok & ->%modify_Ok)%bind_Ok.
    apply store_at_Some in Hsir as [? ->]. done.
  - intros [Hr ->]. apply bind_Ok. eexists _, st. split.
    + apply deref_Ok. split; [|done]. by apply store_at_lt.
    + by apply modify_Ok.
Qed.

Lemma clearRow_keeps arch k st u st' :
  builderInv arch k st → clearRow k st = Ok (u, st') →
  builderInv arch (S k) st'.
Proof.
  intros (Harch & Hfresh & Hrows) [Hk ->]%clearRow_Ok.
  split; [done|]. split; [done|].
  intros r rowSegs p Hr. simpl. intros Hl Hp.
  destruct (decide (r = k)) as [->|Hne].
  - rewrite list_lookup_insert_eq in Hl by done. injection Hl as <-.
    by apply elem_of_nil in Hp.
  - rewrite list_lookup_insert_ne in Hl by done.
    apply (Hrows r rowSegs p); [lia|done..].
Qed.

Lemma rowOf_Some arch sg r rw :
  getRowId sg = Z.of_nat r → getRows arch !! r = Some rw →
  rowOf arch sg = Some rw.
Proof.
  intros Hid Hrw. unfold rowOf, index_of. rewrite Hid.
  rewrite decide_True by lia. simpl. by rewrite Nat2Z.id.
Qed.

Lemma keeps_freeSegment arch k r rw x1 x2 :
  getRows arch !! r = Some rw →
  (row_getLeft rw <= x1 ∨ x2 <= x1) →
  preserves (keeping (builderInv arch k)) (freeSegment r x1 x2).
Proof.
  intros Hrw Hx st u st' Hrun Hinv. unfold freeSegment in Hrun.
  destruct (decide (x2 > x1)) as [Hgt|Hle].
  - refine (pushSegment_keeps arch k r _ st u st' Hinv _ _ Hrun);
      [|reflexivity].
    split; [done|]. intros rw' Hrw'.
    rewrite (rowOf_Some arch _ r rw) in Hrw' by done.
    injection Hrw' as <-. simpl. lia.
  - apply mret_Ok in Hrun as [_ ->]. done.
Qed.

Lemma divideRow_keeps arch k st u st' :
  builderInv arch k st → divideRow k st = Ok (u, st') →
  builderInv arch (S k) st'.
Proof.
  intros Hinv Hrun. unfold divideRow in Hrun.
  rewrite (bind_run _ _ _ _ _ (gets_run _ _)) in Hrun.
  apply bind_Ok in Hrun as (rw & st1 & (_ & Hrw & ->)%row_Ok & Hrun).
  apply bind_Ok in Hrun as ([] & st1 & Hclr & Hrun).
  pose proof (clearRow_keeps _ _ _ _ _ Hinv Hclr) as Hinv1.
  destruct Hinv as (Harch & _). rewrite Harch, Nat2Z.id in Hrw.
  rewrite Harch in Hrun. clear Hclr.
  revert Hinv1.
  match type of Hrun with ?m _ = _ =>
    assert (preserves (keeping (builderInv arch (S k))) m) as Hkeep
  end; [|exact (Hkeep _ _ _ Hrun)].
  assert (∀ x1 x2, (row_getLeft rw <= x1 ∨ x2 <= x1) →
            preserves (keeping (builderInv arch (S k))) (freeSegment k x1 x2))
    as Hfree by (intros; by eapply keeps_freeSegment).
  apply preserves_bind; [tc_solve..|preserves_auto|intros blks].
  apply preserves_bind; [tc_solve..|preserves_auto|intros blk].
  unfold floor_int, ceil_int.
  destruct blk as [|b0 blk].
  - apply Hfree. lia.
  - apply preserves_bind; [tc_solve..| |intros _].
    { destruct (decide _); [apply Hfree; lia|preserves_auto]. }
    apply preserves_bind; [tc_solve..| |intros _].
    { apply preserves_forM; [tc_solve..|]. intros [bp bi].
      destruct (decide _); [apply Hfree; lia|preserves_auto]. }
    destruct (decide _); [apply Hfree; lia|preserves_auto].
Qed.

Lemma length_segsInRow_pushSegment r sg :
  preserves (fun st st' => length (m_segsInRow st') = length (m_segsInRow st))
            (pushSegment r sg).
Proof.
  intros st u st' [_ ->]%pushSegment_Ok. simpl. by rewrite length_alter.
Qed.

#[export] Instance sameRowCount_refl : Reflexive sameRowCount.
Proof. by intros st. Qed.

#[export] Instance sameRowCount_trans : Transitive sameRowCount.
Proof. intros s1 s2 s3. unfold sameRowCount. congruence. Qed.

Ltac keeps_auto :=
  repeat first
    [ apply preserves_forM; [tc_solve..|intros ?]
    | apply preserves_foldM; [tc_solve..|intros ? ?]
    | preserves_step ].

Lemma sameRowCount_pushSegment r sg : preserves sameRowCount (pushSegment r sg).
Proof.
  intros st u st' [_ ->]%pushSegment_Ok. unfold sameRowCount. simpl.
  by rewrite length_alter.
Qed.

Lemma sameRowCount_clearRow r : preserves sameRowCount (clearRow r).
Proof.
  intros st u st' [_ ->]%clearRow_Ok. unfold sameRowCount. simpl.
  by rewrite length_insert.
Qed.

#[export] Hint Resolve sameRowCount_pushSegment sameRowCount_clearRow
  : preserves.

Lemma sameRowCount_divideRow r : preserves sameRowCount (divideRow r).
Proof. unfold divideRow, freeSegment. keeps_auto. Qed.

Lemma built_intro arch n st :
  builderInv arch n st → length (m_segsInRow st) = n → built arch st.
Proof.
  intros (Harch & Hfresh & Hrows) Hlen k. split; [done|]. split; [done|].
  intros r rowSegs p _ Hl Hp. apply (Hrows r rowSegs p); [|done..].
  apply lookup_lt_Some in Hl. lia.
Qed.

Lemma divideRows_built st u st' :
  divideRows st = Ok (u, st') →
  built (m_arch st) st'
  ∧ length (m_segsInRow st') = m_numSingleHeightRows st.
Proof.
  unfold divideRows. rewrite (bind_run _ _ _ _ _ (gets_run _ _)).
  set (n := m_numSingleHeightRows st).
  intros ([] & st0 & ->%modify_Ok & Hloop)%bind_Ok.
  pose (P := fun (i : nat) (s : DetailedMgr) =>
    builderInv (m_arch st) i s ∧ length (m_segsInRow s) = n).
  assert (P (0 + n)%nat st') as [Hinv Hlen].
  { eapply (forM_seq_inv P); [| |exact Hloop].
    - intros i s v s' _ [Hi Hl] Hstep. split.
      + by eapply divideRow_keeps.
      + rewrite <- Hl. by eapply sameRowCount_divideRow.
    - split; [|simpl; apply length_resize].
      split; [done|]. split.
      + simpl. intros s sg Hs. by rewrite lookup_nil in Hs.
      + intros r rowSegs p Hr. lia. }
  split; [|done]. by eapply built_intro.
Qed.

(** ** The second loop: the regions *)

Lemma inRow_from arch sg sg' :
  inRow arch sg → getRowId sg' = getRowId sg →
  (getMinX sg <= getMinX sg' ∨ getMaxX sg <= getMinX sg') →
  (getMinX sg <= getMaxX sg' ∨ getMaxX sg <= getMaxX sg') →
  inRow arch sg'.
Proof.
  intros H Hid H1 H2 rw Hrw. unfold rowOf in Hrw. rewrite Hid in Hrw.
  destruct (H rw Hrw). lia.
Qed.

Lemma keeps_splitSegment arch reg r il ir s :
  preserves (keeping (built arch)) (splitSegment reg r il ir s).
Proof.
  intros st u st' Hrun Hinv. unfold splitSegment in Hrun.
  rewrite (bind_run _ _ _ _ _ (gets_run _ _)) in Hrun.
  apply bind_Ok in Hrun as (rowSegs & st1 & [Hrow ->]%deref_Ok & Hrun).
  apply bind_Ok in Hrun as (segPtr & st1 & [Hptr ->]%deref_Ok & Hrun).
  rewrite (bind_run _ _ _ _ _ (gets_run _ _)) in Hrun.
  apply bind_Ok in Hrun as (sg & st1 & [Hsg ->]%deref_Ok & Hrun).
  destruct (Hinv (S r)) as (Harch & Hfresh & Hrows).
  destruct (Hrows r rowSegs segPtr (Nat.lt_succ_diag_r r) Hrow
              (list_elem_of_lookup_2 _ _ _ Hptr)) as (sg' & Hsg' & Hid).
  assert (sg' = sg) as -> by congruence.
  destruct (Hfresh segPtr sg Hsg) as [Hutil Hin].
  unfold floor_int, ceil_int in Hrun.
  assert (∀ sg1, getUtil sg1 = 0 → getRowId sg1 = getRowId sg →
            (getMinX sg <= getMinX sg1 ∨ getMaxX sg <= getMinX sg1) →
            (getMinX sg <= getMaxX sg1 ∨ getMaxX sg <= getMaxX sg1) →
            freshSeg arch sg1) as Hnew.
  { intros sg1 ? ? ? ?. split; [done|]. by eapply inRow_from. }
  repeat (destruct (decide _) as [?|?] in Hrun);
    try (apply mret_Ok in Hrun as [_ ->]; exact Hinv);
    try discriminate Hrun.
  - intros k.
    refine (updateSegment_keeps arch k _ _ sg st _ st' (Hinv k) Hsg _ _ Hrun);
      [apply Hnew; simpl; (done || lia)|done].
  - apply bind_Ok in Hrun as ([] & st1 & Hupd & Hpush). intros k.
    refine (pushSegment_keeps arch k r _ st1 _ st' _ _ _ Hpush);
      [|apply Hnew; simpl; (done || lia)|reflexivity].
    refine (updateSegment_keeps arch k _ _ sg st _ st1 (Hinv k) Hsg _ _ Hupd);
      [apply Hnew; simpl; (done || lia)|done].
  - apply bind_Ok in Hrun as ([] & st1 & Hupd & Hpush). intros k.
    refine (pushSegment_keeps arch k r _ st1 _ st' _ _ _ Hpush);
      [|apply Hnew; simpl; (done || lia)|reflexivity].
    refine (updateSegment_keeps arch k _ _ sg st _ st1 (Hinv k) Hsg _ _ Hupd);
      [apply Hnew; simpl; (done || lia)|done].
  - apply bind_Ok in Hrun as ([] & st1 & Hupd & Hpush).
    apply bind_Ok in Hpush as ([] & st2 & Hpush1 & Hpush2). intros k.
    refine (pushSegment_keeps arch k r _ st2 _ st' _ _ _ Hpush2);
      [|apply Hnew; simpl; (done || lia)|reflexivity].
    refine (pushSegment_keeps arch k r _ st1 _ st2 _ _ _ Hpush1);
      [|apply Hnew; simpl; (done || lia)|reflexivity].
    refine (updateSegment_keeps arch k _ _ sg st _ st1 (Hinv k) Hsg _ _ Hupd);
      [apply Hnew; simpl; (done || lia)|done].
Qed.

#[export] Hint Resolve keeps_splitSegment : preserves.

Lemma keeps_splitLoop arch fuel : ∀ reg r il ir s,
  preserves (keeping (built arch)) (splitLoop fuel reg r il ir s).
Proof. induction fuel as [|fuel IH]; intros; simpl; keeps_auto. Qed.

#[export] Hint Resolve keeps_splitLoop : preserves.

Lemma keeps_sliceRegions arch : preserves (keeping (built arch)) sliceRegions.
Proof.
  unfold sliceRegions, findRegionIntervals, rowCover, splitRow. keeps_auto.
Qed.

(** ** The third loop: the site grid *)

Lemma int_div_Ok a b q st st' :
  int_div a b st = Ok (q, st') ↔ b ≠ 0 ∧ q = Z.quot a b ∧ st' = st.
Proof.
  unfold int_div. destruct (decide (b = 0)); split.
  - discriminate.
  - intros [? _]. done.
  - intros [-> ->]%mret_Ok. done.
  - intros (_ & -> & ->). done.
Qed.

Lemma snap_up o sp x :
  0 < sp → o <= x →
  let ix := Z.quot (x - o) sp in
  let ix' := if decide (o + ix * sp < x) then ix + 1 else ix in
  (o + ix' * sp - o) `mod` sp = 0 ∧ x <= o + ix' * sp < x + sp.
Proof.
  intros Hsp Hx ix ix'. split.
  - replace (o + ix' * sp - o) with (ix' * sp) by lia. apply Z.mod_mul. lia.
  - subst ix ix'. rewrite Z.quot_div_nonneg by lia.
    pose proof (Z.div_mod (x - o) sp ltac:(lia)) as Hdm.
    pose proof (Z.mod_pos_bound (x - o) sp Hsp) as Hb.
    destruct (decide _); nia.
Qed.

Lemma snap_down o sp x :
  0 < sp → o <= x →
  let ix := Z.quot (x - o) sp in
  (o + ix * sp - o) `mod` sp = 0 ∧ x - sp < o + ix * sp <= x.
Proof.
  intros Hsp Hx ix. split.
  - replace (o + ix * sp - o) with (ix * sp) by lia. apply Z.mod_mul. lia.
  - subst ix. rewrite Z.quot_div_nonneg by lia.
    pose proof (Z.div_mod (x - o) sp ltac:(lia)) as Hdm.
    pose proof (Z.mod_pos_bound (x - o) sp Hsp) as Hb. nia.
Qed.

Lemma rowOf_row arch sg rw st st' :
  m_arch st = arch →
  row (getRowId sg) st = Ok (rw, st') → rowOf arch sg = Some rw ∧ st' = st.
Proof.
  intros <- (Hid & Hrw & ->)%row_Ok. split; [|done].
  unfold rowOf, index_of. rewrite decide_True by done. done.
Qed.

(** What one iteration of the third loop does to segment [s]. *)
Lemma snapSegment_inv s st u st' :
  snapSegment s st = Ok (u, st') →
  ∃ sg rw sg',
    m_segments st !! s = Some sg
    ∧ rowOf (m_arch st) sg = Some rw
    ∧ st' = set_segments (alter (fun _ => sg') s (m_segments st)) st
    ∧ getRowId sg' = getRowId sg ∧ getUtil sg' = getUtil sg
    ∧ getSegId sg' = getSegId sg
    ∧ (0 < row_getSiteSpacing rw →
       row_getLeft rw <= getMinX sg → row_getLeft rw <= getMaxX sg →
       snappedUp rw (getMinX sg) (getMinX sg')
       ∧ snappedDown rw (getMaxX sg) (getMaxX sg')).
Proof.
  unfold snapSegment. rewrite (bind_run _ _ _ _ _ (gets_run _ _)).
  intros (sg & st1 & [Hsg ->]%deref_Ok & Hrun)%bind_Ok.
  apply bind_Ok in Hrun as (rw & st1 & Hrw & Hrun).
  apply (rowOf_row (m_arch st)) in Hrw as [Hrw ->]; [|done].
  apply bind_Ok in Hrun as (ix & st1 & (Hsp & -> & ->)%int_div_Ok & Hrun).
  apply bind_Ok in Hrun as (ix2 & st1 & (_ & -> & ->)%int_div_Ok & Hrun).
  apply updateSegment_Ok in Hrun as [Hs ->].
  set (o := row_getLeft rw) in *. set (sp := row_getSiteSpacing rw) in *.
  eexists sg, rw, _. split; [done|]. split; [done|]. split; [reflexivity|].
  split; [by repeat (destruct (decide _); simpl)|].
  split; [by repeat (destruct (decide _); simpl)|].
  split; [by repeat (destruct (decide _); simpl)|].
  intros Hpos Hmin Hmax.
  assert (∀ sg1, getMaxX sg1 = getMaxX sg →
            snappedDown rw (getMaxX sg)
              (getMaxX (if decide (o + Z.quot (getMaxX sg1 - o) sp * sp
                                   ≠ getMaxX sg1)
                        then setMaxX (o + Z.quot (getMaxX sg1 - o) sp * sp) sg1
                        else sg1))) as Hdown.
  { intros sg1 Hsg1. rewrite Hsg1.
    destruct (snap_down o sp (getMaxX sg) Hpos Hmax) as [Hg2 Hb2].
    cbv zeta in Hg2, Hb2. unfold snappedDown, onGrid. fold o sp.
    destruct (decide (_ ≠ _)) as [Hne|Heq]; simpl; [done|].
    apply dec_stable in Heq. rewrite Heq in Hg2. rewrite Hsg1.
    split; [done|lia]. }
  assert (∀ sg1,
            getMinX (if decide (o + Z.quot (getMaxX sg1 - o) sp * sp
                                ≠ getMaxX sg1)
                     then setMaxX (o + Z.quot (getMaxX sg1 - o) sp * sp) sg1
                     else sg1) = getMinX sg1) as Hsame.
  { intros sg1. by destruct (decide (_ ≠ _)). }
  destruct (snap_up o sp (getMinX sg) Hpos Hmin) as [Hg1 Hb1].
  cbv zeta in Hg1, Hb1.
  split.
  - unfold snappedUp, onGrid. fold o sp.
    destruct (decide (o + _ * sp ≠ getMinX sg)) as [Hne|Heq].
    + rewrite Hsame. simpl. done.
    + rewrite Hsame. apply dec_stable in Heq.
      rewrite Heq in Hg1. split; [done|lia].
  - destruct (decide (o + _ * sp ≠ getMinX sg)); by apply Hdown.
Qed.

Lemma rowOf_elem_of arch sg rw : rowOf arch sg = Some rw → rw ∈ getRows arch.
Proof.
  unfold rowOf. destruct (index_of _) as [i|]; simpl; [|done].
  apply list_elem_of_lookup_2.
Qed.

Lemma rowOf_ext arch sg sg' :
  getRowId sg' = getRowId sg → rowOf arch sg' = rowOf arch sg.
Proof. unfold rowOf. by intros ->. Qed.

Lemma snapSegments_inv arch st u st' :
  m_arch st = arch →
  (∀ s sg, m_segments st !! s = Some sg → freshSeg arch sg) →
  (∀ rw, rw ∈ getRows arch → 0 < row_getSiteSpacing rw) →
  snapSegments st = Ok (u, st') →
  length (m_segments st') = length (m_segments st)
  ∧ ∀ s sg, m_segments st' !! s = Some sg →
            snappedFrom arch (m_segments st) (m_segments st') s sg.
Proof.
  intros Harch Hfresh Hsp. unfold snapSegments.
  rewrite (bind_run _ _ _ _ _ (gets_run _ _)). intros Hloop.
  set (N := length (m_segments st)) in *.
  pose (P := fun (i : nat) (s : DetailedMgr) =>
    m_arch s = arch ∧ length (m_segments s) = N
    ∧ (∀ j, (i ≤ j)%nat → m_segments s !! j = m_segments st !! j)
    ∧ (∀ j sg, (j < i)%nat → m_segments s !! j = Some sg →
               snappedFrom arch (m_segments st) (m_segments s) j sg)).
  assert (P (0 + N)%nat st') as (_ & Hlen & _ & Hall).
  { eapply (forM_seq_inv P); [| |exact Hloop].
    - intros i s v s' _ (Ha & Hl & Hge & Hlt) Hstep.
      apply snapSegment_inv in Hstep
        as (sg & rw & sg' & Hsg & Hrw & -> & Hid & Hutil & _ & Hsnap).
      rewrite Ha in Hrw. rewrite Hge in Hsg by lia.
      destruct (Hfresh i sg Hsg) as [Hu Hin].
      destruct (Hin rw Hrw) as [Hmin Hmax].
      destruct (Hsnap (Hsp rw (rowOf_elem_of _ _ _ Hrw)) Hmin Hmax)
        as [Hup Hdown].
      split; [done|]. simpl. rewrite length_alter. split; [done|]. split.
      + intros j Hj. rewrite list_lookup_alter_ne by lia. apply Hge. lia.
      + intros j sgj Hj. destruct (decide (j = i)) as [->|Hne].
        * rewrite list_lookup_alter_eq, Hge, Hsg by lia. intros [= <-].
          exists sg, rw. rewrite (rowOf_ext arch sg sg') by done.
          split; [done|]. split; [done|]. split; [congruence|]. done.
        * rewrite list_lookup_alter_ne by done. intros Hsgj.
          destruct (Hlt j sgj ltac:(lia) Hsgj) as (sg0 & rw0 & ?).
          by exists sg0, rw0.
    - split; [done|]. split; [done|]. split; [done|]. intros j sg Hj. lia. }
  split; [done|]. intros s sg Hs. apply Hall; [|done].
  apply lookup_lt_Some in Hs. lia.
Qed.

(** C8.  When [findSegments] has run (with sites of positive pitch),
    every segment has both ends on the site grid of its row: its left end
    is the first site boundary at or right of where the segment began
    before the last loop, its right end the last site boundary at or left
    of where it ended; every segment has utilization zero and an empty
    list of cells. *)
Theorem segments_end_on_sites st u st' :
  (∀ rw, rw ∈ getRows (m_arch st) → 0 < row_getSiteSpacing rw) →
  findSegments st = Ok (u, st') →
  ∃ st1,
    (divideRows;; sliceRegions) st = Ok (tt, st1)
    ∧ length (m_segments st') = length (m_segments st1)
    ∧ length (m_cellsInSeg st') = length (m_segments st')
    ∧ ∀ s sg, m_segments st' !! s = Some sg →
        getUtil sg = 0
        ∧ m_cellsInSeg st' !! s = Some []
        ∧ ∃ sg0 rw,
            m_segments st1 !! s = Some sg0
            ∧ rowOf (m_arch st') sg = Some rw
            ∧ onGrid rw (getMinX sg) ∧ onGrid rw (getMaxX sg)
            ∧ snappedUp rw (getMinX sg0) (getMinX sg)
            ∧ snappedDown rw (getMaxX sg0) (getMaxX sg).
Proof.
  intros Hsp Hrun. unfold findSegments in Hrun.
  apply bind_Ok in Hrun as ([] & st0 & Hdiv & Hrun).
  apply bind_Ok in Hrun as ([] & st1 & Hslice & Hrun).
  apply bind_Ok in Hrun as ([] & st2 & Hsnap & ->%modify_Ok).
  destruct (divideRows_built _ _ _ Hdiv) as [Hb0 _].
  pose proof (keeps_sliceRegions _ _ _ _ Hslice Hb0) as Hb1.
  destruct (Hb1 0%nat) as (Harch & Hfresh & _).
  destruct (snapSegments_inv _ _ _ _ Harch Hfresh Hsp Hsnap) as [Hlen Hall].
  exists st1. split.
  { apply bind_Ok. exists tt, st0. done. }
  simpl. split; [done|]. split; [by rewrite length_replicate|].
  intros s sg Hs. destruct (Hall s sg Hs)
    as (sg0 & rw & H0 & Hrw & Hu & _ & Hup & Hdn).
  split; [done|]. split.
  { apply lookup_replicate_2. by eapply lookup_lt_Some. }
  exists sg0, rw. split; [done|].
  assert (m_arch st2 = m_arch st) as ->.
  { pose proof (keepsInputs_snapSegments _ _ _ Hsnap) as Hin.
    unfold sameInputs, inputs in Hin. congruence. }
  split; [done|]. split; [apply Hup|]. split; [apply Hdn|]. done.
Qed.

(** The theorem at [demoCoarse]. *)
Lemma segments_end_on_sites_witness :
  let st := demoCoarse in
  let st' := exec findSegments demoCoarse in
  ∃ st1,
    (divideRows;; sliceRegions) st = Ok (tt, st1)
    ∧ length (m_segments st') = length (m_segments st1)
    ∧ length (m_cellsInSeg st') = length (m_segments st')
    ∧ ∀ s sg, m_segments st' !! s = Some sg →
        getUtil sg = 0
        ∧ m_cellsInSeg st' !! s = Some []
        ∧ ∃ sg0 rw,
            m_segments st1 !! s = Some sg0
            ∧ rowOf (m_arch st') sg = Some rw
            ∧ onGrid rw (getMinX sg) ∧ onGrid rw (getMaxX sg)
            ∧ snappedUp rw (getMinX sg0) (getMinX sg)
            ∧ snappedDown rw (getMaxX sg0) (getMaxX sg).
Proof.
  intros st st'.
  apply (segments_end_on_sites st tt st').
  - intros rw Hrw. vm_compute in Hrw.
    apply list_elem_of_singleton in Hrw as ->. reflexivity.
  - vm_compute. reflexivity.
Defined.

(** ** The ids of the segments *)

Lemma keeps_storeOk_pushSegment r sg :
  preserves (keeping storeOk) (pushSegment r sg).
Proof.
  intros st u st' [_ ->]%pushSegment_Ok Hok i sg'. simpl.
  intros [Hi|[Hi Hnew]]%lookup_app_Some; [by apply Hok|].
  destruct (i - length (m_segments st))%nat eqn:Hd; [|done].
  injection Hnew as <-. simpl. f_equal. lia.
Qed.

Lemma keeps_storeOk_updateSegment p f :
  (∀ sg, getSegId (f sg) = getSegId sg) →
  preserves (keeping storeOk) (updateSegment p f).
Proof.
  intros Hf st u st' [_ ->]%updateSegment_Ok Hok i sg. simpl.
  destruct (decide (i = p)) as [->|Hne].
  - rewrite list_lookup_alter_eq.
    destruct (m_segments st !! p) as [sg0|] eqn:Hp; [|done].
    simpl. intros [= <-]. rewrite Hf. by apply Hok.
  - rewrite list_lookup_alter_ne by done. apply Hok.
Qed.

Lemma keeps_storeOk_clearRow r : preserves (keeping storeOk) (clearRow r).
Proof. intros st u st' [_ ->]%clearRow_Ok Hok. exact Hok. Qed.

#[export] Hint Resolve keeps_storeOk_pushSegment keeps_storeOk_clearRow
  : preserves.

Lemma keeps_storeOk_splitLoop fuel : ∀ reg r il ir s,
  preserves (keeping storeOk) (splitLoop fuel reg r il ir s).
Proof.
  assert (∀ p v, preserves (keeping storeOk) (updateSegment p (setRegId v)))
    by (intros; by apply keeps_storeOk_updateSegment).
  assert (∀ p v, preserves (keeping storeOk) (updateSegment p (setMinX v)))
    by (intros; by apply keeps_storeOk_updateSegment).
  assert (∀ p v, preserves (keeping storeOk) (updateSegment p (setMaxX v)))
    by (intros; by apply keeps_storeOk_updateSegment).
  induction fuel as [|fuel IH]; intros; simpl; unfold splitSegment;
    keeps_auto.
Qed.

(** Every segment that [findSegments] leaves carries its index as id. *)
Lemma findSegments_storeOk st u st' : findSegments st = Ok (u, st') → storeOk st'.
Proof.
  unfold findSegments.
  intros ([] & st0 & Hdiv & Hrun)%bind_Ok.
  apply bind_Ok in Hrun as ([] & st1 & Hslice & Hrun).
  apply bind_Ok in Hrun as ([] & st2 & Hsnap & ->%modify_Ok).
  assert (storeOk st0) as H0.
  { unfold divideRows in Hdiv.
    rewrite (bind_run _ _ _ _ _ (gets_run _ _)) in Hdiv.
    apply bind_Ok in Hdiv as ([] & st00 & ->%modify_Ok & Hloop).
    refine (preserves_forM (keeping storeOk) _ _ _ _ _ _ Hloop _).
    - intros r. unfold divideRow, freeSegment. keeps_auto.
    - intros i sg. simpl. by rewrite lookup_nil. }
  assert (storeOk st1) as H1.
  { revert H0. pose proof keeps_storeOk_splitLoop.
    match type of Hslice with ?m _ = _ =>
      assert (preserves (keeping storeOk) m) as Hkeep
    end; [|exact (Hkeep _ _ _ Hslice)].
    unfold sliceRegions, findRegionIntervals, rowCover, splitRow. keeps_auto. }
  assert (storeOk st2) as H2.
  { revert H1. unfold snapSegments in Hsnap.
    rewrite (bind_run _ _ _ _ _ (gets_run _ _)) in Hsnap.
    refine (preserves_forM (keeping storeOk) _ _ _ _ _ _ Hsnap).
    intros s sa v sb Hstep Hok.
    apply snapSegment_inv in Hstep
      as (sg & rw & sg' & Hsg & _ & -> & _ & _ & Hid & _).
    intros i sgi. simpl. destruct (decide (i = s)) as [->|Hne].
    - rewrite list_lookup_alter_eq, Hsg. intros [= <-]. rewrite Hid.
      by apply Hok.
    - rewrite list_lookup_alter_ne by done. apply Hok. }
  exact H2.
Qed.

(** * The free intervals of a row *)

(** ** Maximal runs *)

Lemma maximalRun_ext (P Q : Z -> Prop) x1 x2 :
  (∀ x, P x ↔ Q x) → maximalRun P x1 x2 ↔ maximalRun Q x1 x2.
Proof.
  intros H. unfold maximalRun. rewrite !H.
  split; intros (? & Hall & ? & ?); (split; [done|]); (split; [|done]);
    intros x Hx; apply H, Hall, Hx.
Qed.

Lemma maximalRun_interval c d x1 x2 :
  maximalRun (fun x => c <= x < d) x1 x2 ↔ c < d ∧ x1 = c ∧ x2 = d.
Proof.
  split.
  - intros (Hlt & Hall & Hl & Hr).
    pose proof (Hall x1 ltac:(lia)). pose proof (Hall (x2 - 1) ltac:(lia)).
    lia.
  - intros (Hlt & -> & ->). split; [done|]. split; [done|]. lia.
Qed.

Lemma maximalRun_none (P : Z -> Prop) x1 x2 :
  (∀ x, ¬ P x) → ¬ maximalRun P x1 x2.
Proof. intros H (Hlt & Hall & _). apply (H x1), Hall. lia. Qed.

(** A run that starts in [A] stays in [A] when [B] is further right. *)
Lemma run_stays (A B : Z -> Prop) x1 x2 :
  (∀ x y, A x → B y → x + 1 < y ∨ y + 1 < x) →
  (∀ x, x1 <= x < x2 → A x ∨ B x) →
  A x1 → ∀ x, x1 <= x < x2 → A x.
Proof.
  intros Hsep Hall H1 x Hx.
  assert (∀ n : nat, x1 + Z.of_nat n < x2 → A (x1 + Z.of_nat n)) as Hind.
  { induction n as [|n IH]; intros Hn.
    - by rewrite Z.add_0_r.
    - destruct (Hall (x1 + Z.of_nat (S n)) ltac:(lia)) as [HA|HB]; [done|].
      specialize (IH ltac:(lia)).
      destruct (Hsep _ _ IH HB); lia. }
  replace x with (x1 + Z.of_nat (Z.to_nat (x - x1))) by lia.
  apply Hind. lia.
Qed.

Lemma maximalRun_union (A B : Z -> Prop) x1 x2 :
  (∀ x y, A x → B y → x + 1 < y ∨ y + 1 < x) →
  maximalRun (fun x => A x ∨ B x) x1 x2
  ↔ maximalRun A x1 x2 ∨ maximalRun B x1 x2.
Proof.
  intros Hsep. split.
  - intros (Hlt & Hall & Hl & Hr).
    destruct (Hall x1 ltac:(lia)) as [H1|H1]; [left|right].
    + split; [done|]. split; [|tauto].
      by apply (run_stays A B x1 x2).
    + split; [done|]. split; [|tauto].
      apply (run_stays B A x1 x2); [|intros x Hx; specialize (Hall x Hx); tauto
                                    |done].
      intros x y HB HA. destruct (Hsep y x HA HB); lia.
  - intros [(Hlt & Hall & Hl & Hr)|(Hlt & Hall & Hl & Hr)].
    + split; [done|]. split; [intros x Hx; left; by apply Hall|].
      pose proof (Hall x1 ltac:(lia)). pose proof (Hall (x2 - 1) ltac:(lia)).
      split; intros [?|HB]; try done.
      * destruct (Hsep x1 (x1 - 1)); [done..|lia|lia].
      * destruct (Hsep (x2 - 1) x2); [done..|lia|lia].
    + split; [done|]. split; [intros x Hx; right; by apply Hall|].
      pose proof (Hall x1 ltac:(lia)). pose proof (Hall (x2 - 1) ltac:(lia)).
      split; intros [HA|?]; try done.
      * destruct (Hsep (x1 - 1) x1); [done..|lia|lia].
      * destruct (Hsep x2 (x2 - 1)); [done..|lia|lia].
Qed.

(** ** The intervals between the blockages *)

Lemma elem_of_gap x1 x2 y1 y2 :
  (y1, y2) ∈ gap x1 x2 ↔ x1 < x2 ∧ y1 = x1 ∧ y2 = x2.
Proof.
  unfold gap. destruct (decide (x2 > x1)).
  - rewrite list_elem_of_singleton. split; [intros [= -> ->]|intros (_ & -> & ->)];
      (done || lia).
  - rewrite elem_of_nil. lia.
Qed.

Lemma chain_fst_le x l : chain (x :: l) → ∀ y, y ∈ l → fst x <= fst y.
Proof.
  revert x. induction l as [|z l IH]; intros x Hc y Hy.
  - by apply elem_of_nil in Hy.
  - destruct Hc as [[Hxz _] Hc]. apply elem_of_cons in Hy as [->|Hy]; [done|].
    specialize (IH z Hc y Hy). lia.
Qed.

Lemma gapsAfter_spec lo hi : ∀ rest bp,
  chain (bp :: rest) → Forall (proper lo hi) rest →
  ∀ x1 x2, (x1, x2) ∈ gapsAfter lo hi bp rest
           ↔ maximalRun (freeFrom lo hi bp rest) x1 x2.
Proof.
  induction rest as [|bi rest IH]; intros bp Hc Hp x1 x2.
  - simpl. unfold gapAfter.
    rewrite (maximalRun_ext _ (fun x => Z.max lo (snd bp) <= x < hi)).
    2:{ intros x. unfold freeFrom. split; [tauto|]. intros ?. split; [done|].
        intros iv Hiv. by apply elem_of_nil in Hiv. }
    rewrite maximalRun_interval.
    destruct (decide (snd bp < hi)).
    + rewrite elem_of_gap. lia.
    + rewrite elem_of_nil. lia.
  - destruct Hc as [[Hfst Hsnd] Hc]. apply Forall_cons in Hp as [Hbi Hp].
    simpl. rewrite elem_of_app, (IH bi Hc Hp).
    pose proof (chain_fst_le bi rest Hc) as Hle.
    set (A := fun x => Z.max lo (snd bp) <= x < Z.min hi (fst bi)).
    rewrite (maximalRun_ext (freeFrom lo hi bp (bi :: rest))
               (fun x => A x ∨ freeFrom lo hi bi rest x)).
    2:{ intros x. unfold freeFrom, A. split.
        - intros [Hx Hall].
          pose proof (Hall bi ltac:(left)) as Hbi'.
          destruct (decide (x < fst bi)); [left; lia|right].
          split; [lia|]. intros iv Hiv. apply Hall. by right.
        - intros [Hx|[Hx Hall]].
          + split; [lia|]. intros iv [->|Hiv]%elem_of_cons; [lia|].
            specialize (Hle iv Hiv). lia.
          + unfold proper in Hbi. split; [lia|].
            intros iv [->|Hiv]%elem_of_cons; [lia|]. by apply Hall. }
    rewrite maximalRun_union.
    2:{ intros x y HA [Hy _]. unfold A in HA. unfold proper in Hbi. lia. }
    unfold gapBetween. rewrite decide_True by lia.
    rewrite elem_of_gap. unfold A. rewrite maximalRun_interval. tauto.
Qed.

Lemma gapsAfter_bounds lo hi : ∀ rest bp x1 x2,
  chain (bp :: rest) → Forall (proper lo hi) rest →
  (x1, x2) ∈ gapsAfter lo hi bp rest →
  Z.max lo (snd bp) <= x1 ∧ x1 < x2 ∧ x2 <= hi.
Proof.
  induction rest as [|bi rest IH]; intros bp x1 x2 Hc Hp; simpl.
  - unfold gapAfter. destruct (decide _); [|by rewrite elem_of_nil].
    rewrite elem_of_gap. lia.
  - destruct Hc as [[Hfst Hsnd] Hc]. apply Forall_cons in Hp as [Hbi Hp].
    rewrite elem_of_app. unfold gapBetween. intros [H|H].
    + destruct (decide _); [|by apply elem_of_nil in H].
      apply elem_of_gap in H. lia.
    + apply IH in H; [|done..]. unfold proper in Hbi. lia.
Qed.

Lemma NoDup_gap x1 x2 : NoDup (gap x1 x2).
Proof.
  unfold gap. destruct (decide _); [apply NoDup_singleton|apply NoDup_nil_2].
Qed.

Lemma gapsAfter_NoDup lo hi : ∀ rest bp,
  chain (bp :: rest) → Forall (proper lo hi) rest →
  NoDup (gapsAfter lo hi bp rest).
Proof.
  induction rest as [|bi rest IH]; intros bp Hc Hp; simpl.
  - unfold gapAfter. destruct (decide _); [apply NoDup_gap|apply NoDup_nil_2].
  - pose proof (gapsAfter_bounds lo hi rest bi) as Hb.
    destruct Hc as [[Hfst Hsnd] Hc]. apply Forall_cons in Hp as [Hbi Hp].
    apply NoDup_app. split; [|split; [|by apply IH]].
    + unfold gapBetween. destruct (decide _); [apply NoDup_gap|apply NoDup_nil_2].
    + intros [x1 x2] H1 H2. apply Hb in H2; [|done..].
      unfold gapBetween in H1. destruct (decide _); [|by apply elem_of_nil in H1].
      apply elem_of_gap in H1. unfold proper in Hbi. lia.
Qed.

Lemma gap_empty x1 x2 : x2 <= x1 → gap x1 x2 = [].
Proof. intros. unfold gap. by rewrite decide_False by lia. Qed.

Lemma rowGaps_tail lo hi : ∀ rest b0 d,
  (zip (b0 :: rest) rest ≫= fun p => gapBetween lo hi (fst p) (snd p))
  ++ gapAfter lo hi (List.last (b0 :: rest) d)
  = gapsAfter lo hi b0 rest.
Proof.
  induction rest as [|b1 rest IH]; intros b0 d; [done|].
  change (zip (b0 :: b1 :: rest) (b1 :: rest))
    with ((b0, b1) :: zip (b1 :: rest) rest).
  change (List.last (b0 :: b1 :: rest) d) with (List.last (b1 :: rest) d).
  rewrite bind_cons, <- app_assoc, IH. done.
Qed.

Lemma rowGaps_eq lo hi blk :
  rowGaps lo hi blk = gapsAfter lo hi (leftmost lo blk) blk.
Proof.
  destruct blk as [|b0 rest]; unfold rowGaps, leftmost.
  - cbn [gapsAfter]. unfold gapAfter. cbn [snd].
    destruct (decide (hi > lo)).
    + rewrite decide_True by lia. f_equal. lia.
    + rewrite (gap_empty lo hi) by lia.
      destruct (decide _); [|done]. symmetry. apply gap_empty. lia.
  - change (tail (b0 :: rest)) with rest. rewrite rowGaps_tail.
    simpl. f_equal. unfold gapBetween. simpl.
    destruct (decide (fst b0 > Z.min lo (fst b0) - 1)); [|lia].
    replace (Z.max lo (Z.min lo (fst b0) - 1)) with lo by lia.
    destruct (decide (fst b0 > lo)); [done|].
    rewrite gap_empty by lia. done.
Qed.

Lemma freeFrom_leftmost lo hi blk x :
  freeFrom lo hi (leftmost lo blk) blk x ↔ freeAt lo hi blk x.
Proof.
  unfold freeFrom, freeAt, leftmost. simpl.
  destruct blk as [|b0 rest]; split; intros [? ?]; (split; [lia|done]).
Qed.

Lemma chain_leftmost lo blk : chain blk → chain (leftmost lo blk :: blk).
Proof.
  intros Hc. split; [|done]. destruct blk as [|b0 rest]; [done|].
  unfold leftmost. simpl. lia.
Qed.

(** The intervals of [rowGaps] are the maximal runs of free points of the
    range, each listed once. *)
Lemma rowGaps_spec lo hi blk :
  chain blk → Forall (proper lo hi) blk →
  NoDup (rowGaps lo hi blk)
  ∧ ∀ x1 x2, (x1, x2) ∈ rowGaps lo hi blk
             ↔ maximalRun (freeAt lo hi blk) x1 x2.
Proof.
  intros Hc Hp. rewrite rowGaps_eq. apply (chain_leftmost lo) in Hc. split.
  - by apply gapsAfter_NoDup.
  - intros x1 x2. rewrite gapsAfter_spec by done.
    apply maximalRun_ext. apply freeFrom_leftmost.
Qed.

(** ** Sorting and merging the blockages *)

Lemma solid_proper arch rw iv :
  solid arch iv → proper (legalLeft arch rw) (legalRight arch rw) iv.
Proof. unfold solid, proper, legalLeft, legalRight. lia. Qed.

Lemma compareBlockages_true y x : compareBlockages y x = true → fst y <= fst x.
Proof.
  unfold compareBlockages. destruct (decide _); [lia|].
  intros H%bool_decide_eq_true. lia.
Qed.

Lemma compareBlockages_false y x :
  compareBlockages y x = false →
  fst x <= fst y ∧ (fst x = fst y → snd x <= snd y).
Proof.
  unfold compareBlockages. destruct (decide _);
    intros H%bool_decide_eq_false; lia.
Qed.

Lemma elem_of_insert_blockage x l y :
  y ∈ insert_blockage x l ↔ y = x ∨ y ∈ l.
Proof.
  induction l as [|z l IH]; simpl.
  - rewrite list_elem_of_singleton, elem_of_nil. tauto.
  - destruct (compareBlockages z x); rewrite !elem_of_cons; [rewrite IH|];
      tauto.
Qed.

Lemma elem_of_sortBlockages l y : y ∈ sortBlockages l ↔ y ∈ l.
Proof.
  induction l as [|x l IH]; [done|].
  change (sortBlockages (x :: l)) with (insert_blockage x (sortBlockages l)).
  rewrite elem_of_insert_blockage, elem_of_cons, IH. done.
Qed.

Lemma insert_blockage_ascending x l :
  ascending l → ascending (insert_blockage x l).
Proof.
  induction l as [|z l IH]; simpl.
  - intros _. split; [|done]. intros y Hy. by apply elem_of_nil in Hy.
  - intros [Hz Hl]. destruct (compareBlockages z x) eqn:Hc.
    + apply compareBlockages_true in Hc. split; [|by apply IH].
      intros y [->|Hy]%elem_of_insert_blockage; [done|by apply Hz].
    + apply compareBlockages_false in Hc as [Hc _]. split; [|done].
      intros y [->|Hy]%elem_of_cons; [done|]. specialize (Hz y Hy). lia.
Qed.

Lemma sortBlockages_ascending l : ascending (sortBlockages l).
Proof.
  induction l as [|x l IH]; [done|].
  change (sortBlockages (x :: l)) with (insert_blockage x (sortBlockages l)).
  by apply insert_blockage_ascending.
Qed.

Lemma insert_blockage_chain x l :
  chain l → (∀ y, y ∈ l → fst y <= fst x ∧ snd y < fst x) →
  chain (insert_blockage x l).
Proof.
  induction l as [|z l IH]; [done|].
  intros [Hlink Hl] Hx. cbn [insert_blockage].
  destruct (compareBlockages z x) eqn:Hc.
  - specialize (IH Hl (fun y Hy => Hx y (list_elem_of_further _ _ _ Hy))).
    split; [|done]. destruct l as [|w l]; cbn [insert_blockage].
    + apply Hx. left.
    + destruct (compareBlockages w x); [done|]. apply Hx. left.
  - apply compareBlockages_false in Hc as [Hc1 Hc2].
    destruct (Hx z ltac:(left)) as [Hz1 Hz2].
    split; [|done]. split; [lia|]. specialize (Hc2 ltac:(lia)). lia.
Qed.

Lemma sortBlockages_chain l : stacked l → chain (sortBlockages l).
Proof.
  induction l as [|x l IH]; [done|]. intros [Hx Hl].
  change (sortBlockages (x :: l)) with (insert_blockage x (sortBlockages l)).
  apply insert_blockage_chain; [by apply IH|].
  intros y Hy. apply (proj1 (elem_of_sortBlockages l y)) in Hy. by apply Hx.
Qed.

Lemma mergeSweep_stacked : ∀ bs top s,
  stacked (top :: s) → (∀ b, b ∈ bs → fst top <= fst b) → ascending bs →
  stacked (mergeSweep top s bs).
Proof.
  induction bs as [|b bs IH]; intros top s Hst Htop Hasc; [done|].
  destruct Hasc as [Hb Hasc]. cbn [mergeSweep].
  pose proof (Htop b ltac:(left)) as Htb.
  destruct Hst as [Hs Hst]. destruct (decide (snd top < fst b)).
  - apply IH; [|done..]. split; [|done].
    intros y [->|Hy]%elem_of_cons; [lia|]. specialize (Hs y Hy). lia.
  - apply IH; [|intros b' Hb'|done].
    + split; [|done]. by destruct (decide _).
    + specialize (Htop b' ltac:(by right)). by destruct (decide _).
Qed.

Lemma mergeSweep_Forall (P : Z * Z -> Prop) : ∀ bs top s,
  (∀ x b, P x → P b → snd x < snd b → P (fst x, snd b)) →
  P top → Forall P s → Forall P bs → Forall P (mergeSweep top s bs).
Proof.
  induction bs as [|b bs IH]; intros top s Hext Htop Hs Hbs; cbn [mergeSweep].
  - by apply Forall_cons.
  - apply Forall_cons in Hbs as [Hb Hbs]. destruct (decide _).
    + apply IH; [done..|by apply Forall_cons|done].
    + apply IH; [done| |done..]. destruct (decide _); [by apply Hext|done].
Qed.

Lemma sortBlockages_Forall (P : Z * Z -> Prop) l :
  Forall P l → Forall P (sortBlockages l).
Proof.
  rewrite !Forall_forall. intros H y Hy.
  apply (proj1 (elem_of_sortBlockages l y)) in Hy. by apply H.
Qed.

Lemma mergeIntervals_chain bs : chain (mergeIntervals bs).
Proof.
  unfold mergeIntervals.
  pose proof (sortBlockages_ascending bs) as Hasc.
  destruct (sortBlockages bs) as [|b0 rest] eqn:Hsort.
  - destruct bs as [|b bs]; [done|].
    assert (b ∈ sortBlockages (b :: bs)) as Hb
      by (apply (proj2 (elem_of_sortBlockages _ _)); left).
    rewrite Hsort in Hb. by apply elem_of_nil in Hb.
  - destruct Hasc as [H0 Hasc].
    apply sortBlockages_chain, mergeSweep_stacked; [|done..].
    split; [|done]. intros y Hy. by apply elem_of_nil in Hy.
Qed.

Lemma mergeIntervals_solid arch bs :
  Forall (solid arch) bs → Forall (solid arch) (mergeIntervals bs).
Proof.
  intros Hbs. unfold mergeIntervals.
  pose proof (sortBlockages_Forall _ _ Hbs) as Hsorted.
  destruct (sortBlockages bs) as [|b0 rest]; [done|].
  apply Forall_cons in Hsorted as [H0 Hrest].
  apply sortBlockages_Forall, mergeSweep_Forall; [|done..].
  intros x b Hx _ Hlt. unfold solid in *. simpl. lia.
Qed.

(** ** The blockages that [findBlockages] leaves *)

Lemma pushBlockage_Ok r iv st u st' :
  pushBlockage r iv st = Ok (u, st') ↔
  (r < length (m_blockages st))%nat
  ∧ st' = set_blockages (alter (fun l => l ++ [iv]) r (m_blockages st)) st.
Proof.
  unfold pushBlockage. rewrite !(bind_run _ _ _ _ _ (gets_run _ _)).
  destruct u. split.
  - intros (b & st1 & [Hb ->]%deref_Ok & ->%modify_Ok)%bind_Ok.
    apply alter_at_Some in Hb as [? ->]. done.
  - intros [Hr ->]. apply bind_Ok. eexists _, st. split.
    + apply deref_Ok. split; [|done]. by apply alter_at_lt.
    + by apply modify_Ok.
Qed.

Lemma keeps_pushBlockage arch nw r iv :
  solid arch iv →
  preserves (keeping (blockagesSolid arch nw)) (pushBlockage r iv).
Proof.
  intros Hiv st u st' [Hr ->]%pushBlockage_Ok (Harch & Hnw & Hall).
  split; [done|]. split; [done|]. simpl. intros r' blk.
  destruct (decide (r' = r)) as [->|Hne].
  - rewrite list_lookup_alter_eq.
    destruct (m_blockages st !! r) as [old|] eqn:Hold; [|done].
    intros [= <-]. apply Forall_app. split; [by eapply Hall|].
    by apply Forall_singleton.
  - rewrite list_lookup_alter_ne by done. apply Hall.
Qed.

Lemma preserves_forM_elem {A : Type} (R : relation DetailedMgr)
    `{!Reflexive R, !Transitive R} (l : list A) (f : A -> M unit) :
  (∀ a, a ∈ l → preserves R (f a)) → preserves R (forM l f).
Proof.
  induction l as [|a l IH]; intros Hf; simpl; [preserves_auto|].
  apply preserves_bind; [tc_solve..|apply Hf; left|intros _].
  apply IH. intros b Hb. apply Hf. by right.
Qed.

Lemma rowCover_Some rect r st c st' :
  rowCover rect r st = Ok (c, st') →
  st' = st
  ∧ ∀ iv, c = Some iv →
          (∀ rw, rw ∈ getRows (m_arch st) → 0 < row_getSiteSpacing rw) →
          fst iv < snd iv.
Proof.
  unfold rowCover. rewrite !(bind_run _ _ _ _ _ (gets_run _ _)).
  destruct (decide _); [|intros [-> ->]%mret_Ok; done].
  intros (rw & st1 & (_ & Hrw & ->)%row_Ok & Hrun)%bind_Ok.
  apply list_elem_of_lookup_2 in Hrw.
  destruct (decide (row_getSiteSpacing rw = 0)); [done|].
  destruct (decide (_ > _)); apply mret_Ok in Hrun as [-> ->]; [|done].
  split; [done|]. intros iv [= <-] Hsp. specialize (Hsp rw Hrw). simpl.
  destruct (decide (_ ≠ _)); nia.
Qed.

Section findBlockages.
Context (arch : Architecture) (nw : list Node) (fixedCells : list nat).
Context (Hsites : ∀ rw, rw ∈ getRows arch → 0 < row_getSiteSpacing rw).
Context (Hwide : ∀ c nd, c ∈ fixedCells → nw !! c = Some nd →
                         0 < getWidth nd).
Context (Hspacing : ∀ nd, 0 <= getCellSpacing arch None (Some nd)
                          ∧ 0 <= getCellSpacing arch (Some nd) None).

Lemma keeps_fixedCell ndi (n : nat) :
  ndi ∈ fixedCells →
  preserves (keeping (blockagesSolid arch nw))
    (nd ← node ndi;
     let xmin := Z.max (arch_getMinX arch) (getLeft nd) in
     let xmax := Z.min (arch_getMaxX arch) (getRight nd) in
     let ymin := Z.max (arch_getMinY arch) (getBottom nd) in
     let ymax := Z.min (arch_getMaxY arch) (getTop nd) in
     let xmin := xmin - getCellSpacing arch None (Some nd) in
     let xmax := xmax + getCellSpacing arch (Some nd) None in
     forM (seq 0 n) (fun r =>
       rw ← row (Z.of_nat r);
       let yb := row_getBottom rw in
       let yt := row_getTop rw in
       if decide (¬ (ymin >= yt ∨ ymax <= yb))
       then pushBlockage r (xmin, xmax)
       else mret tt)).
Proof.
  intros Hin st u st' Hrun Hinv.
  apply bind_Ok in Hrun as (nd & st1 & [Hnd ->]%node_Ok & Hrun).
  pose proof Hinv as (_ & Hnw & _). rewrite Hnw in Hnd.
  pose proof (Hwide ndi nd Hin Hnd) as Hw.
  destruct (Hspacing nd) as [Hs1 Hs2].
  cbv zeta in Hrun. revert Hinv.
  match type of Hrun with ?m _ = _ =>
    assert (preserves (keeping (blockagesSolid arch nw)) m) as Hkeep
  end; [|exact (Hkeep _ _ _ Hrun)].
  apply preserves_forM; [tc_solve..|]. intros r.
  apply preserves_bind; [tc_solve..|preserves_auto|intros rw].
  destruct (decide _); [|preserves_auto].
  apply keeps_pushBlockage. unfold solid, getRight. simpl. lia.
Qed.

Lemma keeps_routeBlockage rect r :
  preserves (keeping (blockagesSolid arch nw))
    (c ← rowCover rect r;
     match c with
     | Some iv => pushBlockage r iv
     | None => mret tt
     end).
Proof.
  intros st u st' Hrun Hinv.
  apply bind_Ok in Hrun as (c & st1 & [-> Hc]%rowCover_Some & Hrun).
  destruct c as [iv|]; [|apply mret_Ok in Hrun as [_ ->]; done].
  pose proof Hinv as (Harch & _). rewrite Harch in Hc.
  eapply keeps_pushBlockage; [|exact Hrun|exact Hinv].
  left. by apply Hc.
Qed.
End findBlockages.

#[export] Instance sameBlockageRows_refl : Reflexive sameBlockageRows.
Proof. by intros st. Qed.

#[export] Instance sameBlockageRows_trans : Transitive sameBlockageRows.
Proof. intros s1 s2 s3. unfold sameBlockageRows. congruence. Qed.

Lemma sameBlockageRows_pushBlockage r iv :
  preserves sameBlockageRows (pushBlockage r iv).
Proof.
  intros st u st' [_ ->]%pushBlockage_Ok. unfold sameBlockageRows. simpl.
  by rewrite length_alter.
Qed.

#[export] Hint Resolve sameBlockageRows_pushBlockage : preserves.

Lemma findBlockages_inv b st u st' :
  (∀ rw, rw ∈ getRows (m_arch st) → 0 < row_getSiteSpacing rw) →
  (∀ c nd, c ∈ m_fixedCells st → m_network st !! c = Some nd →
           0 < getWidth nd) →
  (∀ nd, 0 <= getCellSpacing (m_arch st) None (Some nd)
         ∧ 0 <= getCellSpacing (m_arch st) (Some nd) None) →
  findBlockages b st = Ok (u, st') →
  length (m_blockages st') = m_numSingleHeightRows st
  ∧ ∀ r blk, m_blockages st' !! r = Some blk →
             chain blk ∧ Forall (solid (m_arch st)) blk.
Proof.
  intros Hsites Hwide Hspacing. unfold findBlockages.
  rewrite !(bind_run _ _ _ _ _ (gets_run _ _)).
  set (arch := m_arch st). set (n := m_numSingleHeightRows st).
  set (I := blockagesSolid arch (m_network st)).
  intros ([] & st0 & ->%modify_Ok & Hrun)%bind_Ok.
  apply bind_Ok in Hrun as ([] & st1 & Hfixed & Hrun).
  apply bind_Ok in Hrun as ([] & st2 & Hroute & Hmerge).
  assert (I (set_blockages (replicate n []) st)) as H0.
  { split; [done|]. split; [done|]. simpl. intros r blk Hr.
    apply lookup_replicate in Hr as [-> _]. done. }
  assert (length (m_blockages (set_blockages (replicate n []) st)) = n) as L0
    by (simpl; apply length_replicate).
  assert (I st1 ∧ length (m_blockages st1) = n) as [H1 L1].
  { split.
    - refine (preserves_forM_elem (keeping I) _ _ _ _ _ _ Hfixed H0).
      intros ndi Hndi.
      by apply (keeps_fixedCell arch (m_network st) (m_fixedCells st)).
    - rewrite <- L0.
      refine (preserves_forM sameBlockageRows _ _ _ _ _ _ Hfixed).
      intros ndi. keeps_auto. }
  assert (I st2 ∧ length (m_blockages st2) = n) as [H2 L2].
  { split.
    - revert H1.
      match type of Hroute with ?m _ = _ =>
        assert (preserves (keeping I) m) as Hkeep
      end; [|exact (Hkeep _ _ _ Hroute)].
      destruct (m_rt st) as [rt|]; [|preserves_auto].
      destruct b; [|preserves_auto].
      apply preserves_forM; [tc_solve..|]. intros layer.
      apply preserves_bind; [tc_solve..|preserves_auto|intros rects].
      apply preserves_forM; [tc_solve..|]. intros rect.
      apply preserves_forM; [tc_solve..|]. intros r.
      by apply keeps_routeBlockage.
    - rewrite <- L1.
      match type of Hroute with ?m _ = _ =>
        assert (preserves sameBlockageRows m) as Hkeep
      end; [|exact (Hkeep _ _ _ Hroute)].
      unfold rowCover. keeps_auto. }
  pose (P := fun (i : nat) (s : DetailedMgr) =>
    I s ∧ length (m_blockages s) = n
    ∧ ∀ r blk, (r < i)%nat → m_blockages s !! r = Some blk → chain blk).
  assert (P (0 + n)%nat st') as ((_ & _ & Hsolid) & Hlen & Hchain).
  { eapply (forM_seq_inv P); [| |exact Hmerge].
    - intros i s v s' _ ((Ha & Hn & Hs) & Hl & Hc) Hstep.
      rewrite (bind_run _ _ _ _ _ (gets_run _ _)) in Hstep.
      apply bind_Ok in Hstep as (blk & s1 & [Hblk ->]%deref_Ok & Hstep).
      apply bind_Ok in Hstep as (blks & s1 & [Hst ->]%deref_Ok & ->%modify_Ok).
      apply store_at_Some in Hst as [Hi ->].
      split; [split; [done|split; [done|]]|split].
      + simpl. intros r blk'. destruct (decide (r = i)) as [->|Hne].
        * rewrite list_lookup_insert_eq by done. intros [= <-].
          apply mergeIntervals_solid. by eapply Hs.
        * rewrite list_lookup_insert_ne by done. apply Hs.
      + simpl. by rewrite length_insert.
      + simpl. intros r blk' Hr. destruct (decide (r = i)) as [->|Hne].
        * rewrite list_lookup_insert_eq by done. intros [= <-].
          apply mergeIntervals_chain.
        * rewrite list_lookup_insert_ne by done. apply Hc. lia.
    - split; [done|]. split; [done|]. intros r blk Hr. lia. }
  split; [done|]. intros r blk Hblk. split; [|by eapply Hsolid].
  apply (Hchain r); [|done]. apply lookup_lt_Some in Hblk. lia.
Qed.

(** ** The intervals of the segments of a row *)

Lemma appends_refl k st : appends k [] st st.
Proof. split; [intros ivs; by rewrite app_nil_r|done]. Qed.

Lemma appends_trans k g1 g2 s1 s2 s3 :
  appends k g1 s1 s2 → appends k g2 s2 s3 → appends k (g1 ++ g2) s1 s3.
Proof.
  intros [Ha1 Hb1] [Ha2 Hb2]. split.
  - intros ivs H. rewrite app_assoc. by apply Ha2, Ha1.
  - intros r ivs Hr H. by apply Hb2, Hb1.
Qed.

Lemma intervalOf_app sgs extra p iv :
  intervalOf sgs p = Some iv → intervalOf (sgs ++ extra) p = Some iv.
Proof.
  unfold intervalOf. intros H.
  destruct (sgs !! p) as [sg|] eqn:Hp; [|done].
  by rewrite (lookup_app_l_Some _ _ _ _ Hp).
Qed.

Lemma intervals_app sgs extra ptrs ivs :
  mapM (intervalOf sgs) ptrs = Some ivs →
  mapM (intervalOf (sgs ++ extra)) ptrs = Some ivs.
Proof.
  rewrite !mapM_Some. intros H. eapply Forall2_impl; [exact H|].
  intros p iv. apply intervalOf_app.
Qed.

Lemma pushSegment_appends k sg st u st' :
  pushSegment k sg st = Ok (u, st') →
  appends k [(getMinX sg, getMaxX sg)] st st'.
Proof.
  intros [Hk ->]%pushSegment_Ok. unfold appends, rowIntervals. simpl. split.
  - intros ivs. rewrite list_lookup_alter_eq.
    destruct (m_segsInRow st !! k) as [ptrs|]; [|done]. simpl.
    rewrite !mapM_Some. intros H. apply Forall2_app.
    + eapply Forall2_impl; [exact H|]. intros p iv. apply intervalOf_app.
    + constructor; [|constructor]. unfold intervalOf.
      rewrite lookup_app_r, Nat.sub_diag by lia. done.
  - intros r ivs Hr. rewrite list_lookup_alter_ne by done.
    destruct (m_segsInRow st !! r) as [ptrs|]; [|done]. simpl.
    apply intervals_app.
Qed.

Lemma freeSegment_appends k x1 x2 st u st' :
  freeSegment k x1 x2 st = Ok (u, st') → appends k (gap x1 x2) st st'.
Proof.
  unfold freeSegment, gap. destruct (decide (x2 > x1)).
  - apply pushSegment_appends.
  - intros [_ ->]%mret_Ok. apply appends_refl.
Qed.

Lemma forM_appends {A : Type} k (f : A -> M unit) (g : A -> list (Z * Z)) l :
  (∀ a st u st', f a st = Ok (u, st') → appends k (g a) st st') →
  ∀ st u st', forM l f st = Ok (u, st') → appends k (l ≫= g) st st'.
Proof.
  intros Hf. induction l as [|a l IH]; intros st u st'; simpl.
  - intros [_ ->]%mret_Ok. apply appends_refl.
  - intros ([] & st1 & H1 & H2)%bind_Ok.
    eapply appends_trans; [by eapply Hf|by eapply IH].
Qed.

Lemma clearRow_intervals k st u st' :
  clearRow k st = Ok (u, st') →
  rowIntervals st' k = Some []
  ∧ ∀ r, r ≠ k → rowIntervals st' r = rowIntervals st r.
Proof.
  intros [Hk ->]%clearRow_Ok. unfold rowIntervals. simpl. split.
  - by rewrite list_lookup_insert_eq.
  - intros r Hr. by rewrite list_lookup_insert_ne.
Qed.

#[export] Instance sameBlockageLists_refl : Reflexive sameBlockageLists.
Proof. by intros st. Qed.

#[export] Instance sameBlockageLists_trans : Transitive sameBlockageLists.
Proof. intros s1 s2 s3 [? ?] [? ?]. split; congruence. Qed.

Lemma sameBlockageLists_pushSegment r sg :
  preserves sameBlockageLists (pushSegment r sg).
Proof. by intros st u st' [_ ->]%pushSegment_Ok. Qed.

Lemma sameBlockageLists_clearRow r : preserves sameBlockageLists (clearRow r).
Proof. by intros st u st' [_ ->]%clearRow_Ok. Qed.

Lemma sameBlockageLists_updateSegment p f :
  preserves sameBlockageLists (updateSegment p f).
Proof. by intros st u st' [_ ->]%updateSegment_Ok. Qed.

#[export] Hint Resolve sameBlockageLists_pushSegment
  sameBlockageLists_clearRow sameBlockageLists_updateSegment : preserves.

Lemma sameBlockageLists_divideRow r : preserves sameBlockageLists (divideRow r).
Proof. unfold divideRow, freeSegment. keeps_auto. Qed.

Lemma sameBlockageLists_snapSegments : preserves sameBlockageLists snapSegments.
Proof. unfold snapSegments, snapSegment. keeps_auto. Qed.

(** What one iteration of the first loop appends. *)
Lemma divideRow_intervals k st u st' rw blk :
  getRows (m_arch st) !! k = Some rw → m_blockages st !! k = Some blk →
  divideRow k st = Ok (u, st') →
  rowIntervals st' k
  = Some (rowGaps (legalLeft (m_arch st) rw) (legalRight (m_arch st) rw) blk)
  ∧ ∀ r ivs, r ≠ k → rowIntervals st r = Some ivs →
             rowIntervals st' r = Some ivs.
Proof.
  intros Hrw Hblk Hrun. unfold divideRow in Hrun.
  rewrite (bind_run _ _ _ _ _ (gets_run _ _)) in Hrun.
  apply bind_Ok in Hrun as (rw' & st1 & (_ & Hrw' & ->)%row_Ok & Hrun).
  rewrite Nat2Z.id in Hrw'. assert (rw' = rw) as -> by congruence.
  apply bind_Ok in Hrun as ([] & st1 & Hclr & Hrun).
  destruct (clearRow_intervals _ _ _ _ Hclr) as [Hk Hother].
  pose proof (sameBlockageLists_clearRow _ _ _ _ Hclr) as [Hb _].
  rewrite (bind_run _ _ _ _ _ (gets_run _ _)) in Hrun.
  apply bind_Ok in Hrun as (blk' & st2 & [Hblk' ->]%deref_Ok & Hrun).
  rewrite Hb in Hblk'. assert (blk' = blk) as -> by congruence.
  fold (legalLeft (m_arch st) rw) in Hrun.
  fold (legalRight (m_arch st) rw) in Hrun.
  set (lo := legalLeft (m_arch st) rw) in *.
  set (hi := legalRight (m_arch st) rw) in *.
  assert (appends k (rowGaps lo hi blk) st1 st') as [Ha Hb'].
  { unfold rowGaps. destruct blk as [|b0 rest].
    - by eapply freeSegment_appends.
    - apply bind_Ok in Hrun as ([] & st2 & Hfirst & Hrun).
      apply bind_Ok in Hrun as ([] & st3 & Hmid & Hlast).
      unfold floor_int, ceil_int in *.
      eapply appends_trans; [|eapply appends_trans].
      + destruct (decide (fst b0 > lo)).
        * by eapply freeSegment_appends.
        * apply mret_Ok in Hfirst as [_ ->]. apply appends_refl.
      + refine (forM_appends k _ (fun p => gapBetween lo hi (fst p) (snd p))
                  _ _ _ _ _ Hmid).
        intros [bp bi] s v s' Hstep. unfold gapBetween. simpl.
        destruct (decide (fst bi > snd bp)).
        * by eapply freeSegment_appends.
        * apply mret_Ok in Hstep as [_ ->]. apply appends_refl.
      + unfold gapAfter.
        destruct (decide (snd (List.last (b0 :: rest) b0) < hi)).
        * by eapply freeSegment_appends.
        * apply mret_Ok in Hlast as [_ ->]. apply appends_refl. }
  split; [by apply (Ha [])|].
  intros r ivs Hr H. apply Hb'; [done|]. by rewrite Hother.
Qed.

(** After the first loop every row lists the segments of [rowGaps]. *)
Lemma divideRows_intervals st u st' :
  divideRows st = Ok (u, st') →
  m_blockages st' = m_blockages st
  ∧ ∀ r rw blk,
      (r < m_numSingleHeightRows st)%nat →
      getRows (m_arch st) !! r = Some rw → m_blockages st !! r = Some blk →
      rowIntervals st' r
      = Some (rowGaps (legalLeft (m_arch st) rw) (legalRight (m_arch st) rw)
                      blk).
Proof.
  unfold divideRows. rewrite (bind_run _ _ _ _ _ (gets_run _ _)).
  set (n := m_numSingleHeightRows st).
  intros ([] & st0 & ->%modify_Ok & Hloop)%bind_Ok.
  pose (P := fun (i : nat) (s : DetailedMgr) =>
    m_arch s = m_arch st ∧ m_blockages s = m_blockages st
    ∧ ∀ r rw blk, (r < i)%nat →
        getRows (m_arch st) !! r = Some rw → m_blockages st !! r = Some blk →
        rowIntervals s r
        = Some (rowGaps (legalLeft (m_arch st) rw)
                        (legalRight (m_arch st) rw) blk)).
  assert (P (0 + n)%nat st') as (_ & Hblk & Hall).
  { eapply (forM_seq_inv P); [| |exact Hloop].
    - intros i s v s' _ (Ha & Hb & Hrows) Hstep.
      destruct (sameBlockageLists_divideRow _ _ _ _ Hstep) as [Hb' Ha'].
      split; [congruence|]. split; [congruence|].
      intros r rw blk Hr Hrw Hblk.
      destruct (decide (r = i)) as [->|Hne].
      + rewrite <- Ha in Hrw. rewrite <- Hb in Hblk.
        destruct (divideRow_intervals _ _ _ _ _ _ Hrw Hblk Hstep) as [H _].
        by rewrite Ha in H.
      + assert (is_Some (getRows (m_arch s) !! i) ∧ is_Some (m_blockages s !! i))
          as [[rwi Hrwi] [blki Hblki]].
        { unfold divideRow in Hstep.
          rewrite (bind_run _ _ _ _ _ (gets_run _ _)) in Hstep.
          apply bind_Ok in Hstep as (rw' & s1 & (_ & Hrw' & ->)%row_Ok & Hstep).
          rewrite Nat2Z.id in Hrw'.
          apply bind_Ok in Hstep as ([] & s1 & Hclr & Hstep).
          pose proof (sameBlockageLists_clearRow _ _ _ _ Hclr) as [Hbc _].
          rewrite (bind_run _ _ _ _ _ (gets_run _ _)) in Hstep.
          apply bind_Ok in Hstep as (blk' & s2 & [Hblk' ->]%deref_Ok & _).
          rewrite Hbc in Hblk'. eauto. }
        destruct (divideRow_intervals _ _ _ _ _ _ Hrwi Hblki Hstep) as [_ H].
        apply H; [done|]. apply Hrows; [lia|done..].
    - split; [done|]. split; [done|]. intros r rw blk Hr. lia. }
  split; [done|]. intros r rw blk Hr. by apply Hall.
Qed.

(** ** The later loops, without regions and on the grid *)

Lemma sliceRegions_noRegions st u st' :
  (getNumRegions (m_arch st) ≤ 1)%nat →
  sliceRegions st = Ok (u, st') → st' = st.
Proof.
  intros Hreg. unfold sliceRegions.
  rewrite !(bind_run _ _ _ _ _ (gets_run _ _)).
  replace (getNumRegions (m_arch st) - 1)%nat with 0%nat by lia.
  by intros [_ ->]%mret_Ok.
Qed.

Lemma onGrid_unique rw x x' :
  0 < row_getSiteSpacing rw → onGrid rw x → onGrid rw x' →
  x - row_getSiteSpacing rw < x' < x + row_getSiteSpacing rw → x' = x.
Proof.
  unfold onGrid. set (sp := row_getSiteSpacing rw). set (o := row_getLeft rw).
  intros Hsp Hx Hx' Hb.
  pose proof (Z.div_mod (x - o) sp ltac:(lia)) as H1.
  pose proof (Z.div_mod (x' - o) sp ltac:(lia)) as H2.
  rewrite Hx in H1. rewrite Hx' in H2.
  set (q := (x - o) `div` sp) in *. set (q' := (x' - o) `div` sp) in *.
  assert (q' - q < 1) by nia. assert (-1 < q' - q) by nia.
  assert (q' = q) as Hq by lia. rewrite Hq in H2. lia.
Qed.

#[export] Instance sameRowLists_refl : Reflexive sameRowLists.
Proof. by intros st. Qed.

#[export] Instance sameRowLists_trans : Transitive sameRowLists.
Proof. intros s1 s2 s3. unfold sameRowLists. congruence. Qed.

Lemma sameRowLists_updateSegment p f : preserves sameRowLists (updateSegment p f).
Proof. by intros st u st' [_ ->]%updateSegment_Ok. Qed.

#[export] Hint Resolve sameRowLists_updateSegment : preserves.

Lemma sameRowLists_snapSegments : preserves sameRowLists snapSegments.
Proof. unfold snapSegments, snapSegment. keeps_auto. Qed.

Lemma intervals_ext sgs sgs' ptrs ivs :
  mapM (intervalOf sgs) ptrs = Some ivs →
  (∀ p iv, p ∈ ptrs → iv ∈ ivs → intervalOf sgs p = Some iv →
           intervalOf sgs' p = Some iv) →
  mapM (intervalOf sgs') ptrs = Some ivs.
Proof.
  rewrite !mapM_Some. intros H. induction H as [|p iv ptrs ivs Hp H IH].
  - constructor.
  - intros Hext. constructor.
    + apply Hext; [left|left|done].
    + apply IH. intros q jv Hq Hjv. apply Hext; by right.
Qed.

(** C3, as the code has it.  After [findBlockages] and [findSegments],
    when the architecture has no region besides the default one, the
    sites have a positive pitch, the fixed cells have a positive width,
    the spacing of a cell to the end of a row is not negative, and the
    ends of the free intervals lie on the site grid of their row: the
    segments listed in each row are exactly the maximal intervals of the
    legal range of the row (the row cut to the architecture) that meet no
    merged blockage interval of the row, each listed once. *)
Theorem segments_are_the_free_intervals b st u st' :
  (getNumRegions (m_arch st) ≤ 1)%nat →
  (∀ rw, rw ∈ getRows (m_arch st) → 0 < row_getSiteSpacing rw) →
  (∀ c nd, c ∈ m_fixedCells st → m_network st !! c = Some nd →
           0 < getWidth nd) →
  (∀ nd, 0 <= getCellSpacing (m_arch st) None (Some nd)
         ∧ 0 <= getCellSpacing (m_arch st) (Some nd) None) →
  buildBlockagesAndSegments b st = Ok (u, st') →
  (∀ r rw blk x1 x2,
     getRows (m_arch st) !! r = Some rw → m_blockages st' !! r = Some blk →
     maximalRun
       (freeAt (legalLeft (m_arch st) rw) (legalRight (m_arch st) rw) blk)
       x1 x2 →
     onGrid rw x1 ∧ onGrid rw x2) →
  ∀ r rw blk,
    (r < m_numSingleHeightRows st)%nat →
    getRows (m_arch st) !! r = Some rw → m_blockages st' !! r = Some blk →
    ∃ ivs,
      rowIntervals st' r = Some ivs ∧ NoDup ivs
      ∧ ∀ x1 x2,
          (x1, x2) ∈ ivs
          ↔ maximalRun
              (freeAt (legalLeft (m_arch st) rw) (legalRight (m_arch st) rw)
                      blk)
              x1 x2.
Proof.
  intros Hreg Hsites Hwide Hspacing Hrun Hgrid r rw blk Hr Hrw Hblk.
  unfold buildBlockagesAndSegments, findSegments in Hrun.
  apply bind_Ok in Hrun as ([] & sb & Hfb & Hrun).
  apply bind_Ok in Hrun as ([] & sd & Hdiv & Hrun).
  apply bind_Ok in Hrun as ([] & ss & Hslice & Hrun).
  apply bind_Ok in Hrun as ([] & sn & Hsnap & ->%modify_Ok).
  pose proof (keepsInputs_findBlockages _ _ _ _ Hfb) as Hin.
  assert (m_arch sb = m_arch st ∧ m_numSingleHeightRows sb
            = m_numSingleHeightRows st) as [Harch Hn]
    by (unfold sameInputs, inputs in Hin; split; congruence).
  destruct (findBlockages_inv _ _ _ _ Hsites Hwide Hspacing Hfb) as [_ Hmerged].
  destruct (divideRows_intervals _ _ _ Hdiv) as [Hbd Hivs].
  destruct (divideRows_built _ _ _ Hdiv) as [Hbuilt _].
  rewrite Harch in *. rewrite Hn in *.
  assert (ss = sd) as ->.
  { eapply sliceRegions_noRegions; [|exact Hslice].
    destruct (Hbuilt 0%nat) as [-> _]. done. }
  destruct (sameBlockageLists_snapSegments _ _ _ Hsnap) as [Hbn _].
  pose proof (sameRowLists_snapSegments _ _ _ Hsnap) as Hrn.
  destruct (Hbuilt (S r)) as (Had & Hfresh & Hlisted).
  destruct (snapSegments_inv _ _ _ _ Had Hfresh Hsites Hsnap) as [Hlen Hsnapped].
  simpl in Hblk. rewrite Hbn, Hbd in Hblk.
  destruct (Hmerged r blk Hblk) as [Hchain Hsolid].
  set (lo := legalLeft (m_arch st) rw) in *.
  set (hi := legalRight (m_arch st) rw) in *.
  destruct (rowGaps_spec lo hi blk Hchain) as [Hnd Hiff].
  { eapply Forall_impl; [exact Hsolid|]. intros iv. apply solid_proper. }
  exists (rowGaps lo hi blk). split; [|done].
  specialize (Hivs r rw blk Hr Hrw Hblk). fold lo hi in Hivs.
  unfold rowIntervals in *. simpl. rewrite Hrn.
  destruct (m_segsInRow sd !! r) as [rowSegs|] eqn:Hrow; [|done].
  simpl in *. eapply intervals_ext; [exact Hivs|].
  intros p [x1 x2] Hp Hiv Hp0. unfold intervalOf in *.
  destruct (m_segments sd !! p) as [sg0|] eqn:Hsg0; [|done].
  injection Hp0 as H1 H2.
  destruct (Hlisted r rowSegs p (Nat.lt_succ_diag_r r) Hrow Hp)
    as (sg0' & Hsg0' & Hid).
  assert (sg0' = sg0) as -> by congruence.
  destruct (lookup_lt_is_Some_2 (m_segments sn) p) as [sg Hsg].
  { rewrite Hlen. by eapply lookup_lt_Some. }
  rewrite Hsg. simpl.
  destruct (Hsnapped p sg Hsg) as (sg1 & rw' & Hsg1 & Hrw' & _ & Hid' & Hup & Hdn).
  assert (sg1 = sg0) as -> by congruence.
  rewrite (rowOf_Some (m_arch st) sg r rw) in Hrw' by (done || congruence).
  injection Hrw' as <-.
  destruct (Hgrid r rw blk x1 x2 Hrw) as [Hg1 Hg2].
  { simpl. by rewrite Hbn, Hbd. }
  { by apply Hiff. }
  destruct Hup as [Hu1 Hu2]. destruct Hdn as [Hd1 Hd2].
  pose proof (Hsites rw (list_elem_of_lookup_2 _ _ _ Hrw)) as Hsp.
  rewrite H1 in Hu2. rewrite H2 in Hd2.
  rewrite (onGrid_unique rw x1 (getMinX sg)) by (done || lia).
  rewrite (onGrid_unique rw x2 (getMaxX sg)) by (done || lia).
  done.
Qed.

(** The theorem at the demo design (sites of pitch 1). *)
Lemma segments_are_the_free_intervals_witness :
  let st := demoSt in
  let st' := exec (buildBlockagesAndSegments false) demoSt in
  let rw := demoRow 1 0 in
  ∃ ivs,
    rowIntervals st' 0 = Some ivs ∧ NoDup ivs
    ∧ ∀ x1 x2,
        (x1, x2) ∈ ivs
        ↔ maximalRun
            (freeAt (legalLeft (m_arch st) rw) (legalRight (m_arch st) rw)
                    [(40, 60)])
            x1 x2.
Proof.
  intros st st' rw.
  apply (segments_are_the_free_intervals false st tt st').
  - vm_compute. lia.
  - intros rw' Hrw. vm_compute in Hrw.
    apply list_elem_of_singleton in Hrw as ->. reflexivity.
  - intros c nd Hc Hnd. vm_compute in Hc.
    apply list_elem_of_singleton in Hc as ->.
    vm_compute in Hnd. injection Hnd as <-. reflexivity.
  - intros nd. split; by vm_compute.
  - vm_compute. reflexivity.
  - intros r rw' blk x1 x2 Hrw _ _.
    destruct r as [|r]; [|by destruct r].
    injection Hrw as <-. unfold onGrid.
    change (row_getSiteSpacing (demoRow 1 (10 * Z.of_nat 0))) with 1.
    by rewrite !Z.mod_1_r.
  - vm_compute. lia.
  - reflexivity.
  - vm_compute. reflexivity.
Defined.

(** The example of the specification, on sites of pitch 1: one fixed cell
    [[40,60)] in a row [[0,100)] leaves the segments [[0,40)] and
    [[60,100)]. *)
Lemma fixed_cell_example :
  let st' := exec (buildBlockagesAndSegments false) demoSt in
  buildBlockagesAndSegments false demoSt = Ok (tt, st')
  ∧ m_blockages st' = [[(40, 60)]]
  ∧ length (m_segments st') = 2%nat
  ∧ rowIntervals st' 0 = Some [(0, 40); (60, 100)].
Proof. vm_compute. done. Qed.

(** C3, as the specification has it, fails on sites of pitch 25: the
    free interval [[0,40)] of the row is a maximal one, and no segment
    has these ends; the segments are [[0,25)] and [[75,100)]. *)
Lemma free_interval_counterexample :
  let st := demoMgr 25 1 demoNetwork in
  let st' := exec (buildBlockagesAndSegments false) st in
  let rw := demoRow 25 0 in
  buildBlockagesAndSegments false st = Ok (tt, st')
  ∧ m_blockages st' !! 0%nat = Some [(40, 60)]
  ∧ maximalRun
      (freeAt (legalLeft (m_arch st) rw) (legalRight (m_arch st) rw)
              [(40, 60)]) 0 40
  ∧ rowIntervals st' 0 = Some [(0, 25); (75, 100)]
  ∧ ¬ (∀ ivs, rowIntervals st' 0 = Some ivs →
         ∀ x1 x2,
           (x1, x2) ∈ ivs
           ↔ maximalRun
               (freeAt (legalLeft (m_arch st) rw) (legalRight (m_arch st) rw)
                       [(40, 60)]) x1 x2).
Proof.
  intros st st' rw.
  assert (maximalRun
            (freeAt (legalLeft (m_arch st) rw) (legalRight (m_arch st) rw)
                    [(40, 60)]) 0 40) as Hrun.
  { change (legalLeft (m_arch st) rw) with 0.
    change (legalRight (m_arch st) rw) with 100.
    split; [lia|]. split; [|split].
    - intros x Hx. split; [lia|].
      intros iv ->%list_elem_of_singleton. simpl. lia.
    - intros [? _]. lia.
    - intros [_ H]. apply (H (40, 60)); [left|simpl; lia]. }
  assert (rowIntervals st' 0 = Some [(0, 25); (75, 100)]) as Hivs
    by (vm_compute; reflexivity).
  split; [vm_compute; reflexivity|]. split; [vm_compute; reflexivity|].
  split; [done|]. split; [done|].
  intros Hall. apply (Hall _ Hivs 0 40) in Hrun.
  apply elem_of_cons in Hrun as [[=]|Hrun].
  apply list_elem_of_singleton in Hrun. discriminate.
Qed.

(** * The loop over the growing list of segments of a row *)

Lemma weightOf_app il ir sgs l1 l2 :
  weightOf il ir sgs (l1 ++ l2)
  = (weightOf il ir sgs l1 + weightOf il ir sgs l2)%nat.
Proof. induction l1 as [|p l1 IH]; simpl; [done|]. rewrite IH. lia. Qed.

Lemma weightOf_mono il ir sgs sgs' ptrs :
  (∀ p, (entryWeight il ir sgs' p ≤ entryWeight il ir sgs p)%nat) →
  (weightOf il ir sgs' ptrs ≤ weightOf il ir sgs ptrs)%nat.
Proof.
  intros H. induction ptrs as [|p ptrs IH]; simpl; [done|].
  specialize (H p). lia.
Qed.

Lemma weightOf_le il ir sgs ptrs :
  (weightOf il ir sgs ptrs ≤ 3 * length ptrs)%nat.
Proof.
  induction ptrs as [|p ptrs IH]; simpl; [done|].
  assert (entryWeight il ir sgs p ≤ 3)%nat.
  { unfold entryWeight. destruct (sgs !! p); [destruct (settled _ _ _)|]; lia. }
  lia.
Qed.

Lemma entryWeight_pos il ir sgs p : (1 ≤ entryWeight il ir sgs p)%nat.
Proof.
  unfold entryWeight. destruct (sgs !! p); [destruct (settled _ _ _)|]; lia.
Qed.

(** Appending a segment makes no entry heavier. *)
Lemma entryWeight_snoc il ir sgs sg p :
  (entryWeight il ir (sgs ++ [sg]) p ≤ entryWeight il ir sgs p)%nat.
Proof.
  unfold entryWeight. destruct (sgs !! p) as [sg'|] eqn:Hp.
  - by rewrite (lookup_app_l_Some _ _ _ _ Hp).
  - destruct ((sgs ++ [sg]) !! p); [destruct (settled _ _ _)|]; lia.
Qed.

Lemma entryWeight_new il ir sgs sg :
  settled il ir sg = true →
  entryWeight il ir (sgs ++ [sg]) (length sgs) = 1%nat.
Proof.
  intros H. unfold entryWeight.
  rewrite lookup_app_r, Nat.sub_diag by lia. simpl. by rewrite H.
Qed.

(** Updating a segment makes no entry heavier when it keeps a settled
    segment settled. *)
Lemma entryWeight_alter il ir sgs f q p :
  (∀ sg, sgs !! q = Some sg → settled il ir sg = true →
         settled il ir (f sg) = true) →
  (entryWeight il ir (alter f q sgs) p ≤ entryWeight il ir sgs p)%nat.
Proof.
  intros Hf. unfold entryWeight. destruct (decide (p = q)) as [->|Hne].
  - rewrite list_lookup_alter_eq. destruct (sgs !! q) as [sg|] eqn:Hq; [|done].
    simpl. destruct (settled il ir sg) eqn:Hs.
    + by rewrite (Hf sg).
    + destruct (settled il ir (f sg)); lia.
  - by rewrite list_lookup_alter_ne.
Qed.

Section loopWeight.
Context (il ir : Z) (r : nat).

Lemma loopWeight_update q f st u st' :
  updateSegment q f st = Ok (u, st') →
  (∀ sg, m_segments st !! q = Some sg → settled il ir sg = true →
         settled il ir (f sg) = true) →
  m_segsInRow st' = m_segsInRow st
  ∧ ∀ s, (loopWeight il ir r s st' ≤ loopWeight il ir r s st)%nat.
Proof.
  intros [_ ->]%updateSegment_Ok Hf. split; [done|]. intros s.
  unfold loopWeight. simpl. destruct (m_segsInRow st !! r); [|done].
  apply weightOf_mono. intros p. by apply entryWeight_alter.
Qed.

Lemma loopWeight_push sg st u st' rowSegs :
  pushSegment r sg st = Ok (u, st') →
  settled il ir sg = true →
  m_segsInRow st !! r = Some rowSegs →
  m_segsInRow st' !! r = Some (rowSegs ++ [length (m_segments st)])
  ∧ ∀ s, (s ≤ length rowSegs)%nat →
         (loopWeight il ir r s st' ≤ loopWeight il ir r s st + 1)%nat.
Proof.
  intros [_ ->]%pushSegment_Ok Hsg Hrow. simpl.
  rewrite list_lookup_alter_eq, Hrow. split; [done|]. intros s Hs.
  unfold loopWeight. simpl. rewrite list_lookup_alter_eq, Hrow. simpl.
  rewrite drop_app_le by done. rewrite weightOf_app. simpl.
  rewrite entryWeight_new by done.
  pose proof (weightOf_mono il ir (m_segments st)
    (m_segments st ++ [setSegId (Z.of_nat (length (m_segments st))) sg])
    (drop s rowSegs) (fun p => entryWeight_snoc il ir _ _ p)).
  lia.
Qed.

Lemma loopWeight_step st rowSegs s p :
  m_segsInRow st !! r = Some rowSegs → rowSegs !! s = Some p →
  loopWeight il ir r s st
  = (entryWeight il ir (m_segments st) p + loopWeight il ir r (S s) st)%nat.
Proof.
  intros Hrow Hp. unfold loopWeight. rewrite Hrow.
  by rewrite (drop_S _ _ _ Hp).
Qed.

(** Every iteration of the loop brings its end nearer. *)
Lemma splitSegment_decreases reg s st u st' :
  splitSegment reg r il ir s st = Ok (u, st') →
  (loopWeight il ir r (S s) st' < loopWeight il ir r s st)%nat.
Proof.
  intros Hrun. unfold splitSegment in Hrun.
  rewrite (bind_run _ _ _ _ _ (gets_run _ _)) in Hrun.
  apply bind_Ok in Hrun as (rowSegs & st1 & [Hrow ->]%deref_Ok & Hrun).
  apply bind_Ok in Hrun as (segPtr & st1 & [Hptr ->]%deref_Ok & Hrun).
  rewrite (bind_run _ _ _ _ _ (gets_run _ _)) in Hrun.
  apply bind_Ok in Hrun as (sg & st1 & [Hsg ->]%deref_Ok & Hrun).
  rewrite (loopWeight_step st rowSegs s segPtr Hrow Hptr).
  pose proof (lookup_lt_Some _ _ _ Hptr) as Hs.
  unfold entryWeight at 1. rewrite Hsg.
  unfold floor_int, ceil_int in Hrun.
  assert (∀ f, (∀ sg', settled il ir sg' = true → settled il ir (f sg') = true)
               ∨ settled il ir (f sg) = true →
            ∀ sg', m_segments st !! segPtr = Some sg' →
                   settled il ir sg' = true → settled il ir (f sg') = true)
    as Hupd.
  { intros f [Hf|Hf] sg' Hsg' Hs'; [by apply Hf|]. congruence. }
  destruct (decide (ir <= getMinX sg)) as [H1|H1];
    [|destruct (decide (il >= getMaxX sg)) as [H2|H2];
      [|destruct (decide (il <= getMinX sg ∧ ir >= getMaxX sg)) as [H3|H3]]].
  1,2: apply mret_Ok in Hrun as [_ ->];
       unfold settled; rewrite bool_decide_eq_true_2 by tauto; lia.
  - apply loopWeight_update in Hrun as [_ Hle].
    + specialize (Hle (S s)). unfold settled.
      rewrite bool_decide_eq_true_2 by tauto. lia.
    + apply Hupd. left. done.
  - assert (settled il ir sg = false) as ->
      by (unfold settled; apply bool_decide_eq_false_2; tauto).
    repeat (destruct (decide _) as [?|?] in Hrun); try discriminate Hrun.
    + apply bind_Ok in Hrun as ([] & st1 & Hu & Hp).
      apply loopWeight_update in Hu as [Hr1 Hle1];
        [|apply Hupd; right; unfold settled; apply bool_decide_eq_true_2;
          simpl; lia].
      rewrite <- Hr1 in Hrow.
      eapply loopWeight_push in Hp as [_ Hle2]; [| |exact Hrow];
        [|unfold settled; apply bool_decide_eq_true_2; simpl; lia].
      specialize (Hle1 (S s)). specialize (Hle2 (S s) ltac:(lia)). lia.
    + apply bind_Ok in Hrun as ([] & st1 & Hu & Hp).
      apply loopWeight_update in Hu as [Hr1 Hle1];
        [|apply Hupd; right; unfold settled; apply bool_decide_eq_true_2;
          simpl; lia].
      rewrite <- Hr1 in Hrow.
      eapply loopWeight_push in Hp as [_ Hle2]; [| |exact Hrow];
        [|unfold settled; apply bool_decide_eq_true_2; simpl; lia].
      specialize (Hle1 (S s)). specialize (Hle2 (S s) ltac:(lia)). lia.
    + apply bind_Ok in Hrun as ([] & st1 & Hu & Hp).
      apply bind_Ok in Hp as ([] & st2 & Hp1 & Hp2).
      apply loopWeight_update in Hu as [Hr1 Hle1];
        [|apply Hupd; right; unfold settled; apply bool_decide_eq_true_2;
          simpl; lia].
      rewrite <- Hr1 in Hrow.
      eapply loopWeight_push in Hp1 as [Hrow2 Hle2]; [| |exact Hrow];
        [|unfold settled; apply bool_decide_eq_true_2; simpl; lia].
      eapply loopWeight_push in Hp2 as [_ Hle3]; [| |exact Hrow2];
        [|unfold settled; apply bool_decide_eq_true_2; simpl; lia].
      specialize (Hle1 (S s)). specialize (Hle2 (S s) ltac:(lia)).
      specialize (Hle3 (S s) ltac:(rewrite length_app; simpl; lia)). lia.
Qed.

(** With enough fuel the loop does not depend on the fuel. *)
Lemma splitLoop_fuel reg : ∀ fuel1 fuel2 s st,
  (loopWeight il ir r s st < fuel1)%nat →
  (loopWeight il ir r s st < fuel2)%nat →
  splitLoop fuel1 reg r il ir s st = splitLoop fuel2 reg r il ir s st.
Proof.
  induction fuel1 as [|fuel1 IH]; intros fuel2 s st H1 H2; [lia|].
  destruct fuel2 as [|fuel2]; [lia|]. cbn [splitLoop].
  rewrite !(bind_run _ _ _ _ _ (gets_run _ _)).
  destruct (m_segsInRow st !! r) as [rowSegs|] eqn:Hrow; [|reflexivity].
  rewrite !(bind_run _ _ _ _ _ (eq_refl : deref (Some rowSegs) st = Ok _)).
  destruct (decide (s < length rowSegs)%nat); [|reflexivity].
  unfold mbind, M_bind.
  destruct (splitSegment reg r il ir s st) as [[[] st1]| |] eqn:Hstep;
    [|reflexivity..].
  apply splitSegment_decreases in Hstep. apply IH; lia.
Qed.
End loopWeight.

(** [splitRow] supplies enough fuel: more of it changes nothing. *)
Lemma splitRow_fuel reg r iv st rowSegs extra :
  m_segsInRow st !! r = Some rowSegs →
  splitRow reg r iv st
  = splitLoop (3 * length rowSegs + 1 + extra) reg r (fst iv) (snd iv) 0 st.
Proof.
  intros Hrow. unfold splitRow.
  rewrite (bind_run _ _ _ _ _ (gets_run _ _)), Hrow.
  rewrite (bind_run _ _ _ _ _ (eq_refl : deref (Some rowSegs) st = Ok _)).
  assert (loopWeight (fst iv) (snd iv) r 0 st ≤ 3 * length rowSegs)%nat.
  { unfold loopWeight. rewrite Hrow, drop_0. apply weightOf_le. }
  apply splitLoop_fuel; lia.
Qed.

(** * Adding and removing a cell, run forwards *)

Lemma node_run_Some st ndi nd :
  m_network st !! ndi = Some nd → node ndi st = Ok (nd, st).
Proof. intros H. by apply node_Ok. Qed.

Lemma cellsInSeg_run st seg cells :
  0 <= seg → m_cellsInSeg st !! Z.to_nat seg = Some cells →
  cellsInSeg seg st = Ok (cells, st).
Proof. intros H0 H. by apply cellsInSeg_Ok. Qed.

Lemma index_of_run st seg :
  0 <= seg → deref (index_of seg) st = Ok (Z.to_nat seg, st).
Proof. intros H0. apply deref_Ok. split; [|done]. by apply index_of_Some. Qed.

Lemma centersOf_run st cells keys :
  mapM (fun i => center2 <$> (m_network st !! i)) cells = Some keys →
  centersOf cells st = Ok (keys, st).
Proof. intros H. by apply centersOf_Ok. Qed.

Lemma reverseCellToSegs_run st c rev :
  m_reverseCellToSegs st !! c = Some rev →
  reverseCellToSegs c st = Ok (rev, st).
Proof. intros H. by apply reverseCellToSegs_Ok. Qed.

Lemma deref_run {A : Type} (o : option A) a st :
  o = Some a → deref o st = Ok (a, st).
Proof. intros ->. reflexivity. Qed.

(** The outcome of [addCellToSegment] when all its reads are in range. *)
Lemma addCellToSegment_run st ndi seg nd cells keys rev :
  0 <= seg →
  m_network st !! ndi = Some nd →
  m_cellsInSeg st !! Z.to_nat seg = Some cells →
  mapM (fun i => center2 <$> (m_network st !! i)) cells = Some keys →
  (Z.to_nat seg < length (m_segments st))%nat →
  m_reverseCellToSegs st !! ndi = Some rev →
  addCellToSegment ndi seg st =
    if decide (Z.to_nat seg ∈ rev)
    then Fatal "Segment already present in cell to segment map"
    else if decide (Z.of_nat (length rev)
                    >= to_size_t (getCellHeightInRows (m_arch st) nd))
    then Fatal "Cell to segment map incorrectly sized"
    else Ok (tt, added st ndi (Z.to_nat seg) (lower_bound keys (center2 nd))
                       cells rev (ceil_int (getWidth nd))).
Proof.
  intros H0 Hnd Hcells Hkeys Hseg Hrev. unfold addCellToSegment.
  rewrite (bind_run _ _ _ _ _ (node_run_Some _ _ _ Hnd)).
  rewrite (bind_run _ _ _ _ _ (cellsInSeg_run _ _ _ H0 Hcells)).
  rewrite (bind_run _ _ _ _ _ (index_of_run _ _ H0)).
  rewrite (bind_run _ _ _ _ _ (centersOf_run _ _ _ Hkeys)).
  rewrite (bind_run _ _ _ st st) by reflexivity.
  assert (Z.to_nat seg < length (m_cellsInSeg st))%nat as Hlt
    by (by eapply lookup_lt_Some).
  rewrite (bind_run _ _ _ _ _ (deref_run _ _ _ (store_at_lt _ _ _ Hlt))).
  rewrite (bind_run _ _ _ _ _ (deref_run _ _ _ (alter_at_lt _ _ _ Hseg))).
  match goal with |- (modify ?f ≫= _) _ = _ =>
    rewrite (bind_run (modify f) _ st tt (f st)) by reflexivity end.
  match goal with |- (reverseCellToSegs _ ≫= _) ?s = _ =>
    rewrite (bind_run _ _ s rev s) by (by apply reverseCellToSegs_run) end.
  destruct (decide (Z.to_nat seg ∈ rev)); [reflexivity|].
  destruct (decide (_ >= _)); [reflexivity|].
  match goal with |- (get ≫= _) ?s = _ =>
    rewrite (bind_run get _ s s s) by reflexivity end.
  assert (ndi < length (m_reverseCellToSegs st))%nat as Hlt'
    by (by eapply lookup_lt_Some).
  match goal with |- (deref (store_at ?l ?i ?x) ≫= _) ?s = _ =>
    rewrite (bind_run _ _ s (<[i := x]> l) s)
      by (apply deref_run, store_at_lt; exact Hlt') end.
  reflexivity.
Qed.

(** The outcome of [removeCellFromSegment] when all its reads are in
    range. *)
Lemma removeCellFromSegment_run st ndi seg nd cells rev :
  0 <= seg →
  m_network st !! ndi = Some nd →
  m_cellsInSeg st !! Z.to_nat seg = Some cells →
  (Z.to_nat seg < length (m_segments st))%nat →
  m_reverseCellToSegs st !! ndi = Some rev →
  removeCellFromSegment ndi seg st =
    match list_find (fun c => c = ndi) cells with
    | None => Fatal "Cell not found in expected segment"
    | Some (it, _) =>
      match list_find (fun p => p = Z.to_nat seg) rev with
      | None => Fatal "Cannot find segment for cell"
      | Some (its, _) =>
        Ok (tt, removed st ndi (Z.to_nat seg) it its cells rev
                        (ceil_int (getWidth nd)))
      end
    end.
Proof.
  intros H0 Hnd Hcells Hseg Hrev. unfold removeCellFromSegment.
  rewrite (bind_run _ _ _ _ _ (node_run_Some _ _ _ Hnd)).
  rewrite (bind_run _ _ _ _ _ (cellsInSeg_run _ _ _ H0 Hcells)).
  rewrite (bind_run _ _ _ _ _ (index_of_run _ _ H0)).
  destruct (list_find _ cells) as [[it y]|]; [|reflexivity].
  rewrite (bind_run _ _ _ _ _ (reverseCellToSegs_run _ _ _ Hrev)).
  rewrite (bind_run _ _ _ st st) by reflexivity.
  destruct (lookup_lt_is_Some_2 _ _ Hseg) as [sg Hsg].
  rewrite (bind_run _ _ _ _ _ (deref_run _ _ _ Hsg)).
  destruct (list_find _ rev) as [[its z]|]; [|reflexivity].
  assert (ndi < length (m_reverseCellToSegs st))%nat as Hlt'
    by (by eapply lookup_lt_Some).
  assert (Z.to_nat seg < length (m_cellsInSeg st))%nat as Hlt
    by (by eapply lookup_lt_Some).
  rewrite (bind_run _ _ _ _ _ (deref_run _ _ _ (store_at_lt _ _ _ Hlt'))).
  rewrite (bind_run _ _ _ _ _ (deref_run _ _ _ (store_at_lt _ _ _ Hlt))).
  rewrite (bind_run _ _ _ _ _ (deref_run _ _ _ (alter_at_lt _ _ _ Hseg))).
  reflexivity.
Qed.

Lemma list_find_inserted (x : nat) (l : list nat) it :
  x ∉ l → (it ≤ length l)%nat →
  list_find (fun c => c = x) (take it l ++ x :: drop it l) = Some (it, x).
Proof.
  intros Hx Hit. apply list_find_Some. split; [|split; [done|]].
  - rewrite lookup_app_r by (rewrite length_take; lia).
    rewrite length_take, Nat.min_l, Nat.sub_diag by lia. done.
  - intros j y Hj Hlt ->. apply Hx.
    rewrite lookup_app_l in Hj by (rewrite length_take; lia).
    apply lookup_take_Some in Hj as [Hj _]. by eapply list_elem_of_lookup_2.
Qed.

Lemma list_find_snoc (x : nat) (l : list nat) :
  x ∉ l → list_find (fun c => c = x) (l ++ [x]) = Some (length l, x).
Proof.
  intros Hx. apply list_find_Some. split; [|split; [done|]].
  - by rewrite lookup_app_r, Nat.sub_diag by lia.
  - intros j y Hj Hlt ->. apply Hx.
    rewrite lookup_app_l in Hj by lia. by eapply list_elem_of_lookup_2.
Qed.

Lemma delete_inserted (x : nat) (l : list nat) it :
  (it ≤ length l)%nat → delete it (take it l ++ x :: drop it l) = l.
Proof.
  intros Hit.
  replace it with (length (take it l)) at 1 by (rewrite length_take; lia).
  by rewrite delete_middle, take_drop.
Qed.

Lemma delete_snoc (x : nat) (l : list nat) : delete (length l) (l ++ [x]) = l.
Proof. by rewrite delete_middle, app_nil_r. Qed.

Lemma remUtil_addUtil w sg : remUtil w (addUtil w sg) = sg.
Proof.
  destruct sg. unfold remUtil, addUtil, setUtil. simpl. f_equal. lia.
Qed.

Lemma mapM_centers_inserted (nw : list Node) cells keys ndi nd it :
  mapM (fun i => center2 <$> (nw !! i)) cells = Some keys →
  nw !! ndi = Some nd →
  mapM (fun i => center2 <$> (nw !! i)) (take it cells ++ ndi :: drop it cells)
  = Some (take it keys ++ center2 nd :: drop it keys).
Proof.
  intros Hkeys Hnd. apply mapM_Some. apply mapM_Some in Hkeys.
  apply Forall2_app; [by apply Forall2_take|].
  constructor; [by rewrite Hnd|by apply Forall2_drop].
Qed.

(** X1.  A cell that has just been added to a segment in which it was not
    yet listed can be removed again, and the removal gives back the
    manager as it was before the addition: the cell list, the utilization
    of the segment and the reverse map are restored. *)
Theorem add_then_remove_restores st ndi seg u st1 :
  addCellToSegment ndi seg st = Ok (u, st1) →
  ¬ inCellList st ndi (Z.to_nat seg) →
  removeCellFromSegment ndi seg st1 = Ok (tt, st).
Proof.
  intros Hadd Hnew.
  apply addCellToSegment_inv in Hadd
    as (nd & cells & rev & it & H0 & Hnd & Hcells & Hrev & Hseg & Hit
        & Hnin & _ & ->).
  assert (ndi ∉ cells) as Hndi by (intros Hin; apply Hnew; by exists cells).
  pose proof (lookup_lt_Some _ _ _ Hcells) as Hlt.
  pose proof (lookup_lt_Some _ _ _ Hrev) as Hlt'.
  rewrite (removeCellFromSegment_run _ ndi seg nd
             (take it cells ++ ndi :: drop it cells) (rev ++ [Z.to_nat seg]));
    [|done|done| | |].
  - rewrite (list_find_inserted _ _ _ Hndi Hit), (list_find_snoc _ _ Hnin).
    do 2 f_equal. unfold removed, added. destruct st; simpl in *.
    rewrite delete_inserted, delete_snoc by done.
    rewrite !list_insert_insert_eq, !list_insert_id by done.
    rewrite list_alter_alter_eq.
    rewrite list_alter_id by (intros sg; apply remUtil_addUtil). done.
  - simpl. by rewrite list_lookup_insert_eq.
  - simpl. by rewrite length_alter.
  - simpl. by rewrite list_lookup_insert_eq.
Qed.

(** The theorem at the two-row cell 1 of [demoHalfBase] and segment 0. *)
Lemma add_then_remove_restores_witness :
  removeCellFromSegment 1 0 demoHalf = Ok (tt, demoHalfBase).
Proof.
  apply (add_then_remove_restores demoHalfBase 1 0 tt demoHalf).
  - vm_compute. reflexivity.
  - intros (cells & Hcells & Hin). vm_compute in Hcells.
    injection Hcells as <-. by apply elem_of_nil in Hin.
Defined.

(** X2.  Adding a cell to a segment to which it has just been added is a
    fatal internal error: the reverse map already names the segment. *)
Theorem add_twice_is_fatal st ndi seg u st1 :
  addCellToSegment ndi seg st = Ok (u, st1) →
  addCellToSegment ndi seg st1
  = Fatal "Segment already present in cell to segment map".
Proof.
  intros Hadd. pose proof Hadd as Hrun. unfold addCellToSegment in Hrun.
  apply bind_Ok in Hrun as (nd0 & ? & [Hnd0 ->]%node_Ok & Hrun).
  apply bind_Ok in Hrun as (cells0 & ? & (_ & Hc0 & ->)%cellsInSeg_Ok & Hrun).
  apply bind_Ok in Hrun as (s & ? & [_ ->]%deref_Ok & Hrun).
  apply bind_Ok in Hrun as (keys & ? & [Hkeys _]%centersOf_Ok & _).
  apply addCellToSegment_inv in Hadd
    as (nd & cells & rev & it & H0 & Hnd & Hcells & Hrev & Hseg & Hit
        & Hnin & _ & ->).
  assert (cells0 = cells) as -> by congruence.
  pose proof (lookup_lt_Some _ _ _ Hcells) as Hlt.
  pose proof (lookup_lt_Some _ _ _ Hrev) as Hlt'.
  rewrite (addCellToSegment_run _ ndi seg nd
             (take it cells ++ ndi :: drop it cells)
             (take it keys ++ center2 nd :: drop it keys)
             (rev ++ [Z.to_nat seg])); [|done|done| | | |].
  - rewrite decide_True; [done|]. apply elem_of_app. right. by left.
  - simpl. by rewrite list_lookup_insert_eq.
  - simpl. by apply mapM_centers_inserted.
  - simpl. by rewrite length_alter.
  - simpl. by rewrite list_lookup_insert_eq.
Qed.

(** The theorem at cell 1 of [demoHalfBase]. *)
Lemma add_twice_is_fatal_witness :
  addCellToSegment 1 0 demoHalf
  = Fatal "Segment already present in cell to segment map".
Proof.
  apply (add_twice_is_fatal demoHalfBase 1 0 tt demoHalf).
  vm_compute. reflexivity.
Defined.

(** X3.  Removing a cell from a segment from which it has just been
    removed is a fatal internal error (the cell lists hold no cell
    twice): the cell is no longer found in the list of the segment. *)
Theorem remove_twice_is_fatal st ndi seg u st1 cells :
  m_cellsInSeg st !! Z.to_nat seg = Some cells → NoDup cells →
  removeCellFromSegment ndi seg st = Ok (u, st1) →
  removeCellFromSegment ndi seg st1
  = Fatal "Cell not found in expected segment".
Proof.
  intros Hc Hnodup Hrem.
  apply removeCellFromSegment_inv in Hrem
    as (nd & cells' & rev & it & its & H0 & Hnd & Hcells & Hrev & Hseg
        & Hit & Hits & ->).
  assert (cells' = cells) as -> by congruence.
  pose proof (lookup_lt_Some _ _ _ Hcells) as Hlt.
  pose proof (lookup_lt_Some _ _ _ Hrev) as Hlt'.
  rewrite (removeCellFromSegment_run _ ndi seg nd (delete it cells)
             (delete its rev)); [|done|done| | |].
  - destruct (list_find _ (delete it cells)) as [[j y]|] eqn:Hfind; [|done].
    apply list_find_eq_Some in Hfind as [-> Hj]. exfalso.
    apply list_elem_of_lookup_2 in Hj.
    by apply (elem_of_delete_NoDup cells it ndi ndi Hnodup Hit) in Hj as [? _].
  - simpl. by rewrite list_lookup_insert_eq.
  - simpl. by rewrite length_alter.
  - simpl. by rewrite list_lookup_insert_eq.
Qed.

(** The theorem at cell 1 of [demoSwap], listed in segment 0. *)
Lemma remove_twice_is_fatal_witness :
  removeCellFromSegment 1 0 (exec (removeCellFromSegment 1 0) demoSwap)
  = Fatal "Cell not found in expected segment".
Proof.
  apply (remove_twice_is_fatal demoSwap 1 0 tt _ [1; 2]%nat).
  - vm_compute. reflexivity.
  - apply NoDup_cons. split; [|apply NoDup_singleton].
    by intros [=]%list_elem_of_singleton.
  - vm_compute. reflexivity.
Defined.

Lemma lower_bound_below keys x :
  Forall (fun k => k < x) (take (lower_bound keys x) keys).
Proof.
  induction keys as [|k keys IH]; simpl; [done|].
  case_decide; simpl; [by constructor|done].
Qed.

Lemma lower_bound_sorted keys x :
  nondecreasing keys →
  nondecreasing
    (take (lower_bound keys x) keys ++ x :: drop (lower_bound keys x) keys).
Proof.
  induction keys as [|k keys IH]; simpl; [done|]. intros [Hk Hs].
  case_decide as Hlt; simpl.
  - split; [|by apply IH]. apply Forall_app. split.
    + by apply Forall_take.
    + constructor; [lia|by apply Forall_drop].
  - split; [|done]. constructor; [lia|].
    eapply Forall_impl; [exact Hk|]. simpl. intros; lia.
Qed.

(** X4.  [addCellToSegment] keeps the cell lists sorted: a segment whose
    cells are in non-decreasing order of x-center before the call is so
    after it, and the list of the segment gains exactly the added cell. *)
Theorem addCellToSegment_keeps_order st ndi seg u st' :
  addCellToSegment ndi seg st = Ok (u, st') →
  (∀ s, orderedByCenter st s → orderedByCenter st' s)
  ∧ ∃ cells cells',
      m_cellsInSeg st !! Z.to_nat seg = Some cells
      ∧ m_cellsInSeg st' !! Z.to_nat seg = Some cells'
      ∧ cells' ≡ₚ ndi :: cells.
Proof.
  intros Hadd. pose proof Hadd as Hrun. unfold addCellToSegment in Hrun.
  apply bind_Ok in Hrun as (nd & ? & [Hnd ->]%node_Ok & Hrun).
  apply bind_Ok in Hrun as (cells & ? & (H0 & Hcells & ->)%cellsInSeg_Ok & Hrun).
  apply bind_Ok in Hrun as (? & ? & [_ ->]%deref_Ok & Hrun).
  apply bind_Ok in Hrun as (keys & ? & [Hkeys _]%centersOf_Ok & _).
  destruct (addCellToSegment_inv _ _ _ _ _ Hadd)
    as (nd' & ? & rev & _ & _ & Hnd' & _ & Hrev & Hseg & _ & Hnin & Hsz & _).
  assert (nd' = nd) as -> by congruence.
  rewrite (addCellToSegment_run _ _ _ _ _ _ _ H0 Hnd Hcells Hkeys Hseg Hrev)
    in Hadd.
  rewrite decide_False in Hadd by done.
  rewrite decide_False in Hadd by lia.
  destruct u. injection Hadd as <-.
  pose proof (lookup_lt_Some _ _ _ Hcells) as Hlt.
  set (it := lower_bound keys (center2 nd)).
  split.
  - intros s Hord cells'. simpl.
    destruct (decide (s = Z.to_nat seg)) as [->|Hne].
    + rewrite list_lookup_insert_eq by done. intros [= <-].
      destruct (Hord cells Hcells) as (keys' & Hk' & Hsorted).
      assert (keys' = keys) as -> by (unfold centers in Hk'; congruence).
      exists (take it keys ++ center2 nd :: drop it keys). split.
      * unfold centers. simpl. by apply mapM_centers_inserted.
      * by apply lower_bound_sorted.
    + rewrite list_lookup_insert_ne by done. intros Hc.
      destruct (Hord _ Hc) as (keys' & Hk' & Hsorted). by exists keys'.
  - exists cells, (take it cells ++ ndi :: drop it cells).
    split; [done|]. split; [simpl; by rewrite list_lookup_insert_eq|].
    rewrite <- Permutation_middle. by rewrite take_drop.
Qed.

(** The theorem at [demoSwapBase], to which cell 2 is added: the list of
    segment 0 of [demoSwap] is sorted. *)
Lemma addCellToSegment_keeps_order_witness :
  orderedByCenter demoSwap 0
  ∧ ∃ cells cells',
      m_cellsInSeg demoSwapBase !! Z.to_nat 0 = Some cells
      ∧ m_cellsInSeg demoSwap !! Z.to_nat 0 = Some cells'
      ∧ cells' ≡ₚ 2%nat :: cells.
Proof.
  destruct (addCellToSegment_keeps_order demoSwapBase 2 0 tt demoSwap)
    as [Hord Hperm]; [vm_compute; reflexivity|].
  split; [|exact Hperm]. apply Hord.
  intros cells Hcells. vm_compute in Hcells. injection Hcells as <-.
  exists [41]. split; [vm_compute; reflexivity|].
  simpl. split; [constructor|done].
Defined.

(** * Sorting the cells of a segment *)

Lemma insert_by_key_perm x l : insert_by_key x l ≡ₚ x :: l.
Proof.
  induction l as [|y l IH]; simpl; [done|].
  case_decide; [|done]. rewrite IH. apply Permutation_swap.
Qed.

Lemma stable_sort_by_key_perm l : stable_sort_by_key l ≡ₚ l.
Proof.
  induction l as [|x l IH]; [done|].
  change (stable_sort_by_key (x :: l))
    with (insert_by_key x (stable_sort_by_key l)).
  by rewrite insert_by_key_perm, IH.
Qed.

Lemma insert_by_key_sorted x l :
  nondecreasing (l.*1) → nondecreasing ((insert_by_key x l).*1).
Proof.
  induction l as [|y l IH]; simpl; [done|]. intros [Hy Hl].
  case_decide as Hlt; simpl.
  - split; [|by apply IH].
    rewrite (insert_by_key_perm x l). simpl. constructor; [lia|done].
  - split; [|done]. constructor; [lia|].
    eapply Forall_impl; [exact Hy|]. simpl. intros; lia.
Qed.

Lemma stable_sort_by_key_sorted l : nondecreasing ((stable_sort_by_key l).*1).
Proof.
  induction l as [|x l IH]; [done|].
  change (stable_sort_by_key (x :: l))
    with (insert_by_key x (stable_sort_by_key l)).
  by apply insert_by_key_sorted.
Qed.

(** Stability: the elements of one key keep their order. *)
Lemma insert_by_key_stable (P : Z * nat -> Prop) `{!∀ p, Decision (P p)} x l :
  (∀ p q, P p → P q → fst p = fst q) →
  filter P (insert_by_key x l) = filter P (x :: l).
Proof.
  intros Hkey. induction l as [|y l IH]; [done|]. simpl.
  case_decide as Hlt; [|done].
  rewrite !filter_cons in *. rewrite IH.
  destruct (decide (P y)) as [Hy|]; [|done].
  destruct (decide (P x)) as [Hx|]; [|done].
  specialize (Hkey _ _ Hx Hy). lia.
Qed.

Lemma stable_sort_by_key_stable (P : Z * nat -> Prop)
    `{!∀ p, Decision (P p)} l :
  (∀ p q, P p → P q → fst p = fst q) →
  filter P (stable_sort_by_key l) = filter P l.
Proof.
  intros Hkey. induction l as [|x l IH]; [done|].
  change (stable_sort_by_key (x :: l))
    with (insert_by_key x (stable_sort_by_key l)).
  rewrite (insert_by_key_stable P) by done.
  rewrite !filter_cons. by rewrite IH.
Qed.

(** A sorted list is left as it is. *)
Lemma stable_sort_by_key_id l :
  nondecreasing (l.*1) → stable_sort_by_key l = l.
Proof.
  induction l as [|x l IH]; [done|]. intros [Hx Hl].
  change (stable_sort_by_key (x :: l))
    with (insert_by_key x (stable_sort_by_key l)).
  rewrite IH by done. destruct l as [|y l]; [done|]. simpl.
  apply Forall_cons in Hx as [Hx _]. rewrite decide_False; [done|lia].
Qed.

Lemma keyed_zip nw cells keys :
  mapM (fun i => center2 <$> (nw !! i)) cells = Some keys →
  Forall (keyed nw) (zip keys cells) ∧ (zip keys cells).*2 = cells
  ∧ (zip keys cells).*1 = keys.
Proof.
  intros H%mapM_Some. induction H as [|c k cells keys Hc _ IH]; [done|].
  destruct IH as (IH1 & IH2 & IH3). csimpl. rewrite IH2, IH3.
  split; [|done]. by constructor.
Qed.

Lemma keyed_centers nw (l : list (Z * nat)) :
  Forall (keyed nw) l →
  mapM (fun i => center2 <$> (nw !! i)) (l.*2) = Some (l.*1).
Proof.
  intros H. apply mapM_Some. induction H as [|p l Hp _ IH]; [constructor|].
  csimpl. by constructor.
Qed.

Lemma zip_fst_snd {A B : Type} (l : list (A * B)) : zip (l.*1) (l.*2) = l.
Proof. induction l as [|[a b] l IH]; [done|]. csimpl. by rewrite IH. Qed.

Lemma filter_snd_keyed nw k (l : list (Z * nat)) :
  Forall (keyed nw) l →
  filter (fun c => center2 <$> (nw !! c) = Some k) (l.*2)
  = (filter (fun p => fst p = k) l).*2.
Proof.
  induction 1 as [|p l Hp _ IH]; [done|]. csimpl.
  rewrite !filter_cons, IH. unfold keyed in Hp. rewrite Hp.
  destruct (decide (Some p.1 = Some k)) as [[= Heq]|Hne].
  - by rewrite decide_True.
  - rewrite decide_False; [done|]. intros Heq. apply Hne. by rewrite Heq.
Qed.

(** The exact effect of [resortSegment]. *)
Lemma resortSegment_inv p st u st' :
  resortSegment p st = Ok (u, st') →
  ∃ sg cells keys nodes,
    let sorted := stable_sort_by_key (zip keys cells) in
    m_segments st !! p = Some sg
    ∧ 0 <= getSegId sg
    ∧ m_cellsInSeg st !! Z.to_nat (getSegId sg) = Some cells
    ∧ centers st cells = Some keys
    ∧ mapM (fun i => m_network st !! i) (sorted.*2) = Some nodes
    ∧ st' = set_segments
              (<[p := foldl (fun s nd => addUtil (ceil_int (getWidth nd)) s)
                            (setUtil 0 sg) nodes]> (m_segments st))
              (set_cellsInSeg
                 (<[Z.to_nat (getSegId sg) := sorted.*2]> (m_cellsInSeg st)) st).
Proof.
  unfold resortSegment.
  rewrite (bind_run _ _ _ st st) by reflexivity.
  intros (sg & ? & [Hsg ->]%deref_Ok & H)%bind_Ok.
  apply bind_Ok in H as (segId & ? & [[H0 ->]%index_of_Some ->]%deref_Ok & H).
  apply bind_Ok in H as (cells & ? & [Hcells ->]%deref_Ok & H).
  apply bind_Ok in H as (keys & ? & [Hkeys ->]%centersOf_Ok & H).
  apply bind_Ok in H as (nodes & ? & [Hnodes ->]%deref_Ok & H).
  apply bind_Ok in H as (cis & ? & [[Hlt ->]%store_at_Some ->]%deref_Ok & H).
  apply bind_Ok in H as (sgs & ? & [[Hlt2 ->]%store_at_Some ->]%deref_Ok & H).
  apply modify_Ok in H as ->.
  exists sg, cells, keys, nodes. done.
Qed.

(** X5.  [resortSegment] sorts the cell list of the segment by x-center
    and the sort is stable: the new list is a permutation of the old one,
    it is in non-decreasing order of center, and the cells of one and the
    same center keep their relative order; no cell is moved and the other
    cell lists and the reverse map are not touched. *)
Theorem resortSegment_sorts p st u st' :
  resortSegment p st = Ok (u, st') →
  ∃ sg cells cells',
    m_segments st !! p = Some sg
    ∧ m_cellsInSeg st !! Z.to_nat (getSegId sg) = Some cells
    ∧ m_cellsInSeg st' !! Z.to_nat (getSegId sg) = Some cells'
    ∧ cells' ≡ₚ cells
    ∧ orderedByCenter st' (Z.to_nat (getSegId sg))
    ∧ (∀ k, withCenter st' k cells' = withCenter st k cells)
    ∧ (∀ s, s ≠ Z.to_nat (getSegId sg) →
            m_cellsInSeg st' !! s = m_cellsInSeg st !! s)
    ∧ m_network st' = m_network st
    ∧ m_reverseCellToSegs st' = m_reverseCellToSegs st.
Proof.
  intros (sg & cells & keys & nodes & Hsg & H0 & Hcells & Hkeys & Hnodes & ->)
    %resortSegment_inv.
  destruct (keyed_zip _ _ _ Hkeys) as (Hkeyed & Hsnd & Hfst).
  set (sorted := stable_sort_by_key (zip keys cells)) in *.
  assert (Forall (keyed (m_network st)) sorted) as Hks.
  { unfold sorted. by rewrite stable_sort_by_key_perm. }
  pose proof (lookup_lt_Some _ _ _ Hcells) as Hlt.
  assert (∀ x, m_cellsInSeg
            (set_segments x
               (set_cellsInSeg
                  (<[Z.to_nat (getSegId sg) := sorted.*2]> (m_cellsInSeg st)) st))
            !! Z.to_nat (getSegId sg) = Some (sorted.*2)) as Hnew.
  { intros x. simpl. by rewrite list_lookup_insert_eq. }
  exists sg, cells, (sorted.*2). split; [done|]. split; [done|].
  split; [apply Hnew|]. split.
  { etrans; [apply fmap_Permutation, stable_sort_by_key_perm|].
    by rewrite Hsnd. }
  split.
  { intros cells'. rewrite Hnew. intros [= <-]. exists (sorted.*1). split.
    - unfold centers. simpl. by apply keyed_centers.
    - apply stable_sort_by_key_sorted. }
  split.
  { intros k. unfold withCenter. simpl.
    rewrite (filter_snd_keyed _ _ _ Hks). unfold sorted.
    rewrite (stable_sort_by_key_stable (fun p => fst p = k))
      by (by intros ?? -> ->).
    rewrite <- (filter_snd_keyed _ _ _ Hkeyed). by rewrite Hsnd. }
  split; [|done].
  intros s Hs. simpl. by rewrite list_lookup_insert_ne.
Qed.

(** The theorem at segment 0 of [demoUnsorted], whose list [[1; 2]]
    becomes [[2; 1]]. *)
Lemma resortSegment_sorts_witness :
  ∃ sg cells cells',
    m_segments demoUnsorted !! 0%nat = Some sg
    ∧ m_cellsInSeg demoUnsorted !! Z.to_nat (getSegId sg) = Some cells
    ∧ m_cellsInSeg (exec (resortSegment 0) demoUnsorted)
        !! Z.to_nat (getSegId sg) = Some cells'
    ∧ cells' ≡ₚ cells
    ∧ orderedByCenter (exec (resortSegment 0) demoUnsorted)
                      (Z.to_nat (getSegId sg))
    ∧ (∀ k, withCenter (exec (resortSegment 0) demoUnsorted) k cells'
            = withCenter demoUnsorted k cells)
    ∧ (∀ s, s ≠ Z.to_nat (getSegId sg) →
            m_cellsInSeg (exec (resortSegment 0) demoUnsorted) !! s
            = m_cellsInSeg demoUnsorted !! s)
    ∧ m_network (exec (resortSegment 0) demoUnsorted) = m_network demoUnsorted
    ∧ m_reverseCellToSegs (exec (resortSegment 0) demoUnsorted)
      = m_reverseCellToSegs demoUnsorted.
Proof.
  apply (resortSegment_sorts 0 demoUnsorted tt).
  vm_compute. reflexivity.
Defined.

Lemma setUtil_foldl_addUtil (nodes : list Node) (sg : DetailedSeg) :
  setUtil 0 (foldl (fun s nd => addUtil (ceil_int (getWidth nd)) s) sg nodes)
  = setUtil 0 sg.
Proof.
  revert sg. induction nodes as [|nd nodes IH]; intros sg; simpl; [done|].
  by rewrite IH.
Qed.

(** X6.  [resortSegment] is idempotent: run again on the segment it has
    just sorted, it completes and leaves the manager exactly as it is. *)
Theorem resortSegment_twice p st u st' :
  resortSegment p st = Ok (u, st') →
  resortSegment p st' = Ok (tt, st').
Proof.
  intros (sg & cells & keys & nodes & Hsg & H0 & Hcells & Hkeys & Hnodes & ->)
    %resortSegment_inv.
  destruct (keyed_zip _ _ _ Hkeys) as (Hkeyed & Hsnd & Hfst).
  set (sorted := stable_sort_by_key (zip keys cells)) in *.
  assert (Forall (keyed (m_network st)) sorted) as Hks.
  { unfold sorted. by rewrite stable_sort_by_key_perm. }
  pose proof (lookup_lt_Some _ _ _ Hcells) as Hlt.
  pose proof (lookup_lt_Some _ _ _ Hsg) as Hlt2.
  set (sg' := foldl _ (setUtil 0 sg) nodes).
  assert (getSegId sg' = getSegId sg) as Hid
    by apply (foldl_addUtil_util nodes (setUtil 0 sg)).
  assert (setUtil 0 sg' = setUtil 0 sg) as Hzero.
  { unfold sg'. by rewrite setUtil_foldl_addUtil. }
  set (st' := set_segments _ _).
  assert (m_segments st' !! p = Some sg') as Hsg'
    by (simpl; by rewrite list_lookup_insert_eq).
  assert (m_cellsInSeg st' !! Z.to_nat (getSegId sg) = Some (sorted.*2))
    as Hcells' by (simpl; by rewrite list_lookup_insert_eq).
  assert (mapM (fun i => center2 <$> (m_network st' !! i)) (sorted.*2)
          = Some (sorted.*1)) as Hkeys' by (by apply keyed_centers).
  unfold resortSegment.
  rewrite (bind_run _ _ _ _ _ eq_refl).
  rewrite (bind_run _ _ _ _ _ (deref_run _ _ _ Hsg')).
  rewrite Hid.
  rewrite (bind_run _ _ _ _ _ (index_of_run _ _ H0)).
  rewrite (bind_run _ _ _ _ _ (deref_run _ _ _ Hcells')).
  rewrite (bind_run _ _ _ _ _ (centersOf_run _ _ _ Hkeys')).
  rewrite zip_fst_snd.
  rewrite (stable_sort_by_key_id sorted) by apply stable_sort_by_key_sorted.
  rewrite (bind_run _ _ _ _ _ (deref_run _ _ _ Hnodes)).
  rewrite Hzero. fold sg'.
  assert (Z.to_nat (getSegId sg) < length (m_cellsInSeg st'))%nat as Hl1
    by (simpl; by rewrite length_insert).
  assert (p < length (m_segments st'))%nat as Hl2
    by (simpl; by rewrite length_insert).
  rewrite (bind_run _ _ _ _ _ (deref_run _ _ _ (store_at_lt _ _ _ Hl1))).
  rewrite (bind_run _ _ _ _ _ (deref_run _ _ _ (store_at_lt _ _ _ Hl2))).
  unfold modify, st'. simpl. by rewrite !list_insert_insert_eq.
Qed.

(** The theorem at segment 0 of [demoUnsorted]. *)
Lemma resortSegment_twice_witness :
  resortSegment 0 (exec (resortSegment 0) demoUnsorted)
  = Ok (tt, exec (resortSegment 0) demoUnsorted).
Proof.
  apply (resortSegment_twice 0 demoUnsorted tt).
  vm_compute. reflexivity.
Defined.

(** * Emptying the segments *)

(** A loop over [seq a n] all of whose iterations complete. *)
Lemma forM_seq_run (P : nat -> DetailedMgr -> Prop) (f : nat -> M unit) n :
  ∀ a st,
    (∀ i st, (a ≤ i < a + n)%nat → P i st →
             ∃ st', f i st = Ok (tt, st') ∧ P (S i) st') →
    P a st →
    ∃ st', forM (seq a n) f st = Ok (tt, st') ∧ P (a + n)%nat st'.
Proof.
  induction n as [|n IH]; intros a st Hstep Ha; simpl.
  - exists st. by rewrite Nat.add_0_r.
  - destruct (Hstep a st ltac:(lia) Ha) as (st1 & H1 & HP).
    destruct (IH (S a) st1) as (st' & H2 & HP'); [|done|].
    { intros i s Hi. apply Hstep. lia. }
    exists st'. rewrite (bind_run _ _ _ _ _ H1).
    split; [done|]. by replace (a + S n)%nat with (S a + n)%nat by lia.
Qed.

(** X7.  On a store whose segments carry their index as id and that has
    one cell list per segment (as [findSegments] leaves it),
    [removeAllCellsFromSegments] completes; afterwards no cell is in any
    segment, every reverse-map entry is empty, every segment has
    utilization zero and is otherwise unchanged, and no cell has moved. *)
Theorem removeAllCellsFromSegments_empties st :
  storeOk st →
  length (m_cellsInSeg st) = length (m_segments st) →
  ∃ st',
    removeAllCellsFromSegments st = Ok (tt, st')
    ∧ unassigned st'
    ∧ m_segments st' = setUtil 0 <$> m_segments st
    ∧ length (m_cellsInSeg st') = length (m_cellsInSeg st)
    ∧ length (m_reverseCellToSegs st') = length (m_reverseCellToSegs st)
    ∧ m_network st' = m_network st.
Proof.
  intros Hstore Hlen. unfold removeAllCellsFromSegments.
  rewrite (bind_run _ _ _ st st) by reflexivity.
  set (N := length (m_segments st)).
  destruct (forM_seq_run (fun i s => (i ≤ N)%nat ∧ s = emptied st i)
              (fun i =>
                 st ← get;
                 sg ← deref (m_segments st !! i);
                 segId ← deref (index_of (getSegId sg));
                 cis ← deref (store_at (m_cellsInSeg st) segId []);
                 sgs ← deref (alter_at (setUtil 0) (m_segments st) i);
                 modify (fun st => set_segments sgs (set_cellsInSeg cis st)))
              N 0%nat st) as (st1 & Hloop & _ & ->).
  - intros i s [_ Hi] [_ ->].
    destruct (lookup_lt_is_Some_2 (m_segments st) i) as [sg Hsg]; [lia|].
    destruct (lookup_lt_is_Some_2 (m_cellsInSeg st) i) as [c Hc]; [lia|].
    assert (length (setUtil 0 <$> take i (m_segments st)) = i) as Hl1
      by (rewrite length_fmap, length_take; lia).
    assert (length (replicate i ([] : list nat)) = i) as Hl2
      by apply length_replicate.
    exists (emptied st (S i)). split; [|split; [lia|done]].
    assert (m_segments (emptied st i) !! i = Some sg) as Hsg'.
    { simpl. rewrite lookup_app_r by lia. rewrite Hl1, lookup_drop.
      by replace (i + (i - i))%nat with i by lia. }
    assert (i < length (m_cellsInSeg (emptied st i)))%nat as Hlt1.
    { simpl. rewrite length_app, Hl2, length_drop. lia. }
    assert (i < length (m_segments (emptied st i)))%nat as Hlt2.
    { simpl. rewrite length_app, Hl1, length_drop. lia. }
    assert (0 <= Z.of_nat i) as H0 by lia.
    rewrite (bind_run _ _ _ _ _ eq_refl).
    rewrite (bind_run _ _ _ _ _ (deref_run _ _ _ Hsg')).
    rewrite (Hstore _ _ Hsg).
    rewrite (bind_run _ _ _ _ _ (index_of_run _ _ H0)).
    rewrite Nat2Z.id.
    rewrite (bind_run _ _ _ _ _ (deref_run _ _ _ (store_at_lt _ _ _ Hlt1))).
    rewrite (bind_run _ _ _ _ _ (deref_run _ _ _ (alter_at_lt _ _ _ Hlt2))).
    unfold modify, emptied. simpl. do 2 f_equal.
    rewrite insert_app_r_alt, alter_app_r_alt by lia.
    rewrite Hl1, Hl2, Nat.sub_diag.
    rewrite (drop_S _ _ _ Hsg), (drop_S _ _ _ Hc).
    change ([] :: replicate i [] ++ ?l) with (replicate (S i) ([] : list nat) ++ l).
    rewrite (take_S_r _ _ _ Hsg), fmap_app, replicate_S_end.
    rewrite <- !app_assoc. reflexivity.
  - split; [lia|]. unfold emptied. simpl. rewrite !drop_0. by destruct st.
  - rewrite (bind_run _ _ _ _ _ Hloop). eexists. split; [reflexivity|].
    unfold emptied. simpl. fold N.
    rewrite !drop_ge, !app_nil_r, take_ge by lia.
    split; [split|].
    + intros s cells. simpl. by intros [-> _]%lookup_replicate.
    + intros c rev. simpl. rewrite list_lookup_fmap.
      destruct (_ !! c); by intros [= <-].
    + simpl. rewrite length_replicate, length_fmap. done.
Qed.

(** The theorem at [demoSwap], whose segment 0 holds two cells. *)
Lemma removeAllCellsFromSegments_empties_witness :
  ∃ st',
    removeAllCellsFromSegments demoSwap = Ok (tt, st')
    ∧ unassigned st'
    ∧ m_segments st' = setUtil 0 <$> m_segments demoSwap
    ∧ length (m_cellsInSeg st') = length (m_cellsInSeg demoSwap)
    ∧ length (m_reverseCellToSegs st')
      = length (m_reverseCellToSegs demoSwap)
    ∧ m_network st' = m_network demoSwap.
Proof.
  apply (removeAllCellsFromSegments_empties demoSwap).
  - intros i sg Hi. vm_compute in Hi.
    destruct i as [|[|[|i]]]; simpl in Hi; try discriminate Hi;
      injection Hi as <-; reflexivity.
  - vm_compute. reflexivity.
Defined.

(** * Merging intervals *)

Lemma covered_elem_of l x :
  covered l x ↔ ∃ iv, iv ∈ l ∧ fst iv <= x < snd iv.
Proof. apply Exists_exists. Qed.

Lemma covered_sortBlockages l x : covered (sortBlockages l) x ↔ covered l x.
Proof.
  rewrite !covered_elem_of. split; intros (iv & Hiv & Hx); exists iv.
  - split; [by apply (proj1 (elem_of_sortBlockages l iv))|done].
  - split; [by apply (proj2 (elem_of_sortBlockages l iv))|done].
Qed.

Lemma mergeSweep_covered x : ∀ bs top s,
  (∀ b, b ∈ bs → fst top <= fst b) → ascending bs →
  covered (mergeSweep top s bs) x ↔ covered (top :: s ++ bs) x.
Proof.
  unfold covered.
  induction bs as [|b bs IH]; intros top s Htop Hasc; cbn [mergeSweep].
  - by rewrite app_nil_r.
  - destruct Hasc as [Hb Hasc].
    pose proof (Htop b ltac:(left)) as Htb.
    destruct (decide (snd top < fst b)).
    + rewrite IH by done.
      rewrite !Exists_cons, !Exists_app, !Exists_cons. tauto.
    + rewrite IH.
      * rewrite !Exists_cons, !Exists_app, !Exists_cons.
        destruct (decide (snd top < snd b)); simpl; intuition lia.
      * intros b' Hb'. specialize (Htop b' ltac:(by right)).
        by destruct (decide _).
      * done.
Qed.

Lemma mergeIntervals_covered bs x :
  covered (mergeIntervals bs) x ↔ covered bs x.
Proof.
  unfold mergeIntervals.
  pose proof (sortBlockages_ascending bs) as Hasc.
  pose proof (covered_sortBlockages bs x) as Hcov.
  destruct (sortBlockages bs) as [|b0 rest]; [done|].
  destruct Hasc as [H0 Hasc].
  rewrite covered_sortBlockages, mergeSweep_covered by done.
  by rewrite <- Hcov.
Qed.

(** X8.  The sort-and-merge step that [findBlockages] and
    [findRegionIntervals] apply to the intervals of a row keeps the set
    of covered points and leaves the intervals in ascending order, each
    ending strictly before the next one begins (touching and overlapping
    intervals are fused). *)
Theorem mergeIntervals_same_points bs :
  chain (mergeIntervals bs)
  ∧ ∀ x, covered (mergeIntervals bs) x ↔ covered bs x.
Proof.
  split; [apply mergeIntervals_chain|apply mergeIntervals_covered].
Qed.

Lemma mergeIntervals_Forall (P : Z * Z -> Prop) bs :
  (∀ x b, P x → P b → snd x < snd b → P (fst x, snd b)) →
  Forall P bs → Forall P (mergeIntervals bs).
Proof.
  intros Hext Hbs. unfold mergeIntervals.
  pose proof (sortBlockages_Forall _ _ Hbs) as Hsorted.
  destruct (sortBlockages bs) as [|b0 rest]; [done|].
  apply Forall_cons in Hsorted as [H0 Hrest].
  by apply sortBlockages_Forall, mergeSweep_Forall.
Qed.

(** * The intervals of a region *)

Lemma rowCover_inv rect r st c st' :
  rowCover rect r st = Ok (c, st') →
  st' = st
  ∧ (∀ iv, c = Some iv →
       ∃ rw, getRows (m_arch st) !! r = Some rw
             ∧ onGrid rw (fst iv) ∧ onGrid rw (snd iv)
             ∧ (0 < row_getSiteSpacing rw → fst iv < snd iv))
  ∧ (spansRow st rect r →
     ∃ rw, getRows (m_arch st) !! r = Some rw
       ∧ (0 < row_getSiteSpacing rw → xmin rect < xmax rect →
          ∃ iv, c = Some iv ∧ fst iv <= xmin rect ∧ xmax rect <= snd iv)).
Proof.
  unfold rowCover, spansRow. rewrite !(bind_run _ _ _ _ _ (gets_run _ _)).
  destruct (decide _) as [Hspan|Hno].
  2:{ intros [-> ->]%mret_Ok. split; [done|]. split; [done|].
      intros Hs. exfalso. apply Hno. done. }
  intros (rw & st1 & (_ & Hrw & ->)%row_Ok & Hrun)%bind_Ok.
  rewrite Nat2Z.id in Hrw.
  destruct (decide (row_getSiteSpacing rw = 0)) as [|Hsp]; [done|].
  set (o := row_getLeft rw) in *. set (sp := row_getSiteSpacing rw) in *.
  assert (∀ k, onGrid rw (o + k * sp)) as Hgrid.
  { intros k. unfold onGrid. fold o sp.
    replace (o + k * sp - o) with (k * sp) by lia. by apply Z.mod_mul. }
  destruct (decide (_ > _)) as [Hgt|Hle];
    apply mret_Ok in Hrun as [-> ->]; (split; [done|]); split.
  - intros iv [= <-]. exists rw. split; [done|]. simpl.
    split; [apply Hgrid|]. split; [apply Hgrid|]. intros Hpos. nia.
  - intros _. exists rw. split; [done|]. intros Hpos Hlt.
    eexists. split; [done|]. simpl.
    pose proof (Z.mul_div_le (xmin rect - o) sp Hpos).
    pose proof (Z.mul_succ_div_gt (xmax rect - o) sp Hpos).
    pose proof (Z.mul_div_le (xmax rect - o) sp Hpos).
    split; [lia|]. destruct (decide (_ ≠ _)); lia.
  - done.
  - intros _. exists rw. split; [done|]. intros Hpos Hlt. exfalso.
    pose proof (Z.mul_div_le (xmin rect - o) sp Hpos).
    pose proof (Z.mul_succ_div_gt (xmax rect - o) sp Hpos).
    pose proof (Z.mul_div_le (xmax rect - o) sp Hpos).
    destruct (decide (_ ≠ _)); nia.
Qed.

(** The loop over the rows, for one rectangle. *)
Lemma coverRows_inv rect st k : ∀ a acc acc' st',
  foldM (fun acc r =>
           c ← rowCover rect r;
           match c with
           | Some iv => mret (alter (fun l => l ++ [iv]) r acc)
           | None => mret acc
           end) (seq a k) acc st = Ok (acc', st') →
  st' = st ∧ length acc' = length acc
  ∧ ∀ r l, acc !! r = Some l →
      if decide (a ≤ r < a + k)%nat then
        ∃ c, rowCover rect r st = Ok (c, st)
             ∧ acc' !! r = Some (l ++ option_list c)
      else acc' !! r = Some l.
Proof.
  induction k as [|k IH]; intros a acc acc' st'; simpl.
  - intros [-> ->]%mret_Ok. split; [done|]. split; [done|].
    intros r l Hl. rewrite decide_False by lia. done.
  - intros (acc1 & st1 & Hstep & Hrest)%bind_Ok.
    apply bind_Ok in Hstep as (c & st2 & Hc & Hstep).
    pose proof (rowCover_inv _ _ _ _ _ Hc) as [-> _].
    assert (st1 = st ∧ acc1 = match c with
                               | Some iv => alter (fun l => l ++ [iv]) a acc
                               | None => acc
                               end) as [-> ->].
    { destruct c; by apply mret_Ok in Hstep as [-> ->]. }
    apply IH in Hrest as (-> & Hlen & Hrows). split; [done|]. split.
    { rewrite Hlen. destruct c; [apply length_alter|done]. }
    intros r l Hl. destruct (decide (r = a)) as [->|Hne].
    + rewrite decide_True by lia. exists c. split; [done|].
      specialize (Hrows a (l ++ option_list c)).
      rewrite decide_False in Hrows by lia. apply Hrows.
      destruct c; simpl.
      * by rewrite list_lookup_alter_eq, Hl.
      * by rewrite app_nil_r.
    + specialize (Hrows r l).
      assert (match c with
              | Some iv => alter (fun l => l ++ [iv]) a acc
              | None => acc
              end !! r = Some l) as Hl'.
      { destruct c; [by rewrite list_lookup_alter_ne|done]. }
      specialize (Hrows Hl').
      destruct (decide (a ≤ r < a + S k)%nat).
      * rewrite decide_True in Hrows by lia. done.
      * rewrite decide_False in Hrows by lia. done.
Qed.

(** The loop over the rectangles of the region. *)
Lemma coverRects_inv st n : ∀ rects acc acc' st',
  length acc = n →
  foldM (fun acc rect =>
           foldM (fun acc r =>
                    c ← rowCover rect r;
                    match c with
                    | Some iv => mret (alter (fun l => l ++ [iv]) r acc)
                    | None => mret acc
                    end) (seq 0 n) acc) rects acc st = Ok (acc', st') →
  st' = st ∧ length acc' = n
  ∧ ∀ r l, acc !! r = Some l →
      ∃ cs, Forall2 (fun rect c => rowCover rect r st = Ok (c, st)) rects cs
            ∧ acc' !! r = Some (l ++ (cs ≫= option_list)).
Proof.
  induction rects as [|rect rects IH]; intros acc acc' st' Hlen; simpl.
  - intros [-> ->]%mret_Ok. split; [done|]. split; [done|].
    intros r l Hl. exists []. split; [constructor|]. simpl.
    by rewrite app_nil_r.
  - intros (acc1 & st1 & Hrow & Hrest)%bind_Ok.
    apply coverRows_inv in Hrow as (-> & Hlen1 & Hrows).
    apply IH in Hrest as (-> & Hlen2 & Hrects); [|lia].
    split; [done|]. split; [done|]. intros r l Hl.
    specialize (Hrows r l Hl).
    rewrite decide_True in Hrows
      by (apply lookup_lt_Some in Hl; lia).
    destruct Hrows as (c & Hc & Hl1).
    destruct (Hrects _ _ Hl1) as (cs & Hcs & Hl2).
    exists (c :: cs). split; [by constructor|].
    rewrite Hl2. simpl. by rewrite <- app_assoc.
Qed.

(** X9.  [findRegionIntervals] ends in the fatal error "Improper region
    id" for the default region 0, for a negative id and for an id beyond
    the regions of the architecture.  When it completes (with sites of
    positive pitch) it has changed nothing and returns one list per row;
    the intervals of a row are whole, non-empty runs of sites of that row,
    in ascending order and strictly apart, and together they cover every
    rectangle of the region that spans the height of the row. *)
Theorem findRegionIntervals_result regId st :
  (regId < 1 ∨ regId >= Z.of_nat (getNumRegions (m_arch st)) →
   findRegionIntervals regId st = Fatal "Improper region id")
  ∧ ∀ ivs st',
      (∀ rw, rw ∈ getRows (m_arch st) → 0 < row_getSiteSpacing rw) →
      findRegionIntervals regId st = Ok (ivs, st') →
      st' = st ∧ length ivs = m_numSingleHeightRows st
      ∧ ∃ reg, getRegions (m_arch st) !! Z.to_nat regId = Some reg
        ∧ ∀ r l, ivs !! r = Some l →
            chain l
            ∧ (∀ rw, getRows (m_arch st) !! r = Some rw → Forall (sitesOf rw) l)
            ∧ ∀ rect x, rect ∈ reg_getRects reg → spansRow st rect r →
                        xmin rect <= x < xmax rect → covered l x.
Proof.
  unfold findRegionIntervals.
  rewrite !(bind_run _ _ _ _ _ (gets_run _ _)). split.
  { intros Hbad. by rewrite decide_True. }
  intros ivs st' Hsp. destruct (decide (regId < 1 ∨ _)) as [|Hok]; [done|].
  intros (reg & ? & [Hreg ->]%deref_Ok & Hrun)%bind_Ok.
  destruct (decide (reg_getId reg ≠ regId)); [done|].
  apply bind_Ok in Hrun as (acc & st1 & Hfold & [-> ->]%mret_Ok).
  set (nrows := m_numSingleHeightRows st) in *.
  apply coverRects_inv in Hfold as (-> & Hlen & Hrows);
    [|apply length_replicate].
  split; [done|]. split; [by rewrite length_fmap|].
  exists reg. split; [done|]. intros r l.
  rewrite list_lookup_fmap. destruct (acc !! r) as [l0|] eqn:Hl0; [|done].
  intros [= <-]. split; [apply mergeIntervals_chain|].
  assert (r < nrows)%nat as Hr by (apply lookup_lt_Some in Hl0; lia).
  destruct (Hrows r []) as (cs & Hcs & Hacc);
    [by apply lookup_replicate_2|].
  rewrite Hl0 in Hacc. injection Hacc as ->. simpl. split.
  - intros rw Hrw. apply mergeIntervals_Forall.
    { intros x b (Hx1 & Hx2 & Hx3) (Hb1 & Hb2 & Hb3) Hlt.
      unfold sitesOf. simpl. repeat split; [done..|lia]. }
    apply Forall_forall. intros iv (c & Hiv & Hc)%list_elem_of_bind.
    destruct c as [iv'|]; [|by apply elem_of_nil in Hiv].
    apply list_elem_of_singleton in Hiv as ->.
    apply list_elem_of_lookup_1 in Hc as (i & Hi).
    destruct (Forall2_lookup_r _ _ _ _ _ Hcs Hi) as (rect & _ & Hrun).
    apply rowCover_inv in Hrun as (_ & Hgrid & _).
    destruct (Hgrid _ eq_refl) as (rw' & Hrw' & Hg1 & Hg2 & Hlt).
    assert (rw' = rw) as -> by congruence.
    repeat split; [done..|]. apply Hlt, Hsp.
    by eapply list_elem_of_lookup_2.
  - intros rect x (i & Hi)%list_elem_of_lookup_1 Hspan Hx.
    destruct (Forall2_lookup_l _ _ _ _ _ Hcs Hi) as (c & Hc & Hrun).
    apply rowCover_inv in Hrun as (_ & _ & Hcov).
    destruct (Hcov Hspan) as (rw & Hrw & Hiv).
    destruct Hiv as (iv & -> & Hlo & Hhi);
      [apply Hsp; by eapply list_elem_of_lookup_2|lia|].
    apply mergeIntervals_covered. apply covered_elem_of.
    exists iv. split; [|lia].
    apply list_elem_of_bind. exists (Some iv).
    split; [by left|by eapply list_elem_of_lookup_2].
Qed.

(** The theorem at region 1 of [demoFenced]: the two rectangles become
    the one interval [[10,50)]. *)
Lemma findRegionIntervals_result_witness :
  findRegionIntervals 1 demoFenced = Ok ([[(10, 50)]], demoFenced)
  ∧ chain [(10, 50)]
  ∧ ∀ x, 12 <= x < 31 → covered [(10, 50)] x.
Proof.
  assert (findRegionIntervals 1 demoFenced = Ok ([[(10, 50)]], demoFenced))
    as Hrun by (vm_compute; reflexivity).
  split; [exact Hrun|].
  assert (∀ rw, rw ∈ getRows (m_arch demoFenced) → 0 < row_getSiteSpacing rw)
    as Hsp.
  { intros rw Hrw. vm_compute in Hrw.
    apply list_elem_of_singleton in Hrw as ->. reflexivity. }
  destruct (findRegionIntervals_result 1 demoFenced) as [_ H].
  destruct (H _ _ Hsp Hrun) as (_ & _ & reg & Hreg & Hrows).
  vm_compute in Hreg. injection Hreg as <-.
  destruct (Hrows 0%nat [(10, 50)] eq_refl) as (Hchain & _ & Hcov).
  split; [exact Hchain|]. intros x Hx.
  apply (Hcov (mkRect 12 31 0 10) x); [by left| |exact Hx].
  vm_compute. split; discriminate.
Defined.

(** * Aligning a position with the sites *)

Lemma quot_close a sp :
  0 < sp → a - sp < Z.quot a sp * sp < a + sp.
Proof.
  intros Hsp. pose proof (Z.quot_rem' a sp) as Hqr.
  pose proof (Z.rem_bound_abs a sp ltac:(lia)) as Hb. lia.
Qed.

Lemma onGrid_point rw k :
  onGrid rw (row_getLeft rw + k * row_getSiteSpacing rw).
Proof.
  unfold onGrid.
  replace (row_getLeft rw + k * row_getSiteSpacing rw - row_getLeft rw)
    with (k * row_getSiteSpacing rw) by lia.
  destruct (decide (row_getSiteSpacing rw = 0)) as [->|Hne].
  - by rewrite Z.mul_0_r.
  - by apply Z.mod_mul.
Qed.

Lemma onGrid_inv rw g :
  onGrid rw g →
  ∃ k, g = row_getLeft rw + k * row_getSiteSpacing rw.
Proof.
  unfold onGrid. intros Hg.
  exists ((g - row_getLeft rw) `div` row_getSiteSpacing rw).
  destruct (decide (row_getSiteSpacing rw = 0)) as [Heq|Hne].
  - rewrite Heq in *. rewrite Z.mod_0_r in Hg. lia.
  - pose proof (Z.div_mod (g - row_getLeft rw) _ Hne). lia.
Qed.

(** X10.  With sites of positive pitch [alignPos] always completes and
    changes nothing.  It succeeds exactly when some site-aligned left
    edge lets the cell lie within [[xl, xr]]; the position it returns is
    such an edge, less than one site away from the target clamped into the
    interval; on failure the target is returned as it was. *)
Theorem alignPos_finds_a_site st ndi xi xl xr rw nd :
  getRows (m_arch st) !! 0%nat = Some rw →
  m_network st !! ndi = Some nd →
  0 < row_getSiteSpacing rw →
  ∃ ok x,
    alignPos ndi xi xl xr st = Ok ((ok, x), st)
    ∧ (ok = true →
       onGrid rw x ∧ xl <= x ∧ x + getWidth nd <= xr
       ∧ Z.abs (x - Z.max xl (Z.min (xr - getWidth nd) xi))
         < row_getSiteSpacing rw)
    ∧ (ok = false →
       x = xi ∧ ∀ g, onGrid rw g → ¬ (xl <= g ∧ g + getWidth nd <= xr)).
Proof.
  intros Hrw Hnd Hsp. unfold alignPos.
  assert (row 0 st = Ok (rw, st)) as Hrow by (by apply row_Ok).
  rewrite (bind_run _ _ _ _ _ Hrow).
  rewrite (bind_run _ _ _ _ _ (node_run_Some _ _ _ Hnd)).
  set (o := row_getLeft rw). set (sp := row_getSiteSpacing rw) in *.
  set (w := getWidth nd). set (xp := Z.max xl (Z.min (xr - w) xi)).
  assert (int_div (xp - o) sp st = Ok (Z.quot (xp - o) sp, st)) as Hdiv.
  { apply int_div_Ok. split; [lia|done]. }
  rewrite (bind_run _ _ _ _ _ Hdiv).
  pose proof (quot_close (xp - o) sp Hsp) as Hq.
  set (q := Z.quot (xp - o) sp) in *.
  set (p := o + q * sp) in *.
  assert (∀ g, onGrid rw g → xl <= g → g <= xr - w →
            xl <= (if decide (p < xl) then p + sp
                   else if decide (p > xr - w) then p - sp else p)
               <= xr - w) as Hcomplete.
  { intros g (k & Hk)%onGrid_inv Hlo Hhi. fold o sp in Hk.
    destruct (decide (p < xl)); [|destruct (decide (p > xr - w))].
    - assert (q < k) by (subst p; nia). subst p. nia.
    - assert (k < q) by (subst p; nia). subst p. nia.
    - lia. }
  destruct (decide (p < xl)) as [Hlt|Hge].
  - destruct (decide (p + sp < xl ∨ p + sp > xr - w)) as [Hout|Hin].
    + exists false, xi. split; [done|]. split; [done|]. intros _.
      split; [done|]. intros g Hg [Hlo Hhi].
      specialize (Hcomplete g Hg Hlo ltac:(lia)). lia.
    + exists true, (p + sp). split; [done|]. split; [|done]. intros _.
      split; [|lia].
      replace (p + sp) with (o + (q + 1) * sp) by (subst p; lia).
      apply onGrid_point.
  - destruct (decide (p > xr - w)) as [Hgt|Hle].
    + destruct (decide (p - sp < xl ∨ p - sp > xr - w)) as [Hout|Hin].
      * exists false, xi. split; [done|]. split; [done|]. intros _.
        split; [done|]. intros g Hg [Hlo Hhi].
        specialize (Hcomplete g Hg Hlo ltac:(lia)). lia.
      * exists true, (p - sp). split; [done|]. split; [|done]. intros _.
        split; [|lia].
        replace (p - sp) with (o + (q - 1) * sp) by (subst p; lia).
        apply onGrid_point.
    + destruct (decide (p < xl ∨ p > xr - w)) as [Hout|Hin]; [lia|].
      exists true, p. split; [done|]. split; [|done]. intros _.
      split; [apply onGrid_point|lia].
Qed.

(** The theorem on the grid of pitch 25 of [demoCoarse], for the cell 2
    of width 8 and the interval [[60, 100)]. *)
Lemma alignPos_finds_a_site_witness :
  ∃ ok x,
    alignPos 2 70 60 100 demoCoarse = Ok ((ok, x), demoCoarse)
    ∧ (ok = true →
       onGrid (demoRow 25 0) x ∧ 60 <= x ∧ x + 8 <= 100
       ∧ Z.abs (x - Z.max 60 (Z.min (100 - 8) 70)) < 25)
    ∧ (ok = false →
       x = 70 ∧ ∀ g, onGrid (demoRow 25 0) g → ¬ (60 <= g ∧ g + 8 <= 100)).
Proof.
  apply (alignPos_finds_a_site demoCoarse 2 70 60 100 (demoRow 25 0)
           (demoCell 70 0 8 10)); reflexivity.
Defined.

(** * The displacement limit *)

(** X11.  After [setMaxDisplacement x y] the single-segment
    [addToMoveList] stages a move only if the cell stays within the limit:
    at most [x] (resp. [y]) row heights from its original position in x
    (resp. in y) whenever that argument is not zero, and never more than
    twice the larger dimension of the placement area.  In particular a
    negative argument makes every move fail. *)
Theorem displacement_limit_is_enforced st x y u st1 r0 ndi nd
    curLeft curBottom curSeg newLeft newBottom newSeg st2 :
  setMaxDisplacement x y st = Ok (u, st1) →
  getRows (m_arch st) !! 0%nat = Some r0 →
  m_network st !! ndi = Some nd →
  addToMoveList ndi curLeft curBottom curSeg newLeft newBottom newSeg st1
    = Ok (true, st2) →
  let limit :=
    2 * Z.max (arch_getWidth (m_arch st)) (arch_getHeight (m_arch st)) in
  (x ≠ 0 → Z.abs (newLeft - getOrigLeft nd) <= x * row_getHeight r0)
  ∧ (y ≠ 0 → Z.abs (newBottom - getOrigBottom nd) <= y * row_getHeight r0)
  ∧ Z.abs (newLeft - getOrigLeft nd) <= limit
  ∧ Z.abs (newBottom - getOrigBottom nd) <= limit.
Proof.
  intros Hset Hr0 Hnd Hadd limit. unfold setMaxDisplacement in Hset.
  rewrite (bind_run _ _ _ st st) in Hset by reflexivity.
  rewrite (bind_run _ _ _ _ _ (deref_run _ _ _ Hr0)) in Hset.
  apply modify_Ok in Hset as ->.
  match type of Hadd with _ ?s = _ => set (st1 := s) in * end.
  assert (m_network st1 !! ndi = Some nd) as Hnd1 by exact Hnd.
  unfold addToMoveList in Hadd.
  rewrite (bind_run _ _ _ _ _ eq_refl) in Hadd.
  destruct (decide (_ ≤ _)%nat); [by apply mret_Ok in Hadd as [[=] _]|].
  rewrite (bind_run _ _ _ _ _ (node_run_Some _ _ _ Hnd1)) in Hadd.
  destruct (decide (_ ∨ _)) as [|Hin];
    [by apply mret_Ok in Hadd as [[=] _]|].
  clear Hadd. subst st1. simpl in Hin. unfold ceil_int in Hin.
  rewrite Z.shiftl_mul_pow2 in Hin by lia.
  change (2 ^ 1) with 2 in Hin. subst limit.
  repeat split; intros; repeat destruct (decide _); lia.
Qed.

(** The theorem at [demoSt] (rows of height 10, area 100 by 10) with the
    limit of two row heights in x: cell 1, originally at 5, to 25. *)
Lemma displacement_limit_is_enforced_witness :
  (2 ≠ 0 → Z.abs (25 - 5) <= 2 * 10)
  ∧ (0 ≠ 0 → Z.abs (0 - 0) <= 0 * 10)
  ∧ Z.abs (25 - 5) <= 2 * Z.max 100 10
  ∧ Z.abs (0 - 0) <= 2 * Z.max 100 10.
Proof.
  apply (displacement_limit_is_enforced demoSt 2 0 tt
           (exec (setMaxDisplacement 2 0) demoSt) (demoRow 1 0) 1
           (demoCell 5 0 10 10) 5 0 0 25 0 0
           (exec (addToMoveList 1 5 0 0 25 0 0)
                 (exec (setMaxDisplacement 2 0) demoSt)));
    vm_compute; reflexivity.
Defined.

(** * Accepting the staged moves *)

#[export] Instance untouched_refl S : Reflexive (untouched S).
Proof. intros st. unfold untouched. naive_solver. Qed.

#[export] Instance untouched_trans S : Transitive (untouched S).
Proof.
  intros s1 s2 s3 (H1 & H2 & H3 & H4 & H5 & H6) (G1 & G2 & G3 & G4 & G5 & G6).
  unfold untouched. repeat split; try congruence.
  - destruct (G6 c H) as [-> _]. by destruct (H6 c H) as [-> _].
  - destruct (G6 c H) as (_ & -> & _). by destruct (H6 c H) as (_ & -> & _).
  - intros Hin. apply (H6 c H), (G6 c H), Hin.
  - intros Hin. apply (G6 c H), (H6 c H), Hin.
Qed.

Lemma elem_of_delete_other (l : list nat) i x c :
  l !! i = Some x → c ≠ x → c ∈ delete i l ↔ c ∈ l.
Proof.
  intros Hi Hc. rewrite <- (take_drop_middle l i x Hi) at 2.
  rewrite delete_take_drop, !elem_of_app, elem_of_cons. tauto.
Qed.

Lemma setUtil_alter_util (f : DetailedSeg -> DetailedSeg) s
    (sgs : list DetailedSeg) :
  (∀ sg, setUtil 0 (f sg) = setUtil 0 sg) →
  setUtil 0 <$> alter f s sgs = setUtil 0 <$> sgs.
Proof.
  intros Hf. rewrite (list_fmap_alter _ f id).
  - by apply list_alter_id.
  - apply Forall_forall. intros sg _. simpl. by rewrite Hf.
Qed.

Lemma untouched_removed S st ndi s it its cells rev w :
  ndi ∈ S → m_cellsInSeg st !! s = Some cells → cells !! it = Some ndi →
  untouched S st (removed st ndi s it its cells rev w).
Proof.
  intros HS Hcells Hit. unfold untouched, removed, inCellList. simpl.
  repeat split; try done.
  - by apply setUtil_alter_util.
  - apply list_lookup_insert_ne. intros ->. done.
  - intros (l & Hl & Hc). destruct (decide (s0 = s)) as [->|Hne].
    + rewrite list_lookup_insert_eq in Hl by (by eapply lookup_lt_Some).
      injection Hl as <-. exists cells. split; [done|].
      eapply elem_of_delete_other; [done| |done]. intros ->. done.
    + rewrite list_lookup_insert_ne in Hl by done. by exists l.
  - intros (l & Hl & Hc). destruct (decide (s0 = s)) as [->|Hne].
    + exists (delete it cells).
      rewrite list_lookup_insert_eq by (by eapply lookup_lt_Some).
      split; [done|]. assert (l = cells) as -> by congruence.
      eapply elem_of_delete_other; [done| |done]. intros ->. done.
    + exists l. by rewrite list_lookup_insert_ne.
Qed.

Lemma untouched_added S st ndi s it cells rev w :
  ndi ∈ S → m_cellsInSeg st !! s = Some cells →
  untouched S st (added st ndi s it cells rev w).
Proof.
  intros HS Hcells. unfold untouched, added, inCellList. simpl.
  repeat split; try done.
  - by apply setUtil_alter_util.
  - apply list_lookup_insert_ne. intros ->. done.
  - intros (l & Hl & Hc). destruct (decide (s0 = s)) as [->|Hne].
    + rewrite list_lookup_insert_eq in Hl by (by eapply lookup_lt_Some).
      injection Hl as <-. exists cells. split; [done|].
      apply elem_of_insert_at in Hc as [->|Hc]; done.
    + rewrite list_lookup_insert_ne in Hl by done. by exists l.
  - intros (l & Hl & Hc). destruct (decide (s0 = s)) as [->|Hne].
    + exists (take it cells ++ ndi :: drop it cells).
      rewrite list_lookup_insert_eq by (by eapply lookup_lt_Some).
      split; [done|]. assert (l = cells) as -> by congruence.
      apply elem_of_insert_at. by right.
    + exists l. by rewrite list_lookup_insert_ne.
Qed.

Lemma untouched_remove S ndi seg :
  ndi ∈ S → preserves (untouched S) (removeCellFromSegment ndi seg).
Proof.
  intros HS st u st' Hrem.
  apply removeCellFromSegment_inv in Hrem
    as (nd & cells & rev & it & its & _ & _ & Hcells & _ & _ & Hit & _ & ->).
  by apply untouched_removed.
Qed.

Lemma untouched_add S ndi seg :
  ndi ∈ S → preserves (untouched S) (addCellToSegment ndi seg).
Proof.
  intros HS st u st' Hadd.
  apply addCellToSegment_inv in Hadd
    as (nd & cells & rev & it & _ & _ & Hcells & _ & _ & _ & _ & _ & ->).
  by apply untouched_added.
Qed.

Lemma setPosition_Ok ndi x y st u st' :
  setPosition ndi x y st = Ok (u, st') ↔
  (ndi < length (m_network st))%nat
  ∧ st' = set_network
            (alter (fun nd => setBottom y (setLeft x nd)) ndi (m_network st)) st.
Proof.
  unfold setPosition. rewrite (bind_run _ _ _ st st) by reflexivity. split.
  - intros (nw & ? & [[Hlt ->]%alter_at_Some ->]%deref_Ok & ->%modify_Ok)%bind_Ok.
    done.
  - intros [Hlt ->]. rewrite (bind_run _ _ _ _ _
                                (deref_run _ _ _ (alter_at_lt _ _ _ Hlt))).
    by destruct u.
Qed.

Lemma untouched_setPosition S ndi x y :
  ndi ∈ S → preserves (untouched S) (setPosition ndi x y).
Proof.
  intros HS st u st' [_ ->]%setPosition_Ok. unfold untouched. simpl.
  repeat split; try done.
  apply list_lookup_alter_ne. intros ->. done.
Qed.

(** X12.  [acceptMove] handles the staged cells only: every cell that is
    not staged keeps its position, its reverse-map entry and its place in
    the cell lists; the blockages, the rows and the segments (up to their
    utilization) stay as they are; and the staged list itself is not
    cleared. *)
Theorem acceptMove_touches_staged_cells_only st u st' :
  acceptMove st = Ok (u, st') →
  untouched (take (m_nMoved (m_moves st)) (m_movedNodes (m_moves st))) st st'.
Proof.
  unfold acceptMove. rewrite (bind_run _ _ _ st st) by reflexivity.
  set (S := take _ _).
  apply (preserves_forM_elem (untouched S)).
  intros i [_ Hi]%elem_of_seq s a s' H.
  apply bind_Ok in H as (ndi & s1 & [Hndi ->]%deref_Ok & H).
  assert (ndi ∈ S) as HS.
  { unfold S. apply list_elem_of_lookup. exists i.
    apply lookup_take_Some. split; [done|lia]. }
  apply bind_Ok in H as (cur & s1 & [_ ->]%deref_Ok & H).
  apply bind_Ok in H as ([] & s1 & Hrem & H).
  apply bind_Ok in H as (x & ? & [_ ->]%deref_Ok & H).
  apply bind_Ok in H as (y & ? & [_ ->]%deref_Ok & H).
  apply bind_Ok in H as ([] & s2 & Hpos & H).
  apply bind_Ok in H as (new & ? & [_ ->]%deref_Ok & Hadd).
  etrans; [|etrans].
  - refine (preserves_forM (untouched S) _ _ _ _ _ _ Hrem).
    intros seg. by apply untouched_remove.
  - by apply (untouched_setPosition S ndi x y HS _ _ _ Hpos).
  - refine (preserves_forM (untouched S) _ _ _ _ _ _ Hadd).
    intros seg. by apply untouched_add.
Qed.

(** The theorem at [demoStaged]: cell 2 and the fixed cell 0 are not
    touched. *)
Lemma acceptMove_touches_staged_cells_only_witness :
  untouched [1%nat] demoStaged (exec acceptMove demoStaged).
Proof.
  apply (acceptMove_touches_staged_cells_only demoStaged tt).
  vm_compute. reflexivity.
Defined.

Lemma staged_singleton st mv :
  staged st = [Some mv] →
  m_nMoved (m_moves st) = 1%nat
  ∧ m_movedNodes (m_moves st) !! 0%nat = Some (mv_node mv)
  ∧ m_curSeg (m_moves st) !! 0%nat = Some (mv_curSeg mv)
  ∧ m_newLeft (m_moves st) !! 0%nat = Some (mv_newLeft mv)
  ∧ m_newBottom (m_moves st) !! 0%nat = Some (mv_newBottom mv)
  ∧ m_newSeg (m_moves st) !! 0%nat = Some (mv_newSeg mv).
Proof.
  unfold staged. intros H.
  assert (m_nMoved (m_moves st) = 1%nat) as Hn.
  { apply (f_equal length) in H. by rewrite length_fmap, length_seq in H. }
  rewrite Hn in H. simpl in H. injection H as H. split; [done|].
  unfold moveAt in H.
  destruct (m_movedNodes _ !! _); [|done]. destruct (m_curLeft _ !! _); [|done].
  destruct (m_curBottom _ !! _); [|done]. destruct (m_curSeg _ !! _); [|done].
  destruct (m_newLeft _ !! _); [|done]. destruct (m_newBottom _ !! _); [|done].
  destruct (m_newSeg _ !! _); [|done].
  simpl in H. injection H as <-. done.
Qed.

(** X13.  When exactly one single-segment move is staged, [acceptMove]
    carries it out: the staged cell, and no other node, gets the new
    position; the cell is in the cell list of the new segment and the new
    segment is in its reverse-map entry; and when the segments differ and
    the old list held the cell once, the cell is no longer in the list of
    the old segment. *)
Theorem acceptMove_applies_the_move st ndi cl cb cs nl nb ns u st' :
  staged st = [Some (mkMove ndi cl cb [cs] nl nb [ns])] →
  acceptMove st = Ok (u, st') →
  m_network st'
  = alter (fun nd => setBottom nb (setLeft nl nd)) ndi (m_network st)
  ∧ inCellList st' ndi (Z.to_nat ns)
  ∧ inReverseMap st' ndi (Z.to_nat ns)
  ∧ (cs ≠ ns → noDuplicates st → ¬ inCellList st' ndi (Z.to_nat cs)).
Proof.
  intros (Hn & Hndi & Hcur & Hx & Hy & Hnew)%staged_singleton.
  simpl in *. unfold acceptMove.
  rewrite (bind_run _ _ _ st st) by reflexivity. rewrite Hn.
  cbn [seq forM].
  intros ([] & s3 & H & [_ ->]%mret_Ok)%bind_Ok.
  apply bind_Ok in H as (ndi' & ? & [Hndi' ->]%deref_Ok & H).
  assert (ndi' = ndi) as -> by congruence.
  apply bind_Ok in H as (cur & ? & [Hcur' ->]%deref_Ok & H).
  assert (cur = [cs]) as -> by congruence. cbn [forM] in H.
  apply bind_Ok in H as ([] & s1 & Hrem & H).
  apply bind_Ok in Hrem as ([] & ? & Hrem & [_ ->]%mret_Ok).
  apply bind_Ok in H as (x' & ? & [Hx' ->]%deref_Ok & H).
  apply bind_Ok in H as (y' & ? & [Hy' ->]%deref_Ok & H).
  assert (x' = nl) as -> by congruence. assert (y' = nb) as -> by congruence.
  apply bind_Ok in H as ([] & s2 & [_ ->]%setPosition_Ok & H).
  apply bind_Ok in H as (new & ? & [Hnew' ->]%deref_Ok & H).
  assert (new = [ns]) as -> by congruence. cbn [forM] in H.
  apply bind_Ok in H as ([] & ? & Hadd & [_ ->]%mret_Ok).
  apply removeCellFromSegment_inv in Hrem
    as (nd & cells & rev & it & its & H0 & Hnd & Hcells & Hrev & Hseg
        & Hit & Hits & ->).
  apply addCellToSegment_inv in Hadd
    as (nd' & cells' & rev' & it' & H0' & Hnd' & Hcells' & Hrev' & Hseg'
        & Hit' & Hnin & _ & ->).
  simpl in *.
  pose proof (lookup_lt_Some _ _ _ Hcells') as Hlt.
  pose proof (lookup_lt_Some _ _ _ Hrev') as Hlt'.
  split; [done|]. split; [|split].
  - exists (take it' cells' ++ ndi :: drop it' cells'). simpl.
    rewrite list_lookup_insert_eq by done. split; [done|].
    apply elem_of_insert_at. by left.
  - exists (rev' ++ [Z.to_nat ns]). simpl.
    rewrite list_lookup_insert_eq by done. split; [done|].
    apply elem_of_app. right. by left.
  - intros Hne [Hdup _] (l & Hl & Hin). simpl in Hl.
    rewrite list_lookup_insert_ne in Hl by lia.
    rewrite list_lookup_insert_eq in Hl by (by eapply lookup_lt_Some).
    injection Hl as <-.
    by apply (elem_of_delete_NoDup cells it ndi ndi (Hdup _ _ Hcells) Hit)
      in Hin as [? _].
Qed.

(** The theorem at [demoStagedAcross]: cell 1 goes from segment 0 to
    segment 1. *)
Lemma acceptMove_applies_the_move_witness :
  m_network (exec acceptMove demoStagedAcross)
  = alter (fun nd => setBottom 0 (setLeft 70 nd)) 1%nat
          (m_network demoStagedAcross)
  ∧ inCellList (exec acceptMove demoStagedAcross) 1 (Z.to_nat 1)
  ∧ inReverseMap (exec acceptMove demoStagedAcross) 1 (Z.to_nat 1)
  ∧ (0 ≠ 1 → noDuplicates demoStagedAcross →
     ¬ inCellList (exec acceptMove demoStagedAcross) 1 (Z.to_nat 0)).
Proof.
  apply (acceptMove_applies_the_move demoStagedAcross 1 20 0 0 70 0 1 tt);
    vm_compute; reflexivity.
Defined.

(** * A move within the segment *)

Lemma alignPos_inv ndi xi xl xr st ok x st' :
  alignPos ndi xi xl xr st = Ok ((ok, x), st') →
  st' = st
  ∧ ∃ rw nd,
      getRows (m_arch st) !! 0%nat = Some rw
      ∧ m_network st !! ndi = Some nd
      ∧ (ok = true → onGrid rw x ∧ xl <= x ∧ x + getWidth nd <= xr).
Proof.
  unfold alignPos.
  intros (rw & ? & (_ & Hrw & ->)%row_Ok & H)%bind_Ok.
  apply bind_Ok in H as (nd & ? & [Hnd ->]%node_Ok & H).
  apply bind_Ok in H as (q & ? & (Hsp & -> & ->)%int_div_Ok & H).
  split.
  { destruct (decide (_ ∨ _)); by apply mret_Ok in H as [_ ->]. }
  exists rw, nd. split; [done|]. split; [done|]. intros ->.
  destruct (decide (_ ∨ _)) as [|Hin]; apply mret_Ok in H as [[=] _].
  subst x. split; [|lia].
  set (o := row_getLeft rw). set (sp := row_getSiteSpacing rw).
  set (q := Z.quot _ _).
  destruct (decide (o + q * sp < xl)); [|destruct (decide (o + q * sp > _))].
  - replace (o + q * sp + sp) with (o + (q + 1) * sp) by lia.
    apply onGrid_point.
  - replace (o + q * sp - sp) with (o + (q - 1) * sp) by lia.
    apply onGrid_point.
  - apply onGrid_point.
Qed.

Lemma addToMoveList_true ndi cl cb cs nl nb ns st st' :
  addToMoveList ndi cl cb cs nl nb ns st = Ok (true, st') →
  ∃ nd, m_network st !! ndi = Some nd
    ∧ Z.abs (nl - getOrigLeft nd) <= m_maxDispX st
    ∧ Z.abs (nb - getOrigBottom nd) <= m_maxDispY st
    ∧ staged st' = staged st ++ [Some (mkMove ndi cl cb [cs] nl nb [ns])]
    ∧ onlyMoves st st'.
Proof.
  unfold addToMoveList. rewrite (bind_run _ _ _ st st) by reflexivity.
  destruct (decide (_ ≤ _)%nat); [by intros [[=] _]%mret_Ok|].
  intros (nd & ? & [Hnd ->]%node_Ok & H)%bind_Ok.
  destruct (decide (_ ∨ _)) as [|Hin]; [by apply mret_Ok in H as [[=] _]|].
  apply bind_Ok in H as ([] & st1 & [Hst Hmv]%recordMove_inv & [_ ->]%mret_Ok).
  exists nd. unfold ceil_int in Hin. repeat split; [done|lia|lia|done|done].
Qed.

(** The common tail of the two successful paths of [tryMove2]. *)
Lemma stage_aligned_inv ndi xj lx rx cl cb si yj sj st st' :
  ('(ok, xj) ← alignPos ndi xj lx rx;
   if negb ok then mret false
   else
     ok ← addToMoveList ndi cl cb si xj yj sj;
     if negb ok then mret false else mret true) st = Ok (true, st') →
  ∃ rw0 nd x,
    getRows (m_arch st) !! 0%nat = Some rw0
    ∧ m_network st !! ndi = Some nd
    ∧ onGrid rw0 x ∧ lx <= x ∧ x + getWidth nd <= rx
    ∧ addToMoveList ndi cl cb si x yj sj st = Ok (true, st').
Proof.
  intros ([ok x] & ? & (-> & rw0 & nd & Hrw0 & Hnd & Hgrid)%alignPos_inv & H)
    %bind_Ok.
  destruct ok; simpl in H; [|by apply mret_Ok in H as [[=] _]].
  apply bind_Ok in H as (ok & st1 & Hadd & H).
  destruct ok; simpl in H; apply mret_Ok in H as [[=] ->].
  destruct (Hgrid eq_refl) as (Hg & Hlo & Hhi).
  exists rw0, nd, x. done.
Qed.



(** * Original positions and displacement *)

(** A fold over [seq a n] that reads the state only and all of whose
    iterations complete. *)
Lemma foldM_seq_run {B : Type} (P : nat -> B -> Prop)
    (f : B -> nat -> M B) st n :
  ∀ a b,
    (∀ i b, (a ≤ i < a + n)%nat → P i b →
            ∃ b', f b i st = Ok (b', st) ∧ P (S i) b') →
    P a b →
    ∃ b', foldM f (seq a n) b st = Ok (b', st) ∧ P (a + n)%nat b'.
Proof.
  induction n as [|n IH]; intros a b Hstep Ha; simpl.
  - exists b. by rewrite Nat.add_0_r.
  - destruct (Hstep a b ltac:(lia) Ha) as (b1 & H1 & HP).
    destruct (IH (S a) b1) as (b' & H2 & HP'); [|done|].
    { intros i s Hi. apply Hstep. lia. }
    exists b'. rewrite (bind_run _ _ _ _ _ H1).
    split; [done|]. by replace (a + S n)%nat with (S a + n)%nat by lia.
Qed.

(** A fold over [seq a n] that reads the state only, when it completes. *)
Lemma foldM_seq_inv {B : Type} (P : nat -> B -> Prop)
    (f : B -> nat -> M B) st n :
  ∀ a b b' st',
    (∀ i b b' st', (a ≤ i < a + n)%nat → P i b → f b i st = Ok (b', st') →
                   st' = st ∧ P (S i) b') →
    P a b → foldM f (seq a n) b st = Ok (b', st') →
    st' = st ∧ P (a + n)%nat b'.
Proof.
  induction n as [|n IH]; intros a b b' st' Hstep Ha; simpl.
  - intros [-> ->]%mret_Ok. by rewrite Nat.add_0_r.
  - intros (b1 & st1 & H1 & H2)%bind_Ok.
    destruct (Hstep a b b1 st1 ltac:(lia) Ha H1) as [-> HP].
    replace (a + S n)%nat with (S a + n)%nat by lia.
    eapply IH; [|exact HP|exact H2].
    intros i s s' st2 Hi. apply Hstep. lia.
Qed.

Lemma insert_fmap_take {A : Type} (f : A -> Z) (nw : list A) (L : list Z)
    i nd :
  length L = length nw → nw !! i = Some nd →
  <[i := f nd]> ((f <$> take i nw) ++ drop i L)
  = (f <$> take (S i) nw) ++ drop (S i) L.
Proof.
  intros Hlen Hnd. pose proof (lookup_lt_Some _ _ _ Hnd) as Hi.
  assert (length (f <$> take i nw) = i) as Hl
    by (rewrite length_fmap, length_take; lia).
  rewrite insert_app_r_alt by lia. rewrite Hl, Nat.sub_diag.
  destruct (lookup_lt_is_Some_2 L i) as [y Hy]; [lia|].
  rewrite (drop_S _ _ _ Hy). simpl.
  rewrite (take_S_r _ _ _ Hnd), fmap_app, <- app_assoc. done.
Qed.

Lemma recordOriginalPositions_run o st :
  recordOriginalPositions o st
  = Ok (mkOrig (getLeft <$> m_network st) (getBottom <$> m_network st), st).
Proof.
  unfold recordOriginalPositions.
  rewrite (bind_run _ _ _ _ _ (gets_run _ _)).
  set (nw := m_network st). set (n := length nw).
  set (L0 := resize n 0 (m_origLeft o)).
  set (B0 := resize n 0 (m_origBottom o)).
  assert (length L0 = n) as HL by apply length_resize.
  assert (length B0 = n) as HB by apply length_resize.
  destruct (foldM_seq_run
              (fun i o' => o' = mkOrig ((getLeft <$> take i nw) ++ drop i L0)
                                       ((getBottom <$> take i nw) ++ drop i B0))
              (fun o i =>
                 nd ← node i;
                 ob ← deref (store_at (m_origBottom o) i (getBottom nd));
                 ol ← deref (store_at (m_origLeft o) i (getLeft nd));
                 mret (mkOrig ol ob))
              st n 0%nat (mkOrig L0 B0)) as (o' & Hrun & Ho').
  - intros i ? [_ Hi] ->.
    destruct (lookup_lt_is_Some_2 nw i) as [nd Hnd]; [done|].
    assert (i < length ((getBottom <$> take i nw) ++ drop i B0))%nat as H1
      by (rewrite length_app, length_fmap, length_take, length_drop; lia).
    assert (i < length ((getLeft <$> take i nw) ++ drop i L0))%nat as H2
      by (rewrite length_app, length_fmap, length_take, length_drop; lia).
    eexists. split.
    + rewrite (bind_run _ _ _ _ _ (node_run_Some _ _ _ Hnd)). simpl.
      rewrite (bind_run _ _ _ _ _ (deref_run _ _ _ (store_at_lt _ _ _ H1))).
      rewrite (bind_run _ _ _ _ _ (deref_run _ _ _ (store_at_lt _ _ _ H2))).
      reflexivity.
    + by rewrite !insert_fmap_take.
  - by rewrite !drop_0.
  - rewrite Hrun, Ho'. simpl.
    rewrite !drop_ge, !app_nil_r, !take_ge by lia. done.
Qed.

Lemma restoreOriginalPositions_run (nw : list Node) st2 :
  length (m_network st2) = length nw →
  restoreOriginalPositions (mkOrig (getLeft <$> nw) (getBottom <$> nw)) st2
  = Ok (tt, set_network (zip_with putBack (m_network st2) nw) st2).
Proof.
  intros Hlen. unfold restoreOriginalPositions.
  rewrite (bind_run _ _ _ _ _ (gets_run _ _)).
  set (nw2 := m_network st2) in *. set (n := length nw2).
  destruct (forM_seq_run
              (fun i s =>
                 s = set_network (zip_with putBack (take i nw2) (take i nw)
                                  ++ drop i nw2) st2)
              (fun i =>
                 b ← deref (m_origBottom
                              (mkOrig (getLeft <$> nw) (getBottom <$> nw)) !! i);
                 l ← deref (m_origLeft
                              (mkOrig (getLeft <$> nw) (getBottom <$> nw)) !! i);
                 nw ← gets m_network;
                 nw ← deref (alter_at (fun nd => setLeft l (setBottom b nd)) nw i);
                 modify (set_network nw))
              n 0%nat st2) as (st3 & Hrun & ->).
  - intros i ? [_ Hi] ->.
    destruct (lookup_lt_is_Some_2 nw i) as [nd Hnd]; [lia|].
    destruct (lookup_lt_is_Some_2 nw2 i) as [nd2 Hnd2]; [done|].
    assert (length (zip_with putBack (take i nw2) (take i nw)) = i) as Hl.
    { rewrite length_zip_with, !length_take. lia. }
    assert ((getBottom <$> nw) !! i = Some (getBottom nd)) as Hb
      by (by rewrite list_lookup_fmap, Hnd).
    assert ((getLeft <$> nw) !! i = Some (getLeft nd)) as Hx
      by (by rewrite list_lookup_fmap, Hnd).
    assert (i < length (zip_with putBack (take i nw2) (take i nw)
                        ++ drop i nw2))%nat as Hlt
      by (rewrite length_app, Hl, length_drop; lia).
    eexists. split.
    + cbn [m_origBottom m_origLeft].
      rewrite (bind_run _ _ _ _ _ (deref_run _ _ _ Hb)).
      rewrite (bind_run _ _ _ _ _ (deref_run _ _ _ Hx)).
      rewrite (bind_run _ _ _ _ _ (gets_run _ _)).
      rewrite (bind_run _ _ _ _ _ (deref_run _ _ _ (alter_at_lt _ _ _ Hlt))).
      reflexivity.
    + unfold set_network. simpl. f_equal.
      rewrite alter_app_r_alt by lia. rewrite Hl, Nat.sub_diag.
      rewrite (drop_S _ _ _ Hnd2). simpl.
      rewrite (take_S_r _ _ _ Hnd), (take_S_r _ _ _ Hnd2).
      rewrite zip_with_app by (rewrite !length_take; lia).
      by rewrite <- app_assoc.
  - rewrite drop_0. simpl. by destruct st2.
  - rewrite Hrun. do 2 f_equal. simpl.
    rewrite drop_ge, app_nil_r, !take_ge by lia. done.
Qed.

(** X15.  Restoring after recording is a round trip on the positions:
    [recordOriginalPositions] changes nothing in the manager and stores
    the left and bottom edge of every node; whatever happens to the
    nodes afterwards (as long as their number stays), a later
    [restoreOriginalPositions] completes, puts every node back at its
    recorded position, and touches nothing else: the nodes are again what
    they were if only positions had changed. *)
Theorem restore_after_record o st st2 :
  length (m_network st2) = length (m_network st) →
  ∃ o1 st3,
    recordOriginalPositions o st = Ok (o1, st)
    ∧ m_origLeft o1 = getLeft <$> m_network st
    ∧ m_origBottom o1 = getBottom <$> m_network st
    ∧ restoreOriginalPositions o1 st2 = Ok (tt, st3)
    ∧ st3 = set_network (zip_with putBack (m_network st2) (m_network st)) st2
    ∧ ((∀ i nd nd2, m_network st !! i = Some nd →
                    m_network st2 !! i = Some nd2 → putBack nd2 nd = nd) →
       m_network st3 = m_network st).
Proof.
  intros Hlen. eexists _, _.
  split; [apply recordOriginalPositions_run|]. split; [done|]. split; [done|].
  split; [by apply restoreOriginalPositions_run|]. split; [done|].
  intros Hsame. simpl. apply list_eq. intros i.
  rewrite lookup_zip_with.
  destruct (m_network st2 !! i) as [nd2|] eqn:H2;
    destruct (m_network st !! i) as [nd|] eqn:H1; simpl.
  - f_equal. by eapply Hsame.
  - apply lookup_lt_Some in H2. apply lookup_ge_None in H1. lia.
  - apply lookup_lt_Some in H1. apply lookup_ge_None in H2. lia.
  - done.
Qed.

(** The theorem at [demoSwap], recorded, and then with cell 1 moved to
    30 ([demoUnsorted]). *)
Lemma restore_after_record_witness :
  ∃ o1 st3,
    recordOriginalPositions (mkOrig [] []) demoSwap = Ok (o1, demoSwap)
    ∧ m_origLeft o1 = getLeft <$> m_network demoSwap
    ∧ m_origBottom o1 = getBottom <$> m_network demoSwap
    ∧ restoreOriginalPositions o1 demoUnsorted = Ok (tt, st3)
    ∧ st3 = set_network (zip_with putBack (m_network demoUnsorted)
                                   (m_network demoSwap)) demoUnsorted
    ∧ ((∀ i nd nd2, m_network demoSwap !! i = Some nd →
                    m_network demoUnsorted !! i = Some nd2 →
                    putBack nd2 nd = nd) →
       m_network st3 = m_network demoSwap).
Proof.
  apply (restore_after_record (mkOrig [] []) demoSwap demoUnsorted).
  reflexivity.
Defined.

(** X16.  [measureMaximumDisplacement] changes nothing.  The maxima it
    reports bound the displacement of every movable node in x, in y and
    in their sum, the largest sum is at most the sum of the two maxima,
    and its count of violations in x (in y) is zero exactly when no
    movable node lies further from its recorded position than the limit
    in x (in y). *)
Theorem measureMaximumDisplacement_bounds kinds o st d st' :
  measureMaximumDisplacement kinds o st = Ok (d, st') →
  st' = st
  ∧ (∀ i dx dy, displaced st kinds o i dx dy →
       dx <= maxX d ∧ dy <= maxY d ∧ dx + dy <= maxL1 d)
  ∧ 0 <= maxL1 d <= maxX d + maxY d
  ∧ (violatedX d = 0 ↔
     ∀ i dx dy, displaced st kinds o i dx dy → dx <= m_maxDispX st)
  ∧ (violatedY d = 0 ↔
     ∀ i dx dy, displaced st kinds o i dx dy → dy <= m_maxDispY st).
Proof.
  unfold measureMaximumDisplacement.
  rewrite (bind_run _ _ _ st st) by reflexivity.
  set (n := length (m_network st)) in *.
  pose (P := fun (i : nat) (d : Displacement) =>
    (∀ j dx dy, (j < i)%nat → displaced st kinds o j dx dy →
       dx <= maxX d ∧ dy <= maxY d ∧ dx + dy <= maxL1 d)
    ∧ 0 <= maxL1 d <= maxX d + maxY d ∧ 0 <= maxX d ∧ 0 <= maxY d
    ∧ 0 <= violatedX d ∧ 0 <= violatedY d
    ∧ (violatedX d = 0 ↔
       ∀ j dx dy, (j < i)%nat → displaced st kinds o j dx dy →
                  dx <= m_maxDispX st)
    ∧ (violatedY d = 0 ↔
       ∀ j dx dy, (j < i)%nat → displaced st kinds o j dx dy →
                  dy <= m_maxDispY st)).
  intros Hrun. apply (foldM_seq_inv P) in Hrun as [-> HP].
  - destruct HP as (Hb & HL & _ & _ & _ & _ & HX & HY).
    assert (∀ j dx dy, displaced st kinds o j dx dy → (j < 0 + n)%nat) as Hlt.
    { intros j dx dy (nd & _ & _ & _ & Hnd & _). simpl.
      by eapply lookup_lt_Some. }
    split; [done|]. split; [intros; eapply Hb; eauto|]. split; [done|].
    split; [rewrite HX|rewrite HY]; split; intros H; intros; eapply H; eauto.
  - intros i d0 d1 st1 [_ Hi] HP H.
    destruct HP as (Hb & HL & HmX & HmY & HvX & HvY & HX & HY).
    apply bind_Ok in H as (nd & ? & [Hnd ->]%node_Ok & H).
    apply bind_Ok in H as (k & ? & [Hk ->]%deref_Ok & H).
    destruct (isTerminal k || isTerminalNI k || isFixed k) eqn:Hkind.
    + apply mret_Ok in H as [-> ->]. split; [done|].
      assert (∀ j dx dy, (j < S i)%nat → displaced st kinds o j dx dy →
                (j < i)%nat) as Hlt.
      { intros j dx dy Hj (nd' & k' & ol & ob & Hnd' & Hk' & Hm & _).
        destruct (decide (j = i)) as [->|]; [|lia]. congruence. }
      split; [intros; eapply Hb; eauto|].
      repeat (split; [done|]).
      split; [rewrite HX|rewrite HY]; (split; intros H j dx dy Hj Hd;
        [apply (H j dx dy); [by eapply Hlt|done]
        |apply (H j dx dy); [lia|done]]).
    + apply bind_Ok in H as (ob & ? & [Hob ->]%deref_Ok & H).
      apply bind_Ok in H as (ol & ? & [Hol ->]%deref_Ok & H).
      apply mret_Ok in H as [-> ->]. split; [done|].
      set (dx := Z.abs (getLeft nd - ol)). set (dy := Z.abs (getBottom nd - ob)).
      assert (∀ j dx' dy', (j < S i)%nat → displaced st kinds o j dx' dy' →
                (j < i)%nat ∨ (j = i ∧ dx' = dx ∧ dy' = dy)) as Hcase.
      { intros j dx' dy' Hj (nd' & k' & ol' & ob' & Hnd' & Hk' & Hm & Hol'
                              & Hob' & -> & ->).
        destruct (decide (j = i)) as [->|]; [right|left; lia].
        assert (nd' = nd) as -> by congruence.
        assert (ol' = ol) as -> by congruence.
        assert (ob' = ob) as -> by congruence. done. }
      assert (displaced st kinds o i dx dy) as Hi'.
      { exists nd, k, ol, ob. done. }
      unfold P, ceil_int. cbn [maxL1 maxX maxY violatedX violatedY].
      split; [|split; [lia|split; [lia|split; [lia|split; [|split; [|split]]]]]].
      * intros j dx' dy' Hj Hd.
        destruct (Hcase _ _ _ Hj Hd) as [Hlt|(-> & -> & ->)]; [|lia].
        specialize (Hb _ _ _ Hlt Hd). lia.
      * destruct (decide _); lia.
      * destruct (decide _); lia.
      * destruct (decide (dx > _)) as [Hgt|Hle]; split.
        -- lia.
        -- intros H. specialize (H i dx dy ltac:(lia) Hi'). lia.
        -- intros H0 j dx' dy' Hj Hd.
           destruct (Hcase _ _ _ Hj Hd) as [Hlt|(-> & -> & ->)]; [|lia].
           by eapply HX.
        -- intros H. apply HX. intros j dx' dy' Hj. apply H. lia.
      * destruct (decide (dy > _)) as [Hgt|Hle]; split.
        -- lia.
        -- intros H. specialize (H i dx dy ltac:(lia) Hi'). lia.
        -- intros H0 j dx' dy' Hj Hd.
           destruct (Hcase _ _ _ Hj Hd) as [Hlt|(-> & -> & ->)]; [|lia].
           by eapply HY.
        -- intros H. apply HY. intros j dx' dy' Hj. apply H. lia.
  - unfold P. simpl. repeat split; try lia; intros; lia.
Qed.

(** The theorem at [demoUnsorted], where cell 1 has moved by 10 in x. *)
Lemma measureMaximumDisplacement_bounds_witness :
  demoUnsorted = demoUnsorted
  ∧ (∀ i dx dy, displaced demoUnsorted demoKinds demoOrig i dx dy →
       dx <= 10 ∧ dy <= 0 ∧ dx + dy <= 10)
  ∧ 0 <= 10 <= 10 + 0
  ∧ (0 = 0 ↔
     ∀ i dx dy, displaced demoUnsorted demoKinds demoOrig i dx dy →
                dx <= m_maxDispX demoUnsorted)
  ∧ (0 = 0 ↔
     ∀ i dx dy, displaced demoUnsorted demoKinds demoOrig i dx dy →
                dy <= m_maxDispY demoUnsorted).
Proof.
  apply (measureMaximumDisplacement_bounds demoKinds demoOrig demoUnsorted
           (mkDisp 10 10 0 0 0) demoUnsorted).
  vm_compute. reflexivity.
Defined.

Lemma measure_zero kinds (nw : list Node) st :
  m_network st = nw → length kinds = length nw →
  0 <= m_maxDispX st → 0 <= m_maxDispY st →
  measureMaximumDisplacement kinds
    (mkOrig (getLeft <$> nw) (getBottom <$> nw)) st
  = Ok (mkDisp 0 0 0 0 0, st).
Proof.
  intros Hnw Hk HX HY. unfold measureMaximumDisplacement.
  rewrite (bind_run _ _ _ st st) by reflexivity.
  match goal with |- foldM ?f _ _ _ = _ =>
    destruct (foldM_seq_run (fun _ d => d = mkDisp 0 0 0 0 0) f st
                (length (m_network st)) 0%nat (mkDisp 0 0 0 0 0))
      as (d & Hrun & ->); [|done|exact Hrun]
  end.
  intros i ? [_ Hi] ->. exists (mkDisp 0 0 0 0 0). split; [|done].
  destruct (lookup_lt_is_Some_2 (m_network st) i) as [nd Hnd]; [done|].
  destruct (lookup_lt_is_Some_2 kinds i) as [k Hkind]; [rewrite Hk, <- Hnw; lia|].
  rewrite (bind_run _ _ _ _ _ (node_run_Some _ _ _ Hnd)).
  rewrite (bind_run _ _ _ _ _ (deref_run _ _ _ Hkind)).
  destruct (_ || _); [done|].
  assert ((getBottom <$> nw) !! i = Some (getBottom nd)) as Hb
    by (by rewrite list_lookup_fmap, <- Hnw, Hnd).
  assert ((getLeft <$> nw) !! i = Some (getLeft nd)) as Hx
    by (by rewrite list_lookup_fmap, <- Hnw, Hnd).
  cbn [m_origBottom m_origLeft].
  rewrite (bind_run _ _ _ _ _ (deref_run _ _ _ Hb)).
  rewrite (bind_run _ _ _ _ _ (deref_run _ _ _ Hx)).
  unfold ceil_int. cbn [maxL1 maxX maxY violatedX violatedY].
  rewrite !Z.sub_diag. simpl Z.abs.
  rewrite !decide_False by lia. done.
Qed.

Lemma putBack_positions (nw : list Node) : ∀ nw2,
  length nw2 = length nw →
  getLeft <$> zip_with putBack nw2 nw = getLeft <$> nw
  ∧ getBottom <$> zip_with putBack nw2 nw = getBottom <$> nw.
Proof.
  induction nw as [|nd nw IH]; intros [|nd2 nw2] Hl; try done.
  simpl in Hl. csimpl. destruct (IH nw2 ltac:(lia)) as [-> ->]. done.
Qed.

(** X17.  Recording, restoring and measuring compose: whatever has
    happened to the positions of the nodes since they were recorded,
    once [restoreOriginalPositions] has run the displacement that
    [measureMaximumDisplacement] reports is zero in every respect (with
    limits that are not negative no node violates them). *)
Theorem displacement_is_zero_after_restore kinds o st st2 :
  length (m_network st2) = length (m_network st) →
  length kinds = length (m_network st) →
  0 <= m_maxDispX st2 → 0 <= m_maxDispY st2 →
  ∃ o1 st3,
    recordOriginalPositions o st = Ok (o1, st)
    ∧ restoreOriginalPositions o1 st2 = Ok (tt, st3)
    ∧ measureMaximumDisplacement kinds o1 st3 = Ok (mkDisp 0 0 0 0 0, st3).
Proof.
  intros Hlen Hk HX HY. eexists _, _.
  split; [apply recordOriginalPositions_run|].
  split; [by apply restoreOriginalPositions_run|].
  set (nw3 := zip_with putBack (m_network st2) (m_network st)).
  destruct (putBack_positions _ _ Hlen) as [HL HB]. fold nw3 in HL, HB.
  rewrite <- HL, <- HB.
  apply measure_zero; [done| |done..].
  unfold nw3. rewrite length_zip_with. lia.
Qed.

(** The theorem at [demoSwap], recorded, and [demoUnsorted]. *)
Lemma displacement_is_zero_after_restore_witness :
  ∃ o1 st3,
    recordOriginalPositions (mkOrig [] []) demoSwap = Ok (o1, demoSwap)
    ∧ restoreOriginalPositions o1 demoUnsorted = Ok (tt, st3)
    ∧ measureMaximumDisplacement demoKinds o1 st3
      = Ok (mkDisp 0 0 0 0 0, st3).
Proof.
  apply (displacement_is_zero_after_restore demoKinds (mkOrig [] [])
           demoSwap demoUnsorted); vm_compute; first [reflexivity|discriminate].
Defined.

(** * The checks on the segments *)

Lemma adjacentOverlaps_cons a b rest :
  adjacentOverlaps (a :: b :: rest)
  = (if decide (getRight a > getLeft b) then 1 else 0)
    + adjacentOverlaps (b :: rest).
Proof. reflexivity. Qed.

Lemma adjacentOverlaps_nonneg temp : 0 <= adjacentOverlaps temp.
Proof.
  induction temp as [|a [|b rest] IH]; [done..|].
  rewrite adjacentOverlaps_cons. destruct (decide _); lia.
Qed.

Lemma outOfRange_nonneg xmin xmax temp : 0 <= outOfRange xmin xmax temp.
Proof.
  induction temp as [|a temp IH]; simpl; [lia|]. destruct (decide _); lia.
Qed.

Lemma outOfRange_zero sg temp :
  outOfRange (getMinX sg) (getMaxX sg) temp = 0 ↔ Forall (inside sg) temp.
Proof.
  induction temp as [|a temp IH]; simpl; [by split|].
  pose proof (outOfRange_nonneg (getMinX sg) (getMaxX sg) temp).
  rewrite Forall_cons, <- IH. unfold inside.
  destruct (decide _); split; intros; lia.
Qed.

Lemma disjoint_sym a b : disjoint a b → disjoint b a.
Proof. unfold disjoint. tauto. Qed.

Lemma apart_Permutation l l' : l ≡ₚ l' → apart l → apart l'.
Proof.
  induction 1 as [|x l l' Hp IH|x y l|l1 l2 l3 _ IH1 _ IH2]; simpl.
  - done.
  - intros [Hx Hl]. split; [by rewrite <- Hp|by apply IH].
  - intros [[Hyx Hy]%Forall_cons [Hx Hl]]. split; [|done].
    constructor; [by apply disjoint_sym|done].
  - intros. by apply IH2, IH1.
Qed.

(** Neighbours that do not overlap, in a row of cells of non-negative
    width, make the whole row pairwise disjoint. *)
Lemma adjacent_apart temp :
  Forall (fun nd => 0 <= getWidth nd) temp →
  adjacentOverlaps temp = 0 → apart temp.
Proof.
  intros Hw.
  enough (adjacentOverlaps temp = 0 →
          apart temp
          ∧ ∀ a rest, temp = a :: rest →
              Forall (fun x => getRight a <= getLeft x) rest) by tauto.
  induction Hw as [|a temp Ha Hw IH]; [done|].
  destruct temp as [|b rest].
  { intros _. split; [done|]. intros ?? [= <- <-]. constructor. }
  rewrite adjacentOverlaps_cons.
  pose proof (adjacentOverlaps_nonneg (b :: rest)).
  destruct (decide (getRight a > getLeft b)) as [|Hab]; [lia|]. intros Hz.
  destruct (IH ltac:(lia)) as [Hap Hchain].
  specialize (Hchain b rest eq_refl).
  apply Forall_cons in Hw as [Hb _].
  assert (Forall (fun x => getRight a <= getLeft x) (b :: rest)) as Hall.
  { constructor; [lia|]. eapply Forall_impl; [exact Hchain|].
    simpl. unfold getRight in *. intros; lia. }
  split.
  - split; [|done]. eapply Forall_impl; [exact Hall|].
    intros x Hx. by left.
  - by intros ?? [= <- <-].
Qed.

(** In a row sorted by center, pairwise disjoint cells of non-negative
    width have no overlapping neighbours. *)
Lemma apart_adjacent temp :
  Forall (fun nd => 0 <= getWidth nd) temp →
  nondecreasing (center2 <$> temp) →
  apart temp → adjacentOverlaps temp = 0.
Proof.
  induction 1 as [|a temp Ha Hw IH]; [done|].
  destruct temp as [|b rest]; [done|].
  intros [Hc Hs] [Hd Hap]. rewrite adjacentOverlaps_cons.
  rewrite IH by done.
  apply Forall_cons in Hc as [Hab _]. apply Forall_cons in Hd as [Hd _].
  apply Forall_cons in Hw as [Hb _].
  rewrite decide_False; [done|].
  unfold disjoint, center2, getRight in *. lia.
Qed.

Lemma mapM_nodes_width (nw : list Node) cells nodes :
  Forall (fun nd => 0 <= getWidth nd) nw →
  mapM (fun c => nw !! c) cells = Some nodes →
  Forall (fun nd => 0 <= getWidth nd) nodes.
Proof.
  intros Hw Hm%mapM_Some. rewrite Forall_forall in Hw.
  induction Hm as [|c nd cells nodes Hc _ IH]; constructor; [|done].
  apply Hw. by eapply list_elem_of_lookup_2.
Qed.

(** X18.  [checkOverlapInSegments] changes nothing and, on cells of
    non-negative width, is exact, whatever order the sort gives to cells
    of equal center: it returns zero exactly when in every segment the
    cells of the list are pairwise disjoint and every one of them lies
    within the segment. *)
Theorem checkOverlapInSegments_zero_iff sort st n st' :
  (∀ l, sort l ≡ₚ l) →
  (∀ l, nondecreasing (center2 <$> sort l)) →
  Forall (fun nd => 0 <= getWidth nd) (m_network st) →
  checkOverlapInSegments sort st = Ok (n, st') →
  st' = st ∧ 0 <= n
  ∧ (n = 0 ↔
     ∀ s sg nodes, nodesOf st s sg nodes →
                   apart nodes ∧ Forall (inside sg) nodes).
Proof.
  intros Hperm Hsorted Hwidth. unfold checkOverlapInSegments.
  rewrite (bind_run _ _ _ st st) by reflexivity.
  pose (P := fun (i : nat) (err : Z) =>
    0 <= err
    ∧ (err = 0 ↔
       ∀ s sg nodes, (s < i)%nat → nodesOf st s sg nodes →
                     apart nodes ∧ Forall (inside sg) nodes)).
  intros Hrun. apply (foldM_seq_inv P) in Hrun as [-> [Hn Hiff]].
  - split; [done|]. split; [done|]. rewrite Hiff.
    split; intros H s sg nodes.
    + intros Hs. apply (H s sg nodes); [|done].
      destruct Hs as (_ & Hsg & _). simpl. by eapply lookup_lt_Some.
    + intros _. apply (H s sg nodes).
  - intros i err err' st1 [_ Hi] [Hn Hiff] H.
    apply bind_Ok in H as (sg & ? & [Hsg ->]%deref_Ok & H).
    apply bind_Ok in H as (cells & ? & [Hcells ->]%deref_Ok & H).
    apply bind_Ok in H as (nodes & ? & [Hnodes ->]%deref_Ok & H).
    apply mret_Ok in H as [-> ->]. split; [done|].
    pose proof (adjacentOverlaps_nonneg (sort nodes)) as Ha.
    pose proof (outOfRange_nonneg (getMinX sg) (getMaxX sg) (sort nodes)) as Ho.
    pose proof (mapM_nodes_width _ _ _ Hwidth Hnodes) as Hw.
    assert (Forall (fun nd => 0 <= getWidth nd) (sort nodes)) as Hw'
      by (by rewrite Hperm).
    assert (adjacentOverlaps (sort nodes) = 0
            ∧ outOfRange (getMinX sg) (getMaxX sg) (sort nodes) = 0
            ↔ apart nodes ∧ Forall (inside sg) nodes) as Hthis.
    { assert (Forall (inside sg) (sort nodes) ↔ Forall (inside sg) nodes)
        as Hin by (by rewrite (Hperm nodes)).
      rewrite outOfRange_zero. split; intros [H1 H2]; (split; [|by apply Hin]).
      - eapply apart_Permutation; [apply Hperm|]. by apply adjacent_apart.
      - apply apart_adjacent; [done|apply Hsorted|].
        eapply apart_Permutation; [symmetry; apply Hperm|done]. }
    split; [lia|]. split.
    + intros Hz s sg' nodes' Hs Hof.
      destruct (decide (s = i)) as [->|Hne].
      * destruct Hof as (cells' & Hsg' & Hcells' & Hnodes').
        assert (sg' = sg) as -> by congruence.
        assert (cells' = cells) as -> by congruence.
        assert (nodes' = nodes) as -> by congruence.
        apply Hthis. lia.
      * apply (proj1 Hiff ltac:(lia) s sg' nodes'); [lia|done].
    + intros Hall.
      assert (err = 0) as ->.
      { apply Hiff. intros s sg' nodes' Hs. apply (Hall s sg' nodes'). lia. }
      destruct (proj2 Hthis) as [-> ->]; [|done].
      apply (Hall i sg nodes); [lia|]. by exists cells.
  - unfold P. split; [done|]. split; [|done]. intros _ s sg nodes Hs. lia.
Qed.

Lemma insertNodeX_perm nd l : insertNodeX nd l ≡ₚ nd :: l.
Proof.
  induction l as [|y l IH]; simpl; [done|].
  case_decide; [|done]. rewrite IH. apply Permutation_swap.
Qed.

Lemma sortNodesX_perm l : sortNodesX l ≡ₚ l.
Proof.
  induction l as [|x l IH]; [done|].
  change (sortNodesX (x :: l)) with (insertNodeX x (sortNodesX l)).
  by rewrite insertNodeX_perm, IH.
Qed.

Lemma insertNodeX_sorted nd l :
  nondecreasing (center2 <$> l) →
  nondecreasing (center2 <$> insertNodeX nd l).
Proof.
  induction l as [|y l IH]; simpl; [done|]. intros [Hy Hl].
  case_decide as Hlt; csimpl.
  - split; [|by apply IH].
    rewrite (insertNodeX_perm nd l). csimpl. constructor; [lia|done].
  - split; [|done]. constructor; [lia|].
    eapply Forall_impl; [exact Hy|]. simpl. intros; lia.
Qed.

Lemma sortNodesX_sorted l : nondecreasing (center2 <$> sortNodesX l).
Proof.
  induction l as [|x l IH]; [done|].
  change (sortNodesX (x :: l)) with (insertNodeX x (sortNodesX l)).
  by apply insertNodeX_sorted.
Qed.

(** The theorem at [demoSwap], whose two cells lie apart in segment 0. *)
Lemma checkOverlapInSegments_zero_iff_witness :
  demoSwap = demoSwap ∧ 0 <= 0
  ∧ (0 = 0 ↔
     ∀ s sg nodes, nodesOf demoSwap s sg nodes →
                   apart nodes ∧ Forall (inside sg) nodes).
Proof.
  apply (checkOverlapInSegments_zero_iff sortNodesX demoSwap 0 demoSwap
           sortNodesX_perm sortNodesX_sorted).
  - apply Forall_forall. intros nd Hnd. vm_compute in Hnd.
    repeat (apply elem_of_cons in Hnd as [->|Hnd]; [simpl; lia|]).
    by apply elem_of_nil in Hnd.
  - vm_compute. reflexivity.
Defined.

Lemma wrongRegion_nonneg regId temp : 0 <= wrongRegion regId temp.
Proof.
  induction temp as [|a temp IH]; simpl; [lia|]. destruct (decide _); lia.
Qed.

Lemma wrongRegion_zero regId temp :
  wrongRegion regId temp = 0 ↔ Forall (fun nd => getRegionId nd = regId) temp.
Proof.
  induction temp as [|a temp IH]; simpl; [by split|].
  pose proof (wrongRegion_nonneg regId temp).
  rewrite Forall_cons, <- IH.
  destruct (decide _); split; intros; lia.
Qed.

(** X19.  [checkRegionAssignment] changes nothing and returns zero
    exactly when every cell listed in a segment is of the region of that
    segment, in whatever order the sort leaves the cells. *)
Theorem checkRegionAssignment_zero_iff sort st n st' :
  (∀ l, sort l ≡ₚ l) →
  checkRegionAssignment sort st = Ok (n, st') →
  st' = st ∧ 0 <= n
  ∧ (n = 0 ↔
     ∀ s sg nodes, nodesOf st s sg nodes →
                   Forall (fun nd => getRegionId nd = getRegId sg) nodes).
Proof.
  intros Hperm. unfold checkRegionAssignment.
  rewrite (bind_run _ _ _ st st) by reflexivity.
  pose (P := fun (i : nat) (err : Z) =>
    0 <= err
    ∧ (err = 0 ↔
       ∀ s sg nodes, (s < i)%nat → nodesOf st s sg nodes →
                     Forall (fun nd => getRegionId nd = getRegId sg) nodes)).
  intros Hrun. apply (foldM_seq_inv P) in Hrun as [-> [Hn Hiff]].
  - split; [done|]. split; [done|]. rewrite Hiff.
    split; intros H s sg nodes.
    + intros Hs. apply (H s sg nodes); [|done].
      destruct Hs as (_ & Hsg & _). simpl. by eapply lookup_lt_Some.
    + intros _. apply (H s sg nodes).
  - intros i err err' st1 [_ Hi] [Hn Hiff] H.
    apply bind_Ok in H as (sg & ? & [Hsg ->]%deref_Ok & H).
    apply bind_Ok in H as (cells & ? & [Hcells ->]%deref_Ok & H).
    apply bind_Ok in H as (nodes & ? & [Hnodes ->]%deref_Ok & H).
    apply mret_Ok in H as [-> ->]. split; [done|].
    pose proof (wrongRegion_nonneg (getRegId sg) (sort nodes)) as Ha.
    assert (wrongRegion (getRegId sg) (sort nodes) = 0
            ↔ Forall (fun nd => getRegionId nd = getRegId sg) nodes) as Hthis.
    { rewrite wrongRegion_zero. by rewrite (Hperm nodes). }
    split; [lia|]. split.
    + intros Hz s sg' nodes' Hs Hof.
      destruct (decide (s = i)) as [->|Hne].
      * destruct Hof as (cells' & Hsg' & Hcells' & Hnodes').
        assert (sg' = sg) as -> by congruence.
        assert (cells' = cells) as -> by congruence.
        assert (nodes' = nodes) as -> by congruence.
        apply Hthis. lia.
      * apply (proj1 Hiff ltac:(lia) s sg' nodes'); [lia|done].
    + intros Hall.
      assert (err = 0) as ->.
      { apply Hiff. intros s sg' nodes' Hs. apply (Hall s sg' nodes'). lia. }
      rewrite (proj2 Hthis); [done|].
      apply (Hall i sg nodes); [lia|]. by exists cells.
  - unfold P. split; [done|]. split; [|done]. intros _ s sg nodes Hs. lia.
Qed.

(** The theorem at [demoSwap]: all cells and segments are of region 0. *)
Lemma checkRegionAssignment_zero_iff_witness :
  demoSwap = demoSwap ∧ 0 <= 0
  ∧ (0 = 0 ↔
     ∀ s sg nodes, nodesOf demoSwap s sg nodes →
                   Forall (fun nd => getRegionId nd = getRegId sg) nodes).
Proof.
  apply (checkRegionAssignment_zero_iff sortNodesX demoSwap 0 demoSwap
           sortNodesX_perm).
  vm_compute. reflexivity.
Defined.

(** * Pushing the neighbours aside *)

(** The position that the loop of [shiftRightHelper] gives to a cell
    that has to start at [xj] or later. *)
Lemma align_right o sp xj :
  0 < sp →
  let sx := o + Z.quot (xj - o) sp * sp in
  let x := if decide (xj ≠ sx) then
             let sx := if decide (xj > sx) then sx + sp else sx in
             if decide (xj ≠ sx) then
               if decide (xj < sx) then sx else xj
             else xj
           else xj in
  (∃ k, x = o + k * sp) ∧ xj <= x < xj + sp.
Proof.
  intros Hsp. pose proof (quot_close (xj - o) sp Hsp) as Hq.
  set (q := Z.quot (xj - o) sp) in *. simpl.
  destruct (decide (xj ≠ o + q * sp)) as [Hne|Heq].
  - destruct (decide (xj > o + q * sp)).
    + rewrite decide_True by lia. rewrite decide_True by lia.
      split; [exists (q + 1); lia|lia].
    + rewrite decide_True by lia. rewrite decide_True by lia.
      split; [by exists q|lia].
  - apply dec_stable in Heq. split; [by exists q|lia].
Qed.

Lemma shiftRightLoop_inv rest : ∀ ndi ndr xj sj st st' sg rw,
  0 <= sj → m_segments st !! Z.to_nat sj = Some sg →
  0 < row_getSiteSpacing rw →
  shiftRightLoop ndi ndr xj sj (row_getLeft rw) (row_getSiteSpacing rw)
                 rest st = Ok (true, st') →
  onlyMoves st st'
  ∧ ∃ mvs, staged st' = staged st ++ (Some <$> mvs)
           ∧ pushedRight (m_arch st) (m_network st) sj sg rw ndi xj
                         (ndr :: rest) mvs.
Proof.
  induction rest as [|nxt rest IH]; intros ndi ndr xj sj st st' sg rw
    H0 Hsg Hsp H.
  all: cbn [shiftRightLoop] in H.
  all: rewrite (bind_run _ _ _ st st) in H by reflexivity.
  all: apply bind_Ok in H as (i & ? & [Hi ->]%node_Ok & H).
  all: apply bind_Ok in H as (r & ? & [Hr ->]%node_Ok & H).
  all: destruct (decide (getLeft r < _)) as [Hlt|Hge];
    [|apply mret_Ok in H as [_ ->]; split; [reflexivity|];
      exists []; split; [by rewrite app_nil_r|];
      exists i, r; repeat split; try done; lia].
  all: destruct (decide (_ ≠ 1)) as [|Hone];
    [by apply mret_Ok in H as [[=] _]|].
  all: apply dec_stable in Hone.
  all: apply bind_Ok in H as (site & ? & (_ & -> & ->)%int_div_Ok & H).
  all: match type of H with
       | context [addToMoveList _ _ _ _ ?x _ _] => set (x' := x) in *
       end.
  all: assert ((∃ k, x' = row_getLeft rw + k * row_getSiteSpacing rw)
               ∧ xj + getWidth i + getCellSpacing (m_arch st) (Some i) (Some r)
                 <= x'
                 < xj + getWidth i
                   + getCellSpacing (m_arch st) (Some i) (Some r)
                   + row_getSiteSpacing rw) as [[k Hk] Hx]
         by exact (align_right (row_getLeft rw) (row_getSiteSpacing rw)
                     (xj + getWidth i
                      + getCellSpacing (m_arch st) (Some i) (Some r)) Hsp).
  all: apply bind_Ok in H as (ok & st1 & Hadd & H).
  all: destruct ok; simpl in H; [|by apply mret_Ok in H as [[=] _]].
  all: apply addToMoveList_true in Hadd as (_ & _ & _ & _ & Hst1 & Hom).
  all: assert (m_arch st1 = m_arch st ∧ m_network st1 = m_network st
               ∧ m_segments st1 = m_segments st) as (Ha1 & Hn1 & Hs1)
         by (unfold onlyMoves in Hom; rewrite Hom; done).
  all: apply bind_Ok in H as (sg' & ? & (_ & Hsg' & ->)%segment_Ok & H).
  all: rewrite Hs1, Hsg in Hsg'; injection Hsg' as <-.
  all: destruct (decide (_ > getMaxX sg)) as [|Hfit];
    [by apply mret_Ok in H as [[=] _]|].
  - apply mret_Ok in H as [_ ->]. split; [done|].
    eexists [_]. split; [exact Hst1|].
    exists i, r. cbn [mv_node mv_curLeft mv_curBottom mv_newBottom mv_curSeg
                      mv_newSeg mv_newLeft].
    repeat split; try done; try lia.
    rewrite Hk. apply onGrid_point.
  - apply IH with (sg := sg) in H as (Hom2 & mvs & Hst' & Hpushed);
      [|done|by rewrite Hs1|done].
    split; [by etrans|].
    eexists (_ :: mvs). split.
    { rewrite Hst', Hst1, <- app_assoc. reflexivity. }
    rewrite Ha1, Hn1 in Hpushed.
    exists i, r. cbn [mv_node mv_curLeft mv_curBottom mv_newBottom mv_curSeg
                      mv_newSeg mv_newLeft].
    repeat split; try done; try lia.
    rewrite Hk. apply onGrid_point.
Qed.

Lemma shiftRightHelper_inv ndi xj sj ndr st st' :
  (∀ rw, rw ∈ getRows (m_arch st) → 0 < row_getSiteSpacing rw) →
  shiftRightHelper ndi xj sj ndr st = Ok (true, st') →
  onlyMoves st st'
  ∧ ∃ cells ix sg rw mvs,
      m_cellsInSeg st !! Z.to_nat sj = Some cells
      ∧ cells !! ix = Some ndr
      ∧ m_segments st !! Z.to_nat sj = Some sg
      ∧ getRows (m_arch st) !! Z.to_nat (getRowId sg) = Some rw
      ∧ staged st' = staged st ++ (Some <$> mvs)
      ∧ pushedRight (m_arch st) (m_network st) sj sg rw ndi xj
                    (drop ix cells) mvs.
Proof.
  intros Hsp. unfold shiftRightHelper.
  intros (cells & ? & (H0 & Hcells & ->)%cellsInSeg_Ok & H)%bind_Ok.
  unfold find_index in H.
  destruct (list_find _ cells) as [[ix y]|] eqn:Hfind; simpl in H;
    [|by apply mret_Ok in H as [[=] _]].
  apply list_find_eq_Some in Hfind as [-> Hix].
  apply bind_Ok in H as (sg & ? & (_ & Hsg & ->)%segment_Ok & H).
  apply bind_Ok in H as (rw & ? & (_ & Hrw & ->)%row_Ok & H).
  assert (0 < row_getSiteSpacing rw) as Hpos
    by (apply Hsp; by eapply list_elem_of_lookup_2).
  apply (shiftRightLoop_inv _ _ _ _ _ _ _ sg rw H0 Hsg Hpos) in H
    as (Hom & mvs & Hst & Hpushed).
  split; [done|]. exists cells, ix, sg, rw, mvs.
  rewrite (drop_S _ _ _ Hix). done.
Qed.

(** X20.  When [shiftRightHelper] returns [true] (sites of positive
    pitch), it has changed the staged list only, and the moves it has
    added push a run of consecutive cells of the segment, starting at
    [ndr], to the right: every one is a cell of one row that stays in the
    segment and at its bottom, goes strictly right to the first site
    boundary that clears its left neighbour and the spacing, and still
    ends within the segment; the first cell that is not moved is clear
    of its left neighbour already. *)
Theorem shiftRightHelper_pushes_right ndi xj sj ndr st st' :
  (∀ rw, rw ∈ getRows (m_arch st) → 0 < row_getSiteSpacing rw) →
  shiftRightHelper ndi xj sj ndr st = Ok (true, st') →
  onlyMoves st st'
  ∧ ∃ cells ix sg rw mvs,
      m_cellsInSeg st !! Z.to_nat sj = Some cells
      ∧ cells !! ix = Some ndr
      ∧ m_segments st !! Z.to_nat sj = Some sg
      ∧ getRows (m_arch st) !! Z.to_nat (getRowId sg) = Some rw
      ∧ staged st' = staged st ++ (Some <$> mvs)
      ∧ pushedRight (m_arch st) (m_network st) sj sg rw ndi xj
                    (drop ix cells) mvs.
Proof. apply shiftRightHelper_inv. Qed.

(** The theorem at [demoSwap]: cell 1 placed at 25 pushes cell 2 from 25
    to 26. *)
Lemma shiftRightHelper_pushes_right_witness :
  onlyMoves demoSwap (exec (shiftRightHelper 1 25 0 2) demoSwap)
  ∧ ∃ cells ix sg rw mvs,
      m_cellsInSeg demoSwap !! Z.to_nat 0 = Some cells
      ∧ cells !! ix = Some 2%nat
      ∧ m_segments demoSwap !! Z.to_nat 0 = Some sg
      ∧ getRows (m_arch demoSwap) !! Z.to_nat (getRowId sg) = Some rw
      ∧ staged (exec (shiftRightHelper 1 25 0 2) demoSwap)
        = staged demoSwap ++ (Some <$> mvs)
      ∧ pushedRight (m_arch demoSwap) (m_network demoSwap) 0 sg rw 1 25
                    (drop ix cells) mvs.
Proof.
  apply (shiftRightHelper_pushes_right 1 25 0 2 demoSwap).
  - intros rw Hrw. vm_compute in Hrw.
    apply list_elem_of_singleton in Hrw as ->. reflexivity.
  - vm_compute. reflexivity.
Defined.

(** The position that the loop of [shiftLeftHelper] gives to a cell that
    has to start at [xj] or before: a site boundary when [xj] is not left
    of the origin of the row, and [xj] itself otherwise. *)
Lemma align_left o sp xj :
  0 < sp →
  let sx := o + Z.quot (xj - o) sp * sp in
  let x := if decide (xj ≠ sx) then
             if decide (xj > sx) then sx else xj
           else xj in
  xj - sp < x <= xj ∧ (o <= x → ∃ k, x = o + k * sp).
Proof.
  intros Hsp. pose proof (quot_close (xj - o) sp Hsp) as Hq.
  pose proof (Z.quot_rem' (xj - o) sp) as Hqr.
  set (q := Z.quot (xj - o) sp) in *. simpl.
  destruct (decide (xj ≠ o + q * sp)) as [Hne|Heq].
  - destruct (decide (xj > o + q * sp)) as [Hgt|Hle].
    + split; [lia|]. intros _. by exists q.
    + split; [lia|]. intros Ho. exfalso.
      pose proof (Z.rem_nonneg (xj - o) sp ltac:(lia) ltac:(lia)). lia.
  - apply dec_stable in Heq. split; [lia|]. intros _. by exists q.
Qed.

Lemma shiftLeftLoop_inv rest : ∀ ndi ndl xj sj st st' sg rw,
  0 <= sj → m_segments st !! Z.to_nat sj = Some sg →
  0 < row_getSiteSpacing rw →
  row_getLeft rw <= getMinX sg →
  (∀ nd, 0 <= getCellSpacing (m_arch st) None (Some nd)) →
  shiftLeftLoop ndi ndl xj sj (row_getLeft rw) (row_getSiteSpacing rw)
                rest st = Ok (true, st') →
  onlyMoves st st'
  ∧ ∃ mvs, staged st' = staged st ++ (Some <$> mvs)
           ∧ pushedLeft (m_arch st) (m_network st) sj sg rw ndi xj
                        (ndl :: rest) mvs.
Proof.
  induction rest as [|nxt rest IH]; intros ndi ndl xj sj st st' sg rw
    H0 Hsg Hsp Hrow Hspace H.
  all: cbn [shiftLeftLoop] in H.
  all: rewrite (bind_run _ _ _ st st) in H by reflexivity.
  all: apply bind_Ok in H as (i & ? & [Hi ->]%node_Ok & H).
  all: apply bind_Ok in H as (l & ? & [Hl ->]%node_Ok & H).
  all: destruct (decide (getRight l + _ > _)) as [Hlt|Hge];
    [|apply mret_Ok in H as [_ ->]; split; [reflexivity|];
      exists []; split; [by rewrite app_nil_r|];
      exists i, l; repeat split; try done; lia].
  all: destruct (decide (_ ≠ 1)) as [|Hone];
    [by apply mret_Ok in H as [[=] _]|].
  all: apply dec_stable in Hone.
  all: apply bind_Ok in H as (site & ? & (_ & -> & ->)%int_div_Ok & H).
  all: match type of H with
       | context [addToMoveList _ _ _ _ ?x _ _] => set (x' := x) in *
       end.
  all: assert (xj - getCellSpacing (m_arch st) (Some l) (Some i) - getWidth l
                 - row_getSiteSpacing rw < x'
               <= xj - getCellSpacing (m_arch st) (Some l) (Some i)
                  - getWidth l
               ∧ (row_getLeft rw <= x' →
                  ∃ k, x' = row_getLeft rw + k * row_getSiteSpacing rw))
         as [Hx Hgrid]
         by exact (align_left (row_getLeft rw) (row_getSiteSpacing rw)
                     (xj - getCellSpacing (m_arch st) (Some l) (Some i)
                      - getWidth l) Hsp).
  all: apply bind_Ok in H as (ok & st1 & Hadd & H).
  all: destruct ok; simpl in H; [|by apply mret_Ok in H as [[=] _]].
  all: apply addToMoveList_true in Hadd as (_ & _ & _ & _ & Hst1 & Hom).
  all: assert (m_arch st1 = m_arch st ∧ m_network st1 = m_network st
               ∧ m_segments st1 = m_segments st) as (Ha1 & Hn1 & Hs1)
         by (unfold onlyMoves in Hom; rewrite Hom; done).
  all: apply bind_Ok in H as (sg' & ? & (_ & Hsg' & ->)%segment_Ok & H).
  all: rewrite Hs1, Hsg in Hsg'; injection Hsg' as <-.
  all: destruct (decide (_ < getMinX sg)) as [|Hfit];
    [by apply mret_Ok in H as [[=] _]|].
  all: pose proof (Hspace l) as Hsl.
  all: destruct Hgrid as [k Hk]; [lia|].
  all: pose proof Hlt as Hlt'; unfold getRight in Hlt'.
  - apply mret_Ok in H as [_ ->]. split; [done|].
    eexists [_]. split; [exact Hst1|].
    exists i, l. cbn [mv_node mv_curLeft mv_curBottom mv_newBottom mv_curSeg
                      mv_newSeg mv_newLeft].
    repeat split; try done; try lia.
    rewrite Hk. apply onGrid_point.
  - apply IH with (sg := sg) in H as (Hom2 & mvs & Hst' & Hpushed);
      [|done|by rewrite Hs1|done|done|by rewrite Ha1].
    split; [by etrans|].
    eexists (_ :: mvs). split.
    { rewrite Hst', Hst1, <- app_assoc. reflexivity. }
    rewrite Ha1, Hn1 in Hpushed.
    exists i, l. cbn [mv_node mv_curLeft mv_curBottom mv_newBottom mv_curSeg
                      mv_newSeg mv_newLeft].
    repeat split; try done; try lia.
    rewrite Hk. apply onGrid_point.
Qed.

Lemma shiftLeftHelper_inv ndi xj sj ndl st st' :
  (∀ rw, rw ∈ getRows (m_arch st) → 0 < row_getSiteSpacing rw) →
  (∀ sg rw, m_segments st !! Z.to_nat sj = Some sg →
            getRows (m_arch st) !! Z.to_nat (getRowId sg) = Some rw →
            row_getLeft rw <= getMinX sg) →
  (∀ nd, 0 <= getCellSpacing (m_arch st) None (Some nd)) →
  shiftLeftHelper ndi xj sj ndl st = Ok (true, st') →
  onlyMoves st st'
  ∧ ∃ cells ix sg rw mvs,
      m_cellsInSeg st !! Z.to_nat sj = Some cells
      ∧ cells !! ix = Some ndl
      ∧ m_segments st !! Z.to_nat sj = Some sg
      ∧ getRows (m_arch st) !! Z.to_nat (getRowId sg) = Some rw
      ∧ staged st' = staged st ++ (Some <$> mvs)
      ∧ pushedLeft (m_arch st) (m_network st) sj sg rw ndi xj
                   (reverse (take (S ix) cells)) mvs.
Proof.
  intros Hsp Hrow Hspace. unfold shiftLeftHelper.
  intros (cells & ? & (H0 & Hcells & ->)%cellsInSeg_Ok & H)%bind_Ok.
  unfold find_index in H.
  destruct (list_find _ cells) as [[ix y]|] eqn:Hfind; simpl in H;
    [|by apply mret_Ok in H as [[=] _]].
  apply list_find_eq_Some in Hfind as [-> Hix].
  apply bind_Ok in H as (sg & ? & (_ & Hsg & ->)%segment_Ok & H).
  apply bind_Ok in H as (rw & ? & (_ & Hrw & ->)%row_Ok & H).
  assert (0 < row_getSiteSpacing rw) as Hpos
    by (apply Hsp; by eapply list_elem_of_lookup_2).
  apply (shiftLeftLoop_inv _ _ _ _ _ _ _ sg rw H0 Hsg Hpos
           (Hrow _ _ Hsg Hrw) Hspace) in H
    as (Hom & mvs & Hst & Hpushed).
  split; [done|]. exists cells, ix, sg, rw, mvs.
  rewrite (take_S_r _ _ _ Hix), reverse_app. done.
Qed.

(** X21.  When [shiftLeftHelper] returns [true] (sites of positive pitch,
    a segment that begins at or after the origin of its row, spacings at
    the left end that are not negative), it has changed the staged list
    only, and the moves it has added push a run of consecutive cells of
    the segment, from [ndl] leftwards, to the left: every one is a cell
    of one row that stays in the segment and at its bottom, goes strictly
    left to the last site boundary from which it clears its right
    neighbour and the spacing, and still begins within the segment; the
    first cell that is not moved is clear of its right neighbour
    already. *)
Theorem shiftLeftHelper_pushes_left ndi xj sj ndl st st' :
  (∀ rw, rw ∈ getRows (m_arch st) → 0 < row_getSiteSpacing rw) →
  (∀ sg rw, m_segments st !! Z.to_nat sj = Some sg →
            getRows (m_arch st) !! Z.to_nat (getRowId sg) = Some rw →
            row_getLeft rw <= getMinX sg) →
  (∀ nd, 0 <= getCellSpacing (m_arch st) None (Some nd)) →
  shiftLeftHelper ndi xj sj ndl st = Ok (true, st') →
  onlyMoves st st'
  ∧ ∃ cells ix sg rw mvs,
      m_cellsInSeg st !! Z.to_nat sj = Some cells
      ∧ cells !! ix = Some ndl
      ∧ m_segments st !! Z.to_nat sj = Some sg
      ∧ getRows (m_arch st) !! Z.to_nat (getRowId sg) = Some rw
      ∧ staged st' = staged st ++ (Some <$> mvs)
      ∧ pushedLeft (m_arch st) (m_network st) sj sg rw ndi xj
                   (reverse (take (S ix) cells)) mvs.
Proof. apply shiftLeftHelper_inv. Qed.

(** The theorem at [demoSwap]: cell 2 placed at 20 pushes cell 1 from 20
    to 19. *)
Lemma shiftLeftHelper_pushes_left_witness :
  onlyMoves demoSwap (exec (shiftLeftHelper 2 20 0 1) demoSwap)
  ∧ ∃ cells ix sg rw mvs,
      m_cellsInSeg demoSwap !! Z.to_nat 0 = Some cells
      ∧ cells !! ix = Some 1%nat
      ∧ m_segments demoSwap !! Z.to_nat 0 = Some sg
      ∧ getRows (m_arch demoSwap) !! Z.to_nat (getRowId sg) = Some rw
      ∧ staged (exec (shiftLeftHelper 2 20 0 1) demoSwap)
        = staged demoSwap ++ (Some <$> mvs)
      ∧ pushedLeft (m_arch demoSwap) (m_network demoSwap) 0 sg rw 2 20
                   (reverse (take (S ix) cells)) mvs.
Proof.
  apply (shiftLeftHelper_pushes_left 2 20 0 1 demoSwap).
  - intros rw Hrw. vm_compute in Hrw.
    apply list_elem_of_singleton in Hrw as ->. reflexivity.
  - intros sg rw Hsg Hrw. vm_compute in Hsg. injection Hsg as <-.
    vm_compute in Hrw. injection Hrw as <-. vm_compute. discriminate.
  - intros nd. vm_compute. discriminate.
  - vm_compute. reflexivity.
Defined.

(** * A move to another segment *)

Lemma stage_then_inv ndi xj lx rx cl cb si yj sj (k : Z -> M bool) st st' :
  ('(ok, xj) ← alignPos ndi xj lx rx;
   if negb ok then mret false
   else
     ok ← addToMoveList ndi cl cb si xj yj sj;
     if negb ok then mret false else k xj) st = Ok (true, st') →
  ∃ rw0 nd x st1,
    getRows (m_arch st) !! 0%nat = Some rw0
    ∧ m_network st !! ndi = Some nd
    ∧ onGrid rw0 x ∧ lx <= x ∧ x + getWidth nd <= rx
    ∧ addToMoveList ndi cl cb si x yj sj st = Ok (true, st1)
    ∧ k x st1 = Ok (true, st').
Proof.
  intros ([ok x] & ? & (-> & rw0 & nd & Hrw0 & Hnd & Hgrid)%alignPos_inv & H)
    %bind_Ok.
  destruct ok; simpl in H; [|by apply mret_Ok in H as [[=] _]].
  apply bind_Ok in H as (ok & st1 & Hadd & H).
  destruct ok; simpl in H; [|by apply mret_Ok in H as [[=] _]].
  destruct (Hgrid eq_refl) as (Hg & Hlo & Hhi).
  exists rw0, nd, x, st1. done.
Qed.

(** A right neighbour that is clear of the cell is not pushed. *)
Lemma shiftRightHelper_clear ndi x sj ndr st b st' i r :
  m_network st !! ndi = Some i → m_network st !! ndr = Some r →
  x + getWidth i + getCellSpacing (m_arch st) (Some i) (Some r) <= getLeft r →
  shiftRightHelper ndi x sj ndr st = Ok (b, st') → st' = st.
Proof.
  intros Hi Hr Hclear. unfold shiftRightHelper.
  intros (cells & ? & (H0 & Hcells & ->)%cellsInSeg_Ok & H)%bind_Ok.
  destruct (find_index ndr cells) as [ix|];
    [|by apply mret_Ok in H as [_ ->]].
  apply bind_Ok in H as (sg & ? & (_ & Hsg & ->)%segment_Ok & H).
  apply bind_Ok in H as (rw & ? & (_ & Hrw & ->)%row_Ok & H).
  assert (∀ rest, shiftRightLoop ndi ndr x sj (row_getLeft rw)
                    (row_getSiteSpacing rw) rest st = Ok (true, st)) as Hloop.
  { intros rest. destruct rest; cbn [shiftRightLoop].
    all: rewrite (bind_run _ _ _ st st) by reflexivity.
    all: rewrite (bind_run _ _ _ _ _ (node_run_Some _ _ _ Hi)).
    all: rewrite (bind_run _ _ _ _ _ (node_run_Some _ _ _ Hr)).
    all: rewrite decide_False by lia; reflexivity. }
  rewrite Hloop in H. by injection H as _ <-.
Qed.

(** A left neighbour that is clear of the cell is not pushed. *)
Lemma shiftLeftHelper_clear ndi x sj ndl st b st' i l :
  m_network st !! ndi = Some i → m_network st !! ndl = Some l →
  getRight l + getCellSpacing (m_arch st) (Some l) (Some i) <= x →
  shiftLeftHelper ndi x sj ndl st = Ok (b, st') → st' = st.
Proof.
  intros Hi Hl Hclear. unfold shiftLeftHelper.
  intros (cells & ? & (H0 & Hcells & ->)%cellsInSeg_Ok & H)%bind_Ok.
  destruct (find_index ndl cells) as [ix|];
    [|by apply mret_Ok in H as [_ ->]].
  apply bind_Ok in H as (sg & ? & (_ & Hsg & ->)%segment_Ok & H).
  apply bind_Ok in H as (rw & ? & (_ & Hrw & ->)%row_Ok & H).
  assert (∀ rest, shiftLeftLoop ndi ndl x sj (row_getLeft rw)
                    (row_getSiteSpacing rw) rest st = Ok (true, st)) as Hloop.
  { intros rest. destruct rest; cbn [shiftLeftLoop].
    all: rewrite (bind_run _ _ _ st st) by reflexivity.
    all: rewrite (bind_run _ _ _ _ _ (node_run_Some _ _ _ Hi)).
    all: rewrite (bind_run _ _ _ _ _ (node_run_Some _ _ _ Hl)).
    all: rewrite decide_False by lia; reflexivity. }
  rewrite Hloop in H. by injection H as _ <-.
Qed.

Lemma optNode_inv p st o st' :
  optNode p st = Ok (o, st') →
  st' = st
  ∧ match p with
    | Some i => ∃ nd, m_network st !! i = Some nd ∧ o = Some nd
    | None => o = None
    end.
Proof.
  destruct p as [i|]; simpl.
  - intros (nd & ? & [Hnd ->]%node_Ok & [-> ->]%mret_Ok)%bind_Ok.
    split; [done|]. by exists nd.
  - by intros [-> ->]%mret_Ok.
Qed.

Lemma lower_bound_le keys x : (lower_bound keys x ≤ length keys)%nat.
Proof.
  induction keys as [|k keys IH]; simpl; [lia|]. case_decide; simpl; lia.
Qed.

(** The neighbours that [tryMove1] picks around a position of the list. *)
Lemma neighbours_inv cells xj st ndl ndr st' :
  (if decide (length cells ≠ 0%nat) then
     it ← lower_bound_x cells xj;
     if decide (it = length cells) then mret (last cells, None)
     else
       mret (if decide (it ≠ 0%nat) then cells !! (it - 1)%nat else None,
             cells !! it)
   else mret (None, None)) st = Ok ((ndl, ndr), st') →
  st' = st
  ∧ ∃ it, (it ≤ length cells)%nat
      ∧ ndl = (if decide (it ≠ 0%nat) then cells !! (it - 1)%nat else None)
      ∧ ndr = cells !! it.
Proof.
  destruct (decide (length cells ≠ 0%nat)) as [Hne|Heq].
  - intros (it & ? & Hlb & H)%bind_Ok.
    unfold lower_bound_x in Hlb.
    apply bind_Ok in Hlb as (keys & ? & [Hkeys ->]%centersOf_Ok & Hlb).
    apply mret_Ok in Hlb as [-> ->].
    pose proof (lower_bound_le keys (2 * xj)) as Hle.
    apply length_mapM in Hkeys. rewrite <- Hkeys in Hle.
    destruct (decide (_ = length cells)) as [Hend|Hmid];
      apply mret_Ok in H as [[= -> ->] ->]; (split; [done|]);
      eexists; (split; [exact Hle|]).
    + rewrite Hend. rewrite decide_True by done.
      split; [|symmetry; by apply lookup_ge_None].
      rewrite last_lookup. f_equal. lia.
    + done.
  - intros [[= -> ->] ->]%mret_Ok. split; [done|]. exists 0%nat.
    apply dec_stable in Heq. apply nil_length_inv in Heq as ->. done.
Qed.



(** * A swap of two cells *)

(** A step that only reads leaves the state as it is. *)
Ltac read_only H :=
  match type of H with
  | ?m ?s = Ok (_, ?s') =>
    let Hro := fresh "Hro" in
    assert (readonly m) as Hro by preserves_auto;
    pose proof (Hro _ _ _ H); subst s'; clear Hro
  end.

(** The common tail of the successful paths of [trySwap1]. *)
Lemma stage_pair_inv ndi cli cbi si xj nbi sj ndj clj cbj xi nbj st st' :
  (ok ← addToMoveList ndi cli cbi si xj nbi sj;
   if negb ok then mret false
   else
     ok ← addToMoveList ndj clj cbj sj xi nbj si;
     if negb ok then mret false else mret true) st = Ok (true, st') →
  ∃ i j,
    m_network st !! ndi = Some i ∧ m_network st !! ndj = Some j
    ∧ Z.abs (xj - getOrigLeft i) <= m_maxDispX st
    ∧ Z.abs (nbi - getOrigBottom i) <= m_maxDispY st
    ∧ Z.abs (xi - getOrigLeft j) <= m_maxDispX st
    ∧ Z.abs (nbj - getOrigBottom j) <= m_maxDispY st
    ∧ staged st' = staged st ++ [Some (mkMove ndi cli cbi [si] xj nbi [sj]);
                                 Some (mkMove ndj clj cbj [sj] xi nbj [si])]
    ∧ onlyMoves st st'.
Proof.
  intros (ok & st1 & Hi & H)%bind_Ok.
  destruct ok; simpl in H; [|by apply mret_Ok in H as [[=] _]].
  apply bind_Ok in H as (ok & st2 & Hj & H).
  destruct ok; simpl in H; apply mret_Ok in H as [[=] ->].
  apply addToMoveList_true in Hi as (i & Hi & HiX & HiY & Hs1 & Hom1).
  apply addToMoveList_true in Hj as (j & Hj & HjX & HjY & Hs2 & Hom2).
  assert (m_network st1 = m_network st ∧ m_maxDispX st1 = m_maxDispX st
          ∧ m_maxDispY st1 = m_maxDispY st) as (Hn & HX & HY)
    by (unfold onlyMoves in Hom1; rewrite Hom1; done).
  rewrite Hn in Hj. rewrite HX in HjX. rewrite HY in HjY.
  exists i, j. repeat match goal with |- _ ∧ _ => split end; try done.
  - rewrite Hs2, Hs1, <- app_assoc. done.
  - by etrans.
Qed.

(** The partner that [trySwap1] picks is a cell of the target segment. *)
Lemma partner_inv cellsJ xj st pj st' :
  (if decide (length cellsJ ≠ 0%nat) then
     it_j ← lower_bound_x cellsJ xj;
     if decide (it_j = length cellsJ) then mret (last cellsJ)
     else mret (cellsJ !! it_j)
   else mret None) st = Ok (pj, st') →
  st' = st ∧ ∀ ndj, pj = Some ndj → ndj ∈ cellsJ.
Proof.
  intros H. split.
  { read_only H. done. }
  destruct (decide (length cellsJ ≠ 0%nat)).
  - apply bind_Ok in H as (it & ? & _ & H).
    destruct (decide (it = length cellsJ));
      apply mret_Ok in H as [-> _]; intros ndj Hj.
    + rewrite last_lookup in Hj. by eapply list_elem_of_lookup_2.
    + by eapply list_elem_of_lookup_2.
  - apply mret_Ok in H as [-> _]. by intros ndj.
Qed.

(** X23.  When [trySwap1] returns [true] it has staged exactly two moves
    that exchange two different cells of the height of one row: the cell
    itself goes to the segment and the bottom of its partner, a cell of
    the target segment, and the partner to the segment and the bottom of
    the cell.  Both moves respect the displacement limits, and nothing
    but the staged list has changed. *)
Theorem trySwap1_stages_an_exchange ndi xi yi si xj yj sj st st' :
  trySwap1 ndi xi yi si xj yj sj st = Ok (true, st') →
  ∃ ndj i j cellsJ x_i x_j,
    m_cellsInSeg st !! Z.to_nat sj = Some cellsJ
    ∧ ndj ∈ cellsJ ∧ ndj ≠ ndi
    ∧ m_network st !! ndi = Some i ∧ m_network st !! ndj = Some j
    ∧ getCellHeightInRows (m_arch st) i = 1
    ∧ getCellHeightInRows (m_arch st) j = 1
    ∧ staged st'
      = [Some (mkMove ndi (getLeft i) (getBottom i) [si]
                      x_j (getBottom j) [sj]);
         Some (mkMove ndj (getLeft j) (getBottom j) [sj]
                      x_i (getBottom i) [si])]
    ∧ Z.abs (x_j - getOrigLeft i) <= m_maxDispX st
    ∧ Z.abs (getBottom j - getOrigBottom i) <= m_maxDispY st
    ∧ Z.abs (x_i - getOrigLeft j) <= m_maxDispX st
    ∧ Z.abs (getBottom i - getOrigBottom j) <= m_maxDispY st
    ∧ onlyMoves st st'.
Proof.
  unfold trySwap1.
  intros ([] & st0 & Hclr & H)%bind_Ok.
  destruct (clearMoveList_run st) as (st0' & Hclr' & Hom & Hstaged & _).
  assert (st0' = st0) as -> by congruence. clear Hclr'.
  assert (m_arch st0 = m_arch st ∧ m_network st0 = m_network st
          ∧ m_maxDispX st0 = m_maxDispX st
          ∧ m_maxDispY st0 = m_maxDispY st
          ∧ m_cellsInSeg st0 = m_cellsInSeg st)
    as (Harch & Hnw & HdX & HdY & Hcis).
  { unfold clearMoveList, modify in Hclr. injection Hclr as <-. done. }
  rewrite (bind_run _ _ _ st0 st0) in H by reflexivity.
  apply bind_Ok in H as (cellsJ & ? & (_ & HcellsJ & ->)%cellsInSeg_Ok & H).
  apply bind_Ok in H as (pj & ? & [-> Hpj]%partner_inv & H).
  destruct pj as [ndj|]; [|by apply mret_Ok in H as [[=] _]].
  specialize (Hpj ndj eq_refl).
  destruct (decide (ndj = ndi)) as [|Hdiff];
    [by apply mret_Ok in H as [[=] _]|].
  apply bind_Ok in H as (i & ? & [Hi ->]%node_Ok & H).
  apply bind_Ok in H as (j & ? & [Hj ->]%node_Ok & H).
  destruct (decide (_ ∨ _)) as [|Hone];
    [by apply mret_Ok in H as [[=] _]|].
  assert (getCellHeightInRows (m_arch st0) i = 1) as Hone_i.
  { apply dec_stable. intros Hne. apply Hone. by left. }
  assert (getCellHeightInRows (m_arch st0) j = 1) as Hone_j.
  { apply dec_stable. intros Hne. apply Hone. by right. }
  apply bind_Ok in H as (cellsI & ? & (_ & HcellsI & ->)%cellsInSeg_Ok & H).
  assert (∃ x_i x_j,
    (ok ← addToMoveList ndi (getLeft i) (getBottom i) si x_j (getBottom j) sj;
     if negb ok then mret false
     else
       ok ← addToMoveList ndj (getLeft j) (getBottom j) sj
                          x_i (getBottom i) si;
       if negb ok then mret false else mret true) st0 = Ok (true, st'))
    as (x_i & x_j & Htail).
  { destruct (negb _).
    - apply bind_Ok in H as (next & st1 & Hx & H). read_only Hx.
      apply bind_Ok in H as (prev & st1 & Hx' & H). read_only Hx'.
      apply bind_Ok in H as (segI & st1 & Hx'' & H). read_only Hx''.
      destruct (gapAround _ _ _ _ _) as [lx rx].
      destruct (decide (_ > _)); [by apply mret_Ok in H as [[=] _]|].
      apply bind_Ok in H as ([ok x_i] & st1 & Hal & H). read_only Hal.
      destruct ok; simpl in H; [|by apply mret_Ok in H as [[=] _]].
      clear Hx Hx' Hx'' Hal.
      apply bind_Ok in H as (next' & st1 & Hx & H). read_only Hx.
      apply bind_Ok in H as (prev' & st1 & Hx' & H). read_only Hx'.
      apply bind_Ok in H as (segJ & st1 & Hx'' & H). read_only Hx''.
      destruct (decide (_ > _)); [by apply mret_Ok in H as [[=] _]|].
      apply bind_Ok in H as ([ok x_j] & st1 & Hal & H). read_only Hal.
      destruct ok; simpl in H; [|by apply mret_Ok in H as [[=] _]].
      by exists x_i, x_j.
    - apply bind_Ok in H as ([[ok x_i] x_j] & st1 & Hpos & H).
      read_only Hpos.
      destruct ok; simpl in H; [|by apply mret_Ok in H as [[=] _]].
      by exists x_i, x_j. }
  apply stage_pair_inv in Htail
    as (i' & j' & Hi' & Hj' & HiX & HiY & HjX & HjY & Hst' & Hom').
  assert (i' = i) as -> by congruence.
  assert (j' = j) as -> by congruence.
  rewrite Hstaged in Hst'. rewrite Harch, Hnw, HdX, HdY, Hcis in *.
  exists ndj, i, j, cellsJ, x_i, x_j.
  repeat match goal with |- _ ∧ _ => split end; try done.
  by etrans.
Qed.

(** The theorem at [demoPlaced]: cell 1 of the segment [[0,40)] and
    cell 2 of the segment [[60,100)] change places. *)
Lemma trySwap1_stages_an_exchange_witness :
  ∃ ndj i j cellsJ x_i x_j,
    m_cellsInSeg demoPlaced !! Z.to_nat 1 = Some cellsJ
    ∧ ndj ∈ cellsJ ∧ ndj ≠ 1%nat
    ∧ m_network demoPlaced !! 1%nat = Some i
    ∧ m_network demoPlaced !! ndj = Some j
    ∧ getCellHeightInRows (m_arch demoPlaced) i = 1
    ∧ getCellHeightInRows (m_arch demoPlaced) j = 1
    ∧ staged (exec (trySwap1 1 5 0 0 70 0 1) demoPlaced)
      = [Some (mkMove 1 (getLeft i) (getBottom i) [0]
                      x_j (getBottom j) [1]);
         Some (mkMove ndj (getLeft j) (getBottom j) [1]
                      x_i (getBottom i) [0])]
    ∧ Z.abs (x_j - getOrigLeft i) <= m_maxDispX demoPlaced
    ∧ Z.abs (getBottom j - getOrigBottom i) <= m_maxDispY demoPlaced
    ∧ Z.abs (x_i - getOrigLeft j) <= m_maxDispX demoPlaced
    ∧ Z.abs (getBottom i - getOrigBottom j) <= m_maxDispY demoPlaced
    ∧ onlyMoves demoPlaced (exec (trySwap1 1 5 0 0 70 0 1) demoPlaced).
Proof.
  apply (trySwap1_stages_an_exchange 1 5 0 0 70 0 1 demoPlaced).
  vm_compute. reflexivity.
Defined.
